(** * McSema: the instruction lifter and the module optimizer

    A shallow embedding of [mcsema/BC/Instruction.cpp] (the per-instruction
    lifter that substitutes cross-references for operands) and of the module
    optimizer (ISEL removal, lowering of the memory and barrier intrinsics,
    removal of the undefined-value intrinsics), with the properties the
    design document states about them. *)

From Stdlib Require Import ZArith List String Bool Arith Lia.
Import ListNotations.

Set Implicit Arguments.

(** ** Outcomes

    A run either completes, is stopped by a failed glog [CHECK], or leaves
    the defined behaviour of C++ (a null dereference, an operand index out
    of range, the use of a deleted instruction). *)

Inductive Outcome (A : Type) : Type :=
| Done (a : A)
| CheckFailed (msg : string)
| Undefined.

Arguments Done {A} a.
Arguments CheckFailed {A} msg.
Arguments Undefined {A}.

Definition obind {A B} (o : Outcome A) (k : A -> Outcome B) : Outcome B :=
  match o with
  | Done a => k a
  | CheckFailed msg => CheckFailed msg
  | Undefined => Undefined
  end.

(** ** LLVM types, as far as the two files look at them *)

Inductive Ty : Type :=
| VoidTy
| IntegerTy (bits : Z)
| FloatTy
| DoubleTy
| X86_FP80Ty
| PointerTy (pointee : Ty)
| StructTy (name : string).

Fixpoint Ty_eqb (a b : Ty) : bool :=
  match a, b with
  | VoidTy, VoidTy => true
  | IntegerTy n, IntegerTy m => Z.eqb n m
  | FloatTy, FloatTy => true
  | DoubleTy, DoubleTy => true
  | X86_FP80Ty, X86_FP80Ty => true
  | PointerTy p, PointerTy q => Ty_eqb p q
  | StructTy s, StructTy t => String.eqb s t
  | _, _ => false
  end.

Lemma Ty_eqb_spec (a b : Ty) : reflect (a = b) (Ty_eqb a b).
Proof.
  revert b; induction a; destruct b; simpl; try (constructor; congruence).
  - destruct (Z.eqb_spec bits bits0); constructor; congruence.
  - destruct (IHa b); constructor; congruence.
  - destruct (String.eqb_spec name name0); constructor; congruence.
Qed.

Lemma Ty_eqb_refl (a : Ty) : Ty_eqb a a = true.
Proof. destruct (Ty_eqb_spec a a); congruence. Qed.

Definition Ty_eq_dec (a b : Ty) : {a = b} + {a <> b}.
Proof. decide equality; [apply Z.eq_dec | apply string_dec]. Defined.

Definition isX86_FP80Ty (t : Ty) : bool :=
  match t with X86_FP80Ty => true | _ => false end.

(** ** Part I: the instruction lifter ([mcsema/BC/Instruction.cpp]) *)

Module Lifter.

Local Open Scope Z_scope.

(** The IR values the lifter hands back: a value made elsewhere (a constant,
    the result of an instruction already in the block), or one of the two
    instructions the lifter builds itself with an [IRBuilder]. *)
Inductive Value : Type :=
| Leaf (ty : Ty) (tag : Z)
| Trunc (v : Value) (ty : Ty)
| Add (lhs rhs : Value).

Fixpoint getType (v : Value) : Ty :=
  match v with
  | Leaf ty _ => ty
  | Trunc _ ty => ty
  | Add lhs _ => getType lhs
  end.

(** remill's operand descriptors, with the fields the lifter reads. *)
Record Register : Type := { name : string }.

Inductive AddressKind : Type :=
| kInvalid | kMemoryWrite | kMemoryRead | kAddressCalculation
| kControlFlowTarget.

Record Address : Type := {
  base_reg : Register;
  index_reg : Register;
  displacement : Z;          (* int64_t *)
  kind : AddressKind
}.

Definition IsControlFlowTarget (a : Address) : bool :=
  match kind a with kControlFlowTarget => true | _ => false end.

Record Operand : Type := {
  size : Z;                  (* operand size in bits *)
  imm_val : Z;               (* op.imm.val *)
  addr : Address             (* op.addr *)
}.

Inductive OperandType : Type :=
| kTypeRegister | kTypeImmediate | kTypeAddress.

Record Argument : Type := { arg_type : Ty }.

Record Instruction : Type := {
  pc : Z;
  operands : list (OperandType * Argument * Operand)
}.

Inductive LiftStatus : Type :=
| kLiftedInvalidInstruction
| kLiftedUnsupportedInstruction
| kLiftedInstruction.

(** Modelled from the spec: the declarations of [mcsema/CFG/CFG.h] are not
    among the sources. A cross-reference of the instruction being lifted has
    the referenced effective address and an address mask, which is 0 when
    there is none; these are the two fields [Instruction.cpp] reads. *)
Record NativeInstructionXref : Type := {
  target_ea : Z;             (* uint64_t *)
  mask : Z                   (* uint64_t, 0 when there is none *)
}.

(** Modelled from the spec: the CFG's instruction ([mcsema/CFG/CFG.h]), with
    its memory, immediate and displacement cross-references, each of which
    may be absent. *)
Record NativeInstruction : Type := {
  mem : option NativeInstructionXref;
  imm : option NativeInstructionXref;
  disp : option NativeInstructionXref
}.

(** Modelled from the spec: the translation context ([mcsema/BC/Lift.h]),
    of which the lifter reads the CFG's instruction, null when the
    instruction has none. *)
Record TranslationContext : Type := {
  cfg_inst : option NativeInstruction
}.

(** What the lifter writes to the log. *)
Inductive Severity : Type := INFO | WARNING | ERROR.

Inductive Message : Type :=
| UnusedMemoryReference (target : Z) (inst : Instruction)
| UnusedImmediateReference (target : Z) (inst : Instruction)
| UnusedDisplacementReference (target : Z) (inst : Instruction)
| MissedCrossReferenceCandidate (op : Operand) (inst : Instruction)
| IncorrectlyDecodedMemoryOperand (op : Operand) (inst_pc : Z).

Definition LogRecord : Type := (Severity * Message)%type.

(** Modelled from the spec: the members of [mcsema::InstructionLifter]
    ([mcsema/BC/Instruction.h]): the context, the three resolved references
    (null when absent) and their used flags; and the log next to them. *)
Record InstructionLifter : Type := {
  ctx : TranslationContext;
  mem_ref : option Value;
  imm_ref : option Value;
  disp_ref : option Value;
  mem_ref_used : bool;
  imm_ref_used : bool;
  disp_ref_used : bool;
  log : list LogRecord
}.

Definition set_refs (m i d : option Value) (L : InstructionLifter) :=
  {| ctx := ctx L; mem_ref := m; imm_ref := i; disp_ref := d;
     mem_ref_used := mem_ref_used L; imm_ref_used := imm_ref_used L;
     disp_ref_used := disp_ref_used L; log := log L |}.

Definition set_used (m i d : bool) (L : InstructionLifter) :=
  {| ctx := ctx L; mem_ref := mem_ref L; imm_ref := imm_ref L;
     disp_ref := disp_ref L;
     mem_ref_used := m; imm_ref_used := i; disp_ref_used := d;
     log := log L |}.

Definition set_mem_ref_used (L : InstructionLifter) :=
  set_used true (imm_ref_used L) (disp_ref_used L) L.

Definition set_imm_ref_used (L : InstructionLifter) :=
  set_used (mem_ref_used L) true (disp_ref_used L) L.

Definition set_disp_ref_used (L : InstructionLifter) :=
  set_used (mem_ref_used L) (imm_ref_used L) true L.

Definition set_imm_ref (v : Value) (L : InstructionLifter) :=
  set_refs (mem_ref L) (Some v) (disp_ref L) L.

Definition LOG (s : Severity) (msg : Message) (L : InstructionLifter) :=
  {| ctx := ctx L; mem_ref := mem_ref L; imm_ref := imm_ref L;
     disp_ref := disp_ref L;
     mem_ref_used := mem_ref_used L; imm_ref_used := imm_ref_used L;
     disp_ref_used := disp_ref_used L; log := log L ++ [(s, msg)] |}.

Definition set_displacement (d : Z) (op : Operand) : Operand :=
  {| size := size op; imm_val := imm_val op;
     addr := {| base_reg := base_reg (addr op);
                index_reg := index_reg (addr op);
                displacement := d;
                kind := kind (addr op) |} |}.

(** [static_cast<uint64_t>] of an [int64_t]. *)
Definition to_uint64 (z : Z) : Z := z mod 2 ^ 64.

Definition empty (s : string) : bool := String.eqb s EmptyString.

Section WithCollaborators.

(** The architecture's pointer width, the data layout, the cross-reference
    resolver of [mcsema/BC/Util.h], the CFG's segment lookup, and the operand
    lifters and instruction semantics of the remill base class. *)
Variable address_size : Z.
Variable getTypeSizeInBits : Ty -> Z.
Variable LiftXrefInCode : Z -> Value.
Variable TryGetSegment : Z -> bool.
Variable remill_LiftImmediateOperand : Instruction -> Argument -> Operand -> Value.
Variable remill_LiftAddressOperand : Instruction -> Argument -> Operand -> Value.
Variable remill_status : Instruction -> LiftStatus.

Definition GetAddress (cfg_xref : option NativeInstructionXref) : option Value :=
  match cfg_xref with
  | None => None
  | Some x =>
      if negb (mask x =? 0)
      then Some (LiftXrefInCode (Z.land (target_ea x) (mask x)))
      else Some (LiftXrefInCode (target_ea x))
  end.

Definition LiftImmediateOperand (inst : Instruction) (arg : Argument)
    (op : Operand) (L : InstructionLifter) : Outcome (Value * InstructionLifter) :=
  let arg_ty := arg_type arg in
  match imm_ref L, imm_ref_used L with
  | Some r, false =>
      let L := set_imm_ref_used L in
      let arg_size := getTypeSizeInBits arg_ty in
      if arg_size <=? address_size then
        if negb (Ty_eqb arg_ty (getType r)) && (arg_size <? address_size)
        then let r' := Trunc r arg_ty in Done (r', set_imm_ref r' L)
        else Done (r, L)
      else CheckFailed "Immediate operand is wider than the architecture pointer size"
  | _, _ =>
      let L :=
        if (size op =? address_size) && (4096 <=? imm_val op)
        then if TryGetSegment (imm_val op)
             then LOG WARNING (MissedCrossReferenceCandidate op inst) L
             else L
        else L in
      Done (remill_LiftImmediateOperand inst arg op, L)
  end.

(** The memory operand [op] is taken by reference: the operand comes back
    with the value, its displacement cleared on two of the paths. *)
Definition LiftAddressOperand (inst : Instruction) (arg : Argument)
    (op : Operand) (L : InstructionLifter)
    : Outcome (Value * Operand * InstructionLifter) :=
  let mem_ := addr op in
  let generic := Done (remill_LiftAddressOperand inst arg op, op, L) in
  if IsControlFlowTarget mem_ then generic
  else if (empty (name (base_reg mem_)) && empty (name (index_reg mem_)))
          || (String.eqb (name (base_reg mem_)) "PC"
              && empty (name (index_reg mem_)))
  then
    match mem_ref L, disp_ref L with
    | Some m, _ => Done (m, op, set_mem_ref_used L)
    | None, Some d => Done (d, op, set_disp_ref_used L)
    | None, None => generic
    end
  else if (empty (name (base_reg mem_)) && empty (name (index_reg mem_)))
          || (String.eqb (name (base_reg mem_)) "NEXT_PC"
              && empty (name (index_reg mem_)))
  then
    match mem_ref L, disp_ref L with
    | Some m, _ => Done (m, op, set_mem_ref_used L)
    | None, Some d => Done (d, op, set_disp_ref_used L)
    | None, None => generic
    end
  else
    match disp_ref L, mem_ref L with
    | Some d, _ =>
        let L := set_disp_ref_used L in
        let op := set_displacement 0 op in
        let dynamic_addr := remill_LiftAddressOperand inst arg op in
        Done (Add dynamic_addr d, op, L)
    | None, Some m =>
        match cfg_inst (ctx L) with
        | None => Undefined
        | Some ci =>
            match mem ci with
            | None => Undefined
            | Some x =>
                if to_uint64 (displacement (addr op)) =? target_ea x then
                  let L := LOG ERROR
                             (IncorrectlyDecodedMemoryOperand op (pc inst)) L in
                  let L := set_mem_ref_used L in
                  let op := set_displacement 0 op in
                  let dynamic_addr := remill_LiftAddressOperand inst arg op in
                  Done (Add dynamic_addr m, op, L)
                else generic
            end
        end
    | None, None => generic
    end.

(** The same function with its two structurally identical branches (base
    register [PC], base register [NEXT_PC]) written as one. *)
Definition LiftAddressOperand_merged (inst : Instruction) (arg : Argument)
    (op : Operand) (L : InstructionLifter)
    : Outcome (Value * Operand * InstructionLifter) :=
  let mem_ := addr op in
  let generic := Done (remill_LiftAddressOperand inst arg op, op, L) in
  if IsControlFlowTarget mem_ then generic
  else if (empty (name (base_reg mem_)) && empty (name (index_reg mem_)))
          || ((String.eqb (name (base_reg mem_)) "PC"
               || String.eqb (name (base_reg mem_)) "NEXT_PC")
              && empty (name (index_reg mem_)))
  then
    match mem_ref L, disp_ref L with
    | Some m, _ => Done (m, op, set_mem_ref_used L)
    | None, Some d => Done (d, op, set_disp_ref_used L)
    | None, None => generic
    end
  else
    match disp_ref L, mem_ref L with
    | Some d, _ =>
        let L := set_disp_ref_used L in
        let op := set_displacement 0 op in
        let dynamic_addr := remill_LiftAddressOperand inst arg op in
        Done (Add dynamic_addr d, op, L)
    | None, Some m =>
        match cfg_inst (ctx L) with
        | None => Undefined
        | Some ci =>
            match mem ci with
            | None => Undefined
            | Some x =>
                if to_uint64 (displacement (addr op)) =? target_ea x then
                  let L := LOG ERROR
                             (IncorrectlyDecodedMemoryOperand op (pc inst)) L in
                  let L := set_mem_ref_used L in
                  let op := set_displacement 0 op in
                  let dynamic_addr := remill_LiftAddressOperand inst arg op in
                  Done (Add dynamic_addr m, op, L)
                else generic
            end
        end
    | None, None => generic
    end.

(** The driver of the remill base class, [remill::InstructionLifter::
    LiftIntoBlock]: it asks the architecture whether it has semantics for the
    instruction, clears the operands when it has none, and lifts the operands
    in order through the virtual operand lifters, two of which are the
    overrides above. *)
Definition LiftOperand (inst : Instruction)
    (o : OperandType * Argument * Operand) (L : InstructionLifter)
    : Outcome ((OperandType * Argument * Operand) * InstructionLifter) :=
  match o with
  | (kTypeImmediate, arg, op) =>
      obind (LiftImmediateOperand inst arg op L)
            (fun r => Done (o, snd r))
  | (kTypeAddress, arg, op) =>
      obind (LiftAddressOperand inst arg op L)
            (fun r => Done ((kTypeAddress, arg, snd (fst r)), snd r))
  | (kTypeRegister, _, _) => Done (o, L)
  end.

Fixpoint LiftOperands (inst : Instruction)
    (ops : list (OperandType * Argument * Operand)) (L : InstructionLifter)
    : Outcome (list (OperandType * Argument * Operand) * InstructionLifter) :=
  match ops with
  | [] => Done ([], L)
  | o :: rest =>
      obind (LiftOperand inst o L) (fun r =>
      obind (LiftOperands inst rest (snd r)) (fun rs =>
      Done (fst r :: fst rs, snd rs)))
  end.

Definition remill_LiftIntoBlock (inst : Instruction) (L : InstructionLifter)
    : Outcome (LiftStatus * Instruction * InstructionLifter) :=
  let status := remill_status inst in
  match status with
  | kLiftedInstruction =>
      obind (LiftOperands inst (operands inst) L) (fun r =>
      Done (status, {| pc := pc inst; operands := fst r |}, snd r))
  | _ => Done (status, {| pc := pc inst; operands := [] |}, L)
  end.

(** [ctx.cfg_inst->mem->target_ea] and its two siblings. *)
Definition xref_target_ea
    (field : NativeInstruction -> option NativeInstructionXref)
    (L : InstructionLifter) : Outcome Z :=
  match cfg_inst (ctx L) with
  | None => Undefined
  | Some ci =>
      match field ci with
      | None => Undefined
      | Some x => Done (target_ea x)
      end
  end.

Definition report_unused (ref : option Value) (used : bool)
    (field : NativeInstruction -> option NativeInstructionXref)
    (msg : Z -> Message) (L : InstructionLifter) : Outcome InstructionLifter :=
  match ref with
  | Some _ =>
      if negb used
      then obind (xref_target_ea field L) (fun t => Done (LOG ERROR (msg t) L))
      else Done L
  | None => Done L
  end.

(** The head of [LiftIntoBlock]: the three references are fetched from the
    CFG's instruction, and none of them is used yet. *)
Definition fetch_references (L : InstructionLifter) : InstructionLifter :=
  let L :=
    match cfg_inst (ctx L) with
    | Some ci =>
        set_refs (GetAddress (mem ci)) (GetAddress (imm ci))
                 (GetAddress (disp ci)) L
    | None => set_refs None None None L
    end in
  set_used false false false L.

(** Lift a single instruction into a basic block. *)
Definition LiftIntoBlock (inst : Instruction) (L : InstructionLifter)
    : Outcome (LiftStatus * Instruction * InstructionLifter) :=
  let L := fetch_references L in
  obind (remill_LiftIntoBlock inst L) (fun r =>
    let status := fst (fst r) in
    let inst := snd (fst r) in
    let L := snd r in
    match status with
    | kLiftedInstruction =>
        obind (report_unused (mem_ref L) (mem_ref_used L) mem
                 (fun t => UnusedMemoryReference t inst) L) (fun L =>
        obind (report_unused (imm_ref L) (imm_ref_used L) imm
                 (fun t => UnusedImmediateReference t inst) L) (fun L =>
        obind (report_unused (disp_ref L) (disp_ref_used L) disp
                 (fun t => UnusedDisplacementReference t inst) L) (fun L =>
        Done (status, inst, L))))
    | _ => Done (status, inst, L)
    end).

End WithCollaborators.

End Lifter.

(** ** Part II: the module optimizer *)

Module Optimizer.

(** *** The IR

    Instructions are known by their identity (the pointer, in the source);
    an operand is the result of an instruction, a function argument or a
    constant; the uses of a value are read off the operands that mention it. *)

Inductive Constant : Type :=
| CFunction (name : string)
| CGlobalVariable (name : string)
| CUndef (ty : Ty)
| CInt (ty : Ty) (v : Z)
| CCast (c : Constant) (ty : Ty).

Inductive Value : Type :=
| VInst (id : nat)
| VArg (n : nat)
| VConst (c : Constant).

Inductive CastOp : Type :=
| Trunc | ZExt | SExt | FPTrunc | FPExt | FPToUI | FPToSI | UIToFP | SIToFP
| PtrToInt | IntToPtr | BitCast.

Inductive Opcode : Type :=
| Call | Load | Store | Cast (op : CastOp) | ICmp | FCmp | Ret
| Other (mnemonic : string).

(** For a call the last operand is the callee, the ones before it are the
    arguments, as LLVM lays a [CallInst] out. *)
Record Instruction : Type := {
  id : nat;
  opcode : Opcode;
  ty : Ty;
  operands : list Value
}.

Inductive Linkage : Type :=
| ExternalLinkage | AppendingLinkage | InternalLinkage.

Inductive Attribute : Type := NoInline | InlineHint | AlwaysInline.

(** A function with no instruction is a declaration. *)
Record Function : Type := {
  fn_name : string;
  fn_linkage : Linkage;
  fn_attrs : list Attribute;
  fn_ret : Ty;
  fn_params : list Ty;
  fn_body : list Instruction
}.

Record GlobalVariable : Type := {
  gv_name : string;
  gv_linkage : Linkage;
  gv_init : option Constant
}.

(** [gModule]. [next_id] is the identity the next instruction made by an
    [IRBuilder] gets. *)
Record Module : Type := {
  functions : list Function;
  globals : list GlobalVariable;
  next_id : nat
}.

Definition Constant_eq_dec (a b : Constant) : {a = b} + {a <> b}.
Proof.
  decide equality; try apply Ty_eq_dec; try apply string_dec; apply Z.eq_dec.
Defined.

Definition Value_eq_dec (a b : Value) : {a = b} + {a <> b}.
Proof.
  decide equality; try apply Nat.eq_dec; apply Constant_eq_dec.
Defined.

Definition isa_CmpInst (i : Instruction) : bool :=
  match opcode i with ICmp | FCmp => true | _ => false end.

Definition isa_CastInst (i : Instruction) : bool :=
  match opcode i with Cast _ => true | _ => false end.

Definition isa_StoreInst (i : Instruction) : bool :=
  match opcode i with Store => true | _ => false end.

Definition isa_CallInst (i : Instruction) : bool :=
  match opcode i with Call => true | _ => false end.

Definition set_operands (ops : list Value) (i : Instruction) : Instruction :=
  {| id := id i; opcode := opcode i; ty := ty i; operands := ops |}.

Definition set_body (b : list Instruction) (f : Function) : Function :=
  {| fn_name := fn_name f; fn_linkage := fn_linkage f; fn_attrs := fn_attrs f;
     fn_ret := fn_ret f; fn_params := fn_params f; fn_body := b |}.

Definition set_fn_linkage (l : Linkage) (f : Function) : Function :=
  {| fn_name := fn_name f; fn_linkage := l; fn_attrs := fn_attrs f;
     fn_ret := fn_ret f; fn_params := fn_params f; fn_body := fn_body f |}.

Definition set_fn_attrs (a : list Attribute) (f : Function) : Function :=
  {| fn_name := fn_name f; fn_linkage := fn_linkage f; fn_attrs := a;
     fn_ret := fn_ret f; fn_params := fn_params f; fn_body := fn_body f |}.

Definition set_gv_linkage (l : Linkage) (g : GlobalVariable) : GlobalVariable :=
  {| gv_name := gv_name g; gv_linkage := l; gv_init := gv_init g |}.

Definition set_functions (fs : list Function) (m : Module) : Module :=
  {| functions := fs; globals := globals m; next_id := next_id m |}.

Definition set_globals (gs : list GlobalVariable) (m : Module) : Module :=
  {| functions := functions m; globals := gs; next_id := next_id m |}.

Definition set_next_id (n : nat) (m : Module) : Module :=
  {| functions := functions m; globals := globals m; next_id := n |}.

Definition map_bodies (g : list Instruction -> list Instruction) (m : Module)
    : Module :=
  set_functions (map (fun f => set_body (g (fn_body f)) f) (functions m)) m.

(** Every instruction of the module, function by function. *)
Definition insts (m : Module) : list Instruction :=
  flat_map fn_body (functions m).

Definition find_inst (k : nat) (m : Module) : option Instruction :=
  find (fun i => id i =? k) (insts m).

Definition getFunction (name : string) (m : Module) : option Function :=
  find (fun f => String.eqb (fn_name f) name) (functions m).

Definition hasLocalLinkage (l : Linkage) : bool :=
  match l with InternalLinkage => true | _ => false end.

(** [Module::getGlobalVariable] with its default [AllowLocal = false]: a
    global of that name with local linkage is not returned. *)
Definition getGlobalVariable (name : string) (m : Module)
    : option GlobalVariable :=
  match find (fun g => String.eqb (gv_name g) name) (globals m) with
  | Some g => if hasLocalLinkage (gv_linkage g) then None else Some g
  | None => None
  end.

Definition isDeclaration (f : Function) : bool :=
  match fn_body f with [] => true | _ => false end.

(** *** Uses *)

(** The constants that are operands of an instruction, and the constant a
    global is initialized with. *)
Definition constants_of_inst (i : Instruction) : list Constant :=
  flat_map (fun v => match v with VConst c => [c] | _ => [] end)
           (operands i).

Definition constants_of_global (g : GlobalVariable) : list Constant :=
  match gv_init g with
  | Some c => [c]
  | None => []
  end.

(** Every constant written in the module, once for every place it is
    written at. *)
Definition written (m : Module) : list Constant :=
  flat_map constants_of_inst (insts m)
  ++ flat_map constants_of_global (globals m).

(** A constant expression, and the constant expressions it is made of. *)
Fixpoint expressions (c : Constant) : list Constant :=
  match c with
  | CCast c' _ => c :: expressions c'
  | _ => []
  end.

Definition is_cast_of (t e : Constant) : bool :=
  match e with
  | CCast c _ => if Constant_eq_dec c t then true else false
  | _ => false
  end.

(** [Value::getNumUses] of a function or a global variable. An operand of
    an instruction that is the constant, and an initializer that is the
    constant, are uses of it, one each. A constant expression is one value,
    however many times it is written, and is one use of the constant it is a
    cast of. The expressions counted are the ones written in the module: the
    module is taken as it is read, with no expression left over in the
    context from what was deleted. *)
Definition getNumUses (t : Constant) (m : Module) : nat :=
  count_occ Constant_eq_dec (written m) t
  + List.length
      (nodup Constant_eq_dec
         (filter (is_cast_of t) (flat_map expressions (written m)))).

Definition hasNUsesOrMore (t : Constant) (n : nat) (m : Module) : bool :=
  n <=? getNumUses t m.

(** The users of an instruction's result, one for each use. *)
Definition users (k : nat) (m : Module) : list nat :=
  flat_map (fun i => repeat (id i) (count_occ Value_eq_dec (operands i) (VInst k)))
           (insts m).

(** [CallInst::getCalledFunction]. *)
Definition getCalledFunction (i : Instruction) : option string :=
  match opcode i with
  | Call =>
      match last (operands i) (VArg 0) with
      | VConst (CFunction f) =>
          match operands i with [] => None | _ => Some f end
      | _ => None
      end
  | _ => None
  end.

Definition calls (func : string) (i : Instruction) : bool :=
  match getCalledFunction i with
  | Some f => String.eqb f func
  | None => false
  end.

(** [CallInst::getArgOperand]: the callee is not one of the arguments. *)
Definition getArgOperand (i : Instruction) (n : nat) : Outcome Value :=
  if n <? List.length (operands i) - 1
  then match nth_error (operands i) n with
       | Some v => Done v
       | None => Undefined
       end
  else Undefined.

(** *** Rewriting *)

Definition replace_operand (k : nat) (new : Value) (v : Value) : Value :=
  if Value_eq_dec v (VInst k) then new else v.

Definition replace_in_inst (k : nat) (new : Value) (i : Instruction)
    : Instruction :=
  set_operands (map (replace_operand k new) (operands i)) i.

(** [Value::replaceAllUsesWith] on the result of instruction [k]. *)
Definition replaceAllUsesWith (k : nat) (new : Value) (m : Module) : Module :=
  map_bodies (map (replace_in_inst k new)) m.

(** [Instruction::eraseFromParent], and [removeFromParent] with [delete]. *)
Definition eraseFromParent (k : nat) (m : Module) : Module :=
  map_bodies (filter (fun i => negb (id i =? k))) m.

(** An [IRBuilder] positioned at instruction [k] puts what it builds right
    before [k]. *)
Definition Insert (k : nat) (op : Opcode) (t : Ty) (ops : list Value)
    (m : Module) : Value * Module :=
  let n := next_id m in
  let new := {| id := n; opcode := op; ty := t; operands := ops |} in
  (VInst n,
   set_next_id (S n)
     (map_bodies (flat_map (fun i => if id i =? k then [new; i] else [i])) m)).

Definition CreateLoad (k : nat) (t : Ty) (ptr : Value) :=
  Insert k Load t [ptr].

Definition CreateStore (k : nat) (v ptr : Value) :=
  Insert k Store VoidTy [v; ptr].

(** The type of an argument of a direct call of [func] is the type of the
    parameter, as the verifier has it. *)
Definition argument_type (func : Function) (n : nat) : Ty :=
  nth n (fn_params func) VoidTy.

Section WithFolder.

(** [ConstantFolder::CreateCast], that is [ConstantExpr::getCast] with the
    foldings LLVM makes. *)
Variable ConstantFolder_CreateCast : CastOp -> Constant -> Ty -> Constant.

(** [IRBuilder::CreateCast] of the value [v], of type [src], to the type
    [t]. It gives the value back when the value has the type asked for; it
    gives a constant, and builds nothing, when the value is a constant; it
    builds a cast instruction otherwise. *)
Definition CreateCast (k : nat) (op : CastOp) (v : Value) (src t : Ty)
    (m : Module) : Value * Module :=
  if Ty_eqb src t then (v, m)
  else match v with
       | VConst c => (VConst (ConstantFolder_CreateCast op c t), m)
       | _ => Insert k (Cast op) t [v] m
       end.

Definition CreateIntToPtr (k : nat) (v : Value) (src t : Ty) :=
  CreateCast k IntToPtr v src t.

Definition CreateFPTrunc (k : nat) (v : Value) (src t : Ty) :=
  CreateCast k FPTrunc v src t.

Definition CreateFPExt (k : nat) (v : Value) (src t : Ty) :=
  CreateCast k FPExt v src t.

End WithFolder.

(** *** The passes *)

(** The calls among the users of [func] whose callee is [func], one entry
    for every use: a call that also passes [func] as an argument is on the
    list once more for each such argument. [users()] walks the use list of
    the function, to the head of which LLVM puts a use when it is made: the
    uses of the instructions of the module, made from the first instruction
    to the last, are walked from the last to the first. *)
Definition CallersOf (func : string) (m : Module) : list nat :=
  rev
    (flat_map
       (fun i =>
          if calls func i
          then repeat (id i)
                 (count_occ Value_eq_dec (operands i)
                    (VConst (CFunction func)))
          else [])
       (insts m)).

(** [std::set::insert]: an element is in the set once. The set is gone
    through in the order of insertion here, in the order of the pointers in
    the source. *)
Definition set_insert (k : nat) (s : list nat) : list nat :=
  if existsb (Nat.eqb k) s then s else s ++ [k].

(** [std::set::insert] of a range. *)
Definition set_insert_all (ks : list nat) (s : list nat) : list nat :=
  fold_left (fun s k => set_insert k s) ks s.

(** The first loop of [ReplaceUndefIntrinsic]. A call that is on the list
    twice has been deleted when the loop comes to it again. *)
Fixpoint replace_calls_with_undef (undef_val : Value) (call_insts : list nat)
    (work_list : list nat) (m : Module) : Outcome (list nat * Module) :=
  match call_insts with
  | [] => Done (work_list, m)
  | call_inst :: rest =>
      match find_inst call_inst m with
      | None => Undefined
      | Some _ =>
          let work_list := set_insert_all (users call_inst m) work_list in
          let m := replaceAllUsesWith call_inst undef_val m in
          let m := eraseFromParent call_inst m in
          replace_calls_with_undef undef_val rest work_list m
      end
  end.

(** One pass of the [for] loop over the work list. *)
Fixpoint propagate_undef_round (work_list : list nat)
    (next_work_list : list nat) (dead_stores : list nat) (m : Module)
    : Outcome (list nat * list nat * Module) :=
  match work_list with
  | [] => Done (next_work_list, dead_stores, m)
  | k :: rest =>
      match find_inst k m with
      | None => Undefined
      | Some inst =>
          if isa_CmpInst inst || isa_CastInst inst then
            let next_work_list := set_insert_all (users k m) next_work_list in
            let undef_val := VConst (CUndef (ty inst)) in
            propagate_undef_round rest next_work_list dead_stores
              (replaceAllUsesWith k undef_val m)
          else if isa_StoreInst inst then
            propagate_undef_round rest next_work_list (dead_stores ++ [k]) m
          else
            propagate_undef_round rest next_work_list dead_stores m
      end
  end.

(** The [while (work_list.size())] loop; [None] when [fuel] passes were not
    enough to empty the work list. *)
Fixpoint propagate_undef (fuel : nat) (work_list : list nat)
    (dead_stores : list nat) (m : Module)
    : option (Outcome (list nat * Module)) :=
  match work_list with
  | [] => Some (Done (dead_stores, m))
  | _ :: _ =>
      match fuel with
      | O => None
      | S fuel =>
          match propagate_undef_round work_list [] dead_stores m with
          | Done (next_work_list, dead_stores, m) =>
              propagate_undef fuel next_work_list dead_stores m
          | CheckFailed msg => Some (CheckFailed msg)
          | Undefined => Some Undefined
          end
      end
  end.

(** [eraseFromParent] on every entry of a vector of instructions, in turn.
    An instruction that is on the vector twice is deleted twice: the second
    call is made on an instruction that is no more. *)
Fixpoint erase_all (ks : list nat) (m : Module) : Outcome Module :=
  match ks with
  | [] => Done m
  | k :: rest =>
      match find_inst k m with
      | None => Undefined
      | Some _ => erase_all rest (eraseFromParent k m)
      end
  end.

(** Replace all uses of a specific intrinsic with an undefined value. *)
Definition ReplaceUndefIntrinsic (fuel : nat) (function : Function)
    (m : Module) : option (Outcome Module) :=
  let call_insts := CallersOf (fn_name function) m in
  let undef_val := VConst (CUndef (fn_ret function)) in
  match replace_calls_with_undef undef_val call_insts [] m with
  | Done (work_list, m) =>
      match propagate_undef fuel work_list [] m with
      | None => None
      | Some (Done (dead_stores, m)) => Some (erase_all dead_stores m)
      | Some (CheckFailed msg) => Some (CheckFailed msg)
      | Some Undefined => Some Undefined
      end
  | CheckFailed msg => Some (CheckFailed msg)
  | Undefined => Some Undefined
  end.

Definition remove_function (name : string) (m : Module) : Module :=
  set_functions
    (filter (fun f => negb (String.eqb (fn_name f) name)) (functions m)) m.

(** [RemoveFunction], given the function. *)
Definition RemoveFunction (func : string) (m : Module) : Module :=
  if negb (hasNUsesOrMore (CFunction func) 1 m)
  then remove_function func m
  else m.

Definition setFunctionLinkage (name : string) (l : Linkage) (m : Module)
    : Module :=
  set_functions
    (map (fun f => if String.eqb (fn_name f) name then set_fn_linkage l f else f)
         (functions m)) m.

(** [RemoveFunction], given the name. *)
Definition RemoveFunctionByName (name : string) (m : Module) : Module :=
  match getFunction name m with
  | Some _ => RemoveFunction name (setFunctionLinkage name InternalLinkage m)
  | None => m
  end.

(** The names of the undefined-value intrinsics, in the order of the
    array of [RemoveUndefFuncCalls]. *)
Definition undef_func_names : list string :=
  [ "__remill_undefined_8"; "__remill_undefined_16"; "__remill_undefined_32";
    "__remill_undefined_64"; "__remill_undefined_f32";
    "__remill_undefined_f64" ]%string.

(** The body of the loop of [RemoveUndefFuncCalls], for one entry of the
    array. *)
Definition RemoveUndefFuncCall (fuel : nat) (undef_func : option Function)
    (m : Module) : option (Outcome Module) :=
  match undef_func with
  | Some undef_func =>
      match ReplaceUndefIntrinsic fuel undef_func m with
      | Some (Done m) => Some (Done (RemoveFunction (fn_name undef_func) m))
      | r => r
      end
  | None => Some (Done m)
  end.

Fixpoint RemoveUndefFuncCalls_loop (fuel : nat)
    (undef_funcs : list (option Function)) (m : Module)
    : option (Outcome Module) :=
  match undef_funcs with
  | [] => Some (Done m)
  | undef_func :: rest =>
      match RemoveUndefFuncCall fuel undef_func m with
      | Some (Done m) => RemoveUndefFuncCalls_loop fuel rest m
      | r => r
      end
  end.

(** Remove calls to the various undefined value intrinsics. *)
Definition RemoveUndefFuncCalls (fuel : nat) (m : Module)
    : option (Outcome Module) :=
  let undef_funcs := map (fun name => getFunction name m) undef_func_names in
  RemoveUndefFuncCalls_loop fuel undef_funcs m.

(** *** ISELs *)

Definition isPointerTy (t : Ty) : bool :=
  match t with PointerTy _ => true | _ => false end.

(** Whether the type of a constant is a pointer type: a function and a
    global variable are addresses. *)
Definition has_pointer_type (c : Constant) : bool :=
  match c with
  | CFunction _ | CGlobalVariable _ => true
  | CUndef t | CInt t _ | CCast _ t => isPointerTy t
  end.

(** [Value::stripPointerCasts] looks through the casts of a pointer to a
    pointer, and through nothing else: a value that is no pointer comes back
    as it is, and so does a pointer made from an integer. *)
Fixpoint stripPointerCasts (c : Constant) : Constant :=
  match c with
  | CCast c' t =>
      if isPointerTy t && has_pointer_type c' then stripPointerCasts c'
      else c
  | _ => c
  end.

(** [FunctionType::getParamType]. *)
Definition getParamType (f : Function) (n : nat) : Outcome Ty :=
  match nth_error (fn_params f) n with
  | Some t => Done t
  | None => Undefined
  end.

Fixpoint FindISELs_loop (mem_type state_type : Ty)
    (gs : list GlobalVariable) (m : Module) (isels : list string)
    : Outcome (list string) :=
  match gs with
  | [] => Done isels
  | isel :: rest =>
      match gv_init isel with
      | None => FindISELs_loop mem_type state_type rest m isels
      | Some init =>
          match stripPointerCasts init with
          | CFunction sem_name =>
              match getFunction sem_name m with
              | None => Undefined
              | Some sem =>
                  obind (getParamType sem 0) (fun p0 =>
                  if Ty_eqb mem_type p0 then
                    obind (getParamType sem 1) (fun p1 =>
                    if Ty_eqb state_type p1
                    then FindISELs_loop mem_type state_type rest m
                           (isels ++ [gv_name isel])
                    else FindISELs_loop mem_type state_type rest m isels)
                  else FindISELs_loop mem_type state_type rest m isels)
              end
          | _ => FindISELs_loop mem_type state_type rest m isels
          end
      end
  end.

(** The log line written when [__remill_basic_block] is missing does not
    touch the module and is left out. *)
Definition FindISELs (m : Module) : Outcome (list string) :=
  match getFunction "__remill_basic_block" m with
  | None => Done []
  | Some basic_block =>
      obind (getParamType basic_block 0) (fun mem_type =>
      obind (getParamType basic_block 1) (fun state_type =>
      FindISELs_loop mem_type state_type (globals m) m []))
  end.

Definition setGlobalLinkage (name : string) (l : Linkage) (m : Module)
    : Module :=
  set_globals
    (map (fun g => if String.eqb (gv_name g) name then set_gv_linkage l g else g)
         (globals m)) m.

(** [GlobalVariable::eraseFromParent]. A use that the global still has is
    left as it is written, naming a global that the module has no more. *)
Definition eraseGlobal (name : string) (m : Module) : Module :=
  set_globals
    (filter (fun g => negb (String.eqb (gv_name g) name)) (globals m)) m.

(** The [for] loop of [RemoveISELs]: one scan of the ISEL set. *)
Fixpoint RemoveISELs_scan (isels next_isels : list string) (m : Module)
    : list string * Module :=
  match isels with
  | [] => (next_isels, m)
  | isel :: rest =>
      let m := setGlobalLinkage isel InternalLinkage m in
      if getNumUses (CGlobalVariable isel) m <=? 1
      then RemoveISELs_scan rest next_isels (eraseGlobal isel m)
      else RemoveISELs_scan rest (next_isels ++ [isel]) m
  end.

(** Remove the ISEL variables used for finding the instruction semantics;
    [None] when [fuel] scans were not enough to empty the set. *)
Fixpoint RemoveISELs (fuel : nat) (isels : list string) (m : Module)
    : option Module :=
  match isels with
  | [] => Some m
  | _ :: _ =>
      match fuel with
      | O => None
      | S fuel =>
          let '(next_isels, m) := RemoveISELs_scan isels [] m in
          RemoveISELs fuel next_isels m
      end
  end.

(** *** Intrinsics *)

Definition removeFnAttr (a : Attribute) (f : Function) : Function :=
  set_fn_attrs
    (filter (fun b => match a, b with
                      | NoInline, NoInline => false
                      | InlineHint, InlineHint => false
                      | AlwaysInline, AlwaysInline => false
                      | _, _ => true
                      end) (fn_attrs f)) f.

Definition addFnAttr (a : Attribute) (f : Function) : Function :=
  set_fn_attrs (fn_attrs f ++ [a]) f.

Definition update_function (name : string) (g : Function -> Function)
    (m : Module) : Module :=
  set_functions
    (map (fun f => if String.eqb (fn_name f) name then g f else f)
         (functions m)) m.

(** Remove some of the remill intrinsics. *)
Definition RemoveIntrinsics (m : Module) : Module :=
  let m :=
    match getGlobalVariable "llvm.used" m with
    | Some _ => eraseGlobal "llvm.used" m
    | None => m
    end in
  let m :=
    match getFunction "__remill_mark_as_used" m with
    | Some remill_used =>
        if isDeclaration remill_used then
          let ret := {| id := next_id m; opcode := Ret; ty := VoidTy;
                        operands := [] |} in
          set_next_id (S (next_id m))
            (update_function "__remill_mark_as_used"
               (fun f =>
                  set_body [ret]
                    (addFnAttr AlwaysInline
                       (addFnAttr InlineHint
                          (removeFnAttr NoInline
                             (set_fn_linkage InternalLinkage f))))) m)
        else m
    | None => m
    end in
  let m := RemoveFunctionByName "__remill_intrinsics" m in
  let m := RemoveFunctionByName "__remill_basic_block" m in
  let m := RemoveFunctionByName "__remill_mark_as_used" m in
  let m := RemoveFunctionByName "__remill_defer_inlining" m in
  let m := RemoveFunctionByName "__remill_function_return" m in
  RemoveFunctionByName "__remill_mark_as_used" m.

(** *** Memory operations and barriers *)

Definition not_a_declaration : string :=
  "Cannot lower already implemented memory intrinsic".

Section WithFolder.

Variable ConstantFolder_CreateCast : CastOp -> Constant -> Ty -> Constant.

Local Abbreviation CreateIntToPtr := (CreateIntToPtr ConstantFolder_CreateCast).
Local Abbreviation CreateFPTrunc := (CreateFPTrunc ConstantFolder_CreateCast).
Local Abbreviation CreateFPExt := (CreateFPExt ConstantFolder_CreateCast).

(** The value loaded has the type [val_type]: the pointer is a pointer to
    it. *)
Fixpoint ReplaceMemReadOp_loop (func : Function) (val_type : Ty)
    (callers : list nat) (m : Module) : Outcome Module :=
  match callers with
  | [] => Done m
  | call_inst :: rest =>
      match find_inst call_inst m with
      | None => Undefined
      | Some i =>
          obind (getArgOperand i 1) (fun addr =>
          let '(ptr, m) :=
            CreateIntToPtr call_inst addr (argument_type func 1)
              (PointerTy val_type) m in
          let '(val, m) := CreateLoad call_inst val_type ptr m in
          let '(val, m) :=
            if isX86_FP80Ty val_type
            then CreateFPTrunc call_inst val val_type (fn_ret func) m
            else (val, m) in
          ReplaceMemReadOp_loop func val_type rest
            (replaceAllUsesWith call_inst val m))
      end
  end.

(** Lower a memory read intrinsic into a [load] instruction. *)
Definition ReplaceMemReadOp (name : string) (val_type : Ty) (m : Module)
    : Outcome Module :=
  match getFunction name m with
  | None => Done m
  | Some func =>
      if isDeclaration func then
        let callers := CallersOf name m in
        obind (ReplaceMemReadOp_loop func val_type callers m) (fun m =>
        obind (erase_all callers m) (fun m =>
        Done (RemoveFunction name m)))
      else CheckFailed not_a_declaration
  end.

Fixpoint ReplaceMemWriteOp_loop (func : Function) (val_type : Ty)
    (callers : list nat) (m : Module) : Outcome Module :=
  match callers with
  | [] => Done m
  | call_inst :: rest =>
      match find_inst call_inst m with
      | None => Undefined
      | Some i =>
          obind (getArgOperand i 0) (fun mem_ptr =>
          obind (getArgOperand i 1) (fun addr =>
          obind (getArgOperand i 2) (fun val =>
          let '(ptr, m) :=
            CreateIntToPtr call_inst addr (argument_type func 1)
              (PointerTy val_type) m in
          let '(val, m) :=
            if isX86_FP80Ty val_type
            then CreateFPExt call_inst val (argument_type func 2) val_type m
            else (val, m) in
          let '(_, m) := CreateStore call_inst val ptr m in
          ReplaceMemWriteOp_loop func val_type rest
            (replaceAllUsesWith call_inst mem_ptr m))))
      end
  end.

(** Lower a memory write intrinsic into a [store] instruction. *)
Definition ReplaceMemWriteOp (name : string) (val_type : Ty) (m : Module)
    : Outcome Module :=
  match getFunction name m with
  | None => Done m
  | Some func =>
      if isDeclaration func then
        let callers := CallersOf name m in
        obind (ReplaceMemWriteOp_loop func val_type callers m) (fun m =>
        obind (erase_all callers m) (fun m =>
        Done (RemoveFunction name m)))
      else CheckFailed not_a_declaration
  end.

Definition Int8Ty : Ty := IntegerTy 8.
Definition Int16Ty : Ty := IntegerTy 16.
Definition Int32Ty : Ty := IntegerTy 32.
Definition Int64Ty : Ty := IntegerTy 64.

(** The memory intrinsics [LowerMemOps] lowers, with the type each reads or
    writes, in the order of its calls. *)
Definition mem_read_ops : list (string * Ty) :=
  [ ("__remill_read_memory_8", Int8Ty);
    ("__remill_read_memory_16", Int16Ty);
    ("__remill_read_memory_32", Int32Ty);
    ("__remill_read_memory_64", Int64Ty);
    ("__remill_read_memory_f32", FloatTy);
    ("__remill_read_memory_f64", DoubleTy);
    ("__remill_read_memory_f80", X86_FP80Ty) ]%string.

Definition mem_write_ops : list (string * Ty) :=
  [ ("__remill_write_memory_8", Int8Ty);
    ("__remill_write_memory_16", Int16Ty);
    ("__remill_write_memory_32", Int32Ty);
    ("__remill_write_memory_64", Int64Ty);
    ("__remill_write_memory_f32", FloatTy);
    ("__remill_write_memory_f64", DoubleTy);
    ("__remill_write_memory_f80", X86_FP80Ty) ]%string.

Definition LowerMemOps (m : Module) : Outcome Module :=
  obind (ReplaceMemReadOp "__remill_read_memory_8" Int8Ty m) (fun m =>
  obind (ReplaceMemReadOp "__remill_read_memory_16" Int16Ty m) (fun m =>
  obind (ReplaceMemReadOp "__remill_read_memory_32" Int32Ty m) (fun m =>
  obind (ReplaceMemReadOp "__remill_read_memory_64" Int64Ty m) (fun m =>
  obind (ReplaceMemReadOp "__remill_read_memory_f32" FloatTy m) (fun m =>
  obind (ReplaceMemReadOp "__remill_read_memory_f64" DoubleTy m) (fun m =>
  obind (ReplaceMemWriteOp "__remill_write_memory_8" Int8Ty m) (fun m =>
  obind (ReplaceMemWriteOp "__remill_write_memory_16" Int16Ty m) (fun m =>
  obind (ReplaceMemWriteOp "__remill_write_memory_32" Int32Ty m) (fun m =>
  obind (ReplaceMemWriteOp "__remill_write_memory_64" Int64Ty m) (fun m =>
  obind (ReplaceMemWriteOp "__remill_write_memory_f32" FloatTy m) (fun m =>
  obind (ReplaceMemWriteOp "__remill_write_memory_f64" DoubleTy m) (fun m =>
  obind (ReplaceMemReadOp "__remill_read_memory_f80" X86_FP80Ty m) (fun m =>
  ReplaceMemWriteOp "__remill_write_memory_f80" X86_FP80Ty m))))))))))))).

End WithFolder.

Definition barrier_names : list string :=
  [ "__remill_barrier_load_load"; "__remill_barrier_load_store";
    "__remill_barrier_store_load"; "__remill_barrier_store_store";
    "__remill_barrier_atomic_begin"; "__remill_barrier_atomic_end" ]%string.

Section WithRemill.

(** The constant folder of LLVM, [remill::kMemoryPointerArgNum] of
    [remill/BC/ABI.h], and the pass pipeline of LLVM that [RunO3] builds and
    runs. *)
Variable ConstantFolder_CreateCast : CastOp -> Constant -> Ty -> Constant.
Variable kMemoryPointerArgNum : nat.
Variable RunO3 : Module -> Module.

Fixpoint ReplaceBarrier_loop (callers : list nat) (m : Module)
    : Outcome Module :=
  match callers with
  | [] => Done m
  | call_inst :: rest =>
      match find_inst call_inst m with
      | None => Undefined
      | Some i =>
          obind (getArgOperand i kMemoryPointerArgNum) (fun mem_ptr =>
          let m := replaceAllUsesWith call_inst mem_ptr m in
          let m := eraseFromParent call_inst m in
          ReplaceBarrier_loop rest m)
      end
  end.

Definition ReplaceBarrier (name : string) (m : Module) : Outcome Module :=
  match getFunction name m with
  | None => Done m
  | Some func =>
      if isDeclaration func
      then ReplaceBarrier_loop (CallersOf name m) m
      else CheckFailed not_a_declaration
  end.

(** The six calls of [ReplaceBarrier] in [OptimizeModule]. *)
Definition LowerBarriers (m : Module) : Outcome Module :=
  obind (ReplaceBarrier "__remill_barrier_load_load" m) (fun m =>
  obind (ReplaceBarrier "__remill_barrier_load_store" m) (fun m =>
  obind (ReplaceBarrier "__remill_barrier_store_load" m) (fun m =>
  obind (ReplaceBarrier "__remill_barrier_store_store" m) (fun m =>
  obind (ReplaceBarrier "__remill_barrier_atomic_begin" m) (fun m =>
  ReplaceBarrier "__remill_barrier_atomic_end" m))))).

Definition OptimizeModule (fuel : nat) (m : Module) : option (Outcome Module) :=
  match FindISELs m with
  | Done isels =>
      let m := RemoveIntrinsics m in
      match RemoveISELs fuel isels m with
      | None => None
      | Some m =>
          let m := RunO3 m in
          let m := RemoveIntrinsics m in
          match obind (LowerMemOps ConstantFolder_CreateCast m)
                  LowerBarriers with
          | Done m => RemoveUndefFuncCalls fuel m
          | CheckFailed msg => Some (CheckFailed msg)
          | Undefined => Some Undefined
          end
      end
  | CheckFailed msg => Some (CheckFailed msg)
  | Undefined => Some Undefined
  end.

End WithRemill.

End Optimizer.

(** ** Part III: properties of the instruction lifter *)

Module LifterFacts.

Import Lifter.
Local Open Scope Z_scope.

(** A 64-bit architecture to run the lifter on: cross-references resolve to
    address-wide constants, the generic address path adds the displacement
    to a register's value, and every instruction has semantics. *)
Module Sample.

Definition address_size : Z := 64.

Definition getTypeSizeInBits (t : Ty) : Z :=
  match t with
  | VoidTy => 0
  | IntegerTy n => n
  | FloatTy => 32
  | DoubleTy => 64
  | X86_FP80Ty => 80
  | PointerTy _ => 64
  | StructTy _ => 0
  end.

Definition LiftXrefInCode (ea : Z) : Value := Leaf (IntegerTy 64) ea.

Definition TryGetSegment (ea : Z) : bool := false.

Definition remill_LiftImmediateOperand (inst : Instruction) (arg : Argument)
    (op : Operand) : Value :=
  Leaf (arg_type arg) (imm_val op).

Definition remill_LiftAddressOperand (inst : Instruction) (arg : Argument)
    (op : Operand) : Value :=
  Add (Leaf (IntegerTy 64) 0) (Leaf (IntegerTy 64) (displacement (addr op))).

Definition remill_status (inst : Instruction) : LiftStatus :=
  kLiftedInstruction.

Definition reg (s : string) : Register := {| name := s |}.

Definition word_arg : Argument := {| arg_type := IntegerTy 64 |}.

(** [mov eax, [0x4010]] and [mov rax, [0x4010 + rdi*8]]. *)
Definition absolute_operand : Operand :=
  {| size := 64; imm_val := 0;
     addr := {| base_reg := reg EmptyString; index_reg := reg EmptyString;
                displacement := 16400; kind := kMemoryRead |} |}.

Definition indexed_operand : Operand :=
  {| size := 64; imm_val := 0;
     addr := {| base_reg := reg EmptyString; index_reg := reg "RDI";
                displacement := 16400; kind := kMemoryRead |} |}.

Definition immediate_operand : Operand :=
  {| size := 32; imm_val := 16400;
     addr := {| base_reg := reg EmptyString; index_reg := reg EmptyString;
                displacement := 0; kind := kInvalid |} |}.

Definition xref_4010 : NativeInstructionXref :=
  {| target_ea := 16400; mask := 0 |}.

Definition lifter_with (m i d : option NativeInstructionXref)
    : InstructionLifter :=
  fetch_references LiftXrefInCode
    {| ctx := {| cfg_inst := Some {| mem := m; imm := i; disp := d |} |};
       mem_ref := None; imm_ref := None; disp_ref := None;
       mem_ref_used := false; imm_ref_used := false; disp_ref_used := false;
       log := [] |}.

Definition inst_at (ops : list (OperandType * Argument * Operand))
    : Instruction :=
  {| pc := 4198400; operands := ops |}.

End Sample.

Section Facts.

Variable address_size : Z.
Variable getTypeSizeInBits : Ty -> Z.
Variable LiftXrefInCode : Z -> Value.
Variable TryGetSegment : Z -> bool.
Variable remill_LiftImmediateOperand : Instruction -> Argument -> Operand -> Value.
Variable remill_LiftAddressOperand : Instruction -> Argument -> Operand -> Value.
Variable remill_status : Instruction -> LiftStatus.

Local Abbreviation LiftAddressOperand := (LiftAddressOperand remill_LiftAddressOperand).
Local Abbreviation LiftAddressOperand_merged :=
  (LiftAddressOperand_merged remill_LiftAddressOperand).
Local Abbreviation LiftImmediateOperand :=
  (LiftImmediateOperand address_size getTypeSizeInBits TryGetSegment
     remill_LiftImmediateOperand).
Local Abbreviation GetAddress := (GetAddress LiftXrefInCode).

(** The operand shape of the first two branches of [LiftAddressOperand]:
    no base and no index register, or the program counter ([PC] or
    [NEXT_PC]) as base register and no index register. *)
Definition absolute_or_pc_relative (op : Operand) : bool :=
  empty (name (index_reg (addr op)))
  && (empty (name (base_reg (addr op)))
      || String.eqb (name (base_reg (addr op))) "PC"
      || String.eqb (name (base_reg (addr op))) "NEXT_PC").

Lemma LiftAddressOperand_as_merged
    (inst : Instruction) (arg : Argument) (op : Operand)
    (L : InstructionLifter) :
  LiftAddressOperand inst arg op L = LiftAddressOperand_merged inst arg op L.
Proof.
  unfold Lifter.LiftAddressOperand, Lifter.LiftAddressOperand_merged.
  destruct (IsControlFlowTarget (addr op)); [reflexivity |].
  destruct (empty (name (base_reg (addr op))));
    destruct (empty (name (index_reg (addr op))));
    destruct (String.eqb (name (base_reg (addr op))) "PC");
    destruct (String.eqb (name (base_reg (addr op))) "NEXT_PC");
    reflexivity.
Qed.

(** C10. The branch for the base register [PC] and the branch for the base
    register [NEXT_PC] do the same thing: for every operand and every state
    of the lifter, [LiftAddressOperand] gives what it gives with the two
    branches written as one. *)
Theorem LiftAddressOperand_branches_merge
    (inst : Instruction) (arg : Argument) (op : Operand)
    (L : InstructionLifter) :
  LiftAddressOperand inst arg op L = LiftAddressOperand_merged inst arg op L.
Proof. apply LiftAddressOperand_as_merged. Qed.

(** C1, as the code has it. For a data memory operand with no base and no
    index register, or with the program counter as base register and no
    index register, the lifter substitutes the memory reference whenever
    there is one (used before or not) and marks it used; with no memory
    reference it substitutes the displacement reference whenever there is
    one and marks it used; with neither it takes the generic path. *)
Theorem LiftAddressOperand_absolute_or_pc_relative
    (inst : Instruction) (arg : Argument) (op : Operand)
    (L : InstructionLifter)
    (Hdata : IsControlFlowTarget (addr op) = false)
    (Hshape : absolute_or_pc_relative op = true) :
  LiftAddressOperand inst arg op L =
    match mem_ref L, disp_ref L with
    | Some m, _ => Done (m, op, set_mem_ref_used L)
    | None, Some d => Done (d, op, set_disp_ref_used L)
    | None, None => Done (remill_LiftAddressOperand inst arg op, op, L)
    end.
Proof.
  rewrite LiftAddressOperand_as_merged.
  unfold Lifter.LiftAddressOperand_merged, absolute_or_pc_relative in *.
  rewrite Hdata.
  destruct (empty (name (base_reg (addr op))));
    destruct (empty (name (index_reg (addr op))));
    destruct (String.eqb (name (base_reg (addr op))) "PC");
    destruct (String.eqb (name (base_reg (addr op))) "NEXT_PC");
    simpl in *; try discriminate; reflexivity.
Qed.

(** C3. For a data memory operand of the general base+index+displacement
    form, with no displacement reference and a memory reference whose target
    address equals the operand's displacement (the signed field read as an
    unsigned 64-bit number, as the comparison does), the lifter logs that the
    operand was decoded as an absolute reference by mistake, marks the memory
    reference used, clears the displacement, takes the generic path on the
    operand so changed, and returns the sum of that address and the resolved
    memory reference: the value and the operand that a lifter holding the
    same resolved value as its displacement reference gives.

    The operand that comes back has displacement 0 and is the operand that
    went in otherwise; the lifter that comes back has the memory reference
    marked used, one more record in its log, the diagnostic, and is the
    lifter that went in otherwise. *)
Theorem LiftAddressOperand_misclassified_memory_reference
    (inst : Instruction) (arg : Argument) (op : Operand)
    (L : InstructionLifter) (ci : NativeInstruction)
    (x : NativeInstructionXref)
    (Hdata : IsControlFlowTarget (addr op) = false)
    (Hshape : absolute_or_pc_relative op = false)
    (Hdisp : disp_ref L = None)
    (Hinst : cfg_inst (ctx L) = Some ci)
    (Hxref : mem ci = Some x)
    (Hmem : mem_ref L = GetAddress (mem ci))
    (Hequal : to_uint64 (displacement (addr op)) = target_ea x) :
  exists resolved v op' L',
    GetAddress (Some x) = Some resolved /\
    LiftAddressOperand inst arg op L = Done (v, op', L') /\
    (displacement (addr op') = 0 /\
     base_reg (addr op') = base_reg (addr op) /\
     index_reg (addr op') = index_reg (addr op) /\
     kind (addr op') = kind (addr op) /\
     size op' = size op /\
     imm_val op' = imm_val op) /\
    v = Add (remill_LiftAddressOperand inst arg op') resolved /\
    (mem_ref_used L' = true /\
     imm_ref_used L' = imm_ref_used L /\
     disp_ref_used L' = disp_ref_used L /\
     mem_ref L' = mem_ref L /\
     imm_ref L' = imm_ref L /\
     disp_ref L' = disp_ref L /\
     ctx L' = ctx L) /\
    log L'
    = log L ++ [(ERROR, IncorrectlyDecodedMemoryOperand op (pc inst))] /\
    op' = set_displacement 0 op /\
    L' = set_mem_ref_used
           (LOG ERROR (IncorrectlyDecodedMemoryOperand op (pc inst)) L) /\
    (forall L2 : InstructionLifter,
       disp_ref L2 = Some resolved ->
       exists L2',
         LiftAddressOperand inst arg op L2 = Done (v, op', L2') /\
         disp_ref_used L2' = true /\
         mem_ref_used L2' = mem_ref_used L2 /\
         imm_ref_used L2' = imm_ref_used L2 /\
         log L2' = log L2 /\
         L2' = set_disp_ref_used L2).
Proof.
  assert (Hsome : exists r, GetAddress (Some x) = Some r).
  { unfold Lifter.GetAddress. destruct (negb (mask x =? 0)); eauto. }
  destruct Hsome as [r Hr].
  exists r,
    (Add (remill_LiftAddressOperand inst arg (set_displacement 0 op)) r),
    (set_displacement 0 op),
    (set_mem_ref_used
       (LOG ERROR (IncorrectlyDecodedMemoryOperand op (pc inst)) L)).
  split; [exact Hr |].
  assert (Hcond :
    (empty (name (base_reg (addr op))) && empty (name (index_reg (addr op)))
     || (String.eqb (name (base_reg (addr op))) "PC"
         || String.eqb (name (base_reg (addr op))) "NEXT_PC")
        && empty (name (index_reg (addr op)))) = false).
  { unfold absolute_or_pc_relative in Hshape.
    destruct (empty (name (base_reg (addr op))));
      destruct (empty (name (index_reg (addr op))));
      destruct (String.eqb (name (base_reg (addr op))) "PC");
      destruct (String.eqb (name (base_reg (addr op))) "NEXT_PC");
      simpl in *; congruence. }
  split.
  { rewrite LiftAddressOperand_as_merged.
    unfold Lifter.LiftAddressOperand_merged.
    rewrite Hdata, Hcond, Hdisp, Hmem, Hxref, Hr, Hinst, Hxref.
    rewrite Hequal, Z.eqb_refl. reflexivity. }
  split; [repeat split |].
  split; [reflexivity |].
  split; [repeat split |].
  split; [reflexivity |].
  split; [reflexivity |].
  split; [reflexivity |].
  intros L2 H2. exists (set_disp_ref_used L2).
  split; [| repeat split].
  rewrite LiftAddressOperand_as_merged.
  unfold Lifter.LiftAddressOperand_merged.
  rewrite Hdata, Hcond, H2. reflexivity.
Qed.

(** C7, as the code has it. When an immediate reference that is not used
    yet is substituted for an immediate operand, the width that decides is
    the width of the type of the argument that receives the operand, the
    parameter of the semantics function; the operand's own size is printed
    in the message of the check and looked at nowhere else. A failed check
    stops the run if the argument's type is wider than an address; the
    reference is truncated to the argument's type if that type is narrower
    than an address and is not the type of the reference; and the reference
    itself is returned, not truncated, if the argument's type is exactly as
    wide as an address, or is the type of the reference and no wider than an
    address. Whenever the call returns, the reference is marked used and is
    the value returned; and the outcome is the same for every operand. *)
Theorem LiftImmediateOperand_truncates_iff_narrower
    (inst : Instruction) (arg : Argument) (op : Operand)
    (L : InstructionLifter) (r : Value)
    (Href : imm_ref L = Some r)
    (Hunused : imm_ref_used L = false) :
  (address_size < getTypeSizeInBits (arg_type arg) ->
   exists msg, LiftImmediateOperand inst arg op L = CheckFailed msg) /\
  (getTypeSizeInBits (arg_type arg) < address_size ->
   arg_type arg <> getType r ->
   LiftImmediateOperand inst arg op L =
     Done (Trunc r (arg_type arg),
           set_imm_ref (Trunc r (arg_type arg)) (set_imm_ref_used L))) /\
  (getTypeSizeInBits (arg_type arg) <= address_size ->
   getTypeSizeInBits (arg_type arg) = address_size \/
   arg_type arg = getType r ->
   LiftImmediateOperand inst arg op L = Done (r, set_imm_ref_used L)) /\
  (forall v L',
     LiftImmediateOperand inst arg op L = Done (v, L') ->
     imm_ref_used L' = true /\ imm_ref L' = Some v /\
     (v = r \/ v = Trunc r (arg_type arg)) /\
     mem_ref L' = mem_ref L /\ disp_ref L' = disp_ref L /\
     mem_ref_used L' = mem_ref_used L /\
     disp_ref_used L' = disp_ref_used L /\
     log L' = log L) /\
  (forall op2 : Operand,
     LiftImmediateOperand inst arg op2 L
     = LiftImmediateOperand inst arg op L).
Proof.
  unfold Lifter.LiftImmediateOperand. rewrite Href, Hunused.
  split; [| split; [| split; [| split]]].
  - intros Hsize.
    destruct (Z.leb_spec (getTypeSizeInBits (arg_type arg)) address_size);
      [lia | eauto].
  - intros Hsize Hne.
    destruct (Z.leb_spec (getTypeSizeInBits (arg_type arg)) address_size);
      [| lia].
    destruct (Z.ltb_spec (getTypeSizeInBits (arg_type arg)) address_size);
      [| lia].
    destruct (Ty_eqb_spec (arg_type arg) (getType r)) as [Heq | _];
      [contradiction | reflexivity].
  - intros Hsize Hsame.
    destruct (Z.leb_spec (getTypeSizeInBits (arg_type arg)) address_size);
      [| lia].
    destruct Hsame as [Hsame | Hsame].
    + destruct (Z.ltb_spec (getTypeSizeInBits (arg_type arg)) address_size);
        [lia |].
      rewrite andb_false_r. reflexivity.
    + destruct (Ty_eqb_spec (arg_type arg) (getType r)) as [_ | Hne];
        [reflexivity | contradiction].
  - intros v L' H.
    destruct (getTypeSizeInBits (arg_type arg) <=? address_size);
      [| discriminate].
    destruct (negb (Ty_eqb (arg_type arg) (getType r))
              && (getTypeSizeInBits (arg_type arg) <? address_size));
      inversion H; subst; simpl; rewrite ?Href; auto 10.
  - intros op2. reflexivity.
Qed.

Local Abbreviation LiftOperand :=
  (LiftOperand address_size getTypeSizeInBits TryGetSegment
     remill_LiftImmediateOperand remill_LiftAddressOperand).
Local Abbreviation LiftOperands :=
  (LiftOperands address_size getTypeSizeInBits TryGetSegment
     remill_LiftImmediateOperand remill_LiftAddressOperand).
Local Abbreviation remill_LiftIntoBlock :=
  (remill_LiftIntoBlock address_size getTypeSizeInBits TryGetSegment
     remill_LiftImmediateOperand remill_LiftAddressOperand remill_status).
Local Abbreviation LiftIntoBlock :=
  (LiftIntoBlock address_size getTypeSizeInBits LiftXrefInCode TryGetSegment
     remill_LiftImmediateOperand remill_LiftAddressOperand remill_status).

Definition is_some {A} (o : option A) : bool :=
  match o with Some _ => true | None => false end.

Definition cfg_xref (c : TranslationContext)
    (field : NativeInstruction -> option NativeInstructionXref)
    : option NativeInstructionXref :=
  match cfg_inst c with
  | Some ci => field ci
  | None => None
  end.

(** The lifter holds a resolved reference exactly for the cross-references
    the CFG's instruction has. *)
Definition refs_match (c : TranslationContext) (L : InstructionLifter) : Prop :=
  ctx L = c /\
  is_some (mem_ref L) = is_some (cfg_xref c mem) /\
  is_some (imm_ref L) = is_some (cfg_xref c imm) /\
  is_some (disp_ref L) = is_some (cfg_xref c disp).

Lemma GetAddress_is_some (x : option NativeInstructionXref) :
  is_some (GetAddress x) = is_some x.
Proof.
  destruct x as [x |]; simpl; [| reflexivity].
  destruct (negb (mask x =? 0)); reflexivity.
Qed.

Lemma fetch_references_match (L : InstructionLifter) :
  refs_match (ctx L) (fetch_references LiftXrefInCode L).
Proof.
  unfold refs_match, fetch_references, cfg_xref.
  destruct (cfg_inst (ctx L)) as [ci |] eqn:E; simpl;
    rewrite ?GetAddress_is_some, ?E; auto.
Qed.

Lemma LiftImmediateOperand_match c inst arg op L v L' :
  refs_match c L ->
  LiftImmediateOperand inst arg op L = Done (v, L') ->
  refs_match c L'.
Proof.
  unfold refs_match, Lifter.LiftImmediateOperand.
  intros (Hc & Hm & Hi & Hd) H.
  destruct (imm_ref L) as [r |] eqn:Er; [destruct (imm_ref_used L) |].
  - repeat match type of H with
           | context [if ?b then _ else _] => destruct b
           end; inversion H; subst; simpl; rewrite ?Er; auto.
  - destruct (getTypeSizeInBits (arg_type arg) <=? address_size);
      [| discriminate].
    destruct (negb (Ty_eqb (arg_type arg) (getType r)) &&
              (getTypeSizeInBits (arg_type arg) <? address_size));
      inversion H; subst; simpl; rewrite ?Er; auto.
  - repeat match type of H with
           | context [if ?b then _ else _] => destruct b
           end; inversion H; subst; simpl; rewrite ?Er; auto.
Qed.

Lemma LiftAddressOperand_match c inst arg op L v op' L' :
  refs_match c L ->
  LiftAddressOperand inst arg op L = Done (v, op', L') ->
  refs_match c L'.
Proof.
  rewrite LiftAddressOperand_as_merged.
  unfold refs_match, Lifter.LiftAddressOperand_merged.
  intros (Hc & Hm & Hi & Hd) H.
  destruct (mem_ref L) eqn:Em; destruct (disp_ref L) eqn:Ed;
    destruct (cfg_inst (ctx L)) as [ci |]; try destruct (mem ci);
    repeat match type of H with
           | context [if ?b then _ else _] => destruct b
           end; inversion H; subst; simpl; rewrite ?Em, ?Ed; auto.
Qed.

Lemma LiftOperand_match c inst o L o' L' :
  refs_match c L ->
  LiftOperand inst o L = Done (o', L') ->
  refs_match c L'.
Proof.
  intros Hm H. destruct o as [[[] arg] op]; simpl in H.
  - inversion H; subst; assumption.
  - destruct (LiftImmediateOperand inst arg op L) as [[v L1] | |] eqn:E;
      simpl in H; inversion H; subst.
    eapply LiftImmediateOperand_match; eauto.
  - destruct (LiftAddressOperand inst arg op L) as [[[v op1] L1] | |] eqn:E;
      simpl in H; inversion H; subst.
    eapply LiftAddressOperand_match; eauto.
Qed.

Lemma LiftOperands_match c inst ops : forall L ops' L',
  refs_match c L ->
  LiftOperands inst ops L = Done (ops', L') ->
  refs_match c L'.
Proof.
  induction ops as [| o rest IH]; intros L ops' L' Hm H; simpl in H.
  - inversion H; subst; assumption.
  - destruct (LiftOperand inst o L) as [[o1 L1] | |] eqn:E; simpl in H;
      try discriminate.
    destruct (LiftOperands inst rest L1) as [[os L2] | |] eqn:E2; simpl in H;
      inversion H; subst.
    eapply IH; [| exact E2]. eapply LiftOperand_match; eauto.
Qed.

Lemma remill_LiftIntoBlock_match c inst L s inst' L' :
  refs_match c L ->
  remill_LiftIntoBlock inst L = Done (s, inst', L') ->
  refs_match c L'.
Proof.
  unfold Lifter.remill_LiftIntoBlock. intros Hm H.
  destruct (remill_status inst); try (inversion H; subst; assumption).
  destruct (LiftOperands inst (operands inst) L) as [[os L1] | |] eqn:E;
    simpl in H; inversion H; subst.
  eapply LiftOperands_match; eauto.
Qed.

Definition append_log (records : list LogRecord) (L : InstructionLifter)
    : InstructionLifter :=
  {| ctx := ctx L; mem_ref := mem_ref L; imm_ref := imm_ref L;
     disp_ref := disp_ref L;
     mem_ref_used := mem_ref_used L; imm_ref_used := imm_ref_used L;
     disp_ref_used := disp_ref_used L; log := log L ++ records |}.

Definition unused_reference (x : option NativeInstructionXref) (used : bool)
    (msg : Z -> Message) : list LogRecord :=
  match x with
  | Some x => if used then [] else [(ERROR, msg (target_ea x))]
  | None => []
  end.

(** One record for each cross-reference of the CFG's instruction whose used
    flag is still false after a successful lift, in the order memory,
    immediate, displacement. *)
Definition unused_reference_diagnostics (c : TranslationContext)
    (status : LiftStatus) (inst : Instruction) (L : InstructionLifter)
    : list LogRecord :=
  match status with
  | kLiftedInstruction =>
      unused_reference (cfg_xref c mem) (mem_ref_used L)
        (fun t => UnusedMemoryReference t inst) ++
      unused_reference (cfg_xref c imm) (imm_ref_used L)
        (fun t => UnusedImmediateReference t inst) ++
      unused_reference (cfg_xref c disp) (disp_ref_used L)
        (fun t => UnusedDisplacementReference t inst)
  | _ => []
  end.

(** C9. [LiftIntoBlock] returns what the lift of the base class returns (the
    same status, or the same failure), and after it the log holds, besides
    what the lift wrote, one record for each of the three fetched references
    whose used flag is still false if the status is [kLiftedInstruction],
    and nothing more otherwise. Writing these records never fails. *)
Theorem LiftIntoBlock_reports_unused_references
    (inst : Instruction) (L : InstructionLifter) :
  LiftIntoBlock inst L =
    obind (remill_LiftIntoBlock inst (fetch_references LiftXrefInCode L))
      (fun r =>
         Done (fst (fst r), snd (fst r),
               append_log
                 (unused_reference_diagnostics (ctx L) (fst (fst r))
                    (snd (fst r)) (snd r))
                 (snd r))).
Proof.
  unfold Lifter.LiftIntoBlock.
  pose proof (fetch_references_match L) as Hm.
  destruct (remill_LiftIntoBlock inst (fetch_references LiftXrefInCode L))
    as [[[s inst'] L'] | |] eqn:E; simpl; try reflexivity.
  eapply remill_LiftIntoBlock_match in E; [| exact Hm].
  destruct E as (Hc & Hmem & Himm & Hdisp).
  unfold unused_reference_diagnostics, append_log.
  destruct s; simpl;
    try (destruct L'; simpl; rewrite app_nil_r; reflexivity).
  unfold report_unused, xref_target_ea, cfg_xref in *.
  destruct L' as [c' mr ir dr mu iu du lg]; simpl in *. subst c'.
  destruct (cfg_inst (ctx L)) as [ci |] eqn:Eci; simpl in *.
  - destruct mr, ir, dr, (mem ci) eqn:Em, (imm ci) eqn:Ei, (disp ci) eqn:Ed;
      simpl in *; try discriminate;
      destruct mu, iu, du;
      repeat (simpl; rewrite ?Eci, ?Em, ?Ei, ?Ed);
      unfold LOG; simpl; rewrite <- ?app_assoc, ?app_nil_r; reflexivity.
  - destruct mr, ir, dr; simpl in *; try discriminate.
    rewrite app_nil_r. reflexivity.
Qed.

End Facts.

Import Sample.

(** C1, as stated, fails: an instruction with two operands for the same
    absolute address and a memory reference. Lifting the first operand marks
    the reference used; lifting the second, with the reference used and no
    displacement reference, substitutes the reference again and does not
    take the generic path. *)
Lemma LiftAddressOperand_substitutes_used_memory_reference :
  LiftAddressOperand remill_LiftAddressOperand (inst_at []) word_arg
    absolute_operand (lifter_with (Some xref_4010) None None)
  = Done (Leaf (IntegerTy 64) 16400, absolute_operand,
          set_mem_ref_used (lifter_with (Some xref_4010) None None)) /\
  mem_ref_used (set_mem_ref_used (lifter_with (Some xref_4010) None None))
  = true /\
  disp_ref (set_mem_ref_used (lifter_with (Some xref_4010) None None))
  = None /\
  LiftAddressOperand remill_LiftAddressOperand (inst_at []) word_arg
    absolute_operand
    (set_mem_ref_used (lifter_with (Some xref_4010) None None))
  = Done (Leaf (IntegerTy 64) 16400, absolute_operand,
          set_mem_ref_used (lifter_with (Some xref_4010) None None)) /\
  LiftAddressOperand remill_LiftAddressOperand (inst_at []) word_arg
    absolute_operand
    (set_mem_ref_used (lifter_with (Some xref_4010) None None))
  <> Done (remill_LiftAddressOperand (inst_at []) word_arg absolute_operand,
           absolute_operand,
           set_mem_ref_used (lifter_with (Some xref_4010) None None)).
Proof.
  repeat split; try reflexivity.
  vm_compute. discriminate.
Qed.

Lemma LiftAddressOperand_absolute_or_pc_relative_witness :
  LiftAddressOperand remill_LiftAddressOperand (inst_at []) word_arg
    absolute_operand (lifter_with None (Some xref_4010) (Some xref_4010))
  = Done (Leaf (IntegerTy 64) 16400, absolute_operand,
          set_disp_ref_used
            (lifter_with None (Some xref_4010) (Some xref_4010))).
Proof.
  exact (@LiftAddressOperand_absolute_or_pc_relative
           remill_LiftAddressOperand (inst_at []) word_arg absolute_operand
           (lifter_with None (Some xref_4010) (Some xref_4010))
           eq_refl eq_refl).
Defined.

Lemma LiftAddressOperand_misclassified_memory_reference_witness :
  exists resolved v op' L',
    GetAddress LiftXrefInCode (Some xref_4010) = Some resolved /\
    LiftAddressOperand remill_LiftAddressOperand (inst_at []) word_arg
      indexed_operand (lifter_with (Some xref_4010) None None)
    = Done (v, op', L') /\
    (displacement (addr op') = 0 /\
     base_reg (addr op') = base_reg (addr indexed_operand) /\
     index_reg (addr op') = index_reg (addr indexed_operand) /\
     kind (addr op') = kind (addr indexed_operand) /\
     size op' = size indexed_operand /\
     imm_val op' = imm_val indexed_operand) /\
    v = Add (remill_LiftAddressOperand (inst_at []) word_arg op') resolved /\
    (mem_ref_used L' = true /\
     imm_ref_used L'
     = imm_ref_used (lifter_with (Some xref_4010) None None) /\
     disp_ref_used L'
     = disp_ref_used (lifter_with (Some xref_4010) None None) /\
     mem_ref L' = mem_ref (lifter_with (Some xref_4010) None None) /\
     imm_ref L' = imm_ref (lifter_with (Some xref_4010) None None) /\
     disp_ref L' = disp_ref (lifter_with (Some xref_4010) None None) /\
     ctx L' = ctx (lifter_with (Some xref_4010) None None)) /\
    log L'
    = log (lifter_with (Some xref_4010) None None)
      ++ [(ERROR,
           IncorrectlyDecodedMemoryOperand indexed_operand
             (pc (inst_at [])))] /\
    op' = set_displacement 0 indexed_operand /\
    L' = set_mem_ref_used
           (LOG ERROR
              (IncorrectlyDecodedMemoryOperand indexed_operand
                 (pc (inst_at [])))
              (lifter_with (Some xref_4010) None None)) /\
    (forall L2 : InstructionLifter,
       disp_ref L2 = Some resolved ->
       exists L2',
         LiftAddressOperand remill_LiftAddressOperand (inst_at []) word_arg
           indexed_operand L2
         = Done (v, op', L2') /\
         disp_ref_used L2' = true /\
         mem_ref_used L2' = mem_ref_used L2 /\
         imm_ref_used L2' = imm_ref_used L2 /\
         log L2' = log L2 /\
         L2' = set_disp_ref_used L2).
Proof.
  apply (@LiftAddressOperand_misclassified_memory_reference
           LiftXrefInCode remill_LiftAddressOperand (inst_at []) word_arg
           indexed_operand (lifter_with (Some xref_4010) None None)
           {| mem := Some xref_4010; imm := None; disp := None |} xref_4010);
    reflexivity.
Defined.

(** A 32-bit parameter for an operand whose own size says 64. *)
Definition quad_operand : Operand :=
  {| size := 64; imm_val := 16400;
     addr := {| base_reg := reg EmptyString; index_reg := reg EmptyString;
                displacement := 0; kind := kInvalid |} |}.

Definition oct_operand : Operand :=
  {| size := 128; imm_val := 16400;
     addr := {| base_reg := reg EmptyString; index_reg := reg EmptyString;
                displacement := 0; kind := kInvalid |} |}.

Lemma LiftImmediateOperand_truncates_iff_narrower_witness :
  LiftImmediateOperand address_size getTypeSizeInBits TryGetSegment
    remill_LiftImmediateOperand (inst_at []) {| arg_type := IntegerTy 32 |}
    quad_operand (lifter_with None (Some xref_4010) None)
  = Done (Trunc (Leaf (IntegerTy 64) 16400) (IntegerTy 32),
          set_imm_ref (Trunc (Leaf (IntegerTy 64) 16400) (IntegerTy 32))
            (set_imm_ref_used (lifter_with None (Some xref_4010) None))).
Proof.
  refine (proj1 (proj2 (@LiftImmediateOperand_truncates_iff_narrower
           address_size getTypeSizeInBits TryGetSegment
           remill_LiftImmediateOperand (inst_at [])
           {| arg_type := IntegerTy 32 |} quad_operand
           (lifter_with None (Some xref_4010) None)
           (Leaf (IntegerTy 64) 16400) eq_refl eq_refl)) _ _).
  - reflexivity.
  - discriminate.
Defined.

(** C7, as stated, fails. A 32-bit operand, narrower than the 64-bit
    address, received by a 64-bit argument: the reference is substituted as
    it is, not truncated to 32 bits. A 128-bit operand, wider than an
    address, received by a 64-bit argument: the run is not stopped, and the
    reference is substituted as it is. *)
Lemma LiftImmediateOperand_ignores_operand_size :
  (size immediate_operand = 32 /\ size oct_operand = 128 /\
   address_size = 64 /\ getTypeSizeInBits (arg_type word_arg) = 64) /\
  LiftImmediateOperand address_size getTypeSizeInBits TryGetSegment
    remill_LiftImmediateOperand (inst_at []) word_arg immediate_operand
    (lifter_with None (Some xref_4010) None)
  = Done (Leaf (IntegerTy 64) 16400,
          set_imm_ref_used (lifter_with None (Some xref_4010) None)) /\
  LiftImmediateOperand address_size getTypeSizeInBits TryGetSegment
    remill_LiftImmediateOperand (inst_at []) word_arg immediate_operand
    (lifter_with None (Some xref_4010) None)
  <> Done (Trunc (Leaf (IntegerTy 64) 16400) (IntegerTy 32),
           set_imm_ref (Trunc (Leaf (IntegerTy 64) 16400) (IntegerTy 32))
             (set_imm_ref_used (lifter_with None (Some xref_4010) None))) /\
  LiftImmediateOperand address_size getTypeSizeInBits TryGetSegment
    remill_LiftImmediateOperand (inst_at []) word_arg oct_operand
    (lifter_with None (Some xref_4010) None)
  = Done (Leaf (IntegerTy 64) 16400,
          set_imm_ref_used (lifter_with None (Some xref_4010) None)).
Proof.
  split; [repeat split |]. split; [reflexivity |].
  split; [vm_compute; discriminate | reflexivity].
Qed.

(** The scenario of the design document: one instruction with a memory
    operand and a memory reference to [0x4010]. The reference is used and
    nothing is logged. *)
Example LiftIntoBlock_end_to_end :
  LiftIntoBlock address_size getTypeSizeInBits LiftXrefInCode TryGetSegment
    remill_LiftImmediateOperand remill_LiftAddressOperand remill_status
    (inst_at [(kTypeAddress, word_arg, absolute_operand)])
    (lifter_with (Some xref_4010) None None)
  = Done (kLiftedInstruction,
          inst_at [(kTypeAddress, word_arg, absolute_operand)],
          set_mem_ref_used (lifter_with (Some xref_4010) None None)).
Proof. reflexivity. Qed.

End LifterFacts.

(** ** Part IV: properties of the module optimizer *)

Module OptimizerFacts.

Import Optimizer.

Unset Implicit Arguments.

Arguments Value_eq_dec : simpl never.
Arguments Constant_eq_dec : simpl never.

(** *** Sample modules *)

Module Sample.

Local Open Scope string_scope.

Definition MemoryPtr : Ty := PointerTy (StructTy "struct.Memory").
Definition StatePtr : Ty := PointerTy (StructTy "struct.State").

Definition declare (name : string) (ret : Ty) (params : list Ty) : Function :=
  {| fn_name := name; fn_linkage := ExternalLinkage; fn_attrs := [];
     fn_ret := ret; fn_params := params; fn_body := [] |}.

Definition define (name : string) (ret : Ty) (params : list Ty)
    (body : list Instruction) : Function :=
  {| fn_name := name; fn_linkage := ExternalLinkage; fn_attrs := [];
     fn_ret := ret; fn_params := params; fn_body := body |}.

Definition inst (k : nat) (op : Opcode) (t : Ty) (ops : list Value)
    : Instruction :=
  {| id := k; opcode := op; ty := t; operands := ops |}.

Definition fn (name : string) : Value := VConst (CFunction name).

(** A lifted function that loads twice from the ISEL global [ISEL_ADD],
    whose initializer is the semantics function [ADD], cast to a pointer to
    bytes. *)
Definition isel_module : Module :=
  {| functions :=
       [ define "__remill_basic_block" MemoryPtr [MemoryPtr; StatePtr; Int64Ty]
           [inst 0 Ret VoidTy [VArg 0]];
         define "ADD" MemoryPtr [MemoryPtr; StatePtr; Int64Ty]
           [inst 1 Ret VoidTy [VArg 0]];
         define "sub_401000" MemoryPtr [MemoryPtr; StatePtr; Int64Ty]
           [ inst 2 Load (PointerTy Int8Ty)
               [VConst (CGlobalVariable "ISEL_ADD")];
             inst 3 Load (PointerTy Int8Ty)
               [VConst (CGlobalVariable "ISEL_ADD")];
             inst 4 Ret VoidTy [VArg 0] ] ];
     globals :=
       [ {| gv_name := "ISEL_ADD"; gv_linkage := ExternalLinkage;
            gv_init := Some (CCast (CFunction "ADD") (PointerTy Int8Ty)) |} ];
     next_id := 5 |}.

(** The same, but the two loads are from one cast of the ISEL global: one
    constant expression, written twice. *)
Definition shared_cast_module : Module :=
  {| functions :=
       [ define "__remill_basic_block" MemoryPtr [MemoryPtr; StatePtr; Int64Ty]
           [inst 0 Ret VoidTy [VArg 0]];
         define "ADD" MemoryPtr [MemoryPtr; StatePtr; Int64Ty]
           [inst 1 Ret VoidTy [VArg 0]];
         define "sub_401000" MemoryPtr [MemoryPtr; StatePtr; Int64Ty]
           [ inst 2 Load Int64Ty
               [VConst (CCast (CGlobalVariable "ISEL_ADD")
                          (PointerTy Int64Ty))];
             inst 3 Load Int64Ty
               [VConst (CCast (CGlobalVariable "ISEL_ADD")
                          (PointerTy Int64Ty))];
             inst 4 Ret VoidTy [VArg 0] ] ];
     globals :=
       [ {| gv_name := "ISEL_ADD"; gv_linkage := ExternalLinkage;
            gv_init := Some (CCast (CFunction "ADD") (PointerTy Int8Ty)) |} ];
     next_id := 5 |}.

(** A lifted function that reads a word, writes it back, and does the same
    with an 80-bit float, through the memory intrinsics. *)
Definition mem_module : Module :=
  {| functions :=
       [ declare "__remill_read_memory_64" Int64Ty [MemoryPtr; Int64Ty];
         declare "__remill_write_memory_64" MemoryPtr
           [MemoryPtr; Int64Ty; Int64Ty];
         declare "__remill_read_memory_f80" DoubleTy [MemoryPtr; Int64Ty];
         declare "__remill_write_memory_f80" MemoryPtr
           [MemoryPtr; Int64Ty; DoubleTy];
         define "sub_401000" MemoryPtr [MemoryPtr; StatePtr; Int64Ty]
           [ inst 0 Call Int64Ty
               [VArg 0; VArg 2; fn "__remill_read_memory_64"];
             inst 1 Call MemoryPtr
               [VArg 0; VInst 0; VInst 0; fn "__remill_write_memory_64"];
             inst 2 Call DoubleTy
               [VInst 1; VArg 2; fn "__remill_read_memory_f80"];
             inst 3 Call MemoryPtr
               [VInst 1; VArg 2; VInst 2; fn "__remill_write_memory_f80"];
             inst 4 Ret VoidTy [VInst 3] ] ];
     globals := [];
     next_id := 5 |}.

(** The constant expression for a cast of a constant, where LLVM has
    nothing to fold. *)
Definition cast_expression (op : CastOp) (c : Constant) (t : Ty) : Constant :=
  CCast c t.

(** A lifted function that reads a word at a constant address, and writes
    it to the address it has read. *)
Definition constant_address_module : Module :=
  {| functions :=
       [ declare "__remill_read_memory_64" Int64Ty [MemoryPtr; Int64Ty];
         declare "__remill_write_memory_64" MemoryPtr
           [MemoryPtr; Int64Ty; Int64Ty];
         define "sub_401000" MemoryPtr [MemoryPtr; StatePtr; Int64Ty]
           [ inst 0 Call Int64Ty
               [VArg 0; VConst (CInt Int64Ty 4096);
                fn "__remill_read_memory_64"];
             inst 1 Call MemoryPtr
               [VArg 0; VInst 0; VConst (CInt Int64Ty 1);
                fn "__remill_write_memory_64"];
             inst 2 Ret VoidTy [VInst 1] ] ];
     globals := [];
     next_id := 3 |}.

(** The same read intrinsic, but with a body. *)
Definition implemented_read_module : Module :=
  {| functions :=
       [ define "__remill_read_memory_8" Int8Ty [MemoryPtr; Int64Ty]
           [inst 0 Ret VoidTy [VConst (CInt Int8Ty 0)]];
         define "sub_401000" MemoryPtr [MemoryPtr; StatePtr; Int64Ty]
           [ inst 1 Call Int8Ty
               [VArg 0; VArg 2; fn "__remill_read_memory_8"];
             inst 2 Ret VoidTy [VArg 0] ] ];
     globals := [];
     next_id := 3 |}.

(** Two barriers in a row on the memory pointer. *)
Definition barrier_module : Module :=
  {| functions :=
       [ declare "__remill_barrier_load_load" MemoryPtr [MemoryPtr];
         define "sub_401000" MemoryPtr [MemoryPtr; StatePtr; Int64Ty]
           [ inst 0 Call MemoryPtr [VArg 0; fn "__remill_barrier_load_load"];
             inst 1 Call MemoryPtr [VInst 0; fn "__remill_barrier_load_load"];
             inst 2 Load Int64Ty [VArg 2];
             inst 3 Ret VoidTy [VInst 1] ] ];
     globals := [];
     next_id := 4 |}.

(** An undefined byte, widened and compared; the comparison, a sum made
    from the widened value, and the byte itself are stored. *)
Definition undef_module : Module :=
  {| functions :=
       [ declare "__remill_undefined_8" Int8Ty [];
         define "sub_401000" MemoryPtr [MemoryPtr; StatePtr; Int64Ty]
           [ inst 0 Call Int8Ty [fn "__remill_undefined_8"];
             inst 1 (Cast ZExt) Int64Ty [VInst 0];
             inst 2 ICmp (IntegerTy 1) [VInst 1; VArg 2];
             inst 3 Store VoidTy [VInst 2; VArg 1];
             inst 4 (Other "add") Int64Ty [VInst 1; VArg 2];
             inst 5 Store VoidTy [VInst 4; VArg 1];
             inst 6 Store VoidTy [VInst 0; VArg 1];
             inst 7 Ret VoidTy [VArg 0] ] ];
     globals := [];
     next_id := 8 |}.

(** An undefined word that is stored to the address it is cast to. *)
Definition twice_reached_module : Module :=
  {| functions :=
       [ declare "__remill_undefined_64" Int64Ty [];
         define "sub_401000" MemoryPtr [MemoryPtr; StatePtr; Int64Ty]
           [ inst 0 Call Int64Ty [fn "__remill_undefined_64"];
             inst 1 (Cast IntToPtr) (PointerTy Int64Ty) [VInst 0];
             inst 2 Store VoidTy [VInst 0; VInst 1];
             inst 3 Ret VoidTy [VArg 0] ] ];
     globals := [];
     next_id := 4 |}.

End Sample.

(** *** Rewriting instruction by instruction

    Every rewriting step of the passes acts on each instruction by itself:
    it keeps it, changes its operands, drops it, or puts new instructions
    in front of it. *)

Definition lift (h : Instruction -> list Instruction) (m : Module) : Module :=
  map_bodies (flat_map h) m.

Definition subst_inst (theta : Value -> Value) (i : Instruction)
    : Instruction :=
  set_operands (map theta (operands i)) i.

(** Identities are unique, and the next identity is above all of them. *)
Definition wf (m : Module) : Prop :=
  NoDup (map id (insts m)) /\
  Forall (fun i => id i < next_id m) (insts m).

Lemma flat_map_flat_map {A B C} (f : A -> list B) (g : B -> list C)
    (l : list A) :
  flat_map g (flat_map f l) = flat_map (fun x => flat_map g (f x)) l.
Proof.
  induction l as [| a l IH]; simpl; [reflexivity |].
  rewrite flat_map_app, IH. reflexivity.
Qed.

Lemma flat_map_ext_in {A B} (f g : A -> list B) (l : list A) :
  (forall x, In x l -> f x = g x) -> flat_map f l = flat_map g l.
Proof.
  induction l as [| a l IH]; intros H; simpl; [reflexivity |].
  rewrite H by (left; reflexivity). rewrite IH; [reflexivity |].
  intros x Hx. apply H. right. exact Hx.
Qed.

Lemma set_body_set_body (b b' : list Instruction) (f : Function) :
  set_body b (set_body b' f) = set_body b f.
Proof. reflexivity. Qed.

Lemma insts_lift (h : Instruction -> list Instruction) (m : Module) :
  insts (lift h m) = flat_map h (insts m).
Proof.
  unfold insts, lift, map_bodies; simpl.
  induction (functions m) as [| f fs IH]; simpl; [reflexivity |].
  rewrite flat_map_app, IH. reflexivity.
Qed.

Lemma lift_lift (h1 h2 : Instruction -> list Instruction) (m : Module) :
  lift h2 (lift h1 m) = lift (fun i => flat_map h2 (h1 i)) m.
Proof.
  unfold lift, map_bodies, set_functions; simpl. f_equal.
  rewrite map_map. apply map_ext. intros f. simpl.
  rewrite flat_map_flat_map. reflexivity.
Qed.

Lemma lift_ext (h h' : Instruction -> list Instruction) (m : Module) :
  (forall i, In i (insts m) -> h i = h' i) -> lift h m = lift h' m.
Proof.
  intros H. unfold lift, map_bodies, set_functions. f_equal.
  apply map_ext_in. intros f Hf. f_equal.
  apply flat_map_ext_in. intros i Hi. apply H.
  unfold insts. apply in_flat_map. exists f. split; assumption.
Qed.

Lemma lift_id (m : Module) : lift (fun i => [i]) m = m.
Proof.
  unfold lift, map_bodies, set_functions. destruct m as [fs gs n]; simpl.
  f_equal. rewrite <- (map_id fs) at 2. apply map_ext. intros f.
  assert (E : flat_map (fun i : Instruction => [i]) (fn_body f) = fn_body f).
  { induction (fn_body f) as [| a l IH]; simpl; [| rewrite IH]; reflexivity. }
  rewrite E. destruct f; reflexivity.
Qed.

Lemma lift_set_next_id (h : Instruction -> list Instruction) (n : nat)
    (m : Module) :
  lift h (set_next_id n m) = set_next_id n (lift h m).
Proof. reflexivity. Qed.

Lemma set_next_id_twice (n n' : nat) (m : Module) :
  set_next_id n (set_next_id n' m) = set_next_id n m.
Proof. reflexivity. Qed.

Lemma set_next_id_same (m : Module) : set_next_id (next_id m) m = m.
Proof. destruct m; reflexivity. Qed.

Lemma replaceAllUsesWith_lift (k : nat) (v : Value) (m : Module) :
  replaceAllUsesWith k v m = lift (fun i => [replace_in_inst k v i]) m.
Proof.
  unfold replaceAllUsesWith, lift. f_equal.
Qed.

Lemma eraseFromParent_lift (k : nat) (m : Module) :
  eraseFromParent k m = lift (fun i => if id i =? k then [] else [i]) m.
Proof.
  unfold eraseFromParent, lift, map_bodies, set_functions. f_equal.
  apply map_ext. intros f. f_equal.
  induction (fn_body f) as [| a l IH]; simpl; [reflexivity |].
  rewrite IH. destruct (id a =? k); reflexivity.
Qed.

Lemma Insert_lift (k : nat) (op : Opcode) (t : Ty) (ops : list Value)
    (m : Module) :
  Insert k op t ops m =
  (VInst (next_id m),
   set_next_id (S (next_id m))
     (lift (fun i =>
              if id i =? k
              then [ {| id := next_id m; opcode := op; ty := t;
                        operands := ops |}; i ]
              else [i]) m)).
Proof. reflexivity. Qed.

Lemma find_inst_None (k : nat) (m : Module) :
  find_inst k m = None -> forall i, In i (insts m) -> id i <> k.
Proof.
  unfold find_inst. intros H i Hi E.
  apply (find_none _ _ H) in Hi. apply Nat.eqb_neq in Hi. contradiction.
Qed.

Lemma find_inst_Some (c : nat) (m : Module) (i : Instruction) :
  find_inst c m = Some i -> In i (insts m) /\ id i = c.
Proof.
  unfold find_inst. intros H. apply find_some in H. destruct H as [H1 H2].
  split; [exact H1 |]. apply Nat.eqb_eq. exact H2.
Qed.

Lemma find_unique_id (l : list Instruction) (i : Instruction) :
  NoDup (map id l) -> In i l ->
  find (fun j => id j =? id i) l = Some i.
Proof.
  induction l as [| a l IH]; intros Hnd Hin; simpl in *; [contradiction |].
  inversion Hnd as [| ? ? Hna Hnd']; subst.
  destruct Hin as [-> | Hin].
  - rewrite Nat.eqb_refl. reflexivity.
  - destruct (Nat.eqb_spec (id a) (id i)) as [E | E].
    + exfalso. apply Hna. rewrite E. apply in_map. exact Hin.
    + apply IH; assumption.
Qed.

Lemma find_inst_unique (m : Module) (i : Instruction) :
  wf m -> In i (insts m) -> find_inst (id i) m = Some i.
Proof. intros [H _] Hi. apply find_unique_id; assumption. Qed.

Lemma same_id_same_inst (m : Module) (i j : Instruction) :
  wf m -> In i (insts m) -> In j (insts m) -> id i = id j -> i = j.
Proof.
  intros Hwf Hi Hj E.
  pose proof (find_inst_unique m i Hwf Hi) as H1.
  pose proof (find_inst_unique m j Hwf Hj) as H2.
  rewrite E in H1. congruence.
Qed.

Fixpoint index_of (k : nat) (l : list nat) : option nat :=
  match l with
  | [] => None
  | x :: rest => if x =? k then Some 0 else option_map S (index_of k rest)
  end.

Lemma index_of_None (k : nat) (l : list nat) :
  ~ In k l -> index_of k l = None.
Proof.
  induction l as [| x l IH]; simpl; intros H; [reflexivity |].
  destruct (Nat.eqb_spec x k) as [E | E]; [tauto |].
  rewrite IH by tauto. reflexivity.
Qed.

Lemma index_of_Some (k n : nat) (l : list nat) :
  index_of k l = Some n -> In k l.
Proof.
  revert n. induction l as [| x l IH]; simpl; intros n H; [discriminate |].
  destruct (Nat.eqb_spec x k) as [E | E]; [left; exact E |].
  destruct (index_of k l) as [n' |]; [| discriminate].
  right. eapply IH. reflexivity.
Qed.

Lemma index_of_In (k : nat) (l : list nat) :
  In k l -> exists n, index_of k l = Some n /\ n < List.length l.
Proof.
  induction l as [| x l IH]; simpl; intros H; [contradiction |].
  destruct (Nat.eqb_spec x k) as [E | E].
  - exists 0. split; [reflexivity | lia].
  - destruct H as [H | H]; [congruence |].
    destruct (IH H) as (n & Hn & Hlt). rewrite Hn. exists (S n).
    split; [reflexivity | lia].
Qed.

(** *** A loop over the callers of an intrinsic

    The loops of [ReplaceBarrier], [ReplaceMemReadOp], [ReplaceMemWriteOp]
    and [ReplaceUndefIntrinsic] have one shape: for each caller, build some
    instructions in front of it, replace its uses by a value, and maybe
    erase it. What the whole loop does to the module is worked out once. *)

Lemma flat_map_map {A B C} (g : A -> B) (f : B -> list C) (l : list A) :
  flat_map f (map g l) = flat_map (fun x => f (g x)) l.
Proof.
  induction l as [| a l IH]; simpl; [| rewrite IH]; reflexivity.
Qed.

Lemma map_flat_map {A B C} (f : A -> list B) (g : B -> C) (l : list A) :
  map g (flat_map f l) = flat_map (fun x => map g (f x)) l.
Proof.
  induction l as [| a l IH]; simpl; [reflexivity |].
  rewrite map_app, IH. reflexivity.
Qed.

Definition expand_ids (c n glen : nat) (e : bool) (x : nat) : list nat :=
  if x =? c then seq n glen ++ (if e then [] else [x]) else [x].

Lemma expand_ids_absent (c n glen : nat) (e : bool) (L : list nat) :
  ~ In c L -> flat_map (expand_ids c n glen e) L = L.
Proof.
  induction L as [| x L IH]; simpl; intros H; [reflexivity |].
  unfold expand_ids at 1.
  destruct (Nat.eqb_spec x c) as [E | E]; [tauto |].
  simpl. rewrite IH by tauto. reflexivity.
Qed.

Lemma expand_ids_In (c n glen : nat) (e : bool) (L : list nat) (y : nat) :
  In y (flat_map (expand_ids c n glen e) L) ->
  In y L \/ (n <= y < n + glen).
Proof.
  induction L as [| x L IH]; simpl; intros H; [contradiction |].
  apply in_app_or in H. destruct H as [H | H].
  - unfold expand_ids in H. destruct (x =? c).
    + apply in_app_or in H. destruct H as [H | H].
      * apply in_seq in H. right. lia.
      * destruct e; simpl in H; [contradiction |].
        destruct H as [H | []]. left. left. exact H.
    + destruct H as [H | []]. left. left. exact H.
  - destruct (IH H) as [H' | H']; [left; right; exact H' | right; exact H'].
Qed.

Lemma expand_ids_wf (c n glen : nat) (e : bool) (L : list nat) :
  NoDup L -> Forall (fun x => x < n) L ->
  NoDup (flat_map (expand_ids c n glen e) L) /\
  Forall (fun x => x < n + glen) (flat_map (expand_ids c n glen e) L).
Proof.
  intros Hnd Hlt. split.
  - induction L as [| x L IH]; simpl; [constructor |].
    inversion Hnd as [| ? ? Hx Hnd']; subst.
    inversion Hlt as [| ? ? Hxn Hlt']; subst.
    unfold expand_ids at 1. destruct (Nat.eqb_spec x c) as [E | E].
    + subst x. rewrite expand_ids_absent by exact Hx.
      apply NoDup_app.
      * apply NoDup_app; [apply seq_NoDup | |].
        -- destruct e; repeat constructor. intros [].
        -- intros a Ha Hb. apply in_seq in Ha.
           destruct e; simpl in Hb; [contradiction |].
           destruct Hb as [Hb | []]. lia.
      * exact Hnd'.
      * intros a Ha Hb. apply in_app_or in Ha. destruct Ha as [Ha | Ha].
        -- apply in_seq in Ha. rewrite Forall_forall in Hlt'.
           specialize (Hlt' a Hb). simpl in Hlt'. lia.
        -- destruct e; simpl in Ha; [contradiction |].
           destruct Ha as [Ha | []]. subst a. contradiction.
    + simpl. constructor; [| apply IH; assumption].
      intros Hin. apply expand_ids_In in Hin. destruct Hin as [Hin | Hin].
      * contradiction.
      * lia.
  - rewrite Forall_forall. intros y Hy. apply expand_ids_In in Hy.
    destruct Hy as [Hy | Hy]; [| lia].
    rewrite Forall_forall in Hlt. specialize (Hlt y Hy). simpl in Hlt. lia.
Qed.

Section Loop.

(** What is built in front of a caller, and the value its uses are replaced
    by, given the next identity and the caller; whether the caller has the
    operands the loop reads; whether the loop erases the caller; and the
    body of the loop. What is built may depend on the operands of the
    caller, on whether one is a constant: [good] is what the values that
    take the place of a caller's result are, and [sep c i] says that the
    result of [c] is none of the operands of [i] that matter. *)
Variable gen : nat -> Instruction -> list Instruction * Value.
Variable ok : Instruction -> bool.
Variable erase : bool.
Variable step : nat -> Module -> Outcome Module.
Variable good : Value -> Prop.
Variable sep : nat -> Instruction -> Prop.

Definition retire (i : Instruction) : list Instruction :=
  if erase then [] else [i].

Definition step_inst (c : nat) (g : list Instruction * Value)
    (i : Instruction) : list Instruction :=
  if id i =? c
  then map (replace_in_inst c (snd g)) (fst g)
       ++ retire (replace_in_inst c (snd g) i)
  else [replace_in_inst c (snd g) i].

(** What the loop makes of an instruction: a caller gets its new
    instructions in front, the first of them with the identity [start]
    gives (and goes, if the loop erases callers); all operands are rewritten
    by [theta]. *)
Definition final (cs : list nat) (start : nat -> nat)
    (theta : Value -> Value) (i : Instruction) : list Instruction :=
  match index_of (id i) cs with
  | Some _ =>
      map (subst_inst theta) (fst (gen (start (id i)) i))
      ++ retire (subst_inst theta i)
  | None => [subst_inst theta i]
  end.

Fixpoint loop (cs : list nat) (m : Module) : Outcome Module :=
  match cs with
  | [] => Done m
  | c :: rest => obind (step c m) (loop rest)
  end.

Hypothesis gen_ids : forall n i,
  map id (fst (gen n i)) = seq n (List.length (fst (gen n i))).
Hypothesis gen_natural : forall n c r i,
  c < n -> good r -> sep c i ->
  gen n (replace_in_inst c r i) =
  (map (replace_in_inst c r) (fst (gen n i)),
   replace_operand c r (snd (gen n i))).
Hypothesis gen_good : forall n i, ok i = true -> good (snd (gen n i)).
Hypothesis ok_replace : forall c r i, ok (replace_in_inst c r i) = ok i.
Hypothesis sep_replace : forall c c' r i,
  sep c i -> sep c' i -> sep c' (replace_in_inst c r i).
Hypothesis step_spec : forall c m i,
  wf m -> In i (insts m) -> id i = c -> ok i = true ->
  step c m =
  Done (set_next_id (next_id m + List.length (fst (gen (next_id m) i)))
          (lift (step_inst c (gen (next_id m) i)) m)).

Lemma step_inst_ids (c : nat) (g : list Instruction * Value) (n glen : nat)
    (i : Instruction) :
  map id (fst g) = seq n glen ->
  map id (step_inst c g i) = expand_ids c n glen erase (id i).
Proof.
  intros Hg. unfold step_inst, expand_ids, retire.
  destruct (id i =? c); [| reflexivity].
  rewrite map_app, map_map.
  rewrite (map_ext _ id) by reflexivity. rewrite Hg.
  destruct erase; reflexivity.
Qed.

Lemma wf_step (c : nat) (g : list Instruction * Value) (m : Module) :
  wf m -> map id (fst g) = seq (next_id m) (List.length (fst g)) ->
  wf (set_next_id (next_id m + List.length (fst g))
        (lift (step_inst c g) m)).
Proof.
  intros [Hnd Hlt] Hg. unfold wf.
  set (glen := List.length (fst g)) in *.
  assert (E : map id (insts (set_next_id (next_id m + glen)
                               (lift (step_inst c g) m)))
              = flat_map (expand_ids c (next_id m) glen erase)
                  (map id (insts m))).
  { change (insts (set_next_id (next_id m + glen) (lift (step_inst c g) m)))
      with (insts (lift (step_inst c g) m)).
    rewrite insts_lift, map_flat_map, flat_map_map.
    apply flat_map_ext. intros i. apply step_inst_ids. exact Hg. }
  destruct (expand_ids_wf c (next_id m) glen erase (map id (insts m)))
    as [H1 H2]; [exact Hnd | |].
  { rewrite Forall_map. exact Hlt. }
  split.
  - rewrite E. exact H1.
  - rewrite <- E in H2. rewrite Forall_map in H2. exact H2.
Qed.

Lemma subst_inst_id (i : Instruction) : subst_inst (fun v => v) i = i.
Proof.
  unfold subst_inst, set_operands. rewrite map_id. destruct i; reflexivity.
Qed.

Lemma subst_replace (theta : Value -> Value) (c : nat) (r : Value)
    (i : Instruction) :
  subst_inst theta (replace_in_inst c r i)
  = subst_inst (fun v => theta (replace_operand c r v)) i.
Proof.
  unfold subst_inst, replace_in_inst, set_operands; simpl.
  rewrite map_map. reflexivity.
Qed.

Lemma replace_operand_self (c : nat) (r : Value) :
  replace_operand c r r = r.
Proof.
  unfold replace_operand. destruct (Value_eq_dec r (VInst c)); reflexivity.
Qed.

Lemma replace_operand_other (c : nat) (r v : Value) :
  v <> VInst c -> replace_operand c r v = v.
Proof.
  intros H. unfold replace_operand.
  destruct (Value_eq_dec v (VInst c)); [contradiction | reflexivity].
Qed.

Lemma final_not_caller (cs : list nat) (start : nat -> nat)
    (theta : Value -> Value) (l : list Instruction) :
  (forall x, In x l -> ~ In (id x) cs) ->
  flat_map (final cs start theta) l = map (subst_inst theta) l.
Proof.
  induction l as [| a l IH]; intros H; simpl; [reflexivity |].
  unfold final at 1. rewrite index_of_None by (apply H; left; reflexivity).
  simpl. rewrite IH; [reflexivity |]. intros x Hx. apply H. right. exact Hx.
Qed.

Lemma index_of_mem (k : nat) (cs : list nat) :
  In k cs -> exists n, index_of k cs = Some n.
Proof.
  intros H. destruct (index_of_In k cs H) as (n & Hn & _). eauto.
Qed.

Theorem loop_spec : forall cs m,
  NoDup cs -> wf m ->
  (forall c, In c cs ->
     exists i, In i (insts m) /\ id i = c /\ ok i = true /\
               forall c', In c' cs -> sep c' i) ->
  exists theta start N,
    loop cs m = Done (set_next_id N (lift (final cs start theta) m)) /\
    wf (set_next_id N (lift (final cs start theta) m)) /\
    next_id m <= N /\
    (forall i, In i (insts m) -> In (id i) cs ->
       next_id m <= start (id i) /\
       start (id i) + List.length (fst (gen (start (id i)) i)) <= N) /\
    ((forall n i, fst (gen n i) = []) -> N = next_id m) /\
    (forall v, (forall c, In c cs -> v <> VInst c) -> theta v = v) /\
    (forall i, In i (insts m) -> In (id i) cs ->
       theta (VInst (id i)) = theta (snd (gen (start (id i)) i))) /\
    (forall v, theta v = v \/
       exists i, In i (insts m) /\ In (id i) cs /\
                 theta v = snd (gen (start (id i)) i)).
Proof.
  induction cs as [| c cs IH]; intros m Hnd Hwf Hcs.
  - exists (fun v => v), (fun _ => 0), (next_id m).
    assert (E : set_next_id (next_id m)
                  (lift (final [] (fun _ => 0) (fun v => v)) m) = m).
    { rewrite (lift_ext _ (fun i => [i])), lift_id, set_next_id_same;
        [reflexivity |].
      intros i _. unfold final. simpl. rewrite subst_inst_id. reflexivity. }
    rewrite E.
    split; [reflexivity |]. split; [exact Hwf |]. split; [lia |].
    split; [intros i _ [] |]. split; [reflexivity |].
    split; [reflexivity |]. split; [intros i _ [] | left; reflexivity].
  - destruct (Hcs c (in_eq c cs)) as (ic & Hic & Hidc & Hokc & Hsepc).
    inversion Hnd as [| ? ? Hc Hnd']; subst.
    set (n := next_id m) in *.
    set (g := gen n ic) in *.
    set (m1 := set_next_id (n + List.length (fst g))
                 (lift (step_inst (id ic) g) m)).
    assert (Hstep : step (id ic) m = Done m1)
      by (apply step_spec; auto).
    assert (Hwf1 : wf m1) by (apply wf_step; [exact Hwf | apply gen_ids]).
    assert (Hgood : good (snd g)) by (apply gen_good; exact Hokc).
    assert (Hlt : forall c', In c' cs -> c' < n).
    { intros c' Hc'.
      destruct (Hcs c' (in_cons _ _ _ Hc')) as (i & Hi & E & _).
      destruct Hwf as [_ Hall]. rewrite Forall_forall in Hall.
      subst c'. apply Hall. exact Hi. }
    assert (Hicn : id ic < n).
    { destruct Hwf as [_ Hall]. rewrite Forall_forall in Hall.
      apply Hall. exact Hic. }
    assert (Hcaller : forall i, In i (insts m) -> In (id i) (id ic :: cs) ->
              ok i = true /\ forall c', In c' (id ic :: cs) -> sep c' i).
    { intros i Hi Hin. destruct (Hcs (id i) Hin) as (j & Hj & E & Hok & Hs).
      assert (j = i) by (apply (same_id_same_inst m j i Hwf Hj Hi E)).
      subst j. auto. }
    assert (Hin1 : forall i, In i (insts m) -> id i <> id ic ->
                             In (replace_in_inst (id ic) (snd g) i) (insts m1)).
    { intros i Hi Hne. unfold m1.
      change (insts (set_next_id (n + List.length (fst g))
                       (lift (step_inst (id ic) g) m)))
        with (insts (lift (step_inst (id ic) g) m)).
      rewrite insts_lift. apply in_flat_map. exists i. split; [exact Hi |].
      unfold step_inst. destruct (Nat.eqb_spec (id i) (id ic)); [contradiction |].
      left. reflexivity. }
    assert (Hback : forall i1, In i1 (insts m1) -> In (id i1) cs ->
              exists i, In i (insts m) /\ id i <> id ic /\
                        i1 = replace_in_inst (id ic) (snd g) i).
    { intros i1 Hi1 Hcs1. unfold m1 in Hi1.
      change (insts (set_next_id (n + List.length (fst g))
                       (lift (step_inst (id ic) g) m)))
        with (insts (lift (step_inst (id ic) g) m)) in Hi1.
      rewrite insts_lift in Hi1. apply in_flat_map in Hi1.
      destruct Hi1 as (i0 & Hi0 & Hin). unfold step_inst in Hin.
      destruct (Nat.eqb_spec (id i0) (id ic)) as [E | E].
      - exfalso. apply in_app_or in Hin. destruct Hin as [Hin | Hin].
        + apply in_map_iff in Hin. destruct Hin as (x0 & <- & Hx0).
          simpl in Hcs1. apply Hlt in Hcs1.
          assert (In (id x0) (map id (fst g)))
            by (apply in_map; exact Hx0).
          unfold g in H. rewrite gen_ids in H. apply in_seq in H. lia.
        + unfold retire in Hin. destruct erase; [destruct Hin |].
          destruct Hin as [<- | []]. simpl in Hcs1. rewrite E in Hcs1.
          contradiction.
      - destruct Hin as [<- | []]. exists i0. auto. }
    destruct (IH m1 Hnd' Hwf1)
      as (theta' & start' & N & Hloop & HwfN & HN & Hstart & Hnone & Hfix
          & Hval & Hrange).
    { intros c' Hc'.
      destruct (Hcs c' (in_cons _ _ _ Hc')) as (i & Hi & E & Hok & Hs).
      exists (replace_in_inst (id ic) (snd g) i). split; [| split; [| split]].
      - apply Hin1; [exact Hi |]. intros E'. apply Hc. congruence.
      - exact E.
      - rewrite ok_replace. exact Hok.
      - intros c'' Hc''. apply sep_replace.
        + apply Hs. left. reflexivity.
        + apply Hs. right. exact Hc''. }
    change (next_id m1) with (n + List.length (fst g)) in *.
    set (theta := fun v => theta' (replace_operand (id ic) (snd g) v)).
    set (start := fun c' => if c' =? id ic then n else start' c').
    assert (Hs_other : forall i, In i (insts m) -> In (id i) cs ->
              start (id i) = start' (id i) /\ id ic < start' (id i) /\
              gen (start' (id i)) (replace_in_inst (id ic) (snd g) i)
              = (map (replace_in_inst (id ic) (snd g))
                   (fst (gen (start' (id i)) i)),
                 replace_operand (id ic) (snd g)
                   (snd (gen (start' (id i)) i)))).
    { intros i Hi Hin.
      assert (Hne : id i <> id ic) by (intros E; apply Hc; congruence).
      assert (Hi1 := Hin1 i Hi Hne).
      destruct (Hstart _ Hi1 Hin) as [Hs1 _]. simpl id in Hs1.
      split; [| split].
      - unfold start. destruct (Nat.eqb_spec (id i) (id ic));
          [contradiction | reflexivity].
      - lia.
      - apply gen_natural; [lia | exact Hgood |].
        apply (Hcaller i Hi (or_intror Hin)). left. reflexivity. }
    assert (Heq : set_next_id N (lift (final cs start' theta') m1)
                  = set_next_id N
                      (lift (final (id ic :: cs) start theta) m)).
    { unfold m1. rewrite lift_set_next_id, set_next_id_twice, lift_lift.
      f_equal. apply lift_ext. intros i Hi.
      unfold step_inst. destruct (Nat.eqb_spec (id i) (id ic)) as [E | E].
      * assert (i = ic) by (apply (same_id_same_inst m i ic Hwf Hi Hic E)).
        subst i.
        rewrite flat_map_app.
        rewrite final_not_caller.
        2:{ intros x Hx. apply in_map_iff in Hx.
            destruct Hx as (x0 & <- & Hx0). simpl. intros Hcs'.
            apply Hlt in Hcs'.
            assert (In (id x0) (map id (fst g))) by (apply in_map; exact Hx0).
            unfold g in H. rewrite gen_ids in H. apply in_seq in H. lia. }
        rewrite final_not_caller.
        2:{ intros x Hx. unfold retire in Hx. destruct erase; [destruct Hx |].
            destruct Hx as [<- | []]. exact Hc. }
        unfold final. simpl index_of. rewrite Nat.eqb_refl.
        unfold start at 1. rewrite Nat.eqb_refl. fold g.
        rewrite map_map. f_equal.
        -- apply map_ext. intros x. apply subst_replace.
        -- unfold retire. destruct erase; [reflexivity |]. simpl.
           rewrite subst_replace. reflexivity.
      * simpl. rewrite app_nil_r. unfold final. simpl id. simpl index_of.
        destruct (Nat.eqb_spec (id ic) (id i)) as [E' | _]; [congruence |].
        destruct (index_of (id i) cs) as [k |] eqn:Ek; simpl.
        -- destruct (Hs_other i Hi (index_of_Some _ _ _ Ek))
             as (Hs1 & _ & Hnat).
           rewrite Hs1, Hnat. simpl fst.
           rewrite map_map. f_equal.
           ++ apply map_ext. intros x. apply subst_replace.
           ++ unfold retire. destruct erase; [reflexivity |].
              rewrite subst_replace. reflexivity.
        -- rewrite subst_replace. reflexivity. }
    exists theta, start, N.
    split; [| split; [| split; [| split; [| split; [| split; [| split]]]]]].
    + simpl loop. rewrite Hstep. simpl obind. rewrite Hloop. f_equal.
      exact Heq.
    + rewrite <- Heq. exact HwfN.
    + lia.
    + intros i Hi [E | Hin].
      * assert (i = ic)
          by (apply (same_id_same_inst m i ic Hwf Hi Hic (eq_sym E))).
        subst i. unfold start. rewrite Nat.eqb_refl. fold g. lia.
      * destruct (Hs_other i Hi Hin) as (Hs1 & _ & Hnat).
        assert (Hne : id i <> id ic) by (intros E; apply Hc; congruence).
        destruct (Hstart _ (Hin1 i Hi Hne) Hin) as [Ha Hb].
        simpl id in Ha, Hb. rewrite Hnat in Hb. simpl fst in Hb.
        rewrite length_map in Hb. rewrite Hs1. lia.
    + intros Hno. rewrite (Hnone Hno). unfold g. rewrite Hno. simpl. lia.
    + intros v Hv. unfold theta. rewrite replace_operand_other.
      * apply Hfix. intros c' Hc'. apply Hv. right. exact Hc'.
      * apply Hv. left. reflexivity.
    + intros i Hi [E | Hin].
      * assert (i = ic)
          by (apply (same_id_same_inst m i ic Hwf Hi Hic (eq_sym E))).
        subst i. unfold start. rewrite Nat.eqb_refl. fold g.
        unfold theta. rewrite replace_operand_self. unfold replace_operand.
        destruct (Value_eq_dec (VInst (id ic)) (VInst (id ic)));
          [reflexivity | congruence].
      * destruct (Hs_other i Hi Hin) as (Hs1 & _ & Hnat).
        assert (Hne : id i <> id ic) by (intros E; apply Hc; congruence).
        unfold theta. rewrite replace_operand_other by congruence.
        specialize (Hval _ (Hin1 i Hi Hne) Hin). simpl id in Hval.
        rewrite Hval, Hnat, Hs1. reflexivity.
    + intros v.
      assert (Hfirst : exists i, In i (insts m) /\ In (id i) (id ic :: cs) /\
                snd g = snd (gen (start (id i)) i)).
      { exists ic. split; [exact Hic |]. split; [left; reflexivity |].
        unfold start. rewrite Nat.eqb_refl. reflexivity. }
      unfold theta.
      destruct (Hrange (replace_operand (id ic) (snd g) v))
        as [Hsame | (i1 & Hi1 & Hcs1 & Hv)].
      * rewrite Hsame. unfold replace_operand.
        destruct (Value_eq_dec v (VInst (id ic))); [right | left; reflexivity].
        exact Hfirst.
      * right. rewrite Hv.
        destruct (Hback i1 Hi1 Hcs1) as (i0 & Hi0 & Hne & ->).
        simpl id in *.
        destruct (Hs_other i0 Hi0 Hcs1) as (Hs1 & _ & Hnat).
        rewrite Hnat. simpl snd. unfold replace_operand.
        destruct (Value_eq_dec (snd (gen (start' (id i0)) i0))
                    (VInst (id ic))); [exact Hfirst |].
        exists i0. split; [exact Hi0 |]. split; [right; exact Hcs1 |].
        rewrite Hs1. reflexivity.
Qed.

End Loop.

(** *** Callers *)

(** In every call of [name], the function is the callee and is not passed
    among the arguments. *)
Definition called_directly (name : string) (m : Module) : Prop :=
  forall i, In i (insts m) -> calls name i = true ->
    count_occ Value_eq_dec (operands i) (VConst (CFunction name)) = 1.

(** Every call of [name] has more than [k] arguments. *)
Definition has_argument (name : string) (k : nat) (m : Module) : Prop :=
  forall i, In i (insts m) -> calls name i = true ->
    k < List.length (operands i) - 1.

Lemma CallersOf_filter (name : string) (m : Module) :
  called_directly name m ->
  CallersOf name m = rev (map id (filter (calls name) (insts m))).
Proof.
  unfold called_directly, CallersOf. intros H. f_equal. revert H.
  induction (insts m) as [| a l IH]; intros H; simpl; [reflexivity |].
  rewrite IH by (intros i Hi; apply H; right; exact Hi).
  destruct (calls name a) eqn:E; [| reflexivity].
  rewrite (H a (or_introl eq_refl) E). reflexivity.
Qed.

Lemma selected_ids_NoDup (keep : Instruction -> bool)
    (body : list Instruction) :
  NoDup (map id body) -> NoDup (map id (filter keep body)).
Proof.
  intros Hnd. induction body as [| a rest IH]; simpl; [constructor |].
  simpl in Hnd. apply NoDup_cons_iff in Hnd. destruct Hnd as [Ha Hrest].
  destruct (keep a); simpl; [| apply IH; exact Hrest].
  apply NoDup_cons; [| apply IH; exact Hrest].
  intros Hin. apply Ha. apply in_map_iff in Hin.
  destruct Hin as (x & Hx & Hxin). apply filter_In in Hxin.
  rewrite <- Hx. apply in_map. tauto.
Qed.

Lemma In_callers (name : string) (m : Module) (c : nat) :
  called_directly name m ->
  (In c (CallersOf name m) <->
   exists i, In i (insts m) /\ calls name i = true /\ id i = c).
Proof.
  intros H. rewrite CallersOf_filter by exact H.
  rewrite <- in_rev, in_map_iff. split.
  - intros (i & E & Hi). apply filter_In in Hi. exists i. tauto.
  - intros (i & Hi & Hc & E). exists i. split; [exact E |].
    apply filter_In. tauto.
Qed.

Lemma NoDup_callers (name : string) (m : Module) :
  wf m -> called_directly name m -> NoDup (CallersOf name m).
Proof.
  intros [H _] Hd. rewrite CallersOf_filter by exact Hd.
  apply NoDup_rev. apply selected_ids_NoDup. exact H.
Qed.

Lemma index_of_caller (name : string) (m : Module) (i : Instruction) :
  wf m -> called_directly name m -> In i (insts m) ->
  calls name i = true ->
  exists k, index_of (id i) (CallersOf name m) = Some k.
Proof.
  intros Hwf Hd Hi Hc.
  destruct (index_of_In (id i) (CallersOf name m)) as (k & Hk & _).
  - apply In_callers; [exact Hd |]. exists i. tauto.
  - exists k. exact Hk.
Qed.

Lemma index_of_not_caller (name : string) (m : Module) (i : Instruction) :
  wf m -> called_directly name m -> In i (insts m) ->
  calls name i = false ->
  index_of (id i) (CallersOf name m) = None.
Proof.
  intros Hwf Hd Hi Hc. apply index_of_None. intros Hin.
  apply In_callers in Hin; [| exact Hd].
  destruct Hin as (j & Hj & Hcj & E).
  assert (j = i) by (apply (same_id_same_inst m j i Hwf Hj Hi E)).
  congruence.
Qed.

Lemma caller_of_index (name : string) (m : Module) (i : Instruction)
    (k : nat) :
  wf m -> called_directly name m -> In i (insts m) ->
  index_of (id i) (CallersOf name m) = Some k ->
  calls name i = true.
Proof.
  intros Hwf Hd Hi Hk. destruct (calls name i) eqn:E; [reflexivity |].
  rewrite (index_of_not_caller name m i Hwf Hd Hi E) in Hk. discriminate.
Qed.

Lemma caller_of_member (name : string) (m : Module) (i : Instruction) :
  wf m -> called_directly name m -> In i (insts m) ->
  In (id i) (CallersOf name m) -> calls name i = true.
Proof.
  intros Hwf Hd Hi Hin. apply In_callers in Hin; [| exact Hd].
  destruct Hin as (j & Hj & Hcj & E).
  assert (j = i) by (apply (same_id_same_inst m j i Hwf Hj Hi E)).
  congruence.
Qed.

Lemma member_of_caller (name : string) (m : Module) (i : Instruction) :
  called_directly name m -> In i (insts m) -> calls name i = true ->
  In (id i) (CallersOf name m).
Proof.
  intros Hd Hi Hc. apply In_callers; [exact Hd |]. exists i. tauto.
Qed.

Lemma calls_shape (name : string) (i : Instruction) :
  calls name i = true ->
  opcode i = Call /\
  operands i = removelast (operands i) ++ [VConst (CFunction name)].
Proof.
  unfold calls, getCalledFunction. intros H.
  destruct (opcode i); try discriminate. split; [reflexivity |].
  destruct (last (operands i) (VArg 0)) as [| | c] eqn:El; try discriminate.
  destruct c; try discriminate.
  destruct (operands i) as [| v l] eqn:Eo; [discriminate |].
  apply String.eqb_eq in H. subst name0.
  rewrite <- El. apply app_removelast_last. discriminate.
Qed.

(** An argument of a call of [name] that is called directly is not [name]
    itself. *)
Lemma argument_not_callee (name : string) (i : Instruction) (k : nat)
    (d : Value) :
  calls name i = true ->
  count_occ Value_eq_dec (operands i) (VConst (CFunction name)) = 1 ->
  k < List.length (operands i) - 1 ->
  nth k (operands i) d <> VConst (CFunction name).
Proof.
  intros Hc Hn Hk. destruct (calls_shape name i Hc) as [_ E].
  rewrite E in Hn, Hk |- *.
  rewrite count_occ_app in Hn.
  rewrite (count_occ_cons_eq Value_eq_dec _ eq_refl) in Hn.
  change (count_occ Value_eq_dec [] (VConst (CFunction name))) with 0 in Hn.
  rewrite length_app in Hk. simpl in Hk.
  rewrite app_nth1 by lia.
  intros Heq.
  assert (Hin : In (VConst (CFunction name)) (removelast (operands i))).
  { rewrite <- Heq. apply nth_In. lia. }
  apply (count_occ_In Value_eq_dec) in Hin. lia.
Qed.

Lemma last_map_nonempty {A B} (f : A -> B) (l : list A) (d : A) (d' : B) :
  l <> [] -> last (map f l) d' = f (last l d).
Proof.
  induction l as [| a l IH]; intros H; [congruence |].
  destruct l as [| b l]; [reflexivity |].
  change (last (map f (a :: b :: l)) d') with (last (map f (b :: l)) d').
  change (last (a :: b :: l) d) with (last (b :: l) d).
  apply IH. discriminate.
Qed.

(** Rewriting the operands of an instruction that is not a call of [name]
    does not make it one, as long as no operand becomes the function. *)
Lemma calls_subst_false (name : string) (theta : Value -> Value)
    (i : Instruction) :
  calls name i = false ->
  (forall v, theta v = v \/ theta v <> VConst (CFunction name)) ->
  calls name (subst_inst theta i) = false.
Proof.
  unfold calls, getCalledFunction, subst_inst. simpl. intros H Htheta.
  destruct (opcode i); try reflexivity.
  destruct (operands i) as [| v l] eqn:Eo; [reflexivity |].
  rewrite <- Eo in *.
  assert (Hne : operands i <> []) by (rewrite Eo; discriminate).
  rewrite (last_map_nonempty theta (operands i) (VArg 0) (VArg 0) Hne).
  destruct (Htheta (last (operands i) (VArg 0))) as [E | E].
  - rewrite E. rewrite Eo in H |- *. simpl map. exact H.
  - destruct (theta (last (operands i) (VArg 0))) as [| | c]; try reflexivity.
    destruct c; try reflexivity.
    rewrite Eo. simpl. apply String.eqb_neq. congruence.
Qed.

(** Checks of the three conditions above, to run on a given module. *)
Fixpoint nodupb (l : list nat) : bool :=
  match l with
  | [] => true
  | x :: rest => negb (existsb (Nat.eqb x) rest) && nodupb rest
  end.

Definition wfb (m : Module) : bool :=
  nodupb (map id (insts m))
  && forallb (fun i => id i <? next_id m) (insts m).

Definition called_directlyb (name : string) (m : Module) : bool :=
  forallb
    (fun i =>
       implb (calls name i)
             (count_occ Value_eq_dec (operands i) (VConst (CFunction name))
              =? 1))
    (insts m).

Definition has_argumentb (name : string) (k : nat) (m : Module) : bool :=
  forallb
    (fun i => implb (calls name i) (k <? List.length (operands i) - 1))
    (insts m).

Lemma NoDup_nodupb (l : list nat) : NoDup l -> nodupb l = true.
Proof.
  induction 1 as [| x l Hx _ IH]; simpl; [reflexivity |].
  rewrite IH, andb_true_r. apply negb_true_iff.
  destruct (existsb (Nat.eqb x) l) eqn:E; [| reflexivity].
  apply existsb_exists in E. destruct E as (y & Hy & Exy).
  apply Nat.eqb_eq in Exy. subst y. contradiction.
Qed.

Lemma nodupb_NoDup (l : list nat) : nodupb l = true -> NoDup l.
Proof.
  induction l as [| x l IH]; simpl; intros H; [constructor |].
  apply andb_true_iff in H. destruct H as [Hx Hl].
  constructor; [| apply IH; exact Hl].
  intros Hin. apply negb_true_iff in Hx.
  assert (existsb (Nat.eqb x) l = true); [| congruence].
  apply existsb_exists. exists x. split; [exact Hin | apply Nat.eqb_refl].
Qed.

Lemma wfb_wf (m : Module) : wfb m = true -> wf m.
Proof.
  unfold wfb, wf. intros H. apply andb_true_iff in H. destruct H as [H1 H2].
  split; [apply nodupb_NoDup; exact H1 |].
  apply Forall_forall. intros i Hi.
  rewrite forallb_forall in H2. apply Nat.ltb_lt. apply H2. exact Hi.
Qed.

Lemma called_directlyb_ok (name : string) (m : Module) :
  called_directlyb name m = true -> called_directly name m.
Proof.
  unfold called_directlyb, called_directly. intros H i Hi Hc.
  rewrite forallb_forall in H. specialize (H i Hi). rewrite Hc in H.
  apply Nat.eqb_eq. exact H.
Qed.

Lemma has_argumentb_ok (name : string) (k : nat) (m : Module) :
  has_argumentb name k m = true -> has_argument name k m.
Proof.
  unfold has_argumentb, has_argument. intros H i Hi Hc.
  rewrite forallb_forall in H. specialize (H i Hi). rewrite Hc in H.
  apply Nat.ltb_lt. exact H.
Qed.

Lemma getArgOperand_Done (i : Instruction) (k : nat) :
  k < List.length (operands i) - 1 ->
  getArgOperand i k = Done (nth k (operands i) (VArg 0)).
Proof.
  intros H. unfold getArgOperand.
  destruct (Nat.ltb_spec k (List.length (operands i) - 1)); [| lia].
  destruct (nth_error (operands i) k) as [v |] eqn:E.
  - rewrite (nth_error_nth _ _ _ E). reflexivity.
  - apply nth_error_None in E. lia.
Qed.

Lemma nth_replace (c : nat) (r : Value) (k : nat) (l : list Value) :
  nth k (map (replace_operand c r) l) (VArg 0)
  = replace_operand c r (nth k l (VArg 0)).
Proof.
  change (VArg 0) with (replace_operand c r (VArg 0)) at 1.
  apply map_nth.
Qed.

Lemma no_calls_no_callers (name : string) (m : Module) :
  (forall i, In i (insts m) -> calls name i = false) ->
  CallersOf name m = [].
Proof.
  unfold CallersOf. induction (insts m) as [| a l IH]; intros H; simpl;
    [reflexivity |].
  rewrite (H a (or_introl eq_refl)). simpl.
  apply IH. intros i Hi. apply H. right. exact Hi.
Qed.

(** *** Barriers *)

(** The operations of a list, one after the other, as long as they
    complete. *)
Definition in_order (ops : list (Module -> Outcome Module)) (m : Module)
    : Outcome Module :=
  fold_left (fun o op => obind o op) ops (Done m).

Section Barrier.

Variable kMemoryPointerArgNum : nat.

Definition barrier_gen (n : nat) (i : Instruction)
    : list Instruction * Value :=
  ([], nth kMemoryPointerArgNum (operands i) (VArg 0)).

Definition barrier_ok (i : Instruction) : bool :=
  kMemoryPointerArgNum <? List.length (operands i) - 1.

Definition barrier_step (call_inst : nat) (m : Module) : Outcome Module :=
  match find_inst call_inst m with
  | None => Undefined
  | Some i =>
      obind (getArgOperand i kMemoryPointerArgNum) (fun mem_ptr =>
      Done (eraseFromParent call_inst
              (replaceAllUsesWith call_inst mem_ptr m)))
  end.

Lemma ReplaceBarrier_loop_is_loop (cs : list nat) : forall m,
  ReplaceBarrier_loop kMemoryPointerArgNum cs m = loop barrier_step cs m.
Proof.
  induction cs as [| c cs IH]; intros m; simpl; [reflexivity |].
  unfold barrier_step. destruct (find_inst c m) as [i |]; [| reflexivity].
  destruct (getArgOperand i kMemoryPointerArgNum); simpl;
    [apply IH | reflexivity | reflexivity].
Qed.

Lemma barrier_step_spec (c : nat) (m : Module) (i : Instruction) :
  wf m -> In i (insts m) -> id i = c -> barrier_ok i = true ->
  barrier_step c m =
  Done (set_next_id
          (next_id m + List.length (fst (barrier_gen (next_id m) i)))
          (lift (step_inst true c (barrier_gen (next_id m) i)) m)).
Proof.
  intros Hwf Hi Hc Hok. unfold barrier_step. subst c.
  rewrite (find_inst_unique m i Hwf Hi).
  apply Nat.ltb_lt in Hok. rewrite getArgOperand_Done by exact Hok.
  simpl obind. f_equal.
  rewrite replaceAllUsesWith_lift, eraseFromParent_lift, lift_lift.
  simpl List.length. rewrite Nat.add_0_r.
  transitivity (lift (step_inst true (id i) (barrier_gen (next_id m) i)) m).
  - apply lift_ext. intros j _. unfold step_inst, barrier_gen, retire. simpl.
    destruct (id j =? id i); reflexivity.
  - destruct m; reflexivity.
Qed.

Lemma LowerBarriers_in_order (m : Module) :
  LowerBarriers kMemoryPointerArgNum m =
  in_order (map (ReplaceBarrier kMemoryPointerArgNum) barrier_names) m.
Proof.
  unfold LowerBarriers, in_order. simpl.
  repeat match goal with
         | |- context [ReplaceBarrier ?k ?n ?m'] =>
             destruct (ReplaceBarrier k n m'); simpl; try reflexivity
         end.
Qed.


End Barrier.

(** *** Memory reads and writes *)

(** The module without the instructions [ks]. *)
Definition erase_each (ks : list nat) (m : Module) : Module :=
  fold_left (fun m k => eraseFromParent k m) ks m.

Lemma erase_each_lift (cs : list nat) : forall m,
  erase_each cs m
  = lift (fun i => if existsb (Nat.eqb (id i)) cs then [] else [i]) m.
Proof.
  induction cs as [| c cs IH]; intros m; simpl.
  - symmetry. apply lift_id.
  - unfold erase_each in *. simpl.
    rewrite IH, eraseFromParent_lift, lift_lift. apply lift_ext.
    intros i _. destruct (id i =? c); simpl; [reflexivity |].
    rewrite app_nil_r. reflexivity.
Qed.

Definition present (k : nat) (m : Module) : Prop :=
  exists i, In i (insts m) /\ id i = k.

Lemma present_find_inst (k : nat) (m : Module) :
  present k m -> exists i, find_inst k m = Some i.
Proof.
  intros (i & Hi & E). destruct (find_inst k m) as [j |] eqn:Ef.
  - exists j. reflexivity.
  - exfalso. apply (find_inst_None k m Ef i Hi E).
Qed.

Lemma insts_eraseFromParent (k : nat) (m : Module) (i : Instruction) :
  In i (insts (eraseFromParent k m)) <-> In i (insts m) /\ id i <> k.
Proof.
  rewrite eraseFromParent_lift, insts_lift, in_flat_map. split.
  - intros (j & Hj & Hin). destruct (Nat.eqb_spec (id j) k) as [E | E];
      [destruct Hin |]. destruct Hin as [<- | []]. auto.
  - intros (Hi & E). exists i. split; [exact Hi |].
    destruct (Nat.eqb_spec (id i) k); [contradiction | left; reflexivity].
Qed.

(** Erasing instructions that are there, each of them once, erases them. *)
Lemma erase_all_Done : forall (ks : list nat) (m : Module),
  NoDup ks -> (forall k, In k ks -> present k m) ->
  erase_all ks m = Done (erase_each ks m).
Proof.
  induction ks as [| k ks IH]; intros m Hnd Hin; [reflexivity |].
  apply NoDup_cons_iff in Hnd. destruct Hnd as [Hk Hks].
  destruct (present_find_inst k m (Hin k (or_introl eq_refl))) as [i Ei].
  simpl. rewrite Ei. apply IH; [exact Hks |].
  intros k' Hk'. destruct (Hin k' (or_intror Hk')) as (j & Hj & Ej).
  exists j. split; [| exact Ej]. apply insts_eraseFromParent.
  split; [exact Hj |]. intros E. apply Hk. congruence.
Qed.

(** Erasing an instruction that is not there is not defined, wherever it is
    on the list. *)
Lemma erase_all_absent : forall (ks : list nat) (m : Module) (k : nat),
  In k ks -> (forall i, In i (insts m) -> id i <> k) ->
  erase_all ks m = Undefined.
Proof.
  induction ks as [| k0 ks IH]; intros m k Hin Habs; [destruct Hin |].
  simpl. destruct (find_inst k0 m) as [i0 |] eqn:Ef; [| reflexivity].
  destruct Hin as [-> | Hin].
  - apply find_inst_Some in Ef. destruct Ef as [Hi0 E0].
    exfalso. apply (Habs i0 Hi0 E0).
  - apply (IH _ k Hin). intros i Hi. apply insts_eraseFromParent in Hi.
    apply Habs. apply Hi.
Qed.

(** Erasing an instruction twice is not defined. *)
Lemma erase_all_twice : forall (ks : list nat) (m : Module),
  ~ NoDup ks -> erase_all ks m = Undefined.
Proof.
  induction ks as [| k ks IH]; intros m Hnd.
  - exfalso. apply Hnd. constructor.
  - simpl. destruct (find_inst k m) as [i |] eqn:Ef; [| reflexivity].
    destruct (in_dec Nat.eq_dec k ks) as [Hin | Hout].
    + apply (erase_all_absent ks _ k Hin). intros j Hj.
      apply insts_eraseFromParent in Hj. apply Hj.
    + apply IH. intros Hks. apply Hnd. constructor; assumption.
Qed.

(** A loop that does not erase the callers leaves them in the module. *)
Lemma final_keeps_callers
    (gen : nat -> Instruction -> list Instruction * Value)
    (cs : list nat) (start : nat -> nat) (n' : nat) (theta : Value -> Value)
    (m : Module) (c : nat) :
  present c m ->
  present c (set_next_id n' (lift (final gen false cs start theta) m)).
Proof.
  intros (i & Hi & E). exists (subst_inst theta i). split; [| exact E].
  change (In (subst_inst theta i)
            (insts (lift (final gen false cs start theta) m))).
  rewrite insts_lift. apply in_flat_map. exists i. split; [exact Hi |].
  unfold final, retire. destruct (index_of (id i) cs).
  - apply in_or_app. right. left. reflexivity.
  - left. reflexivity.
Qed.

Lemma existsb_index_of (k : nat) (cs : list nat) :
  existsb (Nat.eqb k) cs
  = match index_of k cs with Some _ => true | None => false end.
Proof.
  induction cs as [| c cs IH]; simpl; [reflexivity |].
  rewrite (Nat.eqb_sym k c). destruct (c =? k); simpl; [reflexivity |].
  rewrite IH. destruct (index_of k cs); reflexivity.
Qed.

Definition is_constant (v : Value) : bool :=
  match v with VConst _ => true | _ => false end.

(** The module with the instructions [l] right before instruction [k]: what
    a builder positioned at [k] has made of the module when it has built
    [l]. *)
Definition insert_before (k : nat) (l : list Instruction) (m : Module)
    : Module :=
  set_next_id (List.length l + next_id m)
    (lift (fun i => if id i =? k then l ++ [i] else [i]) m).

Lemma insert_before_nil (k : nat) (m : Module) : insert_before k [] m = m.
Proof.
  unfold insert_before. simpl.
  rewrite (lift_ext _ (fun i => [i])), lift_id, set_next_id_same;
    [reflexivity |].
  intros i _. destruct (id i =? k); reflexivity.
Qed.

Lemma insert_before_app (k : nat) (l1 l2 : list Instruction) (m : Module) :
  (forall x, In x l1 -> id x <> k) ->
  insert_before k l2 (insert_before k l1 m) = insert_before k (l1 ++ l2) m.
Proof.
  intros H. unfold insert_before.
  rewrite lift_set_next_id, set_next_id_twice, lift_lift. simpl next_id.
  rewrite length_app.
  replace (List.length l2 + (List.length l1 + next_id m))
    with (List.length l1 + List.length l2 + next_id m) by lia.
  f_equal. apply lift_ext. intros i _.
  assert (E : flat_map (fun i0 => if id i0 =? k then l2 ++ [i0] else [i0]) l1
              = l1).
  { clear -H. induction l1 as [| x l IH]; simpl; [reflexivity |].
    destruct (Nat.eqb_spec (id x) k) as [Ek | _];
      [exfalso; apply (H x); [left; reflexivity | exact Ek] |].
    simpl. rewrite IH; [reflexivity |].
    intros y Hy. apply H. right. exact Hy. }
  destruct (Nat.eqb_spec (id i) k) as [Ei | Ei].
  - rewrite flat_map_app, E. simpl.
    destruct (Nat.eqb_spec (id i) k); [| contradiction].
    rewrite app_nil_r, app_assoc. reflexivity.
  - simpl. destruct (Nat.eqb_spec (id i) k); [contradiction |].
    reflexivity.
Qed.

Lemma Insert_insert_before (k : nat) (op : Opcode) (t : Ty)
    (ops : list Value) (m : Module) :
  Insert k op t ops m
  = (VInst (next_id m),
     insert_before k
       [{| id := next_id m; opcode := op; ty := t; operands := ops |}] m).
Proof. reflexivity. Qed.

Lemma flat_map_single {A B} (f : A -> B) (l : list A) :
  flat_map (fun x => [f x]) l = map f l.
Proof.
  induction l as [| a l IH]; simpl; [| rewrite IH]; reflexivity.
Qed.

Lemma replaceAllUsesWith_insert_before (k : nat) (v : Value)
    (l : list Instruction) (m : Module) :
  replaceAllUsesWith k v (insert_before k l m)
  = set_next_id (next_id m + List.length l)
      (lift (step_inst false k (l, v)) m).
Proof.
  unfold insert_before.
  rewrite replaceAllUsesWith_lift, lift_set_next_id, lift_lift, Nat.add_comm.
  f_equal. apply lift_ext. intros i _. unfold step_inst, retire.
  simpl fst. simpl snd. destruct (id i =? k).
  - rewrite flat_map_single, map_app. reflexivity.
  - reflexivity.
Qed.

Lemma fresh_ids (l : list Instruction) (n k : nat) :
  map id l = seq n (List.length l) -> k < n ->
  forall x, In x l -> id x <> k.
Proof.
  intros E Hk x Hx.
  assert (H : In (id x) (map id l)) by (apply in_map; exact Hx).
  rewrite E in H. apply in_seq in H. lia.
Qed.

Lemma replace_fresh (c n : nat) (r : Value) :
  c < n -> replace_operand c r (VInst n) = VInst n.
Proof.
  intros H. apply replace_operand_other. intros E. inversion E. lia.
Qed.

Section MemOps.

Local Arguments Nat.eqb : simpl never.

Variable ConstantFolder_CreateCast : CastOp -> Constant -> Ty -> Constant.

Local Abbreviation CreateCast := (CreateCast ConstantFolder_CreateCast).
Local Abbreviation CreateIntToPtr :=
  (CreateIntToPtr ConstantFolder_CreateCast).
Local Abbreviation CreateFPTrunc := (CreateFPTrunc ConstantFolder_CreateCast).
Local Abbreviation CreateFPExt := (CreateFPExt ConstantFolder_CreateCast).
Local Abbreviation ReplaceMemReadOp_loop :=
  (ReplaceMemReadOp_loop ConstantFolder_CreateCast).
Local Abbreviation ReplaceMemWriteOp_loop :=
  (ReplaceMemWriteOp_loop ConstantFolder_CreateCast).
Local Abbreviation ReplaceMemReadOp :=
  (ReplaceMemReadOp ConstantFolder_CreateCast).
Local Abbreviation ReplaceMemWriteOp :=
  (ReplaceMemWriteOp ConstantFolder_CreateCast).
Local Abbreviation LowerMemOps := (LowerMemOps ConstantFolder_CreateCast).

(** What [CreateCast] builds for the value [v] of type [src], from identity
    [n] on, and the value it returns: nothing and [v] when [v] has the type
    asked for; nothing and the folded constant when [v] is a constant; one
    cast instruction and its result otherwise. *)
Definition cast_gen (op : CastOp) (src t : Ty) (n : nat) (v : Value)
    : list Instruction * Value :=
  if Ty_eqb src t then ([], v)
  else match v with
       | VConst c => ([], VConst (ConstantFolder_CreateCast op c t))
       | _ => ([{| id := n; opcode := Cast op; ty := t; operands := [v] |}],
               VInst n)
       end.

(** What [ReplaceMemReadOp] builds for a call of [func] with address
    argument [addr], from identity [n] on, and the value the uses of the
    call are replaced by: the pointer, the load, and for an 80-bit read the
    truncation to the intrinsic's return type. *)
Definition read_build (func : Function) (val_type : Ty) (n : nat)
    (addr : Value) : list Instruction * Value :=
  let ptr :=
    cast_gen IntToPtr (argument_type func 1) (PointerTy val_type) n addr in
  let k := List.length (fst ptr) + n in
  let load :=
    {| id := k; opcode := Load; ty := val_type; operands := [snd ptr] |} in
  let val :=
    if isX86_FP80Ty val_type
    then cast_gen FPTrunc val_type (fn_ret func) (S k) (VInst k)
    else ([], VInst k) in
  (fst ptr ++ load :: fst val, snd val).

(** What [ReplaceMemWriteOp] builds for a call of [func] with address
    argument [addr] and value argument [val]: the pointer, for an 80-bit
    write the extension of the value, and the store. *)
Definition write_build (func : Function) (val_type : Ty) (n : nat)
    (addr val : Value) : list Instruction :=
  let ptr :=
    cast_gen IntToPtr (argument_type func 1) (PointerTy val_type) n addr in
  let k := List.length (fst ptr) + n in
  let ext :=
    if isX86_FP80Ty val_type
    then cast_gen FPExt (argument_type func 2) val_type k val
    else ([], val) in
  fst ptr ++ fst ext
  ++ [{| id := List.length (fst ext) + k; opcode := Store; ty := VoidTy;
         operands := [snd ext; snd ptr] |}].

Lemma CreateCast_insert (k : nat) (op : CastOp) (v : Value) (src t : Ty)
    (m : Module) :
  CreateCast k op v src t m
  = (snd (cast_gen op src t (next_id m) v),
     insert_before k (fst (cast_gen op src t (next_id m) v)) m).
Proof.
  unfold Optimizer.CreateCast, cast_gen.
  destruct (Ty_eqb src t);
    [simpl; rewrite insert_before_nil; reflexivity |].
  destruct v; simpl; rewrite ?insert_before_nil; reflexivity.
Qed.

Lemma cast_gen_ids (op : CastOp) (src t : Ty) (n : nat) (v : Value) :
  map id (fst (cast_gen op src t n v))
  = seq n (List.length (fst (cast_gen op src t n v))).
Proof.
  unfold cast_gen. destruct (Ty_eqb src t); [reflexivity |].
  destruct v; reflexivity.
Qed.

Lemma cast_gen_length (op : CastOp) (src t : Ty) (n n' : nat) (v : Value) :
  List.length (fst (cast_gen op src t n v))
  = List.length (fst (cast_gen op src t n' v)).
Proof.
  unfold cast_gen. destruct (Ty_eqb src t); [reflexivity |].
  destruct v; reflexivity.
Qed.

(** A cast is built for [theta v] as it is for [v], when [theta] takes no
    value that is not a constant to a constant. *)
Lemma cast_gen_subst (theta : Value -> Value) (op : CastOp) (src t : Ty)
    (n : nat) (v : Value) :
  (forall c, theta (VConst c) = VConst c) ->
  (is_constant v = false -> is_constant (theta v) = false) ->
  theta (VInst n) = VInst n ->
  cast_gen op src t n (theta v)
  = (map (subst_inst theta) (fst (cast_gen op src t n v)),
     theta (snd (cast_gen op src t n v))).
Proof.
  intros Hc Hv Hn. unfold cast_gen.
  destruct (Ty_eqb src t); [reflexivity |].
  destruct v as [k | k | c].
  - specialize (Hv eq_refl).
    destruct (theta (VInst k)) eqn:E; try discriminate;
      unfold subst_inst; simpl; rewrite Hn, E; reflexivity.
  - specialize (Hv eq_refl).
    destruct (theta (VArg k)) eqn:E; try discriminate;
      unfold subst_inst; simpl; rewrite Hn, E; reflexivity.
  - rewrite Hc. simpl. rewrite Hc. reflexivity.
Qed.

Lemma read_build_ids (func : Function) (val_type : Ty) (n : nat)
    (addr : Value) :
  map id (fst (read_build func val_type n addr))
  = seq n (List.length (fst (read_build func val_type n addr))).
Proof.
  unfold read_build, cast_gen.
  destruct (Ty_eqb (argument_type func 1) (PointerTy val_type));
    [| destruct addr];
    (destruct (isX86_FP80Ty val_type);
     [destruct (Ty_eqb val_type (fn_ret func)) |]); reflexivity.
Qed.

Lemma write_build_ids (func : Function) (val_type : Ty) (n : nat)
    (addr val : Value) :
  map id (write_build func val_type n addr val)
  = seq n (List.length (write_build func val_type n addr val)).
Proof.
  unfold write_build, cast_gen.
  destruct (Ty_eqb (argument_type func 1) (PointerTy val_type));
    [| destruct addr];
    (destruct (isX86_FP80Ty val_type);
     [destruct (Ty_eqb (argument_type func 2) val_type);
      [| destruct val] |]); reflexivity.
Qed.

Lemma read_build_value (func : Function) (val_type : Ty) (n : nat)
    (addr : Value) :
  exists k, n <= k /\ snd (read_build func val_type n addr) = VInst k.
Proof.
  unfold read_build. simpl snd.
  set (k := List.length _ + n).
  destruct (isX86_FP80Ty val_type).
  - unfold cast_gen. destruct (Ty_eqb val_type (fn_ret func)); simpl.
    + exists k. split; [unfold k; lia | reflexivity].
    + exists (S k). split; [unfold k; lia | reflexivity].
  - exists k. split; [unfold k; lia | reflexivity].
Qed.

Lemma read_build_subst (theta : Value -> Value) (func : Function)
    (val_type : Ty) (n : nat) (addr : Value) :
  (forall c, theta (VConst c) = VConst c) ->
  (is_constant addr = false -> is_constant (theta addr) = false) ->
  (forall k, n <= k -> theta (VInst k) = VInst k) ->
  read_build func val_type n (theta addr)
  = (map (subst_inst theta) (fst (read_build func val_type n addr)),
     theta (snd (read_build func val_type n addr))).
Proof.
  intros Hc Hv Hn. unfold read_build.
  rewrite (cast_gen_subst theta IntToPtr _ _ n addr Hc Hv (Hn n (le_n n))).
  simpl fst. simpl snd. rewrite length_map.
  set (ptr := cast_gen IntToPtr _ _ n addr).
  set (k := List.length (fst ptr) + n).
  assert (Hk : theta (VInst k) = VInst k) by (apply Hn; unfold k; lia).
  destruct (isX86_FP80Ty val_type).
  - rewrite <- Hk at 1 2.
    rewrite (cast_gen_subst theta FPTrunc _ _ (S k) (VInst k) Hc).
    + simpl fst. simpl snd. rewrite map_app. reflexivity.
    + intros _. rewrite Hk. reflexivity.
    + apply Hn. unfold k. lia.
  - simpl. rewrite map_app, Hk. reflexivity.
Qed.

Lemma write_build_subst (theta : Value -> Value) (func : Function)
    (val_type : Ty) (n : nat) (addr val : Value) :
  (forall c, theta (VConst c) = VConst c) ->
  (is_constant addr = false -> is_constant (theta addr) = false) ->
  (is_constant val = false -> is_constant (theta val) = false) ->
  (forall k, n <= k -> theta (VInst k) = VInst k) ->
  write_build func val_type n (theta addr) (theta val)
  = map (subst_inst theta) (write_build func val_type n addr val).
Proof.
  intros Hc Ha Hv Hn. unfold write_build.
  rewrite (cast_gen_subst theta IntToPtr _ _ n addr Hc Ha (Hn n (le_n n))).
  simpl fst. simpl snd. rewrite length_map.
  set (ptr := cast_gen IntToPtr _ _ n addr).
  set (k := List.length (fst ptr) + n).
  destruct (isX86_FP80Ty val_type).
  - rewrite (cast_gen_subst theta FPExt _ _ k val Hc Hv).
    + simpl fst. simpl snd. rewrite length_map, !map_app. reflexivity.
    + apply Hn. unfold k. lia.
  - simpl. rewrite map_app. reflexivity.
Qed.

Lemma read_build_no_call (func : Function) (val_type : Ty) (n : nat)
    (addr : Value) (x : Instruction) :
  In x (fst (read_build func val_type n addr)) -> isa_CallInst x = false.
Proof.
  unfold read_build, cast_gen.
  (destruct (Ty_eqb (argument_type func 1) (PointerTy val_type));
   [| destruct addr]);
    (destruct (isX86_FP80Ty val_type);
     [destruct (Ty_eqb val_type (fn_ret func)) |]);
    simpl; intros H; repeat destruct H as [<- | H]; try reflexivity;
    destruct H.
Qed.

Lemma write_build_no_call (func : Function) (val_type : Ty) (n : nat)
    (addr val : Value) (x : Instruction) :
  In x (write_build func val_type n addr val) -> isa_CallInst x = false.
Proof.
  unfold write_build, cast_gen.
  (destruct (Ty_eqb (argument_type func 1) (PointerTy val_type));
   [| destruct addr]);
    (destruct (isX86_FP80Ty val_type);
     [destruct (Ty_eqb (argument_type func 2) val_type);
      [| destruct val] |]);
    simpl; intros H; repeat destruct H as [<- | H]; try reflexivity;
    destruct H.
Qed.

Variable func : Function.
Variable val_type : Ty.

Definition read_gen (n : nat) (i : Instruction) : list Instruction * Value :=
  read_build func val_type n (nth 1 (operands i) (VArg 0)).

Definition read_ok (i : Instruction) : bool :=
  1 <? List.length (operands i) - 1.

Definition read_step (call_inst : nat) (m : Module) : Outcome Module :=
  match find_inst call_inst m with
  | None => Undefined
  | Some i =>
      obind (getArgOperand i 1) (fun addr =>
      let '(ptr, m) :=
        CreateIntToPtr call_inst addr (argument_type func 1)
          (PointerTy val_type) m in
      let '(val, m) := CreateLoad call_inst val_type ptr m in
      let '(val, m) :=
        if isX86_FP80Ty val_type
        then CreateFPTrunc call_inst val val_type (fn_ret func) m
        else (val, m) in
      Done (replaceAllUsesWith call_inst val m))
  end.

Definition write_gen (n : nat) (i : Instruction) : list Instruction * Value :=
  (write_build func val_type n (nth 1 (operands i) (VArg 0))
     (nth 2 (operands i) (VArg 0)),
   nth 0 (operands i) (VArg 0)).

Definition write_ok (i : Instruction) : bool :=
  2 <? List.length (operands i) - 1.

Definition write_step (call_inst : nat) (m : Module) : Outcome Module :=
  match find_inst call_inst m with
  | None => Undefined
  | Some i =>
      obind (getArgOperand i 0) (fun mem_ptr =>
      obind (getArgOperand i 1) (fun addr =>
      obind (getArgOperand i 2) (fun val =>
      let '(ptr, m) :=
        CreateIntToPtr call_inst addr (argument_type func 1)
          (PointerTy val_type) m in
      let '(val, m) :=
        if isX86_FP80Ty val_type
        then CreateFPExt call_inst val (argument_type func 2) val_type m
        else (val, m) in
      let '(_, m) := CreateStore call_inst val ptr m in
      Done (replaceAllUsesWith call_inst mem_ptr m))))
  end.

Lemma read_step_spec (c : nat) (m : Module) (i : Instruction) :
  wf m -> In i (insts m) -> id i = c -> read_ok i = true ->
  read_step c m =
  Done (set_next_id
          (next_id m + List.length (fst (read_gen (next_id m) i)))
          (lift (step_inst false c (read_gen (next_id m) i)) m)).
Proof.
  intros Hwf Hi Hc Hok. unfold read_step. subst c.
  rewrite (find_inst_unique m i Hwf Hi).
  apply Nat.ltb_lt in Hok. rewrite getArgOperand_Done by exact Hok.
  cbv beta iota delta [obind].
  assert (Hlt : id i < next_id m).
  { destruct Hwf as [_ H]. rewrite Forall_forall in H. apply H. exact Hi. }
  set (addr := nth 1 (operands i) (VArg 0)).
  unfold Optimizer.CreateIntToPtr, Optimizer.CreateFPTrunc, CreateLoad.
  rewrite CreateCast_insert.
  set (ptr := cast_gen IntToPtr _ _ (next_id m) addr).
  rewrite Insert_insert_before.
  rewrite insert_before_app
    by (apply (fresh_ids _ (next_id m)); [apply cast_gen_ids | exact Hlt]).
  change (next_id (insert_before (id i) (fst ptr) m))
    with (List.length (fst ptr) + next_id m).
  set (k := List.length (fst ptr) + next_id m).
  set (load := {| id := k; opcode := Load; ty := val_type;
                  operands := [snd ptr] |}).
  assert (Hids : map id (fst ptr ++ [load])
                 = seq (next_id m) (List.length (fst ptr ++ [load]))).
  { rewrite map_app, length_app, seq_app. unfold ptr at 1.
    rewrite cast_gen_ids. fold ptr. simpl. unfold k.
    rewrite Nat.add_comm. reflexivity. }
  assert (Hnext : next_id (insert_before (id i) (fst ptr ++ [load]) m)
                  = S k).
  { unfold insert_before. simpl next_id. rewrite length_app. simpl.
    unfold k. lia. }
  unfold read_gen, read_build. fold addr. fold ptr. fold k. fold load.
  destruct (isX86_FP80Ty val_type).
  - rewrite CreateCast_insert, Hnext.
    rewrite insert_before_app
      by (apply (fresh_ids _ (next_id m)); [exact Hids | exact Hlt]).
    rewrite replaceAllUsesWith_insert_before.
    rewrite <- app_assoc. reflexivity.
  - rewrite replaceAllUsesWith_insert_before. reflexivity.
Qed.

Lemma write_step_spec (c : nat) (m : Module) (i : Instruction) :
  wf m -> In i (insts m) -> id i = c -> write_ok i = true ->
  write_step c m =
  Done (set_next_id
          (next_id m + List.length (fst (write_gen (next_id m) i)))
          (lift (step_inst false c (write_gen (next_id m) i)) m)).
Proof.
  intros Hwf Hi Hc Hok. unfold write_step. subst c.
  rewrite (find_inst_unique m i Hwf Hi).
  apply Nat.ltb_lt in Hok. rewrite !getArgOperand_Done by lia.
  cbv beta iota delta [obind].
  assert (Hlt : id i < next_id m).
  { destruct Hwf as [_ H]. rewrite Forall_forall in H. apply H. exact Hi. }
  set (addr := nth 1 (operands i) (VArg 0)).
  set (val := nth 2 (operands i) (VArg 0)).
  set (mem_ptr := nth 0 (operands i) (VArg 0)).
  unfold Optimizer.CreateIntToPtr, Optimizer.CreateFPExt, CreateStore.
  rewrite CreateCast_insert.
  set (ptr := cast_gen IntToPtr _ _ (next_id m) addr).
  change (next_id (insert_before (id i) (fst ptr) m))
    with (List.length (fst ptr) + next_id m).
  set (k := List.length (fst ptr) + next_id m).
  unfold write_gen, write_build. fold addr. fold val. fold mem_ptr.
  fold ptr. fold k. simpl fst. simpl snd.
  assert (Hp : forall x, In x (fst ptr) -> id x <> id i)
    by (apply (fresh_ids _ (next_id m)); [apply cast_gen_ids | exact Hlt]).
  destruct (isX86_FP80Ty val_type).
  - rewrite CreateCast_insert.
    change (next_id (insert_before (id i) (fst ptr) m)) with k.
    set (ext := cast_gen FPExt _ _ k val).
    rewrite insert_before_app by exact Hp.
    assert (Hids : map id (fst ptr ++ fst ext)
                   = seq (next_id m) (List.length (fst ptr ++ fst ext))).
    { rewrite map_app, length_app, seq_app. unfold ptr at 1.
      rewrite cast_gen_ids. fold ptr. unfold ext at 1.
      rewrite cast_gen_ids. fold ext. unfold k.
      rewrite (Nat.add_comm (next_id m)). reflexivity. }
    rewrite Insert_insert_before.
    rewrite insert_before_app
      by (apply (fresh_ids _ (next_id m)); [exact Hids | exact Hlt]).
    rewrite replaceAllUsesWith_insert_before.
    replace (next_id (insert_before (id i) (fst ptr ++ fst ext) m))
      with (List.length (fst ext) + k)
      by (unfold insert_before; simpl next_id; rewrite length_app;
          unfold k; lia).
    rewrite <- app_assoc. reflexivity.
  - rewrite Insert_insert_before.
    rewrite insert_before_app by exact Hp.
    rewrite replaceAllUsesWith_insert_before.
    change (next_id (insert_before (id i) (fst ptr) m)) with k.
    reflexivity.
Qed.

Lemma read_gen_ids (n : nat) (i : Instruction) :
  map id (fst (read_gen n i)) = seq n (List.length (fst (read_gen n i))).
Proof. apply read_build_ids. Qed.

Lemma write_gen_ids (n : nat) (i : Instruction) :
  map id (fst (write_gen n i)) = seq n (List.length (fst (write_gen n i))).
Proof. apply write_build_ids. Qed.

Lemma replace_constant (c : nat) (r : Value) (k : Constant) :
  replace_operand c r (VConst k) = VConst k.
Proof. apply replace_operand_other. discriminate. Qed.

Lemma replace_keeps_values (c : nat) (r v : Value) :
  is_constant r = false \/ v <> VInst c ->
  is_constant v = false -> is_constant (replace_operand c r v) = false.
Proof.
  intros H Hv. unfold replace_operand.
  destruct (Value_eq_dec v (VInst c)) as [E | E]; [| exact Hv].
  destruct H as [H | H]; [exact H | contradiction].
Qed.

(** A value that is no constant takes the place of the result of a read. *)
Lemma read_gen_natural (n c : nat) (r : Value) (i : Instruction) :
  c < n -> is_constant r = false ->
  read_gen n (replace_in_inst c r i) =
  (map (replace_in_inst c r) (fst (read_gen n i)),
   replace_operand c r (snd (read_gen n i))).
Proof.
  intros H Hr. unfold read_gen, replace_in_inst at 1. simpl operands.
  rewrite nth_replace.
  apply (read_build_subst (replace_operand c r)).
  - apply replace_constant.
  - apply replace_keeps_values. left. exact Hr.
  - intros k Hk. apply replace_fresh. lia.
Qed.

(** The address and the value of a write are not the result of the call
    that is being replaced. *)
Definition write_sep (c : nat) (i : Instruction) : Prop :=
  nth 1 (operands i) (VArg 0) <> VInst c /\
  nth 2 (operands i) (VArg 0) <> VInst c.

Lemma write_gen_natural (n c : nat) (r : Value) (i : Instruction) :
  c < n -> write_sep c i ->
  write_gen n (replace_in_inst c r i) =
  (map (replace_in_inst c r) (fst (write_gen n i)),
   replace_operand c r (snd (write_gen n i))).
Proof.
  intros H [Ha Hv]. unfold write_gen, replace_in_inst at 1. simpl operands.
  rewrite !nth_replace. simpl fst. simpl snd. f_equal.
  apply (write_build_subst (replace_operand c r)).
  - apply replace_constant.
  - apply replace_keeps_values. right. exact Ha.
  - apply replace_keeps_values. right. exact Hv.
  - intros k Hk. apply replace_fresh. lia.
Qed.

Lemma write_sep_replace (c c' : nat) (r : Value) (i : Instruction) :
  write_sep c i -> write_sep c' i -> write_sep c' (replace_in_inst c r i).
Proof.
  intros [Ha Hv] [Ha' Hv']. unfold write_sep, replace_in_inst.
  simpl operands. rewrite !nth_replace.
  rewrite !replace_operand_other by assumption. split; assumption.
Qed.

Lemma read_gen_good (n : nat) (i : Instruction) :
  is_constant (snd (read_gen n i)) = false.
Proof.
  unfold read_gen.
  destruct (read_build_value func val_type n (nth 1 (operands i) (VArg 0)))
    as (k & _ & ->).
  reflexivity.
Qed.

Lemma ReplaceMemReadOp_loop_is_loop (cs : list nat) : forall m,
  ReplaceMemReadOp_loop func val_type cs m = loop read_step cs m.
Proof.
  induction cs as [| c cs IH]; intros m; [reflexivity |].
  cbn [Optimizer.ReplaceMemReadOp_loop loop].
  unfold read_step at 1. destruct (find_inst c m) as [i |]; [| reflexivity].
  destruct (getArgOperand i 1) as [addr | |];
    cbv beta iota delta [obind]; try reflexivity.
  destruct (Optimizer.CreateIntToPtr ConstantFolder_CreateCast c addr
              (argument_type func 1) (PointerTy val_type) m) as [ptr m1].
  destruct (CreateLoad c val_type ptr m1) as [val m2].
  destruct (isX86_FP80Ty val_type); [| apply IH].
  destruct (Optimizer.CreateFPTrunc ConstantFolder_CreateCast c val val_type
              (fn_ret func) m2) as [val' m3].
  apply IH.
Qed.

Lemma ReplaceMemWriteOp_loop_is_loop (cs : list nat) : forall m,
  ReplaceMemWriteOp_loop func val_type cs m = loop write_step cs m.
Proof.
  induction cs as [| c cs IH]; intros m; [reflexivity |].
  cbn [Optimizer.ReplaceMemWriteOp_loop loop].
  unfold write_step at 1. destruct (find_inst c m) as [i |]; [| reflexivity].
  destruct (getArgOperand i 0) as [mem_ptr | |];
    cbv beta iota delta [obind]; try reflexivity.
  destruct (getArgOperand i 1) as [addr | |]; try reflexivity.
  destruct (getArgOperand i 2) as [val | |]; try reflexivity.
  destruct (Optimizer.CreateIntToPtr ConstantFolder_CreateCast c addr
              (argument_type func 1) (PointerTy val_type) m) as [ptr m1].
  destruct (isX86_FP80Ty val_type).
  - destruct (Optimizer.CreateFPExt ConstantFolder_CreateCast c val
                (argument_type func 2) val_type m1) as [val' m2].
    destruct (CreateStore c val' ptr m2) as [s m3]. apply IH.
  - destruct (CreateStore c val ptr m1) as [s m3]. apply IH.
Qed.

End MemOps.

Lemma existsb_absent (k : nat) (cs : list nat) :
  ~ In k cs -> existsb (Nat.eqb k) cs = false.
Proof.
  intros H. rewrite existsb_index_of, index_of_None by exact H. reflexivity.
Qed.

Lemma existsb_present (k : nat) (cs : list nat) :
  In k cs -> existsb (Nat.eqb k) cs = true.
Proof.
  intros H. apply existsb_exists. exists k. split; [exact H |].
  apply Nat.eqb_refl.
Qed.

Lemma callers_below_next (name : string) (m : Module) (c : nat) :
  wf m -> called_directly name m -> In c (CallersOf name m) ->
  c < next_id m.
Proof.
  intros [_ Hall] Hd Hc. apply In_callers in Hc; [| exact Hd].
  destruct Hc as (i & Hi & _ & <-). rewrite Forall_forall in Hall.
  apply Hall. exact Hi.
Qed.

(** What [RemoveFunction] does, by the number of uses left. *)
Lemma RemoveFunction_spec (name : string) (m : Module) :
  (getNumUses (CFunction name) m = 0 ->
   RemoveFunction name m = remove_function name m /\
   getFunction name (RemoveFunction name m) = None) /\
  (0 < getNumUses (CFunction name) m -> RemoveFunction name m = m).
Proof.
  unfold RemoveFunction, hasNUsesOrMore. split; intros H.
  - destruct (Nat.leb_spec 1 (getNumUses (CFunction name) m)); [lia |].
    simpl. split; [reflexivity |].
    unfold getFunction, remove_function. simpl.
    induction (functions m) as [| f fs IH]; simpl; [reflexivity |].
    destruct (String.eqb (fn_name f) name) eqn:E; simpl; [exact IH |].
    rewrite E. exact IH.
  - destruct (Nat.leb_spec 1 (getNumUses (CFunction name) m)); [| lia].
    reflexivity.
Qed.

Definition keep_unless (cs : list nat) (i : Instruction) : list Instruction :=
  if existsb (Nat.eqb (id i)) cs then [] else [i].

Lemma keep_unless_absent (cs : list nat) (l : list Instruction) :
  (forall x, In x l -> ~ In (id x) cs) -> flat_map (keep_unless cs) l = l.
Proof.
  induction l as [| a l IH]; intros H; simpl; [reflexivity |].
  unfold keep_unless at 1.
  rewrite existsb_absent by (apply H; left; reflexivity).
  simpl. rewrite IH; [reflexivity |]. intros x Hx. apply H. right. exact Hx.
Qed.

Lemma keep_unless_present (cs : list nat) (x : Instruction) :
  In (id x) cs -> flat_map (keep_unless cs) [x] = [].
Proof.
  intros H. simpl. unfold keep_unless. rewrite existsb_present by exact H.
  reflexivity.
Qed.

Lemma flat_map_keep {A} (keep : A -> bool) (l : list A) :
  flat_map (fun x => if keep x then [x] else []) l = filter keep l.
Proof.
  induction l as [| a l IH]; simpl; [reflexivity |].
  rewrite IH. destruct (keep a); reflexivity.
Qed.

Lemma erase_each_filter (cs : list nat) (m : Module) :
  insts (erase_each cs m)
  = filter (fun i => negb (existsb (Nat.eqb (id i)) cs)) (insts m).
Proof.
  rewrite erase_each_lift, insts_lift, <- flat_map_keep.
  apply flat_map_ext. intros i.
  destruct (existsb (Nat.eqb (id i)) cs); reflexivity.
Qed.

Lemma next_id_erase_each (cs : list nat) (m : Module) :
  next_id (erase_each cs m) = next_id m.
Proof. rewrite erase_each_lift. reflexivity. Qed.

(** Erasing instructions keeps a module well formed. *)
Lemma wf_erase_each (cs : list nat) (m : Module) :
  wf m -> wf (erase_each cs m).
Proof.
  intros [Hnd Hlt]. split; rewrite erase_each_filter.
  - apply selected_ids_NoDup. exact Hnd.
  - rewrite next_id_erase_each. rewrite Forall_forall in *. intros i Hi.
    apply filter_In in Hi. apply Hlt. apply Hi.
Qed.

Section Lowering.

Variable ConstantFolder_CreateCast : CastOp -> Constant -> Ty -> Constant.

Local Abbreviation ReplaceMemReadOp :=
  (ReplaceMemReadOp ConstantFolder_CreateCast).
Local Abbreviation ReplaceMemWriteOp :=
  (ReplaceMemWriteOp ConstantFolder_CreateCast).
Local Abbreviation LowerMemOps := (LowerMemOps ConstantFolder_CreateCast).
Local Abbreviation read_build := (read_build ConstantFolder_CreateCast).
Local Abbreviation write_build := (write_build ConstantFolder_CreateCast).
Local Abbreviation read_gen := (read_gen ConstantFolder_CreateCast).
Local Abbreviation write_gen := (write_gen ConstantFolder_CreateCast).
Local Abbreviation read_step := (read_step ConstantFolder_CreateCast).
Local Abbreviation write_step := (write_step ConstantFolder_CreateCast).

(** What the lowering of the calls of a read intrinsic makes of an
    instruction: a call becomes the pointer and the load (and the
    truncation), with the identities from [start] on; any other instruction
    stays, its operands rewritten. *)
Definition lower_read (name : string) (func : Function) (val_type : Ty)
    (start : nat -> nat) (theta : Value -> Value) (i : Instruction)
    : list Instruction :=
  if calls name i
  then fst (read_build func val_type (start (id i))
              (theta (nth 1 (operands i) (VArg 0))))
  else [subst_inst theta i].

(** The same for a write intrinsic: a call becomes the pointer (the
    extension) and the store. *)
Definition lower_write (name : string) (func : Function) (val_type : Ty)
    (start : nat -> nat) (theta : Value -> Value) (i : Instruction)
    : list Instruction :=
  if calls name i
  then write_build func val_type (start (id i))
         (nth 1 (operands i) (VArg 0)) (nth 2 (operands i) (VArg 0))
  else [subst_inst theta i].

(** No call of [name] has the result of a call of [name] as its address or
    as its value: a write intrinsic returns the memory pointer, and takes an
    address and a value that are none. *)
Definition apart (name : string) (m : Module) : Prop :=
  forall i j, In i (insts m) -> In j (insts m) ->
    calls name i = true -> calls name j = true ->
    nth 1 (operands i) (VArg 0) <> VInst (id j) /\
    nth 2 (operands i) (VArg 0) <> VInst (id j).

Definition apartb (name : string) (m : Module) : bool :=
  forallb
    (fun i =>
       implb (calls name i)
         (forallb
            (fun j =>
               implb (calls name j)
                 ((if Value_eq_dec (nth 1 (operands i) (VArg 0))
                         (VInst (id j)) then false else true)
                  && (if Value_eq_dec (nth 2 (operands i) (VArg 0))
                            (VInst (id j)) then false else true)))
            (insts m)))
    (insts m).

Lemma apartb_ok (name : string) (m : Module) :
  apartb name m = true -> apart name m.
Proof.
  unfold apartb, apart. rewrite forallb_forall. intros H i j Hi Hj Hci Hcj.
  specialize (H i Hi). rewrite Hci in H. simpl in H.
  rewrite forallb_forall in H. specialize (H j Hj). rewrite Hcj in H.
  simpl in H. apply andb_prop in H. destruct H as [H1 H2].
  split.
  - destruct (Value_eq_dec (nth 1 (operands i) (VArg 0)) (VInst (id j)));
      [discriminate | assumption].
  - destruct (Value_eq_dec (nth 2 (operands i) (VArg 0)) (VInst (id j)));
      [discriminate | assumption].
Qed.

Lemma not_a_call (name : string) (x : Instruction) :
  isa_CallInst x = false -> calls name x = false.
Proof.
  unfold isa_CallInst, calls, getCalledFunction.
  destruct (opcode x); try reflexivity. discriminate.
Qed.

Lemma ReplaceMemReadOp_lowers (name : string) (val_type : Ty) (m : Module)
    (func : Function) :
  getFunction name m = Some func ->
  isDeclaration func = true ->
  wf m -> called_directly name m -> has_argument name 1 m ->
  exists theta start N m',
    ReplaceMemReadOp name val_type m = Done (RemoveFunction name m') /\
    m' = set_next_id N (lift (lower_read name func val_type start theta) m) /\
    wf m' /\
    next_id m <= N /\
    (forall i, In i (insts m) -> calls name i = true ->
       next_id m <= start (id i) /\
       start (id i)
       + List.length (lower_read name func val_type start theta i) <= N) /\
    (forall i, In i (insts m) -> calls name i = true ->
       theta (VInst (id i))
       = snd (read_build func val_type (start (id i))
                (theta (nth 1 (operands i) (VArg 0))))) /\
    (forall v,
       (forall i, In i (insts m) -> calls name i = true -> v <> VInst (id i)) ->
       theta v = v) /\
    (forall i, In i (insts m') -> calls name i = false).
Proof.
  intros H Hd Hwf Hdirect Hargs.
  unfold Optimizer.ReplaceMemReadOp.
  rewrite H, Hd, ReplaceMemReadOp_loop_is_loop.
  set (cs := CallersOf name m).
  destruct (loop_spec (read_gen func val_type) read_ok false
              (read_step func val_type)
              (fun r => is_constant r = false) (fun _ _ => True))
    with (cs := cs) (m := m)
    as (theta & start & N & Hloop & HwfN & HN & Hstart & _ & Hfix & Hval
        & Hrange).
  - apply read_gen_ids.
  - intros n c r i Hc Hr _. apply read_gen_natural; assumption.
  - intros n i _. apply read_gen_good.
  - intros c r i. unfold read_ok. simpl. rewrite length_map. reflexivity.
  - intros; exact I.
  - apply read_step_spec.
  - apply NoDup_callers; assumption.
  - exact Hwf.
  - intros c Hc. apply In_callers in Hc; [| exact Hdirect].
    destruct Hc as (i & Hi & Hci & E). exists i. split; [exact Hi |].
    split; [exact E |]. split; [| intros; exact I].
    apply Nat.ltb_lt. apply Hargs; assumption.
  - assert (Hbelow : forall c, In c cs -> c < next_id m)
      by (intros c; apply callers_below_next; assumption).
    assert (Hfresh : forall k, next_id m <= k -> theta (VInst k) = VInst k).
    { intros k Hk. apply Hfix. intros c Hc E. inversion E; subst.
      apply Hbelow in Hc. lia. }
    assert (Hconst : forall c, theta (VConst c) = VConst c).
    { intros c. apply Hfix. intros; discriminate. }
    assert (Hkeep : forall v,
              is_constant v = false -> is_constant (theta v) = false).
    { intros v Hv. destruct (Hrange v) as [E | (i & _ & _ & E)];
        rewrite E; [exact Hv | apply read_gen_good]. }
    assert (Hbuild : forall i, In i (insts m) -> In (id i) cs ->
      read_build func val_type (start (id i))
        (theta (nth 1 (operands i) (VArg 0)))
      = (map (subst_inst theta) (fst (read_gen func val_type (start (id i)) i)),
         theta (snd (read_gen func val_type (start (id i)) i)))).
    { intros i Hi Hin. apply read_build_subst.
      - exact Hconst.
      - apply Hkeep.
      - intros k Hk. apply Hfresh. destruct (Hstart i Hi Hin). lia. }
    assert (Hm' :
      erase_each cs
        (set_next_id N
           (lift (final (read_gen func val_type) false cs start theta) m))
      = set_next_id N (lift (lower_read name func val_type start theta) m)).
    { rewrite erase_each_lift, lift_set_next_id, lift_lift. f_equal.
      apply lift_ext. intros i Hi. fold (keep_unless cs).
      unfold final, lower_read, retire.
      destruct (calls name i) eqn:Ec.
      - pose proof (member_of_caller name m i Hdirect Hi Ec) as Hin.
        fold cs in Hin.
        destruct (index_of_mem _ _ Hin) as [k Hk]. rewrite Hk.
        rewrite flat_map_app.
        rewrite keep_unless_present by exact Hin.
        rewrite !app_nil_r.
        rewrite (Hbuild i Hi Hin). simpl fst.
        apply keep_unless_absent.
        intros x Hx Hxin. apply Hbelow in Hxin.
        apply in_map_iff in Hx. destruct Hx as (x0 & <- & Hx0).
        simpl in Hxin.
        assert (Hx1 : In (id x0)
                  (map id (fst (read_gen func val_type (start (id i)) i))))
          by (apply in_map; exact Hx0).
        rewrite read_gen_ids in Hx1. apply in_seq in Hx1.
        destruct (Hstart i Hi Hin). lia.
      - pose proof (index_of_not_caller name m i Hwf Hdirect Hi Ec) as Hn.
        fold cs in Hn. rewrite Hn.
        simpl. rewrite app_nil_r. unfold keep_unless.
        rewrite existsb_absent; [reflexivity |].
        simpl. intros Hin. apply In_callers in Hin; [| exact Hdirect].
        destruct Hin as (j & Hj & Hcj & E).
        assert (j = i) by (apply (same_id_same_inst m j i Hwf Hj Hi E)).
        congruence. }
    exists theta, start, N,
      (set_next_id N (lift (lower_read name func val_type start theta) m)).
    split.
    { rewrite Hloop. simpl obind. rewrite erase_all_Done.
      - simpl obind. rewrite Hm'. reflexivity.
      - apply NoDup_callers; assumption.
      - intros c Hc. apply final_keeps_callers.
        apply In_callers in Hc; [| exact Hdirect].
        destruct Hc as (i & Hi & _ & E). exists i. auto. }
    split; [reflexivity |].
    split; [rewrite <- Hm'; apply wf_erase_each; exact HwfN |].
    split; [exact HN |].
    split; [| split; [| split]].
    + intros i Hi Hc.
      pose proof (member_of_caller name m i Hdirect Hi Hc) as Hin.
      fold cs in Hin. destruct (Hstart i Hi Hin) as [Ha Hb].
      split; [exact Ha |]. unfold lower_read. rewrite Hc.
      rewrite (Hbuild i Hi Hin). simpl fst. rewrite length_map. exact Hb.
    + intros i Hi Hc.
      pose proof (member_of_caller name m i Hdirect Hi Hc) as Hin.
      fold cs in Hin. rewrite (Hbuild i Hi Hin). simpl snd.
      apply (Hval i Hi Hin).
    + intros v Hv. apply Hfix. intros c Hc.
      apply In_callers in Hc; [| exact Hdirect].
      destruct Hc as (i & Hi & Hci & <-). apply Hv; assumption.
    + intros i Hi.
      change (In i (insts (lift (lower_read name func val_type start theta)
                             m))) in Hi.
      rewrite insts_lift in Hi. apply in_flat_map in Hi.
      destruct Hi as (j & Hj & Hin). unfold lower_read in Hin.
      destruct (calls name j) eqn:Ec.
      * apply not_a_call. eapply read_build_no_call. exact Hin.
      * destruct Hin as [<- | []]. apply calls_subst_false; [exact Ec |].
        intros v. destruct (Hrange v) as [E | (i0 & _ & _ & E)];
          [left; exact E | right].
        rewrite E. intros E'.
        pose proof (read_gen_good ConstantFolder_CreateCast func val_type
                      (start (id i0)) i0) as Hg.
        rewrite E' in Hg. discriminate.
Qed.

Lemma ReplaceMemWriteOp_lowers (name : string) (val_type : Ty) (m : Module)
    (func : Function) :
  getFunction name m = Some func ->
  isDeclaration func = true ->
  wf m -> called_directly name m -> has_argument name 2 m ->
  apart name m ->
  exists theta start N m',
    ReplaceMemWriteOp name val_type m = Done (RemoveFunction name m') /\
    m' = set_next_id N (lift (lower_write name func val_type start theta) m) /\
    wf m' /\
    next_id m <= N /\
    (forall i, In i (insts m) -> calls name i = true ->
       next_id m <= start (id i) /\
       start (id i)
       + List.length (lower_write name func val_type start theta i) <= N) /\
    (forall i, In i (insts m) -> calls name i = true ->
       theta (VInst (id i)) = theta (nth 0 (operands i) (VArg 0))) /\
    (forall v,
       (forall i, In i (insts m) -> calls name i = true -> v <> VInst (id i)) ->
       theta v = v) /\
    (forall i, In i (insts m') -> calls name i = false).
Proof.
  intros H Hd Hwf Hdirect Hargs Hapart.
  unfold Optimizer.ReplaceMemWriteOp.
  rewrite H, Hd, ReplaceMemWriteOp_loop_is_loop.
  set (cs := CallersOf name m).
  destruct (loop_spec (write_gen func val_type) write_ok false
              (write_step func val_type)
              (fun _ => True) write_sep)
    with (cs := cs) (m := m)
    as (theta & start & N & Hloop & HwfN & HN & Hstart & _ & Hfix & Hval
        & Hrange).
  - apply write_gen_ids.
  - intros n c r i Hc _ Hs. apply write_gen_natural; assumption.
  - intros; exact I.
  - intros c r i. unfold write_ok. simpl. rewrite length_map. reflexivity.
  - apply write_sep_replace.
  - apply write_step_spec.
  - apply NoDup_callers; assumption.
  - exact Hwf.
  - intros c Hc. apply In_callers in Hc; [| exact Hdirect].
    destruct Hc as (i & Hi & Hci & E). exists i. split; [exact Hi |].
    split; [exact E |]. split; [apply Nat.ltb_lt; apply Hargs; assumption |].
    intros c' Hc'. apply In_callers in Hc'; [| exact Hdirect].
    destruct Hc' as (j & Hj & Hcj & <-).
    apply (Hapart i j Hi Hj Hci Hcj).
  - assert (Hbelow : forall c, In c cs -> c < next_id m)
      by (intros c; apply callers_below_next; assumption).
    assert (Hfresh : forall k, next_id m <= k -> theta (VInst k) = VInst k).
    { intros k Hk. apply Hfix. intros c Hc E. inversion E; subst.
      apply Hbelow in Hc. lia. }
    assert (Hconst : forall c, theta (VConst c) = VConst c).
    { intros c. apply Hfix. intros; discriminate. }
    assert (Hsame : forall i, In i (insts m) -> calls name i = true ->
              theta (nth 1 (operands i) (VArg 0))
              = nth 1 (operands i) (VArg 0) /\
              theta (nth 2 (operands i) (VArg 0))
              = nth 2 (operands i) (VArg 0)).
    { intros i Hi Hc. split; apply Hfix; intros c Hcin;
        (apply In_callers in Hcin; [| exact Hdirect]);
        destruct Hcin as (j & Hj & Hcj & <-);
        apply (Hapart i j Hi Hj Hc Hcj). }
    assert (Hbuild : forall i, In i (insts m) -> calls name i = true ->
      map (subst_inst theta) (fst (write_gen func val_type (start (id i)) i))
      = write_build func val_type (start (id i))
          (nth 1 (operands i) (VArg 0)) (nth 2 (operands i) (VArg 0))).
    { intros i Hi Hc. destruct (Hsame i Hi Hc) as [Ea Ev].
      unfold OptimizerFacts.write_gen. simpl fst.
      rewrite <- (write_build_subst ConstantFolder_CreateCast theta).
      - rewrite Ea, Ev. reflexivity.
      - exact Hconst.
      - rewrite Ea. auto.
      - rewrite Ev. auto.
      - intros k Hk. apply Hfresh.
        destruct (Hstart i Hi (member_of_caller name m i Hdirect Hi Hc)).
        lia. }
    assert (Hm' :
      erase_each cs
        (set_next_id N
           (lift (final (write_gen func val_type) false cs start theta) m))
      = set_next_id N (lift (lower_write name func val_type start theta) m)).
    { rewrite erase_each_lift, lift_set_next_id, lift_lift. f_equal.
      apply lift_ext. intros i Hi. fold (keep_unless cs).
      unfold final, lower_write, retire.
      destruct (calls name i) eqn:Ec.
      - pose proof (member_of_caller name m i Hdirect Hi Ec) as Hin.
        fold cs in Hin.
        destruct (index_of_mem _ _ Hin) as [k Hk]. rewrite Hk.
        rewrite flat_map_app.
        rewrite keep_unless_present by exact Hin.
        rewrite !app_nil_r.
        rewrite <- (Hbuild i Hi Ec).
        apply keep_unless_absent.
        intros x Hx Hxin. apply Hbelow in Hxin.
        apply in_map_iff in Hx. destruct Hx as (x0 & <- & Hx0).
        simpl in Hxin.
        assert (Hx1 : In (id x0)
                  (map id (fst (write_gen func val_type (start (id i)) i))))
          by (apply in_map; exact Hx0).
        rewrite write_gen_ids in Hx1. apply in_seq in Hx1.
        destruct (Hstart i Hi Hin). lia.
      - pose proof (index_of_not_caller name m i Hwf Hdirect Hi Ec) as Hn.
        fold cs in Hn. rewrite Hn.
        simpl. rewrite app_nil_r. unfold keep_unless.
        rewrite existsb_absent; [reflexivity |].
        simpl. intros Hin. apply In_callers in Hin; [| exact Hdirect].
        destruct Hin as (j & Hj & Hcj & E).
        assert (j = i) by (apply (same_id_same_inst m j i Hwf Hj Hi E)).
        congruence. }
    exists theta, start, N,
      (set_next_id N (lift (lower_write name func val_type start theta) m)).
    split.
    { rewrite Hloop. simpl obind. rewrite erase_all_Done.
      - simpl obind. rewrite Hm'. reflexivity.
      - apply NoDup_callers; assumption.
      - intros c Hc. apply final_keeps_callers.
        apply In_callers in Hc; [| exact Hdirect].
        destruct Hc as (i & Hi & _ & E). exists i. auto. }
    split; [reflexivity |].
    split; [rewrite <- Hm'; apply wf_erase_each; exact HwfN |].
    split; [exact HN |].
    split; [| split; [| split]].
    + intros i Hi Hc.
      pose proof (member_of_caller name m i Hdirect Hi Hc) as Hin.
      fold cs in Hin. destruct (Hstart i Hi Hin) as [Ha Hb].
      split; [exact Ha |]. unfold lower_write. rewrite Hc.
      rewrite <- (Hbuild i Hi Hc). rewrite length_map. exact Hb.
    + intros i Hi Hc.
      pose proof (member_of_caller name m i Hdirect Hi Hc) as Hin.
      apply (Hval i Hi Hin).
    + intros v Hv. apply Hfix. intros c Hc.
      apply In_callers in Hc; [| exact Hdirect].
      destruct Hc as (i & Hi & Hci & <-). apply Hv; assumption.
    + intros i Hi.
      change (In i (insts (lift (lower_write name func val_type start theta)
                             m))) in Hi.
      rewrite insts_lift in Hi. apply in_flat_map in Hi.
      destruct Hi as (j & Hj & Hin). unfold lower_write in Hin.
      destruct (calls name j) eqn:Ec.
      * apply not_a_call. eapply write_build_no_call. exact Hin.
      * destruct Hin as [<- | []]. apply calls_subst_false; [exact Ec |].
        intros v. destruct (Hrange v) as [E | (i0 & Hi0 & Hk & E)];
          [left; exact E | right].
        rewrite E. simpl snd.
        pose proof (caller_of_member name m i0 Hwf Hdirect Hi0 Hk) as Hc0.
        apply argument_not_callee; auto.
        specialize (Hargs i0 Hi0 Hc0). lia.
Qed.

Definition read_op (op : string * Ty) : Module -> Outcome Module :=
  ReplaceMemReadOp (fst op) (snd op).

Definition write_op (op : string * Ty) : Module -> Outcome Module :=
  ReplaceMemWriteOp (fst op) (snd op).

Lemma LowerMemOps_in_order (m : Module) :
  LowerMemOps m =
  in_order (map read_op (firstn 6 mem_read_ops)
            ++ map write_op (firstn 6 mem_write_ops)
            ++ map read_op (skipn 6 mem_read_ops)
            ++ map write_op (skipn 6 mem_write_ops)) m.
Proof.
  unfold Optimizer.LowerMemOps, in_order, read_op, write_op. simpl.
  repeat match goal with
         | |- context [Optimizer.ReplaceMemReadOp ?f ?n ?t ?m'] =>
             destruct (Optimizer.ReplaceMemReadOp f n t m'); simpl;
             try reflexivity
         | |- context [Optimizer.ReplaceMemWriteOp ?f ?n ?t ?m'] =>
             destruct (Optimizer.ReplaceMemWriteOp f n t m'); simpl;
             try reflexivity
         end.
Qed.

(** C4, as the code has it. [LowerMemOps] lowers seven read intrinsics and
    seven write intrinsics. An intrinsic that the module does not have is
    passed over, and one that has a body is a check that fails. For each one
    that the module has as a declaration (and calls with its arguments, never
    passing the function to itself): every call of a read intrinsic is
    replaced by what the builder makes of a cast of its address argument to
    a pointer (a cast instruction, or the folded constant when the address
    is a constant, or the address when it is such a pointer already) and one
    load from it, followed for the 80-bit type by a truncation to the
    intrinsic's return type, and the uses of the call become the loaded (or
    truncated) value; every call of a write intrinsic (whose address and
    value are not the result of a call of the same intrinsic) is replaced by
    the same cast, for the 80-bit type an extension of the value to 80 bits,
    and one store, and the uses of the call become what its memory-pointer
    argument has become; the calls are erased and none is left; the new
    instructions have new identities; and the declaration is removed exactly
    if it has no use left. *)
Theorem LowerMemOps_lowers_reads_and_writes :
  List.length mem_read_ops = 7 /\
  List.length mem_write_ops = 7 /\
  (forall m,
     LowerMemOps m =
     in_order (map read_op (firstn 6 mem_read_ops)
               ++ map write_op (firstn 6 mem_write_ops)
               ++ map read_op (skipn 6 mem_read_ops)
               ++ map write_op (skipn 6 mem_write_ops)) m) /\
  (forall name val_type m,
     getFunction name m = None ->
     ReplaceMemReadOp name val_type m = Done m /\
     ReplaceMemWriteOp name val_type m = Done m) /\
  (forall name val_type m func,
     getFunction name m = Some func ->
     isDeclaration func = false ->
     ReplaceMemReadOp name val_type m = CheckFailed not_a_declaration /\
     ReplaceMemWriteOp name val_type m = CheckFailed not_a_declaration) /\
  (forall name val_type m func,
     getFunction name m = Some func ->
     isDeclaration func = true ->
     wf m -> called_directly name m -> has_argument name 1 m ->
     exists theta start N m',
       ReplaceMemReadOp name val_type m = Done (RemoveFunction name m') /\
       m' = set_next_id N
              (lift (lower_read name func val_type start theta) m) /\
       wf m' /\
       next_id m <= N /\
       (forall i, In i (insts m) -> calls name i = true ->
          next_id m <= start (id i) /\
          start (id i)
          + List.length (lower_read name func val_type start theta i) <= N) /\
       (forall i, In i (insts m) -> calls name i = true ->
          theta (VInst (id i))
          = snd (read_build func val_type (start (id i))
                   (theta (nth 1 (operands i) (VArg 0))))) /\
       (forall v,
          (forall i, In i (insts m) -> calls name i = true ->
                     v <> VInst (id i)) ->
          theta v = v) /\
       (forall i, In i (insts m') -> calls name i = false)) /\
  (forall name val_type m func,
     getFunction name m = Some func ->
     isDeclaration func = true ->
     wf m -> called_directly name m -> has_argument name 2 m ->
     apart name m ->
     exists theta start N m',
       ReplaceMemWriteOp name val_type m = Done (RemoveFunction name m') /\
       m' = set_next_id N
              (lift (lower_write name func val_type start theta) m) /\
       wf m' /\
       next_id m <= N /\
       (forall i, In i (insts m) -> calls name i = true ->
          next_id m <= start (id i) /\
          start (id i)
          + List.length (lower_write name func val_type start theta i) <= N) /\
       (forall i, In i (insts m) -> calls name i = true ->
          theta (VInst (id i)) = theta (nth 0 (operands i) (VArg 0))) /\
       (forall v,
          (forall i, In i (insts m) -> calls name i = true ->
                     v <> VInst (id i)) ->
          theta v = v) /\
       (forall i, In i (insts m') -> calls name i = false)) /\
  (forall name m',
     (getNumUses (CFunction name) m' = 0 ->
      RemoveFunction name m' = remove_function name m' /\
      getFunction name (RemoveFunction name m') = None) /\
     (0 < getNumUses (CFunction name) m' -> RemoveFunction name m' = m')).
Proof.
  split; [reflexivity |]. split; [reflexivity |].
  split; [exact LowerMemOps_in_order |].
  split.
  { intros name val_type m H.
    unfold Optimizer.ReplaceMemReadOp, Optimizer.ReplaceMemWriteOp.
    rewrite H. split; reflexivity. }
  split.
  { intros name val_type m func H Hd.
    unfold Optimizer.ReplaceMemReadOp, Optimizer.ReplaceMemWriteOp.
    rewrite H, Hd. split; reflexivity. }
  split; [exact ReplaceMemReadOp_lowers |].
  split; [exact ReplaceMemWriteOp_lowers |].
  exact RemoveFunction_spec.
Qed.

End Lowering.

Lemma LowerMemOps_lowers_reads_and_writes_witness :
  exists theta start N m',
    ReplaceMemReadOp Sample.cast_expression "__remill_read_memory_f80"
      X86_FP80Ty Sample.mem_module
    = Done (RemoveFunction "__remill_read_memory_f80" m') /\
    m' = set_next_id N
           (lift (lower_read Sample.cast_expression
                    "__remill_read_memory_f80"
                    (Sample.declare "__remill_read_memory_f80" DoubleTy
                       [Sample.MemoryPtr; Int64Ty])
                    X86_FP80Ty start theta) Sample.mem_module) /\
    wf m' /\
    theta (VInst 2)
    = snd (read_build Sample.cast_expression
             (Sample.declare "__remill_read_memory_f80" DoubleTy
                [Sample.MemoryPtr; Int64Ty])
             X86_FP80Ty (start 2) (theta (VArg 2))).
Proof.
  destruct (proj1 (proj2 (proj2 (proj2 (proj2 (proj2
              (LowerMemOps_lowers_reads_and_writes
                 Sample.cast_expression))))))
              "__remill_read_memory_f80"%string X86_FP80Ty Sample.mem_module
              (Sample.declare "__remill_read_memory_f80" DoubleTy
                 [Sample.MemoryPtr; Int64Ty])
              eq_refl eq_refl
              (wfb_wf Sample.mem_module eq_refl)
              (called_directlyb_ok "__remill_read_memory_f80"
                 Sample.mem_module eq_refl)
              (has_argumentb_ok "__remill_read_memory_f80" 1
                 Sample.mem_module eq_refl))
    as (theta & start & N & m' & Hrun & Hm' & Hwf & _ & _ & Hval & _).
  exists theta, start, N, m'. split; [exact Hrun |]. split; [exact Hm' |].
  split; [exact Hwf |].
  apply (Hval (Sample.inst 2 Call DoubleTy
                 [VInst 1; VArg 2; Sample.fn "__remill_read_memory_f80"])).
  - simpl. tauto.
  - reflexivity.
Defined.

(** C4, as stated, fails: the reads and the writes that [LowerMemOps] lowers
    are seven each, not eight; and on a module that has a read intrinsic
    with a body, a check fails and no call is replaced. *)
Lemma LowerMemOps_seven_and_declarations_only :
  List.length mem_read_ops <> 8 /\
  List.length mem_write_ops <> 8 /\
  (forall fold m,
     LowerMemOps fold m =
     in_order (map (read_op fold) (firstn 6 mem_read_ops)
               ++ map (write_op fold) (firstn 6 mem_write_ops)
               ++ map (read_op fold) (skipn 6 mem_read_ops)
               ++ map (write_op fold) (skipn 6 mem_write_ops)) m) /\
  CallersOf "__remill_read_memory_8" Sample.implemented_read_module = [1] /\
  (forall fold,
     LowerMemOps fold Sample.implemented_read_module
     = CheckFailed not_a_declaration).
Proof.
  split; [discriminate |]. split; [discriminate |].
  split; [exact LowerMemOps_in_order |].
  split; reflexivity.
Qed.

(** [LowerMemOps] on [mem_module]: the word is loaded and stored back, the
    float is loaded, truncated, extended and stored, and the function
    returns the memory pointer it was given. *)
Example LowerMemOps_mem_module :
  LowerMemOps Sample.cast_expression Sample.mem_module =
  Done
    {| functions :=
         [ Sample.define "sub_401000" Sample.MemoryPtr
             [Sample.MemoryPtr; Sample.StatePtr; Int64Ty]
             [ Sample.inst 5 (Cast IntToPtr) (PointerTy Int64Ty) [VArg 2];
               Sample.inst 6 Load Int64Ty [VInst 5];
               Sample.inst 7 (Cast IntToPtr) (PointerTy Int64Ty) [VInst 6];
               Sample.inst 8 Store VoidTy [VInst 6; VInst 7];
               Sample.inst 9 (Cast IntToPtr) (PointerTy X86_FP80Ty) [VArg 2];
               Sample.inst 10 Load X86_FP80Ty [VInst 9];
               Sample.inst 11 (Cast FPTrunc) DoubleTy [VInst 10];
               Sample.inst 12 (Cast IntToPtr) (PointerTy X86_FP80Ty) [VArg 2];
               Sample.inst 13 (Cast FPExt) X86_FP80Ty [VInst 11];
               Sample.inst 14 Store VoidTy [VInst 13; VInst 12];
               Sample.inst 4 Ret VoidTy [VArg 0] ] ];
       globals := [];
       next_id := 15 |}.
Proof. reflexivity. Qed.

(** [LowerMemOps] on [constant_address_module]: no cast is built for the
    constant address, the load is from the constant expression; the address
    of the store is the word loaded, and a cast is built for it. *)
Example LowerMemOps_constant_address_module :
  LowerMemOps Sample.cast_expression Sample.constant_address_module =
  Done
    {| functions :=
         [ Sample.define "sub_401000" Sample.MemoryPtr
             [Sample.MemoryPtr; Sample.StatePtr; Int64Ty]
             [ Sample.inst 3 Load Int64Ty
                 [VConst (CCast (CInt Int64Ty 4096) (PointerTy Int64Ty))];
               Sample.inst 4 (Cast IntToPtr) (PointerTy Int64Ty) [VInst 3];
               Sample.inst 5 Store VoidTy
                 [VConst (CInt Int64Ty 1); VInst 4];
               Sample.inst 2 Ret VoidTy [VArg 0] ] ];
       globals := [];
       next_id := 6 |}.
Proof. reflexivity. Qed.


Example ReplaceBarrier_barrier_module :
  ReplaceBarrier 0 "__remill_barrier_load_load" Sample.barrier_module =
  Done
    {| functions :=
         [ Sample.declare "__remill_barrier_load_load" Sample.MemoryPtr
             [Sample.MemoryPtr];
           Sample.define "sub_401000" Sample.MemoryPtr
             [Sample.MemoryPtr; Sample.StatePtr; Int64Ty]
             [ Sample.inst 2 Load Int64Ty [VArg 2];
               Sample.inst 3 Ret VoidTy [VArg 0] ] ];
       globals := [];
       next_id := 4 |}.
Proof. reflexivity. Qed.

(** *** Undefined values *)

Definition mem (k : nat) (l : list nat) : bool := existsb (Nat.eqb k) l.

Lemma mem_In (k : nat) (l : list nat) : mem k l = true <-> In k l.
Proof.
  unfold mem. rewrite existsb_exists. split.
  - intros (x & Hx & E). apply Nat.eqb_eq in E. subst. exact Hx.
  - intros H. exists k. split; [exact H | apply Nat.eqb_refl].
Qed.

Lemma mem_cons (k c : nat) (l : list nat) :
  mem k (c :: l) = (k =? c) || mem k l.
Proof. reflexivity. Qed.

Lemma mem_false (k : nat) (l : list nat) : mem k l = false <-> ~ In k l.
Proof.
  rewrite <- mem_In. destruct (mem k l); split; congruence.
Qed.

Lemma mem_ext (k : nat) (l l' : list nat) :
  (forall x, In x l <-> In x l') -> mem k l = mem k l'.
Proof.
  intros H. destruct (mem k l) eqn:E.
  - symmetry. apply mem_In. apply H. apply mem_In. exact E.
  - symmetry. apply mem_false. intros Hin. apply mem_false in E.
    apply E. apply H. exact Hin.
Qed.

Lemma In_repeat (x a : nat) (n : nat) :
  In x (repeat a n) <-> x = a /\ 0 < n.
Proof.
  induction n as [| n IH]; simpl.
  - split; [contradiction | lia].
  - rewrite IH. split.
    + intros [E | [E _]]; split; auto; lia.
    + intros [E _]. left. auto.
Qed.

Lemma users_In (k u : nat) (m : Module) :
  In u (users k m) <->
  exists i, In i (insts m) /\ id i = u /\ In (VInst k) (operands i).
Proof.
  unfold users. rewrite in_flat_map. split.
  - intros (i & Hi & Hin). apply In_repeat in Hin. destruct Hin as [E Hpos].
    exists i. split; [exact Hi |]. split; [auto |].
    apply (count_occ_In Value_eq_dec). exact Hpos.
  - intros (i & Hi & E & Hin). exists i. split; [exact Hi |].
    apply In_repeat. split; [auto |].
    apply (count_occ_In Value_eq_dec) in Hin. exact Hin.
Qed.

Lemma In_set_insert (k u : nat) (s : list nat) :
  In u (set_insert k s) <-> In u s \/ u = k.
Proof.
  unfold set_insert. destruct (existsb (Nat.eqb k) s) eqn:E.
  - split; [auto |]. intros [H | ->]; [exact H |].
    apply mem_In. exact E.
  - rewrite in_app_iff. simpl. intuition auto.
Qed.

Lemma In_set_insert_all (ks : list nat) : forall (s : list nat) (u : nat),
  In u (set_insert_all ks s) <-> In u s \/ In u ks.
Proof.
  induction ks as [| k ks IH]; intros s u; simpl.
  - tauto.
  - unfold set_insert_all in *. simpl. rewrite IH, In_set_insert.
    split; intros H; intuition auto.
Qed.

(** In every call of [name], the callee is the only operand: the intrinsic
    takes no argument. *)
Definition no_arguments (name : string) (m : Module) : Prop :=
  forall i, In i (insts m) -> calls name i = true ->
    operands i = [VConst (CFunction name)].

Definition no_argumentsb (name : string) (m : Module) : bool :=
  forallb
    (fun i =>
       implb (calls name i)
             (if list_eq_dec Value_eq_dec (operands i)
                             [VConst (CFunction name)]
              then true else false))
    (insts m).

Lemma no_argumentsb_ok (name : string) (m : Module) :
  no_argumentsb name m = true -> no_arguments name m.
Proof.
  unfold no_argumentsb, no_arguments. intros H i Hi Hc.
  rewrite forallb_forall in H. specialize (H i Hi). rewrite Hc in H.
  simpl in H.
  destruct (list_eq_dec Value_eq_dec (operands i) [VConst (CFunction name)]);
    [assumption | discriminate].
Qed.

Lemma no_arguments_called_directly (name : string) (m : Module) :
  no_arguments name m -> called_directly name m.
Proof.
  intros H i Hi Hc. rewrite (H i Hi Hc).
  apply (count_occ_cons_eq Value_eq_dec). reflexivity.
Qed.

Definition isa_Cmp_or_Cast (i : Instruction) : bool :=
  isa_CmpInst i || isa_CastInst i.

(** The operands after the removal of the calls of [name]: the result of
    a call becomes the undefined value of the return type, the result of a
    reached comparison or cast the undefined value of its own type. *)
Definition undef_subst (name : string) (ret : Ty) (m : Module)
    (reached : nat -> bool) (v : Value) : Value :=
  match v with
  | VInst k =>
      match find_inst k m with
      | Some i =>
          if calls name i then VConst (CUndef ret)
          else if isa_Cmp_or_Cast i && reached k then VConst (CUndef (ty i))
          else v
      | None => v
      end
  | _ => v
  end.

(** What the removal makes of an instruction: a call of [name] and a
    reached store go; any other instruction stays, its operands rewritten. *)
Definition undef_inst (name : string) (ret : Ty) (m : Module)
    (reached : nat -> bool) (i : Instruction) : list Instruction :=
  if calls name i || (isa_StoreInst i && reached (id i)) then []
  else [subst_inst (undef_subst name ret m reached) i].

Lemma NoDup_set_insert (k : nat) (s : list nat) :
  NoDup s -> NoDup (set_insert k s).
Proof.
  intros H. unfold set_insert.
  destruct (existsb (Nat.eqb k) s) eqn:E; [exact H |].
  apply NoDup_app; [exact H | repeat constructor; intros [] |].
  intros a Ha [Ea | []]. subst a. exact (proj1 (mem_false k s) E Ha).
Qed.

Lemma NoDup_set_insert_all (ks : list nat) : forall s : list nat,
  NoDup s -> NoDup (set_insert_all ks s).
Proof.
  induction ks as [| k ks IH]; intros s H; [exact H |].
  unfold set_insert_all in *. simpl. apply IH.
  apply NoDup_set_insert. exact H.
Qed.

(** What a pass does to the two lists: the next work list stays a set, and
    the dead stores get entries of the work list appended, each as often as
    it is on the work list. *)
Lemma round_lists : forall W next dead M next' dead' M',
  propagate_undef_round W next dead M = Done (next', dead', M') ->
  (NoDup next -> NoDup next') /\
  exists added,
    dead' = dead ++ added /\ incl added W /\ (NoDup W -> NoDup added).
Proof.
  induction W as [| k rest IH]; intros next dead M next' dead' M' H;
    simpl in H.
  - inversion H; subst. split; [auto |]. exists [].
    rewrite app_nil_r. split; [reflexivity |].
    split; [intros x [] | constructor].
  - destruct (find_inst k M) as [inst |]; [| discriminate].
    destruct (isa_CmpInst inst || isa_CastInst inst).
    + apply IH in H. destruct H as [Hn (added & E & Hincl & Hnd)]. split.
      * intros Hnext. apply Hn. apply NoDup_set_insert_all. exact Hnext.
      * exists added. split; [exact E |].
        split; [intros x Hx; right; apply Hincl; exact Hx |].
        intros HW. apply Hnd. inversion HW; assumption.
    + destruct (isa_StoreInst inst).
      * apply IH in H. destruct H as [Hn (added & E & Hincl & Hnd)].
        split; [exact Hn |]. exists (k :: added).
        split; [rewrite E, <- app_assoc; reflexivity |]. split.
        -- intros x [<- | Hx]; [left; reflexivity |].
           right. apply Hincl. exact Hx.
        -- intros HW. inversion HW; subst. constructor; [| auto].
           intros Hin. apply Hincl in Hin. contradiction.
      * apply IH in H. destruct H as [Hn (added & E & Hincl & Hnd)].
        split; [exact Hn |]. exists added. split; [exact E |].
        split; [intros x Hx; right; apply Hincl; exact Hx |].
        intros HW. apply Hnd. inversion HW; assumption.
Qed.

Lemma replace_calls_NoDup : forall undef_val todo W M W' M',
  replace_calls_with_undef undef_val todo W M = Done (W', M') ->
  NoDup W -> NoDup W'.
Proof.
  induction todo as [| c rest IH]; intros W M W' M' H HW; simpl in H.
  - inversion H; subst. exact HW.
  - destruct (find_inst c M); [| discriminate].
    apply IH in H; [exact H |]. apply NoDup_set_insert_all. exact HW.
Qed.

Section Undef.

Variable name : string.
Variable ret : Ty.
Variable m : Module.
Hypothesis Hwf : wf m.
Hypothesis Hnoargs : no_arguments name m.

Let cs : list nat := CallersOf name m.

Lemma undef_called_directly : called_directly name m.
Proof. apply no_arguments_called_directly. exact Hnoargs. Qed.

Definition inst_ty (k : nat) : Ty :=
  match find_inst k m with
  | Some i => ty i
  | None => VoidTy
  end.

(** The operands after the calls [D] have been replaced by the undefined
    value of the return type, and the instructions [P] each by the undefined
    value of its own type. *)
Definition theta_undef (D P : list nat) (v : Value) : Value :=
  match v with
  | VInst k =>
      if mem k D then VConst (CUndef ret)
      else if mem k P then VConst (CUndef (inst_ty k))
      else v
  | _ => v
  end.

(** The module after that, and after the instructions [D] have been
    erased. *)
Definition ustate (D P : list nat) : Module :=
  lift (fun i => if mem (id i) D then []
                 else [subst_inst (theta_undef D P) i]) m.

Lemma subst_inst_ext (f g : Value -> Value) (i : Instruction) :
  (forall v, f v = g v) -> subst_inst f i = subst_inst g i.
Proof.
  intros H. unfold subst_inst. f_equal. apply map_ext. exact H.
Qed.

Lemma ustate_ext (D D' P P' : list nat) :
  (forall k, In k D <-> In k D') -> (forall k, In k P <-> In k P') ->
  ustate D P = ustate D' P'.
Proof.
  intros HD HP. unfold ustate. apply lift_ext. intros i _.
  rewrite (mem_ext (id i) D D' HD). destruct (mem (id i) D'); [reflexivity |].
  f_equal. apply subst_inst_ext. intros v. unfold theta_undef.
  destruct v as [k | |]; try reflexivity.
  rewrite (mem_ext k D D' HD), (mem_ext k P P' HP). reflexivity.
Qed.

Lemma ustate_start : ustate [] [] = m.
Proof.
  unfold ustate. rewrite <- (lift_id m) at 2. apply lift_ext. intros i _.
  simpl. f_equal. rewrite <- (subst_inst_id i) at 2.
  apply subst_inst_ext. intros v. destruct v; reflexivity.
Qed.

Lemma insts_ustate (D P : list nat) (j : Instruction) :
  In j (insts (ustate D P)) <->
  exists i, In i (insts m) /\ mem (id i) D = false /\
            j = subst_inst (theta_undef D P) i.
Proof.
  unfold ustate. rewrite insts_lift, in_flat_map. split.
  - intros (i & Hi & Hin). exists i. destruct (mem (id i) D); [destruct Hin |].
    destruct Hin as [<- | []]. auto.
  - intros (i & Hi & Hm & ->). exists i. rewrite Hm. split; [exact Hi |].
    left. reflexivity.
Qed.

Lemma wf_ustate (D P : list nat) : wf (ustate D P).
Proof.
  destruct Hwf as [Hnd Hlt]. split.
  - unfold ustate. rewrite insts_lift, map_flat_map.
    induction (insts m) as [| a l IH]; simpl; [constructor |].
    simpl in Hnd. apply NoDup_cons_iff in Hnd. destruct Hnd as [Ha Hl].
    inversion Hlt; subst.
    destruct (mem (id a) D); simpl; [apply IH; assumption |].
    apply NoDup_cons; [| apply IH; assumption].
    intros Hin. apply Ha. apply in_flat_map in Hin.
    destruct Hin as (x & Hx & Hin). destruct (mem (id x) D); [destruct Hin |].
    destruct Hin as [<- | []]. exact (in_map id l x Hx).
  - apply Forall_forall. intros j Hj. apply insts_ustate in Hj.
    destruct Hj as (i & Hi & _ & ->). rewrite Forall_forall in Hlt.
    exact (Hlt i Hi).
Qed.

Lemma find_inst_ustate (D P : list nat) (i : Instruction) :
  In i (insts m) -> mem (id i) D = false ->
  find_inst (id i) (ustate D P) = Some (subst_inst (theta_undef D P) i).
Proof.
  intros Hi Hm.
  apply (find_inst_unique (ustate D P) (subst_inst (theta_undef D P) i)).
  - apply wf_ustate.
  - apply insts_ustate. exists i. auto.
Qed.

Lemma theta_undef_VInst (D P : list nat) (v : Value) (k : nat) :
  theta_undef D P v = VInst k <->
  v = VInst k /\ mem k D = false /\ mem k P = false.
Proof.
  unfold theta_undef. destruct v as [k' | |]; try (split; [discriminate |]);
    try (intros (E & _); discriminate).
  destruct (mem k' D) eqn:ED; [split; [discriminate | intros (E & E1 & _);
    inversion E; subst; congruence] |].
  destruct (mem k' P) eqn:EP; [split; [discriminate | intros (E & _ & E2);
    inversion E; subst; congruence] |].
  split.
  - intros E. inversion E; subst. auto.
  - intros (E & _). exact E.
Qed.

(** A user of an instruction's result is not a call of [name]. *)
Lemma user_not_caller (k u : nat) :
  In u (users k m) ->
  exists i, In i (insts m) /\ id i = u /\ calls name i = false /\
            In (VInst k) (operands i).
Proof.
  intros H. apply users_In in H. destruct H as (i & Hi & E & Hin).
  exists i. split; [exact Hi |]. split; [exact E |]. split; [| exact Hin].
  destruct (calls name i) eqn:Ec; [| reflexivity].
  rewrite (Hnoargs i Hi Ec) in Hin. destruct Hin as [Hin | []]. discriminate.
Qed.

Lemma mem_callers (i : Instruction) :
  In i (insts m) -> mem (id i) cs = calls name i.
Proof.
  intros Hi. unfold mem, cs. rewrite existsb_index_of.
  destruct (calls name i) eqn:Ec.
  - destruct (index_of_caller name m i Hwf undef_called_directly Hi Ec) as [k Hk].
    rewrite Hk. reflexivity.
  - rewrite (index_of_not_caller name m i Hwf undef_called_directly Hi Ec). reflexivity.
Qed.

Lemma users_ustate (D P : list nat) (k u : nat) :
  (forall c, In c D -> In c cs) ->
  (In u (users k (ustate D P)) <->
   In u (users k m) /\ mem k D = false /\ mem k P = false).
Proof.
  intros HD. rewrite users_In. split.
  - intros (j & Hj & E & Hin). apply insts_ustate in Hj.
    destruct Hj as (i & Hi & Hm & ->). simpl in E, Hin.
    apply in_map_iff in Hin. destruct Hin as (v & Hv & Hvin).
    apply theta_undef_VInst in Hv. destruct Hv as (-> & HkD & HkP).
    split; [| auto]. apply users_In. exists i. auto.
  - intros (Hu & HkD & HkP). apply user_not_caller in Hu.
    destruct Hu as (i & Hi & E & Hc & Hin).
    exists (subst_inst (theta_undef D P) i). split; [| split].
    + apply insts_ustate. exists i. split; [exact Hi |]. split; [| reflexivity].
      apply mem_false. intros HinD. apply HD in HinD.
      apply mem_In in HinD. rewrite (mem_callers i Hi) in HinD. congruence.
    + exact E.
    + simpl. apply in_map_iff. exists (VInst k). split; [| exact Hin].
      apply theta_undef_VInst. auto.
Qed.

Lemma replace_in_subst (c : nat) (r : Value) (f : Value -> Value)
    (i : Instruction) :
  replace_in_inst c r (subst_inst f i)
  = subst_inst (fun v => replace_operand c r (f v)) i.
Proof.
  unfold replace_in_inst, subst_inst, set_operands. simpl.
  rewrite map_map. reflexivity.
Qed.

Lemma ustate_call_replaced (D : list nat) (c : nat) :
  eraseFromParent c
    (replaceAllUsesWith c (VConst (CUndef ret)) (ustate D []))
  = ustate (c :: D) [].
Proof.
  rewrite replaceAllUsesWith_lift, eraseFromParent_lift.
  unfold ustate. rewrite !lift_lift. apply lift_ext. intros i _.
  rewrite mem_cons.
  destruct (mem (id i) D); simpl; [rewrite orb_true_r; reflexivity |].
  rewrite orb_false_r. destruct (id i =? c); [reflexivity |].
  simpl. f_equal. rewrite replace_in_subst. apply subst_inst_ext.
  intros v. unfold theta_undef. destruct v as [k | |];
    try (apply replace_operand_other; discriminate).
  rewrite mem_cons.
  destruct (mem k D); simpl.
  - rewrite orb_true_r. apply replace_operand_other. discriminate.
  - rewrite orb_false_r. unfold replace_operand.
    destruct (Value_eq_dec (VInst k) (VInst c)) as [E | E].
    + inversion E; subst. rewrite Nat.eqb_refl. reflexivity.
    + destruct (Nat.eqb_spec k c); [subst; congruence | reflexivity].
Qed.

Lemma ustate_inst_replaced (D P : list nat) (ik : Instruction) :
  In ik (insts m) -> mem (id ik) D = false ->
  replaceAllUsesWith (id ik) (VConst (CUndef (ty ik))) (ustate D P)
  = ustate D (id ik :: P).
Proof.
  intros Hik HD. rewrite replaceAllUsesWith_lift.
  unfold ustate. rewrite !lift_lift. apply lift_ext. intros i _.
  destruct (mem (id i) D); [reflexivity |].
  simpl. f_equal. rewrite replace_in_subst. apply subst_inst_ext.
  intros v. unfold theta_undef. destruct v as [k | |];
    try (apply replace_operand_other; discriminate).
  destruct (mem k D) eqn:EkD; [apply replace_operand_other; discriminate |].
  rewrite mem_cons.
  destruct (Nat.eqb_spec k (id ik)) as [E | E]; simpl.
  - subst k. unfold inst_ty. rewrite (find_inst_unique m ik Hwf Hik).
    destruct (mem (id ik) P).
    + apply replace_operand_other. discriminate.
    + unfold replace_operand.
      destruct (Value_eq_dec (VInst (id ik)) (VInst (id ik)));
        [reflexivity | congruence].
  - destruct (mem k P).
    + apply replace_operand_other. discriminate.
    + apply replace_operand_other. congruence.
Qed.

(** The first loop of [ReplaceUndefIntrinsic]: the calls are replaced by
    the undefined value and erased, and the work list holds their users. *)
Lemma replace_calls_spec : forall todo D W,
  NoDup todo ->
  (forall c, In c todo -> In c cs /\ ~ In c D) ->
  (forall c, In c D -> In c cs) ->
  exists W',
    replace_calls_with_undef (VConst (CUndef ret)) todo W (ustate D [])
    = Done (W', ustate (rev todo ++ D) []) /\
    (forall u, In u W' <->
               In u W \/ exists c, In c todo /\ In u (users c m)).
Proof.
  induction todo as [| c rest IH]; intros D W Hnd Htodo HD.
  - exists W. split; [reflexivity |]. intros u. split; [auto |].
    intros [H | (c & [] & _)]. exact H.
  - apply NoDup_cons_iff in Hnd. destruct Hnd as [Hc Hrest].
    simpl replace_calls_with_undef.
    destruct (Htodo c (or_introl eq_refl)) as [Hccs HcD0].
    apply In_callers in Hccs; [| exact undef_called_directly].
    destruct Hccs as (ic & Hic & _ & Eic). subst c.
    rewrite (find_inst_ustate D [] ic Hic (proj2 (mem_false _ _) HcD0)).
    set (c := id ic) in *.
    rewrite ustate_call_replaced.
    destruct (IH (c :: D)
                (set_insert_all (users c (ustate D [])) W) Hrest)
      as (W' & Hrun & HW').
    + intros c' Hc'. destruct (Htodo c' (or_intror Hc')) as [H1 H2].
      split; [exact H1 |]. intros [E | H3]; [subst; contradiction | auto].
    + intros c' [<- | Hc']; [apply Htodo; left; reflexivity | auto].
    + exists W'. split.
      * rewrite Hrun. simpl rev. rewrite <- app_assoc. reflexivity.
      * intros u. rewrite HW', In_set_insert_all, users_ustate by exact HD.
        destruct (Htodo c (or_introl eq_refl)) as [_ HcD].
        apply mem_false in HcD. split.
        -- intros [[H | (H & _)] | (c' & Hc' & H)]; [auto | |].
           ++ right. exists c. split; [left; reflexivity | exact H].
           ++ right. exists c'. split; [right; exact Hc' | exact H].
        -- intros [H | (c' & [<- | Hc'] & H)]; [auto | |].
           ++ left. right. auto.
           ++ right. exists c'. auto.
Qed.

Lemma not_caller_mem (i : Instruction) :
  In i (insts m) -> calls name i = false -> mem (id i) cs = false.
Proof. intros Hi Hc. rewrite (mem_callers i Hi). exact Hc. Qed.

(** One pass over the work list: the comparisons and casts on it are
    replaced by undefined values and their users put on the next work list;
    the stores on it are put on the list of dead stores. *)
Lemma round_spec : forall W next dead P,
  (forall k, In k W ->
     exists ik, In ik (insts m) /\ id ik = k /\ calls name ik = false) ->
  exists next' dead' P',
    propagate_undef_round W next dead (ustate cs P)
    = Done (next', dead', ustate cs P') /\
    (forall u, In u next' <->
       In u next \/
       exists ik, In (id ik) W /\ In ik (insts m) /\
                  isa_Cmp_or_Cast ik = true /\ ~ In (id ik) P /\
                  In u (users (id ik) m)) /\
    (forall s, In s dead' <->
       In s dead \/
       exists ik, In (id ik) W /\ In ik (insts m) /\ id ik = s /\
                  isa_StoreInst ik = true) /\
    (forall k, In k P' <->
       In k P \/
       exists ik, In (id ik) W /\ In ik (insts m) /\ id ik = k /\
                  isa_Cmp_or_Cast ik = true).
Proof.
  induction W as [| k rest IH]; intros next dead P HW.
  - exists next, dead, P. split; [reflexivity |].
    split; [| split]; intros x; split; auto;
      intros [H | (ik & [] & _)]; exact H.
  - destruct (HW k (or_introl eq_refl)) as (ik & Hik & Eik & Hcall).
    subst k.
    assert (HW' : forall k, In k rest ->
              exists ik, In ik (insts m) /\ id ik = k /\ calls name ik = false)
      by (intros k' Hk'; apply HW; right; exact Hk').
    assert (Hsame : forall j, In j (insts m) -> id j = id ik -> j = ik)
      by (intros j Hj E; apply (same_id_same_inst m j ik Hwf Hj Hik E)).
    simpl propagate_undef_round.
    rewrite (find_inst_ustate cs P ik Hik (not_caller_mem ik Hik Hcall)).
    change (isa_CmpInst (subst_inst (theta_undef cs P) ik)
            || isa_CastInst (subst_inst (theta_undef cs P) ik))
      with (isa_Cmp_or_Cast ik).
    change (isa_StoreInst (subst_inst (theta_undef cs P) ik))
      with (isa_StoreInst ik).
    change (ty (subst_inst (theta_undef cs P) ik)) with (ty ik).
    destruct (isa_Cmp_or_Cast ik) eqn:Ecc.
    + rewrite (ustate_inst_replaced cs P ik Hik
                 (not_caller_mem ik Hik Hcall)).
      destruct (IH (set_insert_all (users (id ik) (ustate cs P)) next) dead
                  (id ik :: P) HW')
        as (next' & dead' & P' & Hrun & Hnext & Hdead & HP).
      exists next', dead', P'. split; [exact Hrun |].
      split; [| split].
      * intros u. rewrite Hnext, In_set_insert_all, users_ustate by auto.
        split.
        -- intros [[H | (H & _ & HP0)] | (j & Hj & Hjm & Hjc & HjP & Hju)].
           ++ auto.
           ++ right. exists ik. split; [left; reflexivity |].
              split; [exact Hik |]. split; [exact Ecc |].
              split; [apply mem_false; exact HP0 | exact H].
           ++ right. exists j. split; [right; exact Hj |].
              split; [exact Hjm |]. split; [exact Hjc |].
              split; [| exact Hju]. intros HIn. apply HjP. right. exact HIn.
        -- intros [H | (j & [Hj | Hj] & Hjm & Hjc & HjP & Hju)]; [auto | |].
           ++ assert (j = ik) by (apply Hsame; auto). subst j.
              left. right. split; [exact Hju |].
              split; [apply not_caller_mem; assumption |].
              apply mem_false. exact HjP.
           ++ destruct (Nat.eq_dec (id j) (id ik)) as [E | E].
              ** assert (j = ik) by (apply Hsame; auto). subst j.
                 left. right. split; [exact Hju |].
                 split; [apply not_caller_mem; assumption |].
                 apply mem_false. exact HjP.
              ** right. exists j. split; [exact Hj |].
                 split; [exact Hjm |]. split; [exact Hjc |].
                 split; [| exact Hju]. intros [E' | HIn]; [congruence | auto].
      * intros s. rewrite Hdead. split.
        -- intros [H | (j & Hj & Hjm & Hjs & Hst)]; [auto |].
           right. exists j. split; [right; exact Hj | auto].
        -- intros [H | (j & [Hj | Hj] & Hjm & Hjs & Hst)]; [auto | |].
           ++ assert (j = ik) by (apply Hsame; auto). subst j.
              unfold isa_Cmp_or_Cast, isa_CmpInst, isa_CastInst,
                isa_StoreInst in *.
              destruct (opcode ik); discriminate.
           ++ right. exists j. auto.
      * intros k. rewrite HP. split.
        -- intros [[<- | H] | (j & Hj & Hjm & Hjk & Hjc)].
           ++ right. exists ik. split; [left; reflexivity | auto].
           ++ auto.
           ++ right. exists j. split; [right; exact Hj | auto].
        -- intros [H | (j & [Hj | Hj] & Hjm & Hjk & Hjc)].
           ++ left. right. exact H.
           ++ left. left. congruence.
           ++ right. exists j. auto.
    + destruct (isa_StoreInst ik) eqn:Est.
      * destruct (IH next (dead ++ [id ik]) P HW')
          as (next' & dead' & P' & Hrun & Hnext & Hdead & HP).
        exists next', dead', P'. split; [exact Hrun |].
        split; [| split].
        -- intros u. rewrite Hnext. split.
           ++ intros [H | (j & Hj & Hjm & Hjc & HjP & Hju)]; [auto |].
              right. exists j. split; [right; exact Hj | auto].
           ++ intros [H | (j & [Hj | Hj] & Hjm & Hjc & HjP & Hju)]; [auto | |].
              ** assert (j = ik) by (apply Hsame; auto). subst j. congruence.
              ** right. exists j. auto.
        -- intros s. rewrite Hdead, in_app_iff. simpl. split.
           ++ intros [[H | [<- | []]] | (j & Hj & Hjm & Hjs & Hst)].
              ** auto.
              ** right. exists ik. split; [left; reflexivity | auto].
              ** right. exists j. split; [right; exact Hj | auto].
           ++ intros [H | (j & [Hj | Hj] & Hjm & Hjs & Hst)].
              ** auto.
              ** left. right. left. congruence.
              ** right. exists j. auto.
        -- intros k. rewrite HP. split.
           ++ intros [H | (j & Hj & Hjm & Hjk & Hjc)]; [auto |].
              right. exists j. split; [right; exact Hj | auto].
           ++ intros [H | (j & [Hj | Hj] & Hjm & Hjk & Hjc)]; [auto | |].
              ** assert (j = ik) by (apply Hsame; auto). subst j. congruence.
              ** right. exists j. auto.
      * destruct (IH next dead P HW')
          as (next' & dead' & P' & Hrun & Hnext & Hdead & HP).
        exists next', dead', P'. split; [exact Hrun |].
        split; [| split].
        -- intros u. rewrite Hnext. split.
           ++ intros [H | (j & Hj & Hjm & Hjc & HjP & Hju)]; [auto |].
              right. exists j. split; [right; exact Hj | auto].
           ++ intros [H | (j & [Hj | Hj] & Hjm & Hjc & HjP & Hju)]; [auto | |].
              ** assert (j = ik) by (apply Hsame; auto). subst j. congruence.
              ** right. exists j. auto.
        -- intros s. rewrite Hdead. split.
           ++ intros [H | (j & Hj & Hjm & Hjs & Hst)]; [auto |].
              right. exists j. split; [right; exact Hj | auto].
           ++ intros [H | (j & [Hj | Hj] & Hjm & Hjs & Hst)]; [auto | |].
              ** assert (j = ik) by (apply Hsame; auto). subst j. congruence.
              ** right. exists j. auto.
        -- intros k. rewrite HP. split.
           ++ intros [H | (j & Hj & Hjm & Hjk & Hjc)]; [auto |].
              right. exists j. split; [right; exact Hj | auto].
           ++ intros [H | (j & [Hj | Hj] & Hjm & Hjk & Hjc)]; [auto | |].
              ** assert (j = ik) by (apply Hsame; auto). subst j. congruence.
              ** right. exists j. auto.
Qed.

(** What the propagation reaches: the users of the calls, and the users of
    every comparison or cast that is reached. *)
Inductive Reached : nat -> Prop :=
| Reached_call (c u : nat) :
    In c cs -> In u (users c m) -> Reached u
| Reached_via (ik : Instruction) (u : nat) :
    Reached (id ik) -> In ik (insts m) -> isa_Cmp_or_Cast ik = true ->
    In u (users (id ik) m) -> Reached u.

Lemma Reached_not_caller (u : nat) :
  Reached u ->
  exists i, In i (insts m) /\ id i = u /\ calls name i = false.
Proof.
  intros H. destruct H as [c u _ Hu | ik u _ _ _ Hu];
    apply user_not_caller in Hu; destruct Hu as (i & Hi & E & Hc & _);
    exists i; auto.
Qed.

(** The comparisons and casts not replaced yet. *)
Definition pending (P : list nat) : nat :=
  List.length
    (filter (fun i => isa_Cmp_or_Cast i && negb (mem (id i) P)) (insts m)).

Lemma filter_length_le {A} (p q : A -> bool) (l : list A) :
  (forall y, In y l -> q y = true -> p y = true) ->
  List.length (filter q l) <= List.length (filter p l).
Proof.
  induction l as [| a l IH]; intros H; simpl; [lia |].
  assert (Hl : forall y, In y l -> q y = true -> p y = true)
    by (intros y Hy; apply H; right; exact Hy).
  specialize (IH Hl). destruct (q a) eqn:Eq.
  - rewrite (H a (or_introl eq_refl) Eq). simpl. lia.
  - destruct (p a); simpl; lia.
Qed.

Lemma filter_length_lt {A} (p q : A -> bool) (l : list A) (x : A) :
  (forall y, In y l -> q y = true -> p y = true) ->
  In x l -> p x = true -> q x = false ->
  List.length (filter q l) < List.length (filter p l).
Proof.
  induction l as [| a l IH]; intros H Hx Hp Hq; simpl; [destruct Hx |].
  assert (Hl : forall y, In y l -> q y = true -> p y = true)
    by (intros y Hy; apply H; right; exact Hy).
  destruct Hx as [-> | Hx].
  - rewrite Hp, Hq. simpl.
    pose proof (filter_length_le p q l Hl). lia.
  - specialize (IH Hl Hx Hp Hq). destruct (q a) eqn:Eq.
    + rewrite (H a (or_introl eq_refl) Eq). simpl. lia.
    + destruct (p a); simpl; lia.
Qed.

Lemma pending_decreases (P P' : list nat) (ik : Instruction) :
  (forall k, In k P -> In k P') ->
  In ik (insts m) -> isa_Cmp_or_Cast ik = true ->
  ~ In (id ik) P -> In (id ik) P' ->
  pending P' < pending P.
Proof.
  intros Hsub Hik Hcc HnP HP'. unfold pending.
  apply filter_length_lt with (x := ik).
  - intros y _ Hy. apply andb_true_iff in Hy. destruct Hy as [H1 H2].
    rewrite H1. simpl. apply negb_true_iff. apply negb_true_iff in H2.
    apply mem_false. intros HIn. apply mem_false in H2. auto.
  - exact Hik.
  - rewrite Hcc. simpl. apply negb_true_iff. apply mem_false. exact HnP.
  - rewrite Hcc. simpl. apply negb_false_iff. apply mem_In. exact HP'.
Qed.

(** What holds of the work list [W], the instructions [V] that have been on
    a work list before, the replaced instructions [P] and the dead stores
    between two passes. *)
Definition between_passes (W V P dead : list nat) : Prop :=
  (forall u, In u W -> Reached u) /\
  (forall u, In u V -> Reached u) /\
  (forall c u, In c cs -> In u (users c m) -> In u V \/ In u W) /\
  (forall ik u, In ik (insts m) -> In (id ik) V ->
     isa_Cmp_or_Cast ik = true -> In u (users (id ik) m) ->
     In u V \/ In u W) /\
  (forall k, In k P <->
     exists ik, In ik (insts m) /\ id ik = k /\ In k V /\
                isa_Cmp_or_Cast ik = true) /\
  (forall s, In s dead <->
     exists ik, In ik (insts m) /\ id ik = s /\ In s V /\
                isa_StoreInst ik = true).

Lemma between_passes_done (V P dead : list nat) :
  between_passes [] V P dead -> forall u, In u V <-> Reached u.
Proof.
  intros (_ & HV & Hseed & Hstep & _ & _) u. split; [apply HV |].
  intros H. induction H as [c u Hc Hu | ik u _ IH Hik Hcc Hu].
  - destruct (Hseed c u Hc Hu) as [H | []]. exact H.
  - destruct (Hstep ik u Hik IH Hcc Hu) as [H | []]. exact H.
Qed.

Lemma between_passes_next (W V P dead next' dead' P' : list nat) :
  between_passes W V P dead ->
  (forall u, In u next' <->
     In u [] \/
     exists ik, In (id ik) W /\ In ik (insts m) /\
                isa_Cmp_or_Cast ik = true /\ ~ In (id ik) P /\
                In u (users (id ik) m)) ->
  (forall s, In s dead' <->
     In s dead \/
     exists ik, In (id ik) W /\ In ik (insts m) /\ id ik = s /\
                isa_StoreInst ik = true) ->
  (forall k, In k P' <->
     In k P \/
     exists ik, In (id ik) W /\ In ik (insts m) /\ id ik = k /\
                isa_Cmp_or_Cast ik = true) ->
  between_passes next' (V ++ W) P' dead'.
Proof.
  intros (HW & HV & Hseed & Hstep & HP & Hdead) Hnext Hdead' HP'.
  repeat split.
  - intros u Hu. apply Hnext in Hu.
    destruct Hu as [[] | (ik & Hw & Hik & Hcc & _ & Hu)].
    apply (Reached_via ik u); auto.
  - intros u Hu. apply in_app_or in Hu. destruct Hu; auto.
  - intros c u Hc Hu. left. apply in_or_app.
    destruct (Hseed c u Hc Hu); auto.
  - intros ik u Hik Hin Hcc Hu. apply in_app_or in Hin.
    destruct Hin as [Hin | Hin].
    + left. apply in_or_app. destruct (Hstep ik u Hik Hin Hcc Hu); auto.
    + destruct (mem (id ik) P) eqn:E.
      * apply mem_In in E. apply HP in E.
        destruct E as (j & Hj & Ej & HjV & _).
        left. apply in_or_app. destruct (Hstep ik u Hik HjV Hcc Hu); auto.
      * apply mem_false in E. right. apply Hnext. right.
        exists ik. auto.
  - intros Hk. apply HP' in Hk. destruct Hk as [Hk | (ik & Hw & Hik & E & Hcc)].
    + apply HP in Hk. destruct Hk as (ik & Hik & E & Hv & Hcc).
      exists ik. split; [exact Hik |]. split; [exact E |].
      split; [apply in_or_app; auto | exact Hcc].
    + exists ik. split; [exact Hik |]. split; [exact E |].
      split; [apply in_or_app; right; congruence | exact Hcc].
  - intros (ik & Hik & E & Hv & Hcc). apply HP'. apply in_app_or in Hv.
    destruct Hv as [Hv | Hv].
    + left. apply HP. exists ik. auto.
    + right. exists ik. split; [congruence | auto].
  - intros Hs. apply Hdead' in Hs.
    destruct Hs as [Hs | (ik & Hw & Hik & E & Hst)].
    + apply Hdead in Hs. destruct Hs as (ik & Hik & E & Hv & Hst).
      exists ik. split; [exact Hik |]. split; [exact E |].
      split; [apply in_or_app; auto | exact Hst].
    + exists ik. split; [exact Hik |]. split; [exact E |].
      split; [apply in_or_app; right; congruence | exact Hst].
  - intros (ik & Hik & E & Hv & Hst). apply Hdead'. apply in_app_or in Hv.
    destruct Hv as [Hv | Hv].
    + left. apply Hdead. exists ik. auto.
    + right. exists ik. split; [congruence | auto].
Qed.

(** The [while] loop: with more fuel than there are comparisons and casts
    still to replace, it ends, and it ends with exactly the reached
    comparisons and casts replaced and exactly the reached stores listed. *)
Lemma propagate_spec : forall fuel W V P dead,
  between_passes W V P dead ->
  pending P < fuel ->
  exists V' P' dead',
    propagate_undef fuel W dead (ustate cs P)
    = Some (Done (dead', ustate cs P')) /\
    between_passes [] V' P' dead'.
Proof.
  induction fuel as [| fuel IH]; intros W V P dead Hinv Hfuel; [lia |].
  destruct W as [| w W].
  - exists V, P, dead. split; [reflexivity | exact Hinv].
  - set (W0 := w :: W) in *.
    assert (HW : forall k, In k W0 ->
              exists ik, In ik (insts m) /\ id ik = k /\ calls name ik = false).
    { intros k Hk. destruct Hinv as (HW & _). apply Reached_not_caller.
      apply HW. exact Hk. }
    destruct (round_spec W0 [] dead P HW)
      as (next' & dead' & P' & Hrun & Hnext & Hdead' & HP').
    pose proof (between_passes_next W0 V P dead next' dead' P'
                  Hinv Hnext Hdead' HP') as Hinv'.
    change (propagate_undef (S fuel) W0 dead (ustate cs P))
      with (match propagate_undef_round W0 [] dead (ustate cs P) with
            | Done (next_work_list, dead_stores, m') =>
                propagate_undef fuel next_work_list dead_stores m'
            | CheckFailed msg => Some (CheckFailed msg)
            | Undefined => Some Undefined
            end).
    rewrite Hrun.
    destruct next' as [| n next'].
    + exists (V ++ W0), P', dead'. split; [| exact Hinv'].
      destruct fuel; reflexivity.
    + apply (IH (n :: next') (V ++ W0) P' dead' Hinv').
      assert (Hn : In n (n :: next')) by (left; reflexivity).
      apply Hnext in Hn.
      destruct Hn as [[] | (ik & Hw & Hik & Hcc & HnP & _)].
      assert (pending P' < pending P); [| lia].
      apply (pending_decreases P P' ik); auto.
      * intros k Hk. apply HP'. auto.
      * apply HP'. right. exists ik. auto.
Qed.

(** The values that the propagation replaces by an undefined value: the
    calls, and the reached comparisons and casts. *)
Definition source (x : nat) : Prop :=
  In x cs \/
  (Reached x /\
   exists i, In i (insts m) /\ id i = x /\ isa_Cmp_or_Cast i = true).

(** No store has two of these values among its operands. *)
Definition single_source : Prop :=
  forall s x y,
    In s (insts m) -> isa_StoreInst s = true ->
    In (VInst x) (operands s) -> In (VInst y) (operands s) ->
    source x -> source y -> x = y.

(** Between two passes, besides [between_passes]: the work list is a set, no
    store is twice among the dead stores, and the values whose users were on
    earlier work lists are apart from the values whose users are on this
    one. *)
Definition sources_apart (W V P dead : list nat) : Prop :=
  NoDup W /\ NoDup dead /\
  exists old new : nat -> Prop,
    (forall x, old x -> ~ new x) /\
    (forall x, old x \/ new x -> source x) /\
    (forall x, old x \/ new x <-> In x cs \/ In x P) /\
    (forall u, In u V -> exists x, old x /\ In u (users x m)) /\
    (forall u, In u W -> exists x, new x /\ In u (users x m)).

Lemma sources_apart_start (W0 : list nat) :
  NoDup W0 ->
  (forall u, In u W0 <->
     In u [] \/ exists c, In c cs /\ In u (users c m)) ->
  sources_apart W0 [] [] [].
Proof.
  intros Hnd HW0. split; [exact Hnd |]. split; [constructor |].
  exists (fun _ => False), (fun x => In x cs).
  split; [intros x [] |]. split; [intros x [[] | H]; left; exact H |].
  split; [intros x; simpl; tauto |]. split; [intros u [] |].
  intros u Hu. apply HW0 in Hu. destruct Hu as [[] | (c & Hc & Hu)].
  exists c. auto.
Qed.

Lemma cmp_or_cast_not_caller (ik : Instruction) :
  In ik (insts m) -> isa_Cmp_or_Cast ik = true -> ~ In (id ik) cs.
Proof.
  intros Hik Hcc Hin. apply In_callers in Hin; [| exact undef_called_directly].
  destruct Hin as (i & Hi & Hc & E).
  assert (i = ik) by (apply (same_id_same_inst m i ik Hwf Hi Hik E)).
  subst i. unfold calls, getCalledFunction, isa_Cmp_or_Cast, isa_CmpInst,
    isa_CastInst in *. destruct (opcode ik); discriminate.
Qed.

Lemma sources_apart_next (W V P dead next' dead' P' : list nat)
    (M' : Module) :
  single_source ->
  between_passes W V P dead ->
  sources_apart W V P dead ->
  propagate_undef_round W [] dead (ustate cs P) = Done (next', dead', M') ->
  (forall u, In u next' <->
     In u [] \/
     exists ik, In (id ik) W /\ In ik (insts m) /\
                isa_Cmp_or_Cast ik = true /\ ~ In (id ik) P /\
                In u (users (id ik) m)) ->
  (forall k, In k P' <->
     In k P \/
     exists ik, In (id ik) W /\ In ik (insts m) /\ id ik = k /\
                isa_Cmp_or_Cast ik = true) ->
  sources_apart next' (V ++ W) P' dead'.
Proof.
  intros Hss (HW & _ & _ & _ & _ & Hdead)
    (HndW & Hnddead & old & new & Hapart & Hsrc & Hall & Hold & Hnew)
    Hrun Hnext HP'.
  destruct (round_lists W [] dead (ustate cs P) next' dead' M' Hrun)
    as [Hn (added & Eadded & Hincl & Hndadded)].
  split; [apply Hn; constructor |]. split.
  { rewrite Eadded. apply NoDup_app; [exact Hnddead | auto |].
    intros a Hadead Haadded. apply Hdead in Hadead.
    destruct Hadead as (ik & Hik & Eik & HaV & Hst).
    destruct (Hold a HaV) as (x & Hx & Hux).
    destruct (Hnew a (Hincl a Haadded)) as (y & Hy & Huy).
    apply users_In in Hux. destruct Hux as (i1 & Hi1 & E1 & Hin1).
    apply users_In in Huy. destruct Huy as (i2 & Hi2 & E2 & Hin2).
    assert (i1 = ik)
      by (apply (same_id_same_inst m i1 ik Hwf Hi1 Hik); congruence).
    assert (i2 = ik)
      by (apply (same_id_same_inst m i2 ik Hwf Hi2 Hik); congruence).
    subst i1 i2.
    assert (x = y).
    { apply (Hss ik x y Hik Hst Hin1 Hin2); apply Hsrc; auto. }
    subst y. exact (Hapart x Hx Hy). }
  exists (fun x => old x \/ new x), (fun x => In x P' /\ ~ In x P).
  split; [| split; [| split; [| split]]].
  - intros x Hx (HxP' & HxP). apply Hall in Hx.
    destruct Hx as [Hxcs | Hx]; [| contradiction].
    apply HP' in HxP'. destruct HxP' as [H | (ik & _ & Hik & E & Hcc)];
      [contradiction |].
    subst x. exact (cmp_or_cast_not_caller ik Hik Hcc Hxcs).
  - intros x [Hx | (HxP' & HxP)]; [apply Hsrc; exact Hx |].
    apply HP' in HxP'. destruct HxP' as [H | (ik & Hw & Hik & E & Hcc)];
      [contradiction |].
    right. split; [apply HW; congruence |]. exists ik. auto.
  - intros x. split.
    + intros [Hx | (HxP' & _)]; [| right; exact HxP'].
      apply Hall in Hx. destruct Hx as [Hx | Hx]; [left; exact Hx |].
      right. apply HP'. left. exact Hx.
    + intros [Hx | Hx]; [left; apply Hall; left; exact Hx |].
      destruct (in_dec Nat.eq_dec x P) as [HxP | HxP].
      * left. apply Hall. right. exact HxP.
      * right. split; assumption.
  - intros u Hu. apply in_app_or in Hu. destruct Hu as [Hu | Hu].
    + destruct (Hold u Hu) as (x & Hx & Hux). exists x. auto.
    + destruct (Hnew u Hu) as (x & Hx & Hux). exists x. auto.
  - intros u Hu. apply Hnext in Hu.
    destruct Hu as [[] | (ik & Hw & Hik & Hcc & HnP & Hu)].
    exists (id ik). split; [| exact Hu]. split; [| exact HnP].
    apply HP'. right. exists ik. auto.
Qed.

(** With no store having two of these values as operands, no store is put
    twice on the vector of dead stores. *)
Lemma propagate_dead_NoDup : single_source ->
  forall fuel W V P dead dead' M',
    between_passes W V P dead -> sources_apart W V P dead ->
    propagate_undef fuel W dead (ustate cs P) = Some (Done (dead', M')) ->
    NoDup dead'.
Proof.
  intros Hss.
  induction fuel as [| fuel IH]; intros W V P dead dead' M' Hinv Hap H.
  - destruct W; [| discriminate H]. inversion H; subst. apply Hap.
  - destruct W as [| w W]; [inversion H; subst; apply Hap |].
    set (W0 := w :: W) in *.
    assert (HW : forall k, In k W0 ->
              exists ik, In ik (insts m) /\ id ik = k /\ calls name ik = false).
    { intros k Hk. destruct Hinv as (HW & _). apply Reached_not_caller.
      apply HW. exact Hk. }
    destruct (round_spec W0 [] dead P HW)
      as (next' & dead1 & P' & Hrun & Hnext & Hdead' & HP').
    change (propagate_undef (S fuel) W0 dead (ustate cs P))
      with (match propagate_undef_round W0 [] dead (ustate cs P) with
            | Done (next_work_list, dead_stores, m') =>
                propagate_undef fuel next_work_list dead_stores m'
            | CheckFailed msg => Some (CheckFailed msg)
            | Undefined => Some Undefined
            end) in H.
    rewrite Hrun in H.
    apply (IH next' (V ++ W0) P' dead1 dead' M').
    + apply (between_passes_next W0 V P dead next' dead1 P'); assumption.
    + apply (sources_apart_next W0 V P dead next' dead1 P' (ustate cs P'));
        assumption.
    + exact H.
Qed.

Lemma pending_start :
  pending [] = List.length (filter isa_Cmp_or_Cast (insts m)).
Proof.
  unfold pending. f_equal. apply filter_ext. intros i. simpl.
  apply andb_true_r.
Qed.

Lemma between_passes_start (W0 : list nat) :
  (forall u, In u W0 <->
     In u [] \/ exists c, In c cs /\ In u (users c m)) ->
  between_passes W0 [] [] [].
Proof.
  intros HW0. repeat split.
  - intros u Hu. apply HW0 in Hu. destruct Hu as [[] | (c & Hc & Hu)].
    apply (Reached_call c u); assumption.
  - intros u [].
  - intros c u Hc Hu. right. apply HW0. right. exists c. auto.
  - intros ik u _ [].
  - intros [].
  - intros (ik & _ & _ & [] & _).
  - intros [].
  - intros (ik & _ & _ & [] & _).
Qed.

(** The module at the end, read off the set of reached instructions. *)
Lemma undef_final (V P dead : list nat) :
  between_passes [] V P dead ->
  erase_each dead (ustate cs P)
  = lift (undef_inst name ret m (fun u => mem u V)) m.
Proof.
  intros (_ & _ & _ & _ & HP & Hdead).
  rewrite erase_each_lift. unfold ustate. rewrite lift_lift.
  apply lift_ext. intros i Hi. unfold undef_inst.
  rewrite (mem_callers i Hi). destruct (calls name i) eqn:Ec;
    [reflexivity |].
  simpl. rewrite app_nil_r. fold (mem (id i) dead).
  assert (Edead : mem (id i) dead = isa_StoreInst i && mem (id i) V).
  { destruct (mem (id i) dead) eqn:E.
    - apply mem_In in E. apply Hdead in E.
      destruct E as (j & Hj & Ej & Hv & Hst).
      assert (j = i) by (apply (same_id_same_inst m j i Hwf Hj Hi Ej)).
      subst j. rewrite Hst. symmetry. apply mem_In. exact Hv.
    - destruct (isa_StoreInst i) eqn:Est; [| reflexivity].
      destruct (mem (id i) V) eqn:Ev; [| reflexivity].
      apply mem_false in E. exfalso. apply E. apply Hdead.
      exists i. split; [exact Hi |]. split; [reflexivity |].
      split; [apply mem_In; exact Ev | exact Est]. }
  rewrite Edead.
  destruct (isa_StoreInst i && mem (id i) V); [reflexivity |].
  f_equal. apply subst_inst_ext. intros v.
  unfold theta_undef, undef_subst. destruct v as [k | |]; try reflexivity.
  destruct (find_inst k m) as [ik |] eqn:Ef.
  - apply find_inst_Some in Ef. destruct Ef as [Hik Eik]. subst k.
    rewrite (mem_callers ik Hik). destruct (calls name ik); [reflexivity |].
    unfold inst_ty. rewrite (find_inst_unique m ik Hwf Hik).
    assert (EP : mem (id ik) P = isa_Cmp_or_Cast ik && mem (id ik) V).
    { destruct (mem (id ik) P) eqn:E.
      - apply mem_In in E. apply HP in E.
        destruct E as (j & Hj & Ej & Hv & Hcc).
        assert (j = ik) by (apply (same_id_same_inst m j ik Hwf Hj Hik Ej)).
        subst j. rewrite Hcc. symmetry. apply mem_In. exact Hv.
      - destruct (isa_Cmp_or_Cast ik) eqn:Ecc; [| reflexivity].
        destruct (mem (id ik) V) eqn:Ev; [| reflexivity].
        apply mem_false in E. exfalso. apply E. apply HP.
        exists ik. split; [exact Hik |]. split; [reflexivity |].
        split; [apply mem_In; exact Ev | exact Ecc]. }
    rewrite EP. reflexivity.
  - pose proof (find_inst_None k m Ef) as Hnone.
    assert (EkD : mem k cs = false).
    { apply mem_false. intros Hin. apply In_callers in Hin;
        [| exact undef_called_directly].
      destruct Hin as (j & Hj & _ & Ej). apply (Hnone j Hj Ej). }
    assert (EkP : mem k P = false).
    { apply mem_false. intros Hin. apply HP in Hin.
      destruct Hin as (j & Hj & Ej & _). apply (Hnone j Hj Ej). }
    rewrite EkD, EkP. reflexivity.
Qed.

(** More fuel does not change what the [while] loop returns. *)
Lemma propagate_undef_more_fuel : forall fuel fuel' W dead M r,
  propagate_undef fuel W dead M = Some r -> fuel <= fuel' ->
  propagate_undef fuel' W dead M = Some r.
Proof.
  induction fuel as [| fuel IH]; intros fuel' W dead M r H Hle.
  - destruct W; [| discriminate H]. destruct fuel'; exact H.
  - destruct W as [| w W]; [destruct fuel'; exact H |].
    destruct fuel' as [| fuel']; [lia |].
    cbn [propagate_undef] in *.
    destruct (propagate_undef_round (w :: W) [] dead M)
      as [[[next ds] M'] | msg |]; [| exact H | exact H].
    apply (IH fuel' next ds M' r H). lia.
Qed.

(** The dead stores are still in the module when the loop ends. *)
Lemma dead_present (V P dead : list nat) :
  between_passes [] V P dead ->
  forall s, In s dead -> present s (ustate cs P).
Proof.
  intros (_ & _ & _ & _ & _ & Hdead) s Hs. apply Hdead in Hs.
  destruct Hs as (ik & Hik & E & _ & Hst).
  exists (subst_inst (theta_undef cs P) ik). split; [| exact E].
  apply insts_ustate. exists ik. split; [exact Hik |].
  split; [| reflexivity]. apply not_caller_mem; [exact Hik |].
  unfold calls, getCalledFunction, isa_StoreInst in *.
  destruct (opcode ik); try reflexivity; discriminate.
Qed.

(** [ReplaceUndefIntrinsic], with more fuel than the module has comparisons
    and casts: the work-list loop ends with the reached stores on the vector
    of dead stores. If no store is on it twice, the calls and the reached
    stores are gone and the operands are rewritten as [undef_subst] says;
    if one is, it is erased twice. *)
Lemma ReplaceUndefIntrinsic_spec (func : Function) :
  fn_name func = name -> fn_ret func = ret ->
  exists V dead,
    (forall u, In u V <-> Reached u) /\
    (forall s, In s dead <->
       Reached s /\
       exists i, In i (insts m) /\ id i = s /\ isa_StoreInst i = true) /\
    (single_source -> nodupb dead = true) /\
    forall fuel,
      List.length (filter isa_Cmp_or_Cast (insts m)) < fuel ->
      ReplaceUndefIntrinsic fuel func m
      = Some (if nodupb dead
              then Done (lift (undef_inst name ret m (fun u => mem u V)) m)
              else Undefined).
Proof.
  intros Hname Hret.
  destruct (replace_calls_spec cs [] [])
    as (W0 & Hfirst & HW0).
  { apply NoDup_callers; [exact Hwf | exact undef_called_directly]. }
  { intros c Hc. split; [exact Hc | intros []]. }
  { intros c []. }
  pose proof Hfirst as Hfirst0.
  rewrite ustate_start in Hfirst.
  assert (Estate : ustate (rev cs ++ []) [] = ustate cs []).
  { apply ustate_ext; [| tauto]. intros k. rewrite app_nil_r.
    symmetry. apply in_rev. }
  rewrite Estate in Hfirst.
  pose proof (between_passes_start W0 HW0) as Hinv.
  destruct (propagate_spec
              (S (List.length (filter isa_Cmp_or_Cast (insts m))))
              W0 [] [] [] Hinv)
    as (V & P & dead & Hprop & Hend).
  { rewrite pending_start. lia. }
  pose proof (between_passes_done V P dead Hend) as HV.
  exists V, dead. split; [exact HV |]. split.
  { pose proof Hend as (_ & _ & _ & _ & _ & Hdead).
    intros s. rewrite Hdead. split.
    - intros (ik & Hik & E & Hv & Hst). split; [apply HV; exact Hv |].
      exists ik. auto.
    - intros (Hr & ik & Hik & E & Hst). exists ik.
      split; [exact Hik |]. split; [exact E |].
      split; [apply HV; exact Hr | exact Hst]. }
  split.
  { intros Hss. apply NoDup_nodupb.
    apply (propagate_dead_NoDup Hss
             (S (List.length (filter isa_Cmp_or_Cast (insts m))))
             W0 [] [] [] dead (ustate cs P) Hinv);
      [| exact Hprop].
    apply sources_apart_start; [| exact HW0].
    apply (replace_calls_NoDup _ _ _ _ _ _ Hfirst0). constructor. }
  intros fuel Hfuel.
  unfold ReplaceUndefIntrinsic. rewrite Hname, Hret. fold cs.
  rewrite Hfirst.
  rewrite (propagate_undef_more_fuel _ fuel _ _ _ _ Hprop) by lia.
  f_equal. destruct (nodupb dead) eqn:Edup.
  - rewrite erase_all_Done.
    + rewrite (undef_final V P dead Hend). reflexivity.
    + apply nodupb_NoDup. exact Edup.
    + apply (dead_present V P dead Hend).
  - apply erase_all_twice. intros Hnd. apply NoDup_nodupb in Hnd.
    congruence.
Qed.

End Undef.

Lemma getFunction_name (name : string) (m : Module) (func : Function) :
  getFunction name m = Some func -> fn_name func = name.
Proof.
  unfold getFunction. intros H. apply find_some in H. destruct H as [_ H].
  apply String.eqb_eq. exact H.
Qed.

(** The body of the loop of [RemoveUndefFuncCalls] for an intrinsic that the
    module has (and calls without arguments), with enough fuel for the
    work-list loop. The vector of dead stores holds the stores that the
    propagation reaches (the users of the calls, and the users of the
    reached comparisons and casts). With no store twice on it: every call
    is erased and its result replaced by the undefined value of the
    intrinsic's return type; every reached comparison or cast has its result
    replaced by the undefined value of its own type; every reached store is
    erased; every other store stays; and the function is removed if it has
    no use left. With a store twice on it, the store is erased twice. No
    store is twice on it when no store has two of the values that become
    undefined among its operands. *)
Lemma RemoveUndefFuncCall_spec (name : string) (m : Module)
    (func : Function) :
  getFunction name m = Some func -> wf m -> no_arguments name m ->
  exists (reached : nat -> bool) (dead : list nat),
    (forall u, reached u = true <-> Reached name m u) /\
    (forall s, In s dead <->
       Reached name m s /\
       exists i, In i (insts m) /\ id i = s /\ isa_StoreInst i = true) /\
    (single_source name m -> nodupb dead = true) /\
    (forall fuel,
       List.length (filter isa_Cmp_or_Cast (insts m)) < fuel ->
       RemoveUndefFuncCall fuel (Some func) m
       = Some (if nodupb dead
               then Done (RemoveFunction name
                            (lift (undef_inst name (fn_ret func) m reached)
                               m))
               else Undefined)) /\
    (forall i, In i (insts m) -> calls name i = true ->
       undef_inst name (fn_ret func) m reached i = [] /\
       undef_subst name (fn_ret func) m reached (VInst (id i))
       = VConst (CUndef (fn_ret func))) /\
    (forall i, In i (insts m) -> isa_Cmp_or_Cast i = true ->
       Reached name m (id i) ->
       undef_subst name (fn_ret func) m reached (VInst (id i))
       = VConst (CUndef (ty i))) /\
    (forall i, In i (insts m) -> isa_StoreInst i = true ->
       Reached name m (id i) ->
       forall j,
         In j (insts (lift (undef_inst name (fn_ret func) m reached) m)) ->
         id j <> id i) /\
    (forall i, In i (insts m) -> isa_StoreInst i = true ->
       ~ Reached name m (id i) ->
       In (subst_inst (undef_subst name (fn_ret func) m reached) i)
          (insts (lift (undef_inst name (fn_ret func) m reached) m))).
Proof.
  intros Hget Hwf Hnoargs.
  pose proof (getFunction_name name m func Hget) as Hname.
  destruct (ReplaceUndefIntrinsic_spec name (fn_ret func) m Hwf Hnoargs func
              Hname eq_refl) as (V & dead & HV & Hdead & Hsingle & Hrun).
  exists (fun u => mem u V), dead.
  assert (Hreached : forall u, mem u V = true <-> Reached name m u).
  { intros u. rewrite mem_In. apply HV. }
  split; [exact Hreached |]. split; [exact Hdead |].
  split; [exact Hsingle |].
  split; [| split; [| split; [| split]]].
  - intros fuel Hfuel. unfold RemoveUndefFuncCall.
    rewrite (Hrun fuel Hfuel), Hname. destruct (nodupb dead); reflexivity.
  - intros i Hi Hc. unfold undef_inst, undef_subst.
    rewrite (find_inst_unique m i Hwf Hi), Hc. split; reflexivity.
  - intros i Hi Hcc Hr. unfold undef_subst.
    rewrite (find_inst_unique m i Hwf Hi).
    assert (Hc : calls name i = false).
    { unfold calls, getCalledFunction, isa_Cmp_or_Cast, isa_CmpInst,
        isa_CastInst in *. destruct (opcode i); try reflexivity;
        discriminate. }
    rewrite Hc, Hcc. simpl. rewrite (proj2 (Hreached (id i)) Hr).
    reflexivity.
  - intros i Hi Hst Hr j Hj E. rewrite insts_lift in Hj.
    apply in_flat_map in Hj. destruct Hj as (i0 & Hi0 & Hin).
    unfold undef_inst in Hin.
    destruct (calls name i0 || (isa_StoreInst i0 && mem (id i0) V)) eqn:Eg;
      [destruct Hin |].
    destruct Hin as [<- | []]. simpl in E.
    assert (i0 = i) by (apply (same_id_same_inst m i0 i Hwf Hi0 Hi E)).
    subst i0. rewrite Hst, (proj2 (Hreached (id i)) Hr) in Eg.
    rewrite orb_true_r in Eg. discriminate.
  - intros i Hi Hst Hr. rewrite insts_lift. apply in_flat_map.
    exists i. split; [exact Hi |]. unfold undef_inst.
    assert (Hc : calls name i = false).
    { unfold calls, getCalledFunction, isa_StoreInst in *.
      destruct (opcode i); try reflexivity; discriminate. }
    assert (Hv : mem (id i) V = false).
    { destruct (mem (id i) V) eqn:E; [| reflexivity].
      exfalso. apply Hr. apply Hreached. exact E. }
    rewrite Hc, Hv, andb_false_r. left. reflexivity.
Qed.

(** So the removal completes, and does what [undef_inst] says, on every
    module where no store has two of the values that become undefined among
    its operands. *)
Lemma RemoveUndefFuncCall_single_source (name : string) (m : Module)
    (func : Function) :
  getFunction name m = Some func -> wf m -> no_arguments name m ->
  single_source name m ->
  exists reached : nat -> bool,
    (forall u, reached u = true <-> Reached name m u) /\
    (forall fuel,
       List.length (filter isa_Cmp_or_Cast (insts m)) < fuel ->
       RemoveUndefFuncCall fuel (Some func) m
       = Some (Done (RemoveFunction name
                       (lift (undef_inst name (fn_ret func) m reached) m)))).
Proof.
  intros Hget Hwf Hnoargs Hss.
  destruct (RemoveUndefFuncCall_spec name m func Hget Hwf Hnoargs)
    as (reached & dead & Hreached & _ & Hsingle & Hrun & _).
  exists reached. split; [exact Hreached |].
  intros fuel Hfuel. rewrite (Hrun fuel Hfuel), (Hsingle Hss). reflexivity.
Qed.

(** The vector of dead stores of [ReplaceUndefIntrinsic] when its work list
    is empty. *)
Definition dead_stores (fuel : nat) (function : Function) (m : Module)
    : option (list nat) :=
  match replace_calls_with_undef (VConst (CUndef (fn_ret function)))
          (CallersOf (fn_name function) m) [] m with
  | Done (work_list, m) =>
      match propagate_undef fuel work_list [] m with
      | Some (Done (dead, _)) => Some dead
      | _ => None
      end
  | _ => None
  end.

(** C6 fails on [twice_reached_module], where a store has the undefined
    value as the value to store and a cast of it as the address. The store
    is on the first work list as a user of the call, and on the second one
    as a user of the cast, so it is put twice on the vector of dead stores,
    and the last loop of [ReplaceUndefIntrinsic] erases it twice: with fuel
    for the two passes [RemoveUndefFuncCalls] is undefined, and with no
    fuel does it give a module. *)
Theorem RemoveUndefFuncCalls_erases_store_twice :
  wf Sample.twice_reached_module /\
  no_arguments "__remill_undefined_64" Sample.twice_reached_module /\
  CallersOf "__remill_undefined_64" Sample.twice_reached_module = [0] /\
  users 0 Sample.twice_reached_module = [1; 2] /\
  users 1 Sample.twice_reached_module = [2] /\
  dead_stores 2 (Sample.declare "__remill_undefined_64" Int64Ty [])
    Sample.twice_reached_module = Some [2; 2] /\
  (forall fuel, 2 <= fuel ->
     RemoveUndefFuncCalls fuel Sample.twice_reached_module
     = Some Undefined) /\
  (forall fuel m',
     RemoveUndefFuncCalls fuel Sample.twice_reached_module
     <> Some (Done m')).
Proof.
  split; [apply wfb_wf; reflexivity |].
  split; [apply no_argumentsb_ok; reflexivity |].
  split; [reflexivity |]. split; [reflexivity |]. split; [reflexivity |].
  split; [reflexivity |]. split.
  - intros fuel Hfuel. destruct fuel as [| [| [| fuel]]]; try lia;
      reflexivity.
  - intros fuel m' H.
    destruct fuel as [| [| [| fuel]]]; vm_compute in H; discriminate H.
Qed.

(** [RemoveUndefFuncCalls] on [undef_module]: the call is gone, the widened
    value and the comparison are undefined, the stores of the comparison and
    of the byte are gone, the store of the sum stays, and the intrinsic is
    removed. *)
Example RemoveUndefFuncCalls_undef_module :
  RemoveUndefFuncCalls 3 Sample.undef_module =
  Some (Done
    {| functions :=
         [ Sample.define "sub_401000" Sample.MemoryPtr
             [Sample.MemoryPtr; Sample.StatePtr; Int64Ty]
             [ Sample.inst 1 (Cast ZExt) Int64Ty [VConst (CUndef Int8Ty)];
               Sample.inst 2 ICmp (IntegerTy 1)
                 [VConst (CUndef Int64Ty); VArg 2];
               Sample.inst 4 (Other "add") Int64Ty
                 [VConst (CUndef Int64Ty); VArg 2];
               Sample.inst 5 Store VoidTy [VInst 4; VArg 1];
               Sample.inst 7 Ret VoidTy [VArg 0] ] ];
       globals := [];
       next_id := 8 |}).
Proof. reflexivity. Qed.

(** *** The ISEL set *)

(** The number of uses is read off what is written: it is the same when
    the same constants are written, and no larger when no constant is
    written more often. *)
Lemma getNumUses_written (t : Constant) (m m' : Module) :
  written m' = written m -> getNumUses t m' = getNumUses t m.
Proof. intros H. unfold getNumUses. rewrite H. reflexivity. Qed.

Lemma getNumUses_le (t : Constant) (m m' : Module) :
  (forall c, count_occ Constant_eq_dec (written m') c
             <= count_occ Constant_eq_dec (written m) c) ->
  getNumUses t m' <= getNumUses t m.
Proof.
  intros H. unfold getNumUses. apply Nat.add_le_mono; [apply H |].
  apply NoDup_incl_length; [apply NoDup_nodup |].
  intros e He. apply nodup_In. apply nodup_In in He.
  apply filter_In in He. destruct He as [He Hc]. apply filter_In.
  split; [| exact Hc].
  apply in_flat_map in He. destruct He as (c & Hc' & He).
  apply in_flat_map. exists c. split; [| exact He].
  apply (count_occ_In Constant_eq_dec) in Hc'.
  apply (count_occ_In Constant_eq_dec). specialize (H c). lia.
Qed.

Lemma count_occ_flat_map_filter {A} (f : A -> list Constant)
    (keep : A -> bool) (l : list A) (c : Constant) :
  count_occ Constant_eq_dec (flat_map f (filter keep l)) c
  <= count_occ Constant_eq_dec (flat_map f l) c.
Proof.
  induction l as [| a l IH]; simpl; [lia |].
  destruct (keep a); simpl; rewrite ?count_occ_app; lia.
Qed.

Lemma setGlobalLinkage_uses (t : Constant) (name : string) (l : Linkage)
    (m : Module) :
  getNumUses t (setGlobalLinkage name l m) = getNumUses t m.
Proof.
  apply getNumUses_written. unfold written, setGlobalLinkage, insts; simpl.
  f_equal. induction (globals m) as [| g gs IH]; simpl; [reflexivity |].
  rewrite IH. f_equal.
  destruct (String.eqb (gv_name g) name); reflexivity.
Qed.

(** The module after a scan that erased nothing: the ISELs have internal
    linkage, and nothing else has changed. *)
Definition internalize (isels : list string) (m : Module) : Module :=
  fold_left (fun m isel => setGlobalLinkage isel InternalLinkage m) isels m.

Lemma internalize_uses (t : Constant) (isels : list string) : forall m,
  getNumUses t (internalize isels m) = getNumUses t m.
Proof.
  induction isels as [| g rest IH]; intros m; simpl; [reflexivity |].
  rewrite IH. apply setGlobalLinkage_uses.
Qed.

Lemma internalize_functions (isels : list string) : forall m,
  functions (internalize isels m) = functions m /\
  next_id (internalize isels m) = next_id m /\
  map gv_name (globals (internalize isels m)) = map gv_name (globals m) /\
  map gv_init (globals (internalize isels m)) = map gv_init (globals m).
Proof.
  induction isels as [| g rest IH]; intros m; simpl; [auto |].
  destruct (IH (setGlobalLinkage g InternalLinkage m)) as (F & N & G & I).
  rewrite F, N, G, I. unfold setGlobalLinkage; simpl.
  rewrite !map_map. repeat split; apply map_ext; intros x;
    destruct (String.eqb (gv_name x) g); reflexivity.
Qed.

Lemma RemoveISELs_scan_keeps (isels : list string) : forall next m,
  Forall (fun g => 1 < getNumUses (CGlobalVariable g) m) isels ->
  RemoveISELs_scan isels next m = (next ++ isels, internalize isels m).
Proof.
  induction isels as [| g rest IH]; intros next m H; simpl.
  - rewrite app_nil_r. reflexivity.
  - inversion H as [| ? ? Hg Hrest]; subst.
    rewrite setGlobalLinkage_uses.
    destruct (Nat.leb_spec (getNumUses (CGlobalVariable g) m) 1); [lia |].
    rewrite IH.
    + rewrite <- app_assoc. reflexivity.
    + eapply Forall_impl; [| exact Hrest]. intros a Ha.
      rewrite setGlobalLinkage_uses. exact Ha.
Qed.

(** A scan that gives back the set it was given, and the module it was
    given, is repeated for ever. *)
Lemma RemoveISELs_stuck (isels : list string) (m : Module) :
  isels <> [] ->
  RemoveISELs_scan isels [] m = (isels, m) ->
  forall fuel, RemoveISELs fuel isels m = None.
Proof.
  intros Hne Hfix fuel. induction fuel as [| fuel IH].
  - destruct isels; [congruence | reflexivity].
  - destruct isels as [| g rest]; [congruence |].
    change (RemoveISELs (S fuel) (g :: rest) m)
      with (let '(next, m') := RemoveISELs_scan (g :: rest) [] m in
            RemoveISELs fuel next m').
    rewrite Hfix. exact IH.
Qed.

Definition internalize_global (isels : list string) (g : GlobalVariable)
    : GlobalVariable :=
  if existsb (String.eqb (gv_name g)) isels
  then set_gv_linkage InternalLinkage g
  else g.

Lemma internalize_spec (isels : list string) : forall m,
  internalize isels m =
  set_globals (map (internalize_global isels) (globals m)) m.
Proof.
  induction isels as [| a l IH]; intros m; simpl.
  - unfold set_globals, internalize_global; simpl.
    rewrite map_id. destruct m; reflexivity.
  - rewrite IH. unfold setGlobalLinkage, set_globals; simpl. f_equal.
    rewrite map_map. apply map_ext. intros g.
    unfold internalize_global; simpl.
    destruct (String.eqb (gv_name g) a); simpl; [| reflexivity].
    destruct (existsb (String.eqb (gv_name g)) l); reflexivity.
Qed.

Lemma internalize_idempotent (isels : list string) (m : Module) :
  internalize isels (internalize isels m) = internalize isels m.
Proof.
  rewrite !internalize_spec. unfold set_globals; simpl. f_equal.
  rewrite map_map. apply map_ext. intros g. unfold internalize_global.
  destruct (existsb (String.eqb (gv_name g)) isels) eqn:E; simpl;
    rewrite E; reflexivity.
Qed.

(** With a set of ISELs that is not empty and whose members all have more
    than one use, the loop of [RemoveISELs] runs out of any fuel. *)
Lemma RemoveISELs_diverges (isels : list string) (m : Module) :
  isels <> [] ->
  Forall (fun g => 1 < getNumUses (CGlobalVariable g) m) isels ->
  forall fuel, RemoveISELs fuel isels m = None.
Proof.
  intros Hne Hlive [| fuel].
  - destruct isels; [congruence | reflexivity].
  - destruct isels as [| g rest]; [congruence |].
    change (RemoveISELs (S fuel) (g :: rest) m)
      with (let '(next, m') := RemoveISELs_scan (g :: rest) [] m in
            RemoveISELs fuel next m').
    rewrite RemoveISELs_scan_keeps by exact Hlive. simpl app.
    apply RemoveISELs_stuck; [discriminate |].
    rewrite RemoveISELs_scan_keeps.
    + rewrite internalize_idempotent. reflexivity.
    + eapply Forall_impl; [| exact Hlive]. intros a Ha.
      rewrite internalize_uses. exact Ha.
Qed.

(** C8, as the code has it. With no ISEL in the set, [RemoveISELs] gives
    the module back as it is. With a set of ISELs that all have more than one
    use, a scan erases no global and keeps every ISEL in the set; all it
    changes in the module is the linkage of the ISELs, which becomes
    internal; and a further scan changes nothing more. *)
Theorem RemoveISELs_without_dead_ISELs (isels : list string) (m : Module)
    (Hlive : Forall (fun g => 1 < getNumUses (CGlobalVariable g) m) isels) :
  (isels = [] -> forall fuel, RemoveISELs fuel isels m = Some m) /\
  RemoveISELs_scan isels [] m =
    (isels, set_globals (map (internalize_global isels) (globals m)) m) /\
  RemoveISELs_scan isels []
    (set_globals (map (internalize_global isels) (globals m)) m) =
    (isels, set_globals (map (internalize_global isels) (globals m)) m).
Proof.
  split; [| split].
  - intros -> fuel. destruct fuel; reflexivity.
  - rewrite RemoveISELs_scan_keeps by exact Hlive.
    rewrite internalize_spec. reflexivity.
  - rewrite <- internalize_spec.
    rewrite RemoveISELs_scan_keeps.
    + rewrite internalize_idempotent. reflexivity.
    + eapply Forall_impl; [| exact Hlive]. intros a Ha.
      rewrite internalize_uses. exact Ha.
Qed.

Lemma RemoveISELs_without_dead_ISELs_witness :
  RemoveISELs_scan ["ISEL_ADD"%string] [] Sample.isel_module =
    (["ISEL_ADD"%string],
     set_globals
       (map (internalize_global ["ISEL_ADD"%string])
            (globals Sample.isel_module))
       Sample.isel_module).
Proof.
  apply (@RemoveISELs_without_dead_ISELs ["ISEL_ADD"%string]
           Sample.isel_module).
  repeat constructor.
Defined.

(** C8, as stated, fails: in [isel_module] the one ISEL has two uses, yet
    the scan changes its linkage, and no number of scans gives the module
    back as it was. *)
Lemma RemoveISELs_changes_linkage :
  FindISELs Sample.isel_module = Done ["ISEL_ADD"%string] /\
  getNumUses (CGlobalVariable "ISEL_ADD") Sample.isel_module = 2 /\
  snd (RemoveISELs_scan ["ISEL_ADD"%string] [] Sample.isel_module)
    <> Sample.isel_module /\
  (forall fuel,
     RemoveISELs fuel ["ISEL_ADD"%string] Sample.isel_module
     <> Some Sample.isel_module).
Proof.
  split; [reflexivity |]. split; [reflexivity |]. split.
  - vm_compute. discriminate.
  - intros fuel. rewrite RemoveISELs_diverges; [discriminate | discriminate |].
    repeat constructor.
Qed.

(** A constant expression is one use of the global it is a cast of, however
    many instructions have it as an operand: the ISEL of
    [shared_cast_module] has one use, and the first scan erases it. *)
Example RemoveISELs_shared_cast :
  FindISELs Sample.shared_cast_module = Done ["ISEL_ADD"%string] /\
  getNumUses (CGlobalVariable "ISEL_ADD") Sample.shared_cast_module = 1 /\
  RemoveISELs 1 ["ISEL_ADD"%string] Sample.shared_cast_module
  = Some (eraseGlobal "ISEL_ADD"
            (setGlobalLinkage "ISEL_ADD" InternalLinkage
               Sample.shared_cast_module)) /\
  getGlobalVariable "ISEL_ADD"
    (eraseGlobal "ISEL_ADD"
       (setGlobalLinkage "ISEL_ADD" InternalLinkage
          Sample.shared_cast_module)) = None.
Proof. repeat split. Qed.

Section WithRemill.

Variable ConstantFolder_CreateCast : CastOp -> Constant -> Ty -> Constant.
Variable kMemoryPointerArgNum : nat.
Variable RunO3 : Module -> Module.

(** C2 fails on [isel_module]: its ISEL has two uses, so every scan keeps
    it in the set, and the loop of [RemoveISELs], which only stops on an
    empty set, does not stop. No amount of fuel lets [RemoveISELs], or
    [OptimizeModule] which runs it, return. *)
Theorem RemoveISELs_does_not_terminate :
  FindISELs Sample.isel_module = Done ["ISEL_ADD"%string] /\
  getNumUses (CGlobalVariable "ISEL_ADD") Sample.isel_module = 2 /\
  (forall fuel,
     RemoveISELs fuel ["ISEL_ADD"%string] Sample.isel_module = None) /\
  (forall fuel,
     OptimizeModule ConstantFolder_CreateCast kMemoryPointerArgNum RunO3 fuel
       Sample.isel_module = None).
Proof.
  split; [reflexivity |]. split; [reflexivity |].
  assert (Hlive : forall m,
    getNumUses (CGlobalVariable "ISEL_ADD") m = 2 ->
    forall fuel, RemoveISELs fuel ["ISEL_ADD"%string] m = None).
  { intros m Hm. apply RemoveISELs_diverges; [discriminate |].
    constructor; [lia | constructor]. }
  split.
  - apply Hlive. reflexivity.
  - intros fuel. unfold OptimizeModule.
    change (FindISELs Sample.isel_module) with (Done ["ISEL_ADD"%string]).
    cbv iota beta.
    rewrite Hlive; reflexivity.
Qed.

End WithRemill.



End OptimizerFacts.

(** ** Part V: the lifter's state across the operands of an instruction *)

Module LifterCoverage.

Import Lifter.
Import LifterFacts.
Local Open Scope Z_scope.

Unset Implicit Arguments.

Section Coverage.

Variable address_size : Z.
Variable getTypeSizeInBits : Ty -> Z.
Variable LiftXrefInCode : Z -> Value.
Variable TryGetSegment : Z -> bool.
Variable remill_LiftImmediateOperand : Instruction -> Argument -> Operand -> Value.
Variable remill_LiftAddressOperand : Instruction -> Argument -> Operand -> Value.
Variable remill_status : Instruction -> LiftStatus.

Local Abbreviation LiftAddressOperand :=
  (Lifter.LiftAddressOperand remill_LiftAddressOperand).
Local Abbreviation LiftImmediateOperand :=
  (Lifter.LiftImmediateOperand address_size getTypeSizeInBits TryGetSegment
     remill_LiftImmediateOperand).
Local Abbreviation LiftOperand :=
  (Lifter.LiftOperand address_size getTypeSizeInBits TryGetSegment
     remill_LiftImmediateOperand remill_LiftAddressOperand).
Local Abbreviation LiftOperands :=
  (Lifter.LiftOperands address_size getTypeSizeInBits TryGetSegment
     remill_LiftImmediateOperand remill_LiftAddressOperand).
Local Abbreviation remill_LiftIntoBlock :=
  (Lifter.remill_LiftIntoBlock address_size getTypeSizeInBits TryGetSegment
     remill_LiftImmediateOperand remill_LiftAddressOperand remill_status).
Local Abbreviation LiftIntoBlock :=
  (Lifter.LiftIntoBlock address_size getTypeSizeInBits LiftXrefInCode
     TryGetSegment remill_LiftImmediateOperand remill_LiftAddressOperand
     remill_status).
Local Abbreviation fetch_references := (Lifter.fetch_references LiftXrefInCode).

(** Takes a run of one of the two operand lifters apart, path by path. *)
Ltac paths H :=
  repeat match type of H with
         | context [match ?x with _ => _ end] => destruct x eqn:?
         end;
  try discriminate H; inversion H; subst; clear H.

(** *** What lifting an operand does to the lifter

    From [L] to [L']: the context, the memory reference and the displacement
    reference stay; the immediate reference stays or, when it was not used
    yet, becomes a truncation of itself and is used from then on; a used
    flag that is set stays set; and the log only gets longer. *)
Definition grows (L L' : InstructionLifter) : Prop :=
  ctx L' = ctx L /\
  mem_ref L' = mem_ref L /\
  disp_ref L' = disp_ref L /\
  (imm_ref L' = imm_ref L \/
   exists r ty, imm_ref L = Some r /\ imm_ref L' = Some (Trunc r ty) /\
                imm_ref_used L = false /\ imm_ref_used L' = true) /\
  (mem_ref_used L = true -> mem_ref_used L' = true) /\
  (imm_ref_used L = true -> imm_ref_used L' = true) /\
  (disp_ref_used L = true -> disp_ref_used L' = true) /\
  exists more, log L' = log L ++ more.

Lemma grows_refl (L : InstructionLifter) : grows L L.
Proof.
  unfold grows. repeat split; auto. exists []. rewrite app_nil_r. reflexivity.
Qed.

Lemma grows_trans (L1 L2 L3 : InstructionLifter) :
  grows L1 L2 -> grows L2 L3 -> grows L1 L3.
Proof.
  intros (Hc & Hm & Hd & Hi & Hmu & Hiu & Hdu & more & Hlog)
         (Hc' & Hm' & Hd' & Hi' & Hmu' & Hiu' & Hdu' & more' & Hlog').
  unfold grows. repeat split; try congruence; auto.
  - destruct Hi as [Hi | (r & t & H1 & H2 & H3 & H4)];
      destruct Hi' as [Hi' | (r' & t' & H1' & H2' & H3' & H4')].
    + left. congruence.
    + right. exists r', t'. repeat split; try congruence.
      destruct (imm_ref_used L1) eqn:E; [| reflexivity].
      rewrite (Hiu eq_refl) in H3'. discriminate.
    + right. exists r, t. repeat split; try congruence. auto.
    + congruence.
  - exists (more ++ more'). rewrite Hlog', Hlog, app_assoc. reflexivity.
Qed.

Lemma LiftImmediateOperand_grows inst arg op L v L' :
  LiftImmediateOperand inst arg op L = Done (v, L') -> grows L L'.
Proof.
  unfold Lifter.LiftImmediateOperand. intros H.
  destruct (imm_ref L) as [r |] eqn:Er; [destruct (imm_ref_used L) eqn:Eu |].
  - paths H; unfold grows; simpl; repeat split; auto;
      solve [ exists []; rewrite app_nil_r; reflexivity | eexists; reflexivity ].
  - paths H; unfold grows; simpl; repeat split; auto;
      try solve [ exists []; rewrite app_nil_r; reflexivity ].
    right. exists r, (arg_type arg). auto.
  - paths H; unfold grows; simpl; repeat split; auto;
      solve [ exists []; rewrite app_nil_r; reflexivity | eexists; reflexivity ].
Qed.

Lemma LiftAddressOperand_grows inst arg op L v op' L' :
  LiftAddressOperand inst arg op L = Done (v, op', L') -> grows L L'.
Proof.
  unfold Lifter.LiftAddressOperand. intros H.
  paths H; unfold grows; simpl; repeat split; auto;
    solve [ exists []; rewrite app_nil_r; reflexivity | eexists; reflexivity ].
Qed.

Lemma LiftOperand_grows inst o L o' L' :
  LiftOperand inst o L = Done (o', L') -> grows L L'.
Proof.
  intros H. destruct o as [[[] arg] op]; simpl in H.
  - inversion H; subst. apply grows_refl.
  - destruct (LiftImmediateOperand inst arg op L) as [[v L1] | |] eqn:E;
      simpl in H; inversion H; subst.
    apply (LiftImmediateOperand_grows _ _ _ _ _ _ E).
  - destruct (LiftAddressOperand inst arg op L) as [[[v op1] L1] | |] eqn:E;
      simpl in H; inversion H; subst.
    apply (LiftAddressOperand_grows _ _ _ _ _ _ _ E).
Qed.

Lemma LiftOperands_grows inst ops : forall L ops' L',
  LiftOperands inst ops L = Done (ops', L') -> grows L L'.
Proof.
  induction ops as [| o rest IH]; intros L ops' L' H; simpl in H.
  - inversion H; subst. apply grows_refl.
  - destruct (LiftOperand inst o L) as [[o1 L1] | |] eqn:E; simpl in H;
      try discriminate.
    destruct (LiftOperands inst rest L1) as [[os L2] | |] eqn:E2; simpl in H;
      inversion H; subst.
    apply (grows_trans L L1 L').
    + apply (LiftOperand_grows _ _ _ _ _ E).
    + apply (IH _ _ _ E2).
Qed.

Lemma remill_LiftIntoBlock_grows inst L s inst' L' :
  remill_LiftIntoBlock inst L = Done (s, inst', L') -> grows L L'.
Proof.
  unfold Lifter.remill_LiftIntoBlock. intros H.
  destruct (remill_status inst);
    try (inversion H; subst; apply grows_refl).
  destruct (LiftOperands inst (operands inst) L) as [[os L1] | |] eqn:E;
    simpl in H; inversion H; subst.
  apply (LiftOperands_grows _ _ _ _ _ E).
Qed.

Lemma LOG_grows (s : Severity) (msg : Message) (L : InstructionLifter) :
  grows L (LOG s msg L).
Proof.
  unfold grows, LOG. simpl. repeat split; auto. eexists. reflexivity.
Qed.

Lemma report_unused_grows ref used field msg L L' :
  report_unused ref used field msg L = Done L' -> grows L L'.
Proof.
  unfold report_unused, xref_target_ea. intros H.
  paths H; try apply grows_refl; apply LOG_grows.
Qed.

(** The tail of [LiftIntoBlock], after the lift of the base class. *)
Lemma LiftIntoBlock_Done inst L s inst' L' :
  LiftIntoBlock inst L = Done (s, inst', L') ->
  exists L1,
    remill_LiftIntoBlock inst (fetch_references L) = Done (s, inst', L1) /\
    grows L1 L' /\
    mem_ref_used L' = mem_ref_used L1 /\
    imm_ref_used L' = imm_ref_used L1 /\
    disp_ref_used L' = disp_ref_used L1 /\
    imm_ref L' = imm_ref L1.
Proof.
  unfold Lifter.LiftIntoBlock. intros H.
  destruct (remill_LiftIntoBlock inst (fetch_references L))
    as [[[s1 i1] L1] | |] eqn:E; simpl in H; try discriminate.
  assert (Hreport : forall ref used field msg La Lb,
    report_unused ref used field msg La = Done Lb ->
    grows La Lb /\ mem_ref_used Lb = mem_ref_used La /\
    imm_ref_used Lb = imm_ref_used La /\
    disp_ref_used Lb = disp_ref_used La /\ imm_ref Lb = imm_ref La).
  { intros ref used field msg La Lb Hr.
    split; [apply (report_unused_grows _ _ _ _ _ _ Hr) |].
    unfold report_unused, xref_target_ea in Hr. paths Hr; auto. }
  destruct s1; try (inversion H; subst; exists L'; split; [reflexivity |];
    split; [apply grows_refl | auto]).
  destruct (report_unused (mem_ref L1) (mem_ref_used L1) mem
              (fun t => UnusedMemoryReference t i1) L1) as [La | |] eqn:Ea;
    simpl in H; try discriminate.
  destruct (report_unused (imm_ref La) (imm_ref_used La) imm
              (fun t => UnusedImmediateReference t i1) La) as [Lb | |] eqn:Eb;
    simpl in H; try discriminate.
  destruct (report_unused (disp_ref Lb) (disp_ref_used Lb) disp
              (fun t => UnusedDisplacementReference t i1) Lb)
    as [Lc | |] eqn:Ec;
    simpl in H; try discriminate.
  inversion H; subst.
  apply Hreport in Ea. apply Hreport in Eb. apply Hreport in Ec.
  destruct Ea as (Ga & A1 & A2 & A3 & A4).
  destruct Eb as (Gb & B1 & B2 & B3 & B4).
  destruct Ec as (Gc & C1 & C2 & C3 & C4).
  exists L1. split; [reflexivity |].
  split; [apply (grows_trans L1 La L'); [exact Ga |];
          apply (grows_trans La Lb L'); assumption |].
  repeat split; congruence.
Qed.

(** X1. From the moment [LiftIntoBlock] has fetched the references to its
    return, whatever the operands: the memory and the displacement reference
    are the fetched ones; the immediate reference is the fetched one or,
    once, its truncation, and is marked used when it has been truncated; no
    used flag that was set is cleared; and no record leaves the log. *)
Theorem LiftIntoBlock_grows (inst : Instruction) (L : InstructionLifter)
    (s : LiftStatus) (inst' : Instruction) (L' : InstructionLifter)
    (H : LiftIntoBlock inst L = Done (s, inst', L')) :
  grows (fetch_references L) L'.
Proof.
  apply LiftIntoBlock_Done in H.
  destruct H as (L1 & Hrun & Hg & _).
  apply (grows_trans _ L1 _); [| exact Hg].
  apply (remill_LiftIntoBlock_grows _ _ _ _ _ Hrun).
Qed.

(** *** Used flags *)

(** A reference that is marked used is there. *)
Definition used_is_present (L : InstructionLifter) : Prop :=
  (mem_ref_used L = true -> is_some (mem_ref L) = true) /\
  (imm_ref_used L = true -> is_some (imm_ref L) = true) /\
  (disp_ref_used L = true -> is_some (disp_ref L) = true).

Lemma LiftImmediateOperand_used inst arg op L v L' :
  used_is_present L ->
  LiftImmediateOperand inst arg op L = Done (v, L') -> used_is_present L'.
Proof.
  unfold Lifter.LiftImmediateOperand, used_is_present.
  intros (Hm & Hi & Hd) H.
  destruct (imm_ref L) as [r |] eqn:Er; [destruct (imm_ref_used L) eqn:Eu |];
    paths H; simpl; rewrite ?Er; auto.
Qed.

Lemma LiftAddressOperand_used inst arg op L v op' L' :
  used_is_present L ->
  LiftAddressOperand inst arg op L = Done (v, op', L') -> used_is_present L'.
Proof.
  unfold Lifter.LiftAddressOperand, used_is_present.
  intros (Hm & Hi & Hd) H.
  destruct (mem_ref L) eqn:Em; destruct (disp_ref L) eqn:Ed;
    paths H; simpl; rewrite ?Em, ?Ed; auto.
Qed.

Lemma LiftOperands_used inst ops : forall L ops' L',
  used_is_present L ->
  LiftOperands inst ops L = Done (ops', L') -> used_is_present L'.
Proof.
  induction ops as [| o rest IH]; intros L ops' L' Hu H; simpl in H.
  - inversion H; subst. exact Hu.
  - destruct (LiftOperand inst o L) as [[o1 L1] | |] eqn:E; simpl in H;
      try discriminate.
    destruct (LiftOperands inst rest L1) as [[os L2] | |] eqn:E2; simpl in H;
      inversion H; subst.
    apply (IH L1 os L'); [| exact E2].
    destruct o as [[[] arg] op]; simpl in E.
    + inversion E; subst. exact Hu.
    + destruct (LiftImmediateOperand inst arg op L) as [[v La] | |] eqn:Ei;
        simpl in E; inversion E; subst.
      apply (LiftImmediateOperand_used _ _ _ _ _ _ Hu Ei).
    + destruct (LiftAddressOperand inst arg op L) as [[[v op1] La] | |] eqn:Ea;
        simpl in E; inversion E; subst.
      apply (LiftAddressOperand_used _ _ _ _ _ _ _ Hu Ea).
Qed.

(** X2. When [LiftIntoBlock] returns, a reference is marked used only if
    the CFG's instruction has that cross-reference: no flag is set for a
    reference that was never fetched. *)
Theorem LiftIntoBlock_marks_only_fetched_references
    (inst : Instruction) (L : InstructionLifter)
    (s : LiftStatus) (inst' : Instruction) (L' : InstructionLifter)
    (H : LiftIntoBlock inst L = Done (s, inst', L')) :
  (mem_ref_used L' = true -> exists x, cfg_xref (ctx L) mem = Some x) /\
  (imm_ref_used L' = true -> exists x, cfg_xref (ctx L) imm = Some x) /\
  (disp_ref_used L' = true -> exists x, cfg_xref (ctx L) disp = Some x).
Proof.
  apply LiftIntoBlock_Done in H.
  destruct H as (L1 & Hrun & _ & Em & Ei & Ed & _).
  pose proof (@fetch_references_match LiftXrefInCode L) as Hmatch.
  pose proof (@remill_LiftIntoBlock_match address_size getTypeSizeInBits
                TryGetSegment remill_LiftImmediateOperand
                remill_LiftAddressOperand remill_status
                (ctx L) inst (fetch_references L) s inst' L1 Hmatch Hrun)
    as (_ & Hmem & Himm & Hdisp).
  assert (Hused : used_is_present L1).
  { unfold Lifter.remill_LiftIntoBlock in Hrun.
    assert (Hstart : used_is_present (fetch_references L)).
    { unfold used_is_present, Lifter.fetch_references. simpl.
      repeat split; discriminate. }
    destruct (remill_status inst);
      try (inversion Hrun; subst; exact Hstart).
    destruct (LiftOperands inst (operands inst) (fetch_references L))
      as [[os La] | |] eqn:E; simpl in Hrun; inversion Hrun; subst.
    apply (LiftOperands_used _ _ _ _ _ Hstart E). }
  destruct Hused as (Um & Ui & Ud).
  assert (Hsome : forall A (o : option A), is_some o = true -> exists x, o = Some x).
  { intros A [x |] Ho; [exists x; reflexivity | discriminate]. }
  repeat split; intros Hflag; apply Hsome.
  - rewrite <- Hmem. apply Um. congruence.
  - rewrite <- Himm. apply Ui. congruence.
  - rewrite <- Hdisp. apply Ud. congruence.
Qed.

(** *** The operands *)

(** An operand comes back as it was, or, for a data address that is neither
    absolute nor relative to the program counter, with its displacement
    cleared. *)
Definition same_or_cleared (o o' : OperandType * Argument * Operand) : Prop :=
  o' = o \/
  exists arg op,
    o = (kTypeAddress, arg, op) /\
    o' = (kTypeAddress, arg, set_displacement 0 op) /\
    IsControlFlowTarget (addr op) = false /\
    absolute_or_pc_relative op = false.

Lemma LiftAddressOperand_operand inst arg op L v op' L' :
  LiftAddressOperand inst arg op L = Done (v, op', L') ->
  op' = op \/
  (op' = set_displacement 0 op /\
   IsControlFlowTarget (addr op) = false /\
   absolute_or_pc_relative op = false).
Proof.
  rewrite (@LiftAddressOperand_as_merged remill_LiftAddressOperand).
  unfold Lifter.LiftAddressOperand_merged, absolute_or_pc_relative.
  intros H.
  destruct (IsControlFlowTarget (addr op));
    [inversion H; subst; left; reflexivity |].
  destruct (empty (name (base_reg (addr op))));
    destruct (empty (name (index_reg (addr op))));
    destruct (String.eqb (name (base_reg (addr op))) "PC");
    destruct (String.eqb (name (base_reg (addr op))) "NEXT_PC");
    simpl in H; paths H; auto.
Qed.

Lemma LiftOperands_operands inst ops : forall L ops' L',
  LiftOperands inst ops L = Done (ops', L') ->
  Forall2 same_or_cleared ops ops'.
Proof.
  induction ops as [| o rest IH]; intros L ops' L' H; simpl in H.
  - inversion H; subst. constructor.
  - destruct (LiftOperand inst o L) as [[o1 L1] | |] eqn:E; simpl in H;
      try discriminate.
    destruct (LiftOperands inst rest L1) as [[os L2] | |] eqn:E2; simpl in H;
      inversion H; subst.
    constructor; [| apply (IH L1 os L' E2)].
    destruct o as [[[] arg] op]; simpl in E.
    + inversion E; subst. left. reflexivity.
    + destruct (LiftImmediateOperand inst arg op L) as [[v La] | |];
        simpl in E; inversion E; subst. left. reflexivity.
    + destruct (LiftAddressOperand inst arg op L) as [[[v op1] La] | |] eqn:Ea;
        simpl in E; inversion E; subst.
      apply LiftAddressOperand_operand in Ea.
      destruct Ea as [-> | (-> & Hcf & Hshape)]; [left; reflexivity |].
      right. exists arg, op. auto.
Qed.

(** X3. [LiftIntoBlock] keeps the instruction's address, and when the
    instruction has semantics it keeps the operands, in number, order, kind
    and argument: all it ever changes in an operand is the displacement of a
    data address that is neither absolute nor relative to the program
    counter, which it clears. Registers, immediates, control-flow targets and
    absolute or PC-relative addresses come back as they were. *)
Theorem LiftIntoBlock_keeps_operands
    (inst : Instruction) (L : InstructionLifter)
    (s : LiftStatus) (inst' : Instruction) (L' : InstructionLifter)
    (H : LiftIntoBlock inst L = Done (s, inst', L')) :
  s = remill_status inst /\
  pc inst' = pc inst /\
  (s = kLiftedInstruction ->
   Forall2 same_or_cleared (operands inst) (operands inst')).
Proof.
  apply LiftIntoBlock_Done in H. destruct H as (L1 & Hrun & _).
  unfold Lifter.remill_LiftIntoBlock in Hrun.
  destruct (remill_status inst) eqn:Es;
    try (inversion Hrun; subst; repeat split; discriminate).
  destruct (LiftOperands inst (operands inst) (fetch_references L))
    as [[os La] | |] eqn:E; simpl in Hrun; inversion Hrun; subst.
  repeat split. intros _. simpl.
  apply (LiftOperands_operands _ _ _ _ _ E).
Qed.

(** *** Null pointers *)

Lemma LiftAddressOperand_defined c inst arg op L :
  refs_match c L -> LiftAddressOperand inst arg op L <> Undefined.
Proof.
  unfold refs_match, cfg_xref, Lifter.LiftAddressOperand.
  intros (Hc & Hm & _) H. subst c.
  destruct (mem_ref L) eqn:Em; destruct (disp_ref L) eqn:Ed;
    destruct (cfg_inst (ctx L)) as [ci |]; try destruct (mem ci);
    simpl in Hm; try discriminate Hm; paths H.
Qed.

Lemma LiftImmediateOperand_defined inst arg op L :
  LiftImmediateOperand inst arg op L <> Undefined.
Proof.
  unfold Lifter.LiftImmediateOperand. intros H. paths H.
Qed.

Lemma LiftOperands_defined c inst ops : forall L,
  refs_match c L -> LiftOperands inst ops L <> Undefined.
Proof.
  induction ops as [| o rest IH]; intros L Hm H; simpl in H;
    [discriminate |].
  destruct (LiftOperand inst o L) as [[o1 L1] | |] eqn:E; simpl in H;
    try discriminate.
  - destruct (LiftOperands inst rest L1) as [[os L2] | |] eqn:E2; simpl in H;
      try discriminate.
    apply (IH L1); [| exact E2].
    apply (@LiftOperand_match address_size getTypeSizeInBits TryGetSegment
             remill_LiftImmediateOperand remill_LiftAddressOperand
             c inst o L o1 L1 Hm E).
  - destruct o as [[[] arg] op]; simpl in E; try discriminate.
    + destruct (LiftImmediateOperand inst arg op L) as [[v La] | |] eqn:Ei;
        simpl in E; try discriminate.
      apply (LiftImmediateOperand_defined _ _ _ _ Ei).
    + destruct (LiftAddressOperand inst arg op L) as [[[v op1] La] | |] eqn:Ea;
        simpl in E; try discriminate.
      apply (LiftAddressOperand_defined c _ _ _ _ Hm Ea).
Qed.

Lemma report_unused_Done c ref used field msg L :
  ctx L = c -> is_some ref = is_some (cfg_xref c field) ->
  exists L', report_unused ref used field msg L = Done L' /\
             (L' = L \/ exists t, L' = LOG ERROR (msg t) L).
Proof.
  unfold report_unused, xref_target_ea, cfg_xref. intros Hc Hs. subst c.
  destruct ref; [| exists L; auto].
  destruct used; simpl; [exists L; auto |].
  destruct (cfg_inst (ctx L)) as [ci |]; [| discriminate].
  destruct (field ci) as [x |]; [| discriminate].
  simpl. eexists. split; [reflexivity |]. right. eexists. reflexivity.
Qed.

Lemma refs_match_LOG c s msg L : refs_match c L -> refs_match c (LOG s msg L).
Proof. unfold refs_match, LOG. simpl. auto. Qed.

(** X4. [LiftIntoBlock] dereferences no null pointer, whatever the CFG's
    instruction and the operands are: the lifter holds a resolved reference
    only where the CFG's instruction has the cross-reference, so
    [ctx.cfg_inst->mem->target_ea] and its siblings are read only when they
    are there. The run completes or stops at the check of
    [LiftImmediateOperand]. *)
Theorem LiftIntoBlock_defined (inst : Instruction) (L : InstructionLifter) :
  LiftIntoBlock inst L <> Undefined.
Proof.
  unfold Lifter.LiftIntoBlock.
  pose proof (@fetch_references_match LiftXrefInCode L) as Hmatch.
  destruct (remill_LiftIntoBlock inst (fetch_references L))
    as [[[s i1] L1] | |] eqn:E; simpl; try discriminate.
  - pose proof (@remill_LiftIntoBlock_match address_size getTypeSizeInBits
                  TryGetSegment remill_LiftImmediateOperand
                  remill_LiftAddressOperand remill_status
                  (ctx L) inst (fetch_references L) s i1 L1 Hmatch E)
      as (Hc & Hmem & Himm & Hdisp).
    destruct s; try discriminate.
    destruct (report_unused_Done (ctx L) (mem_ref L1) (mem_ref_used L1) mem
                (fun t => UnusedMemoryReference t i1) L1 Hc Hmem)
      as (La & -> & Ha). simpl.
    assert (HLa : ctx La = ctx L /\ imm_ref La = imm_ref L1 /\
                  disp_ref La = disp_ref L1).
    { destruct Ha as [-> | (t & ->)]; simpl; auto. }
    destruct HLa as (Hca & Hia & Hda).
    destruct (report_unused_Done (ctx L) (imm_ref La) (imm_ref_used La) imm
                (fun t => UnusedImmediateReference t i1) La Hca)
      as (Lb & -> & Hb); [congruence |]. simpl.
    assert (HLb : ctx Lb = ctx L /\ disp_ref Lb = disp_ref La).
    { destruct Hb as [-> | (t & ->)]; simpl; auto. }
    destruct HLb as (Hcb & Hdb).
    destruct (report_unused_Done (ctx L) (disp_ref Lb) (disp_ref_used Lb) disp
                (fun t => UnusedDisplacementReference t i1) Lb Hcb)
      as (Lc & -> & _); [congruence |]. simpl. discriminate.
  - intros _. unfold Lifter.remill_LiftIntoBlock in E.
    destruct (remill_status inst); try discriminate.
    destruct (LiftOperands inst (operands inst) (fetch_references L))
      as [[os La] | |] eqn:E2; simpl in E; try discriminate.
    apply (LiftOperands_defined (ctx L) _ _ _ Hmatch E2).
Qed.

(** *** The failed check *)




(** *** An instruction the CFG does not know *)

Lemma append_log_nil (L : InstructionLifter) : append_log [] L = L.
Proof. destruct L. unfold append_log. simpl. rewrite app_nil_r. reflexivity. Qed.

Lemma append_log_app (a b : list LogRecord) (L : InstructionLifter) :
  append_log (a ++ b) L = append_log b (append_log a L).
Proof. unfold append_log. simpl. rewrite app_assoc. reflexivity. Qed.

(** The warnings of [LiftImmediateOperand] about immediates that look like
    addresses, for the operands of an instruction. *)
Definition missed_candidates (inst : Instruction)
    (ops : list (OperandType * Argument * Operand)) : list LogRecord :=
  flat_map
    (fun o =>
       match o with
       | (kTypeImmediate, _, op) =>
           if (size op =? address_size) && (4096 <=? imm_val op)
              && TryGetSegment (imm_val op)
           then [(WARNING, MissedCrossReferenceCandidate op inst)]
           else []
       | _ => []
       end)
    ops.

Lemma LiftOperands_without_references inst ops : forall L,
  mem_ref L = None -> imm_ref L = None -> disp_ref L = None ->
  LiftOperands inst ops L
  = Done (ops, append_log (missed_candidates inst ops) L).
Proof.
  induction ops as [| o rest IH]; intros L Hm Hi Hd.
  - simpl. rewrite append_log_nil. reflexivity.
  - assert (Hcons : missed_candidates inst (o :: rest)
                    = missed_candidates inst [o]
                      ++ missed_candidates inst rest).
    { unfold missed_candidates. simpl. rewrite app_nil_r. reflexivity. }
    rewrite Hcons, append_log_app.
    assert (Hone : LiftOperand inst o L
                   = Done (o, append_log (missed_candidates inst [o]) L)).
    { destruct o as [[[] arg] op]; simpl.
      - rewrite append_log_nil. reflexivity.
      - unfold Lifter.LiftImmediateOperand. rewrite Hi.
        destruct ((size op =? address_size) && (4096 <=? imm_val op));
          simpl; [| rewrite append_log_nil; reflexivity].
        destruct (TryGetSegment (imm_val op)); simpl;
          [reflexivity | rewrite append_log_nil; reflexivity].
      - unfold Lifter.LiftAddressOperand. rewrite Hm, Hd.
        rewrite append_log_nil.
        repeat match goal with
               | |- context [if ?b then _ else _] => destruct b
               end; reflexivity. }
    change (LiftOperands inst (o :: rest) L)
      with (obind (LiftOperand inst o L) (fun r =>
            obind (LiftOperands inst rest (snd r)) (fun rs =>
            Done (fst r :: fst rs, snd rs)))).
    rewrite Hone. simpl. rewrite IH by assumption. reflexivity.
Qed.

(** X6. For an instruction that the CFG has no entry for, [LiftIntoBlock]
    is the lift of the base class and nothing else: no reference is
    substituted, every operand comes back as it was, no used flag is set, no
    unused-reference diagnostic is written, and the only records added to the
    log are the warnings about address-wide immediates of at least 4096 that
    fall in a segment. *)
Theorem LiftIntoBlock_without_CFG_instruction
    (inst : Instruction) (L : InstructionLifter)
    (Hnone : cfg_inst (ctx L) = None) :
  LiftIntoBlock inst L =
    Done (remill_status inst,
          {| pc := pc inst;
             operands := match remill_status inst with
                         | kLiftedInstruction => operands inst
                         | _ => []
                         end |},
          append_log
            match remill_status inst with
            | kLiftedInstruction => missed_candidates inst (operands inst)
            | _ => []
            end
            (fetch_references L)) /\
  mem_ref (fetch_references L) = None /\
  imm_ref (fetch_references L) = None /\
  disp_ref (fetch_references L) = None /\
  mem_ref_used (fetch_references L) = false /\
  imm_ref_used (fetch_references L) = false /\
  disp_ref_used (fetch_references L) = false.
Proof.
  assert (Hrefs : mem_ref (fetch_references L) = None /\
                  imm_ref (fetch_references L) = None /\
                  disp_ref (fetch_references L) = None).
  { unfold Lifter.fetch_references. rewrite Hnone. simpl. auto. }
  destruct Hrefs as (Hm & Hi & Hd).
  split; [| repeat split; assumption].
  unfold Lifter.LiftIntoBlock, Lifter.remill_LiftIntoBlock.
  destruct (remill_status inst); simpl;
    try (rewrite append_log_nil; reflexivity).
  rewrite (LiftOperands_without_references inst (operands inst)
             (fetch_references L) Hm Hi Hd).
  cbn [obind fst snd]. unfold report_unused.
  repeat (cbn [obind append_log mem_ref imm_ref disp_ref];
          rewrite ?Hm, ?Hi, ?Hd).
  reflexivity.
Qed.

(** *** The address mask *)

(** X7. [GetAddress] takes a mask of zero as no mask at all, not as a mask
    that clears every bit: for a 64-bit target it resolves what it resolves
    under the mask of 64 ones. *)
Theorem GetAddress_zero_mask (target : Z) (Hrange : 0 <= target < 2 ^ 64) :
  GetAddress LiftXrefInCode (Some {| target_ea := target; mask := 0 |})
  = GetAddress LiftXrefInCode
      (Some {| target_ea := target; mask := Z.ones 64 |}) /\
  GetAddress LiftXrefInCode (Some {| target_ea := target; mask := 0 |})
  = Some (LiftXrefInCode target).
Proof.
  unfold GetAddress. cbn [mask target_ea].
  change (negb (0 =? 0)) with false.
  change (negb (Z.ones 64 =? 0)) with true. cbn [negb].
  rewrite Z.land_ones by lia. rewrite Z.mod_small by exact Hrange.
  split; reflexivity.
Qed.

End Coverage.

(** *** A run on the sample architecture

    [mov eax, [0x4010 + rdi*8]] with a 32-bit immediate beside it, for an
    instruction whose CFG entry has an immediate and a displacement
    reference; and the same instruction with no CFG entry. *)
Module Run.

Import LifterFacts.Sample.

Definition two_operands : Instruction :=
  inst_at [ (kTypeAddress, word_arg, indexed_operand);
            (kTypeImmediate, {| arg_type := IntegerTy 32 |},
             immediate_operand) ].

Definition known : InstructionLifter :=
  lifter_with None (Some xref_4010) (Some xref_4010).

Definition unknown : InstructionLifter :=
  {| ctx := {| cfg_inst := None |};
     mem_ref := None; imm_ref := None; disp_ref := None;
     mem_ref_used := false; imm_ref_used := false; disp_ref_used := false;
     log := [] |}.

Definition lift (inst : Instruction) (L : InstructionLifter)
    : Outcome (LiftStatus * Instruction * InstructionLifter) :=
  LiftIntoBlock address_size getTypeSizeInBits LiftXrefInCode TryGetSegment
    remill_LiftImmediateOperand remill_LiftAddressOperand remill_status
    inst L.

Definition lifted_inst : Instruction :=
  Eval vm_compute in
    match lift two_operands known with
    | Done (_, i, _) => i
    | _ => two_operands
    end.

Definition lifted_state : InstructionLifter :=
  Eval vm_compute in
    match lift two_operands known with
    | Done (_, _, L) => L
    | _ => known
    end.

End Run.

Lemma LiftIntoBlock_grows_witness :
  grows (fetch_references LifterFacts.Sample.LiftXrefInCode Run.known)
        Run.lifted_state.
Proof.
  apply (LiftIntoBlock_grows
           LifterFacts.Sample.address_size
           LifterFacts.Sample.getTypeSizeInBits
           LifterFacts.Sample.LiftXrefInCode
           LifterFacts.Sample.TryGetSegment
           LifterFacts.Sample.remill_LiftImmediateOperand
           LifterFacts.Sample.remill_LiftAddressOperand
           LifterFacts.Sample.remill_status
           Run.two_operands Run.known kLiftedInstruction Run.lifted_inst
           Run.lifted_state).
  reflexivity.
Defined.

Lemma LiftIntoBlock_marks_only_fetched_references_witness :
  (mem_ref_used Run.lifted_state = true ->
   exists x, cfg_xref (ctx Run.known) mem = Some x) /\
  (imm_ref_used Run.lifted_state = true ->
   exists x, cfg_xref (ctx Run.known) imm = Some x) /\
  (disp_ref_used Run.lifted_state = true ->
   exists x, cfg_xref (ctx Run.known) disp = Some x).
Proof.
  apply (LiftIntoBlock_marks_only_fetched_references
           LifterFacts.Sample.address_size
           LifterFacts.Sample.getTypeSizeInBits
           LifterFacts.Sample.LiftXrefInCode
           LifterFacts.Sample.TryGetSegment
           LifterFacts.Sample.remill_LiftImmediateOperand
           LifterFacts.Sample.remill_LiftAddressOperand
           LifterFacts.Sample.remill_status
           Run.two_operands Run.known kLiftedInstruction Run.lifted_inst
           Run.lifted_state).
  reflexivity.
Defined.

Lemma LiftIntoBlock_keeps_operands_witness :
  kLiftedInstruction = LifterFacts.Sample.remill_status Run.two_operands /\
  pc Run.lifted_inst = pc Run.two_operands /\
  (kLiftedInstruction = kLiftedInstruction ->
   Forall2 same_or_cleared (operands Run.two_operands)
     (operands Run.lifted_inst)).
Proof.
  apply (LiftIntoBlock_keeps_operands
           LifterFacts.Sample.address_size
           LifterFacts.Sample.getTypeSizeInBits
           LifterFacts.Sample.LiftXrefInCode
           LifterFacts.Sample.TryGetSegment
           LifterFacts.Sample.remill_LiftImmediateOperand
           LifterFacts.Sample.remill_LiftAddressOperand
           LifterFacts.Sample.remill_status
           Run.two_operands Run.known kLiftedInstruction Run.lifted_inst
           Run.lifted_state).
  reflexivity.
Defined.

Lemma LiftIntoBlock_without_CFG_instruction_witness :
  Run.lift Run.two_operands Run.unknown
  = Done (kLiftedInstruction, Run.two_operands, Run.unknown).
Proof.
  exact (proj1 (LiftIntoBlock_without_CFG_instruction
                  LifterFacts.Sample.address_size
                  LifterFacts.Sample.getTypeSizeInBits
                  LifterFacts.Sample.LiftXrefInCode
                  LifterFacts.Sample.TryGetSegment
                  LifterFacts.Sample.remill_LiftImmediateOperand
                  LifterFacts.Sample.remill_LiftAddressOperand
                  LifterFacts.Sample.remill_status
                  Run.two_operands Run.unknown eq_refl)).
Defined.

Lemma GetAddress_zero_mask_witness :
  GetAddress LifterFacts.Sample.LiftXrefInCode
    (Some {| target_ea := 16400; mask := 0 |})
  = Some (LifterFacts.Sample.LiftXrefInCode 16400).
Proof.
  refine (proj2 (GetAddress_zero_mask LifterFacts.Sample.LiftXrefInCode
                   16400 _)).
  split; [discriminate | reflexivity].
Defined.

(** The run: the displacement of the indexed operand is cleared and the
    displacement reference marked used, the immediate reference is truncated
    to 32 bits and marked used, and nothing is logged. *)
Example LiftIntoBlock_two_operands :
  Run.lift Run.two_operands Run.known
  = Done (kLiftedInstruction, Run.lifted_inst, Run.lifted_state) /\
  operands Run.lifted_inst
  = [ (kTypeAddress, LifterFacts.Sample.word_arg,
       set_displacement 0 LifterFacts.Sample.indexed_operand);
      (kTypeImmediate, {| arg_type := IntegerTy 32 |},
       LifterFacts.Sample.immediate_operand) ] /\
  imm_ref Run.lifted_state
  = Some (Trunc (Leaf (IntegerTy 64) 16400) (IntegerTy 32)) /\
  (mem_ref_used Run.lifted_state, imm_ref_used Run.lifted_state,
   disp_ref_used Run.lifted_state) = (false, true, true) /\
  log Run.lifted_state = [].
Proof. repeat split. Qed.

End LifterCoverage.

(** ** Part VI: more about the module optimizer *)

Module OptimizerCoverage.

Import Optimizer.
Import OptimizerFacts.

Unset Implicit Arguments.

Local Arguments Value_eq_dec : simpl never.
Local Arguments Constant_eq_dec : simpl never.

(** *** The callers of a function *)

Lemma calls_callee (name : string) (i : Instruction) :
  calls name i = true ->
  opcode i = Call /\ last (operands i) (VArg 0) = VConst (CFunction name) /\
  In (VConst (CFunction name)) (operands i).
Proof.
  unfold calls, getCalledFunction. intros H.
  destruct (opcode i); try discriminate. split; [reflexivity |].
  destruct (last (operands i) (VArg 0)) as [| | c] eqn:El; try discriminate.
  destruct c; try discriminate.
  destruct (operands i) as [| v l] eqn:Eo; [discriminate |].
  apply String.eqb_eq in H. subst name0. split; [reflexivity |].
  rewrite <- El. clear. revert v. induction l as [| a l IH]; intros v.
  - left. reflexivity.
  - right. apply (IH a).
Qed.

Lemma count_occ_repeat (a c n : nat) :
  count_occ Nat.eq_dec (repeat a n) c = if a =? c then n else 0.
Proof.
  induction n as [| n IH]; simpl.
  - destruct (a =? c); reflexivity.
  - destruct (Nat.eq_dec a c) as [E | E]; rewrite IH.
    + subst. rewrite Nat.eqb_refl. reflexivity.
    + destruct (Nat.eqb_spec a c); [contradiction | reflexivity].
Qed.

Lemma count_callers (name : string) (i : Instruction) :
  forall body : list Instruction,
  NoDup (map id body) -> In i body ->
  count_occ Nat.eq_dec
    (flat_map
       (fun j =>
          if calls name j
          then repeat (id j)
                 (count_occ Value_eq_dec (operands j)
                    (VConst (CFunction name)))
          else [])
       body)
    (id i)
  = if calls name i
    then count_occ Value_eq_dec (operands i) (VConst (CFunction name))
    else 0.
Proof.
  induction body as [| a l IH]; intros Hnd Hi; [destruct Hi |].
  simpl in Hnd. apply NoDup_cons_iff in Hnd. destruct Hnd as [Ha Hl].
  simpl. rewrite count_occ_app.
  assert (Hrest : forall j, In j l -> id j <> id a).
  { intros j Hj E. apply Ha. rewrite <- E. apply in_map. exact Hj. }
  destruct Hi as [-> | Hi].
  - assert (Hzero :
      count_occ Nat.eq_dec
        (flat_map
           (fun j =>
              if calls name j
              then repeat (id j)
                     (count_occ Value_eq_dec (operands j)
                        (VConst (CFunction name)))
              else []) l) (id i) = 0).
    { apply count_occ_not_In. intros Hin. apply in_flat_map in Hin.
      destruct Hin as (j & Hj & Hin).
      destruct (calls name j); [| destruct Hin].
      apply repeat_spec in Hin. apply (Hrest j Hj). congruence. }
    rewrite Hzero, Nat.add_0_r.
    destruct (calls name i); [| reflexivity].
    rewrite count_occ_repeat, Nat.eqb_refl. reflexivity.
  - rewrite (IH Hl Hi).
    assert (Hhead :
      count_occ Nat.eq_dec
        (if calls name a
         then repeat (id a)
                (count_occ Value_eq_dec (operands a)
                   (VConst (CFunction name)))
         else []) (id i) = 0).
    { destruct (calls name a); [| reflexivity].
      rewrite count_occ_repeat.
      destruct (Nat.eqb_spec (id a) (id i)) as [E | E]; [| reflexivity].
      exfalso. apply (Hrest i Hi). congruence. }
    rewrite Hhead. reflexivity.
Qed.

(** X8. [CallersOf] lists the call instructions whose callee is the
    function itself: an instruction is on the list if and only if it is a
    call with the function as its last operand, the callee (a call through a
    cast of the function, or a call that only passes the function as an
    argument, is not). In a module with distinct instructions a call is on
    the list once for every use it makes of the function, so more than once
    if it also passes the function to itself, and exactly once otherwise; and
    then the list has no instruction twice and is as long as the module has
    calls of the function. Nothing is said of the order, which is that of
    the use list. *)
Theorem CallersOf_direct_calls (name : string) (m : Module) :
  (forall c, In c (CallersOf name m) <->
             exists i, In i (insts m) /\ calls name i = true /\ id i = c) /\
  (forall i, calls name i = true ->
             opcode i = Call /\
             last (operands i) (VArg 0) = VConst (CFunction name)) /\
  (wf m ->
   forall i, In i (insts m) -> calls name i = true ->
     count_occ Nat.eq_dec (CallersOf name m) (id i)
     = count_occ Value_eq_dec (operands i) (VConst (CFunction name))) /\
  (wf m -> called_directly name m ->
   NoDup (CallersOf name m) /\
   List.length (CallersOf name m)
   = List.length (filter (calls name) (insts m))).
Proof.
  split; [| split; [| split]].
  - intros c. unfold CallersOf. rewrite <- in_rev, in_flat_map. split.
    + intros (i & Hi & Hin). exists i.
      destruct (calls name i) eqn:Ec; [| destruct Hin].
      apply repeat_spec in Hin. auto.
    + intros (i & Hi & Hc & E). exists i. split; [exact Hi |].
      rewrite Hc. subst c.
      destruct (calls_callee name i Hc) as (_ & _ & Hin).
      apply (count_occ_In Value_eq_dec) in Hin.
      destruct (count_occ Value_eq_dec (operands i) (VConst (CFunction name)));
        [lia | left; reflexivity].
  - intros i Hc. destruct (calls_callee name i Hc) as (H1 & H2 & _). auto.
  - intros [Hnd _] i Hi Hc. unfold CallersOf. rewrite count_occ_rev.
    rewrite (count_callers name i (insts m) Hnd Hi), Hc. reflexivity.
  - intros Hwf Hd. split.
    + apply NoDup_callers; assumption.
    + rewrite (CallersOf_filter name m Hd), length_rev, length_map.
      reflexivity.
Qed.

(** *** Finding the ISELs *)

(** A global is an ISEL when its initializer is, under its pointer casts, a
    function of the module whose first two parameters have the memory and
    the state type. *)
Definition is_ISEL (mem_type state_type : Ty) (m : Module)
    (g : GlobalVariable) : bool :=
  match gv_init g with
  | Some init =>
      match stripPointerCasts init with
      | CFunction sem_name =>
          match getFunction sem_name m with
          | Some sem =>
              match fn_params sem with
              | p0 :: p1 :: _ => Ty_eqb mem_type p0 && Ty_eqb state_type p1
              | _ => false
              end
          | None => false
          end
      | _ => false
      end
  | None => false
  end.

Lemma FindISELs_loop_spec (mem_type state_type : Ty) (m : Module) :
  forall gs isels found,
    FindISELs_loop mem_type state_type gs m isels = Done found ->
    found = isels ++ map gv_name (filter (is_ISEL mem_type state_type m) gs).
Proof.
  induction gs as [| g rest IH]; intros isels found H; simpl in H.
  - inversion H; subst. simpl. rewrite app_nil_r. reflexivity.
  - simpl. unfold is_ISEL at 1.
    destruct (gv_init g) as [init |]; [| apply IH; exact H].
    destruct (stripPointerCasts init); try (apply IH; exact H).
    destruct (getFunction name m) as [sem |]; [| discriminate].
    unfold getParamType in H.
    destruct (fn_params sem) as [| p0 [| p1 ps]]; simpl in H;
      try discriminate.
    + destruct (Ty_eqb mem_type p0); simpl in H; [discriminate |].
      apply IH. exact H.
    + destruct (Ty_eqb mem_type p0); simpl in H; [| apply IH; exact H].
      destruct (Ty_eqb state_type p1); simpl; [| apply IH; exact H].
      apply IH in H. rewrite H, <- app_assoc. reflexivity.
Qed.

(** Every function that a global is initialized with, under pointer casts,
    is in the module and has two parameters to look at. *)
Definition semantics_have_two_parameters (m : Module) : Prop :=
  forall g init sem_name,
    In g (globals m) -> gv_init g = Some init ->
    stripPointerCasts init = CFunction sem_name ->
    exists sem, getFunction sem_name m = Some sem /\
                2 <= List.length (fn_params sem).

Lemma FindISELs_loop_returns (mem_type state_type : Ty) (m : Module) :
  forall gs isels,
    (forall g init sem_name,
       In g gs -> gv_init g = Some init ->
       stripPointerCasts init = CFunction sem_name ->
       exists sem, getFunction sem_name m = Some sem /\
                   2 <= List.length (fn_params sem)) ->
    exists found, FindISELs_loop mem_type state_type gs m isels = Done found.
Proof.
  induction gs as [| g rest IH]; intros isels Hgs; simpl; [eauto |].
  assert (Hrest : forall isels', exists found,
            FindISELs_loop mem_type state_type rest m isels' = Done found).
  { intros isels'. apply IH. intros g0 init0 f0 Hg0. apply Hgs. right.
    exact Hg0. }
  destruct (gv_init g) as [init |] eqn:Ei; [| apply Hrest].
  destruct (stripPointerCasts init) eqn:Es; try apply Hrest.
  destruct (Hgs g init name (or_introl eq_refl) Ei Es) as (sem & Hsem & Hlen).
  rewrite Hsem. unfold getParamType.
  destruct (fn_params sem) as [| p0 [| p1 ps]]; simpl in Hlen; try lia.
  simpl. destruct (Ty_eqb mem_type p0); simpl; [| apply Hrest].
  destruct (Ty_eqb state_type p1); apply Hrest.
Qed.

(** X9. What [FindISELs] returns, and when. It returns nothing when the
    module has no [__remill_basic_block]; otherwise, in the order of the
    module, the globals whose initializer is, under its casts of a pointer to
    a pointer, a function whose first two parameters have the types of the
    first two parameters of [__remill_basic_block]. A global without
    initializer, or whose initializer is no function under those casts (a
    function cast to an integer, say), is never on the list. No check is made
    on the way; and the run is defined whenever [__remill_basic_block], if it
    is there, has two parameters, and so has every function that a global is
    initialized with. *)
Theorem FindISELs_finds (m : Module) :
  (forall isels, FindISELs m = Done isels ->
     (getFunction "__remill_basic_block" m = None /\ isels = []) \/
     (exists basic_block mem_type state_type rest,
        getFunction "__remill_basic_block" m = Some basic_block /\
        fn_params basic_block = mem_type :: state_type :: rest /\
        isels = map gv_name
                  (filter (is_ISEL mem_type state_type m) (globals m)) /\
        (forall name, In name isels <->
           exists g init sem_name sem p0 p1 ps,
             In g (globals m) /\ gv_name g = name /\
             gv_init g = Some init /\
             stripPointerCasts init = CFunction sem_name /\
             getFunction sem_name m = Some sem /\
             fn_params sem = p0 :: p1 :: ps /\
             p0 = mem_type /\ p1 = state_type))) /\
  (forall g f t mem_type state_type,
     gv_init g = None \/
     (gv_init g = Some (CCast (CFunction f) t) /\ isPointerTy t = false) ->
     is_ISEL mem_type state_type m g = false) /\
  (forall msg, FindISELs m <> CheckFailed msg) /\
  ((forall basic_block,
      getFunction "__remill_basic_block" m = Some basic_block ->
      2 <= List.length (fn_params basic_block)) ->
   semantics_have_two_parameters m ->
   exists isels, FindISELs m = Done isels).
Proof.
  split; [| split; [| split]].
  - intros isels H. unfold FindISELs in H.
    destruct (getFunction "__remill_basic_block" m) as [bb |];
      [| left; inversion H; auto].
    right. unfold getParamType in H.
    destruct (fn_params bb) as [| mt [| st rest]] eqn:Ep; simpl in H;
      try discriminate.
    exists bb, mt, st, rest. split; [reflexivity |]. split; [exact Ep |].
    apply FindISELs_loop_spec in H. simpl in H. split; [exact H |].
    intros name. rewrite H, in_map_iff. split.
    + intros (g & <- & Hg). apply filter_In in Hg. destruct Hg as [Hg Hi].
      unfold is_ISEL in Hi.
      destruct (gv_init g) as [init |] eqn:Ei; [| discriminate].
      destruct (stripPointerCasts init) eqn:Es; try discriminate.
      destruct (getFunction name m) as [sem |] eqn:Esem; [| discriminate].
      destruct (fn_params sem) as [| p0 [| p1 ps]] eqn:Eps;
        try discriminate.
      apply andb_true_iff in Hi. destruct Hi as [H0 H1].
      destruct (Ty_eqb_spec mt p0); [| discriminate].
      destruct (Ty_eqb_spec st p1); [| discriminate].
      exists g, init, name, sem, p0, p1, ps. auto 10.
    + intros (g & init & f & sem & p0 & p1 & ps & Hg & <- & Ei & Es & Esem
              & Eps & -> & ->).
      exists g. split; [reflexivity |]. apply filter_In. split; [exact Hg |].
      unfold is_ISEL. rewrite Ei, Es, Esem, Eps, !Ty_eqb_refl. reflexivity.
  - intros g f t mt st [Hn | [Hc Ht]]; unfold is_ISEL; rewrite ?Hn, ?Hc;
      [reflexivity |].
    simpl. rewrite Ht. reflexivity.
  - intros msg H. unfold FindISELs in H.
    destruct (getFunction "__remill_basic_block" m) as [bb |];
      [| discriminate].
    unfold getParamType in H.
    destruct (fn_params bb) as [| mt [| st rest]]; simpl in H;
      try discriminate.
    revert H. generalize (@nil string).
    induction (globals m) as [| g gs IH]; intros acc H; simpl in H;
      [discriminate |].
    destruct (gv_init g); [| apply (IH _ H)].
    destruct (stripPointerCasts c); try apply (IH _ H).
    destruct (getFunction name m) as [sem |]; [| discriminate].
    unfold getParamType in H.
    destruct (fn_params sem) as [| p0 [| p1 ps]]; simpl in H;
      try discriminate.
    + destruct (Ty_eqb mt p0); simpl in H; [discriminate | apply (IH _ H)].
    + destruct (Ty_eqb mt p0); simpl in H; [| apply (IH _ H)].
      destruct (Ty_eqb st p1); apply (IH _ H).
  - intros Hbb Hsem. unfold FindISELs.
    destruct (getFunction "__remill_basic_block" m) as [bb |]; [| eauto].
    specialize (Hbb bb eq_refl). unfold getParamType.
    destruct (fn_params bb) as [| mt [| st rest]]; simpl in Hbb; try lia.
    simpl. apply FindISELs_loop_returns. exact Hsem.
Qed.

(** *** Removing the ISELs *)

Definition is_among (names : list string) (g : GlobalVariable) : bool :=
  existsb (String.eqb (gv_name g)) names.

(** The module without the globals of these names. *)
Definition without_globals (names : list string) (m : Module) : Module :=
  set_globals (filter (fun g => negb (is_among names g)) (globals m)) m.

Lemma is_among_In (names : list string) (g : GlobalVariable) :
  is_among names g = true <-> In (gv_name g) names.
Proof.
  unfold is_among. rewrite existsb_exists. split.
  - intros (x & Hx & E). apply String.eqb_eq in E. congruence.
  - intros H. exists (gv_name g). split; [exact H | apply String.eqb_refl].
Qed.

Lemma is_among_ext (a b : list string) (g : GlobalVariable) :
  (forall x, In x a <-> In x b) -> is_among a g = is_among b g.
Proof.
  intros H. destruct (is_among a g) eqn:Ea; destruct (is_among b g) eqn:Eb;
    try reflexivity.
  - apply is_among_In in Ea. apply H in Ea. apply is_among_In in Ea.
    congruence.
  - apply is_among_In in Eb. apply H in Eb. apply is_among_In in Eb.
    congruence.
Qed.

Lemma without_globals_ext (a b : list string) (m : Module) :
  (forall x, In x a <-> In x b) -> without_globals a m = without_globals b m.
Proof.
  intros H. unfold without_globals. f_equal. apply filter_ext.
  intros g. rewrite (is_among_ext a b g H). reflexivity.
Qed.

Lemma without_globals_nil (m : Module) : without_globals [] m = m.
Proof.
  unfold without_globals, set_globals. simpl.
  assert (E : filter (fun _ : GlobalVariable => true) (globals m) = globals m).
  { induction (globals m) as [| g l IH]; simpl; [| rewrite IH]; reflexivity. }
  rewrite E. destruct m; reflexivity.
Qed.

Lemma without_globals_linkage (names : list string) (k : string)
    (l : Linkage) (m : Module) :
  In k names ->
  without_globals names (setGlobalLinkage k l m) = without_globals names m.
Proof.
  intros Hk. unfold without_globals, setGlobalLinkage, set_globals. simpl.
  f_equal. induction (globals m) as [| g gs IH]; simpl; [reflexivity |].
  rewrite IH. destruct (String.eqb_spec (gv_name g) k) as [E | E];
    [| reflexivity].
  assert (H1 : is_among names (set_gv_linkage l g) = true)
    by (apply is_among_In; simpl; congruence).
  assert (H2 : is_among names g = true) by (apply is_among_In; congruence).
  rewrite H1, H2. reflexivity.
Qed.

Lemma without_globals_erase (names : list string) (k : string) (m : Module) :
  without_globals names (eraseGlobal k m) = without_globals (k :: names) m.
Proof.
  unfold without_globals, eraseGlobal, set_globals, is_among. simpl.
  f_equal. induction (globals m) as [| g gs IH]; simpl; [reflexivity |].
  destruct (String.eqb (gv_name g) k); simpl; rewrite IH; reflexivity.
Qed.

Lemma RemoveISELs_scan_without (isels : list string) :
  forall acc m next m1,
    RemoveISELs_scan isels acc m = (next, m1) ->
    without_globals next m1 = without_globals (acc ++ isels) m.
Proof.
  induction isels as [| isel rest IH]; intros acc m next m1 H; simpl in H.
  - inversion H; subst. rewrite app_nil_r. reflexivity.
  - destruct (getNumUses (CGlobalVariable isel)
                (setGlobalLinkage isel InternalLinkage m) <=? 1).
    + apply IH in H. rewrite H, without_globals_erase.
      rewrite without_globals_linkage by (left; reflexivity).
      apply without_globals_ext. intros x. simpl.
      rewrite !in_app_iff. simpl. tauto.
    + apply IH in H. rewrite H, <- app_assoc. simpl.
      apply without_globals_linkage. apply in_or_app. right. left.
      reflexivity.
Qed.

Lemma RemoveISELs_returns (fuel : nat) : forall isels m m',
  RemoveISELs fuel isels m = Some m' -> m' = without_globals isels m.
Proof.
  induction fuel as [| fuel IH]; intros isels m m' H.
  - destruct isels; [| discriminate H]. inversion H; subst.
    symmetry. apply without_globals_nil.
  - destruct isels as [| isel rest].
    + inversion H; subst. symmetry. apply without_globals_nil.
    + change (RemoveISELs (S fuel) (isel :: rest) m)
        with (let '(next_isels, m1) :=
                RemoveISELs_scan (isel :: rest) [] m in
              RemoveISELs fuel next_isels m1) in H.
      destruct (RemoveISELs_scan (isel :: rest) [] m) as [next m1] eqn:E.
      apply IH in H. subst m'.
      apply (RemoveISELs_scan_without _ _ _ _ _ E).
Qed.

(** X10. When [RemoveISELs] returns, it has removed every ISEL it was given
    and nothing else: the module it returns is the module it got without the
    globals of those names, with every function, every instruction and every
    other global (name, linkage and initializer) as it was. *)
Theorem RemoveISELs_removes_exactly_the_ISELs
    (fuel : nat) (isels : list string) (m m' : Module)
    (H : RemoveISELs fuel isels m = Some m') :
  m' = without_globals isels m /\
  functions m' = functions m /\
  insts m' = insts m /\
  next_id m' = next_id m /\
  (forall g, In g (globals m') <->
             In g (globals m) /\ ~ In (gv_name g) isels).
Proof.
  apply RemoveISELs_returns in H. subst m'.
  split; [reflexivity |]. split; [reflexivity |]. split; [reflexivity |].
  split; [reflexivity |].
  intros g. unfold without_globals. simpl. rewrite filter_In.
  rewrite negb_true_iff. split; intros [Hg Hn]; split; try exact Hg.
  - intros Hin. apply is_among_In in Hin. congruence.
  - destruct (is_among isels g) eqn:E; [| reflexivity].
    apply is_among_In in E. contradiction.
Qed.

Lemma eraseGlobal_uses (t : Constant) (k : string) (m : Module) :
  getNumUses t (eraseGlobal k m) <= getNumUses t m.
Proof.
  apply getNumUses_le. intros c. unfold written, eraseGlobal, insts. simpl.
  rewrite !count_occ_app. apply Nat.add_le_mono_l.
  apply count_occ_flat_map_filter.
Qed.

Lemma RemoveISELs_scan_dead (isels : list string) : forall acc m,
  Forall (fun g => getNumUses (CGlobalVariable g) m <= 1) isels ->
  fst (RemoveISELs_scan isels acc m) = acc.
Proof.
  induction isels as [| isel rest IH]; intros acc m H; simpl;
    [reflexivity |].
  inversion H as [| ? ? Hhead Hrest]; subst.
  rewrite setGlobalLinkage_uses.
  destruct (Nat.leb_spec (getNumUses (CGlobalVariable isel) m) 1); [| lia].
  apply IH. apply Forall_forall. intros g Hg.
  rewrite Forall_forall in Hrest. specialize (Hrest g Hg).
  pose proof (eraseGlobal_uses (CGlobalVariable g) isel
                (setGlobalLinkage isel InternalLinkage m)) as Hle.
  rewrite setGlobalLinkage_uses in Hle. lia.
Qed.

(** X11. When every ISEL of the set has at most one use, [RemoveISELs]
    returns after one scan, whatever the number of ISELs, and the module it
    returns is the module without them: erasing an ISEL never gives another
    one more uses. *)
Theorem RemoveISELs_erases_dead_ISELs
    (isels : list string) (m : Module)
    (Hdead : Forall (fun g => getNumUses (CGlobalVariable g) m <= 1) isels) :
  forall fuel,
    RemoveISELs (S fuel) isels m = Some (without_globals isels m).
Proof.
  intros fuel. destruct isels as [| isel rest].
  - rewrite without_globals_nil. reflexivity.
  - change (RemoveISELs (S fuel) (isel :: rest) m)
      with (let '(next_isels, m1) :=
              RemoveISELs_scan (isel :: rest) [] m in
            RemoveISELs fuel next_isels m1).
    pose proof (RemoveISELs_scan_dead (isel :: rest) [] m Hdead) as Hnext.
    destruct (RemoveISELs_scan (isel :: rest) [] m) as [next m1] eqn:E.
    simpl in Hnext. subst next.
    apply RemoveISELs_scan_without in E. rewrite without_globals_nil in E.
    subst m1. destruct fuel; reflexivity.
Qed.

Lemma RemoveISELs_scan_shrinks (isels : list string) : forall acc m,
  (Forall (fun g => 1 < getNumUses (CGlobalVariable g) m) isels /\
   fst (RemoveISELs_scan isels acc m) = acc ++ isels) \/
  List.length (fst (RemoveISELs_scan isels acc m))
  < List.length acc + List.length isels.
Proof.
  induction isels as [| isel rest IH]; intros acc m; simpl.
  - left. rewrite app_nil_r. auto.
  - rewrite setGlobalLinkage_uses.
    destruct (Nat.leb_spec (getNumUses (CGlobalVariable isel) m) 1).
    + right.
      destruct (IH acc (eraseGlobal isel
                          (setGlobalLinkage isel InternalLinkage m)))
        as [[_ E] | Hlt].
      * rewrite E, length_app. lia.
      * lia.
    + destruct (IH (acc ++ [isel])
                  (setGlobalLinkage isel InternalLinkage m))
        as [[Hlive E] | Hlt].
      * left. split.
        -- constructor; [assumption |].
           eapply Forall_impl; [| exact Hlive]. intros g Hg.
           cbv beta in Hg. rewrite setGlobalLinkage_uses in Hg. exact Hg.
        -- rewrite E, <- app_assoc. reflexivity.
      * right. rewrite length_app in Hlt. simpl in Hlt. lia.
Qed.

Lemma RemoveISELs_dichotomy (n : nat) : forall isels m,
  List.length isels <= n ->
  (exists m', forall fuel, List.length isels <= fuel ->
                RemoveISELs fuel isels m = Some m') \/
  (forall fuel, RemoveISELs fuel isels m = None).
Proof.
  induction n as [| n IH]; intros isels m Hlen.
  - destruct isels; [| simpl in Hlen; lia].
    left. exists m. intros fuel _. destruct fuel; reflexivity.
  - destruct isels as [| isel rest].
    + left. exists m. intros fuel _. destruct fuel; reflexivity.
    + destruct (RemoveISELs_scan_shrinks (isel :: rest) [] m)
        as [[Hlive _] | Hlt].
      * right. apply RemoveISELs_diverges; [discriminate | exact Hlive].
      * destruct (RemoveISELs_scan (isel :: rest) [] m) as [next m1] eqn:E.
        simpl in Hlt, Hlen.
        assert (Hstep : forall fuel,
          RemoveISELs (S fuel) (isel :: rest) m = RemoveISELs fuel next m1).
        { intros fuel.
          change (RemoveISELs (S fuel) (isel :: rest) m)
            with (let '(next_isels, m2) :=
                    RemoveISELs_scan (isel :: rest) [] m in
                  RemoveISELs fuel next_isels m2).
          rewrite E. reflexivity. }
        destruct (IH next m1) as [(m' & Hm') | Hnone]; [lia | |].
        -- left. exists m'. intros fuel Hfuel.
           destruct fuel as [| fuel]; [simpl in Hfuel; lia |].
           rewrite Hstep. apply Hm'. simpl in Hfuel. lia.
        -- right. intros [| fuel]; [reflexivity |].
           rewrite Hstep. apply Hnone.
Qed.

(** X12. [RemoveISELs] either returns within as many scans as it was given
    ISELs, or does not return at all: a scan that erases no ISEL leaves the
    set as it is, and every scan after it does the same. *)
Theorem RemoveISELs_returns_soon_or_never (isels : list string) (m : Module) :
  (exists m', forall fuel, List.length isels <= fuel ->
                RemoveISELs fuel isels m = Some m') \/
  (forall fuel, RemoveISELs fuel isels m = None).
Proof.
  apply (RemoveISELs_dichotomy (List.length isels)). lia.
Qed.

(** *** Removing the intrinsics *)

(** The functions [RemoveIntrinsics] is about. *)
Definition intrinsic_names : list string :=
  [ "__remill_intrinsics"; "__remill_basic_block"; "__remill_mark_as_used";
    "__remill_defer_inlining"; "__remill_function_return" ]%string.

(** From [m] to [m']: the functions whose names are not in [S] are the
    same, no function of a new name appears, and no constant gets more
    uses. *)
Definition touches (S : list string) (m m' : Module) : Prop :=
  (forall f, ~ In (fn_name f) S ->
             (In f (functions m') <-> In f (functions m))) /\
  (forall f, In f (functions m') ->
             exists f0, In f0 (functions m) /\ fn_name f0 = fn_name f) /\
  (forall t, getNumUses t m' <= getNumUses t m).

Lemma touches_refl (S : list string) (m : Module) : touches S m m.
Proof.
  split; [tauto |]. split; [| auto]. intros f Hf. exists f. auto.
Qed.

Lemma touches_trans (S : list string) (m1 m2 m3 : Module) :
  touches S m1 m2 -> touches S m2 m3 -> touches S m1 m3.
Proof.
  intros (F1 & N1 & U1) (F2 & N2 & U2). split; [| split].
  - intros f Hf. rewrite (F2 f Hf). apply F1. exact Hf.
  - intros f Hf. destruct (N2 f Hf) as (f2 & Hf2 & E2).
    destruct (N1 f2 Hf2) as (f1 & Hf1 & E1). exists f1. split; congruence.
  - intros t. specialize (U1 t). specialize (U2 t). lia.
Qed.

Lemma written_bodies_le (fs gs : list Function) (c : Constant) :
  Forall2 (fun f g =>
             count_occ Constant_eq_dec
               (flat_map constants_of_inst (fn_body g)) c
             <= count_occ Constant_eq_dec
                  (flat_map constants_of_inst (fn_body f)) c) fs gs ->
  count_occ Constant_eq_dec
    (flat_map constants_of_inst (flat_map fn_body gs)) c
  <= count_occ Constant_eq_dec
       (flat_map constants_of_inst (flat_map fn_body fs)) c.
Proof.
  induction 1 as [| f g fs gs Hfg _ IH]; simpl; [lia |].
  rewrite !flat_map_app, !count_occ_app. lia.
Qed.

(** Changing the functions without writing a constant once more leaves no
    constant with more uses. *)
Lemma uses_of_bodies_le (t : Constant) (fs : list Function) (m : Module) :
  (forall c,
     count_occ Constant_eq_dec
       (flat_map constants_of_inst (flat_map fn_body fs)) c
     <= count_occ Constant_eq_dec
          (flat_map constants_of_inst (flat_map fn_body (functions m))) c) ->
  getNumUses t (set_functions fs m) <= getNumUses t m.
Proof.
  intros H. apply getNumUses_le. intros c. unfold written, insts. simpl.
  rewrite !count_occ_app. apply Nat.add_le_mono_r. apply H.
Qed.

Lemma uses_of_kept_le (keep : Function -> bool) (fs : list Function)
    (c : Constant) :
  count_occ Constant_eq_dec
    (flat_map constants_of_inst (flat_map fn_body (filter keep fs))) c
  <= count_occ Constant_eq_dec
       (flat_map constants_of_inst (flat_map fn_body fs)) c.
Proof.
  induction fs as [| f fs IH]; simpl; [lia |].
  destruct (keep f); simpl; rewrite ?flat_map_app, ?count_occ_app; lia.
Qed.

Lemma setFunctionLinkage_touches (S : list string) (name : string)
    (l : Linkage) (m : Module) :
  In name S -> touches S m (setFunctionLinkage name l m).
Proof.
  intros HS. unfold touches, setFunctionLinkage. simpl.
  split; [| split].
  - intros f Hf. rewrite in_map_iff. split.
    + intros (f0 & E & Hf0).
      destruct (String.eqb_spec (fn_name f0) name) as [En | En].
      * exfalso. apply Hf. subst f. simpl. congruence.
      * congruence.
    + intros Hin. exists f. split; [| exact Hin].
      destruct (String.eqb_spec (fn_name f) name) as [En | En];
        [| reflexivity].
      exfalso. apply Hf. congruence.
  - intros f Hf. apply in_map_iff in Hf. destruct Hf as (f0 & E & Hf0).
    exists f0. split; [exact Hf0 |].
    destruct (String.eqb (fn_name f0) name); subst f; reflexivity.
  - intros t. apply (uses_of_bodies_le t _ m). intros c.
    apply written_bodies_le.
    induction (functions m) as [| f fs IH]; simpl; constructor; [| exact IH].
    destruct (String.eqb (fn_name f) name); simpl; lia.
Qed.

Lemma remove_function_touches (S : list string) (name : string)
    (m : Module) :
  In name S -> touches S m (remove_function name m).
Proof.
  intros HS. unfold touches, remove_function. simpl. split; [| split].
  - intros f Hf. rewrite filter_In. split; [tauto |].
    intros Hin. split; [exact Hin |]. apply negb_true_iff.
    apply String.eqb_neq. intros E. apply Hf. congruence.
  - intros f Hf. apply filter_In in Hf. exists f. tauto.
  - intros t. apply (uses_of_bodies_le t _ m). intros c.
    apply uses_of_kept_le.
Qed.

Lemma RemoveFunctionByName_touches (S : list string) (name : string)
    (m : Module) :
  In name S -> touches S m (RemoveFunctionByName name m).
Proof.
  intros HS. unfold RemoveFunctionByName, RemoveFunction.
  destruct (getFunction name m); [| apply touches_refl].
  apply (touches_trans S m (setFunctionLinkage name InternalLinkage m));
    [apply setFunctionLinkage_touches; exact HS |].
  destruct (negb (hasNUsesOrMore (CFunction name) 1
                    (setFunctionLinkage name InternalLinkage m)));
    [apply remove_function_touches; exact HS | apply touches_refl].
Qed.

Lemma getFunction_None (name : string) (m : Module) :
  getFunction name m = None <->
  forall f, In f (functions m) -> fn_name f <> name.
Proof.
  unfold getFunction. split.
  - intros H f Hf E. apply (find_none _ _ H) in Hf.
    apply String.eqb_neq in Hf. contradiction.
  - intros H. destruct (find _ (functions m)) as [f |] eqn:E; [| reflexivity].
    apply find_some in E. destruct E as [Hf E].
    apply String.eqb_eq in E. exfalso. apply (H f Hf E).
Qed.

(** After [RemoveFunction] by name, what is left of that name has internal
    linkage; and nothing is left of it if it had no use. *)
Lemma RemoveFunctionByName_named (name : string) (m : Module) :
  (forall f, In f (functions (RemoveFunctionByName name m)) ->
             fn_name f = name -> fn_linkage f = InternalLinkage) /\
  (getNumUses (CFunction name) m = 0 ->
   getFunction name (RemoveFunctionByName name m) = None).
Proof.
  unfold RemoveFunctionByName, RemoveFunction, hasNUsesOrMore.
  destruct (getFunction name m) as [func |] eqn:Eg.
  - assert (Hlinked : forall f,
      In f (functions (setFunctionLinkage name InternalLinkage m)) ->
      fn_name f = name -> fn_linkage f = InternalLinkage).
    { unfold setFunctionLinkage. simpl. intros f Hf En.
      apply in_map_iff in Hf. destruct Hf as (f0 & E & _).
      destruct (String.eqb_spec (fn_name f0) name) as [E0 | E0];
        subst f; [reflexivity | contradiction]. }
    split.
    + destruct (negb (1 <=? getNumUses (CFunction name)
                              (setFunctionLinkage name InternalLinkage m)));
        [| exact Hlinked].
      intros f Hf. apply Hlinked. unfold remove_function in Hf.
      simpl in Hf. apply filter_In in Hf. tauto.
    + intros Hzero.
      destruct (setFunctionLinkage_touches [name] name InternalLinkage m
                  (or_introl eq_refl)) as (_ & _ & Hle).
      specialize (Hle (CFunction name)).
      destruct (Nat.leb_spec 1 (getNumUses (CFunction name)
                  (setFunctionLinkage name InternalLinkage m))); [lia |].
      simpl. apply getFunction_None. intros f Hf.
      unfold remove_function in Hf. simpl in Hf. apply filter_In in Hf.
      destruct Hf as [_ Hf]. apply negb_true_iff in Hf.
      apply String.eqb_neq. exact Hf.
  - split; [| auto]. intros f Hf En.
    exfalso. apply (proj1 (getFunction_None name m) Eg f Hf En).
Qed.

(** The calls of [RemoveFunction] at the end of [RemoveIntrinsics]. *)
Definition remove_all (names : list string) (m : Module) : Module :=
  fold_left (fun m name => RemoveFunctionByName name m) names m.

Lemma remove_all_touches (S : list string) (names : list string) :
  incl names S -> forall m, touches S m (remove_all names m).
Proof.
  induction names as [| n rest IH]; intros Hincl m; simpl.
  - apply touches_refl.
  - apply (touches_trans S m (RemoveFunctionByName n m)).
    + apply RemoveFunctionByName_touches. apply Hincl. left. reflexivity.
    + apply IH. intros x Hx. apply Hincl. right. exact Hx.
Qed.

Lemma remove_all_internal (names : list string) : forall m f,
  In f (functions (remove_all names m)) -> In (fn_name f) names ->
  fn_linkage f = InternalLinkage.
Proof.
  induction names as [| n rest IH]; intros m f Hf Hn; [destruct Hn |].
  simpl in Hf.
  destruct (in_dec string_dec (fn_name f) rest) as [Hrest | Hrest].
  - apply (IH (RemoveFunctionByName n m) f Hf Hrest).
  - destruct Hn as [En | Hn]; [| contradiction].
    destruct (remove_all_touches rest rest (incl_refl rest)
                (RemoveFunctionByName n m)) as (Hframe & _ & _).
    apply (Hframe f Hrest) in Hf.
    apply (proj1 (RemoveFunctionByName_named n m) f Hf). congruence.
Qed.

Lemma remove_all_unused (names : list string) (n : string) : forall m,
  In n names -> getNumUses (CFunction n) m = 0 ->
  getFunction n (remove_all names m) = None.
Proof.
  induction names as [| n1 rest IH]; intros m Hn Hzero; [destruct Hn |].
  simpl.
  destruct (RemoveFunctionByName_touches [n1] n1 m (or_introl eq_refl))
    as (_ & _ & Hle).
  specialize (Hle (CFunction n)).
  destruct (in_dec string_dec n rest) as [Hrest | Hrest].
  - apply IH; [exact Hrest | lia].
  - destruct Hn as [-> | Hn]; [| contradiction].
    pose proof (proj2 (RemoveFunctionByName_named n m) Hzero) as Hgone.
    apply getFunction_None. intros f Hf E.
    destruct (remove_all_touches rest rest (incl_refl rest)
                (RemoveFunctionByName n m)) as (_ & Hnew & _).
    destruct (Hnew f Hf) as (f0 & Hf0 & E0).
    apply (proj1 (getFunction_None n (RemoveFunctionByName n m)) Hgone f0 Hf0).
    congruence.
Qed.

(** The head of [RemoveIntrinsics]: [llvm.used] is erased, and a declared
    [__remill_mark_as_used] gets a body that returns. *)
Definition prepare_intrinsics (m : Module) : Module :=
  let m :=
    match getGlobalVariable "llvm.used" m with
    | Some _ => eraseGlobal "llvm.used" m
    | None => m
    end in
  match getFunction "__remill_mark_as_used" m with
  | Some remill_used =>
      if isDeclaration remill_used then
        let ret := {| id := next_id m; opcode := Ret; ty := VoidTy;
                      operands := [] |} in
        set_next_id (S (next_id m))
          (update_function "__remill_mark_as_used"
             (fun f =>
                set_body [ret]
                  (addFnAttr AlwaysInline
                     (addFnAttr InlineHint
                        (removeFnAttr NoInline
                           (set_fn_linkage InternalLinkage f))))) m)
      else m
  | None => m
  end.

Lemma RemoveIntrinsics_steps (m : Module) :
  RemoveIntrinsics m
  = remove_all
      [ "__remill_intrinsics"; "__remill_basic_block";
        "__remill_mark_as_used"; "__remill_defer_inlining";
        "__remill_function_return"; "__remill_mark_as_used" ]%string
      (prepare_intrinsics m).
Proof. reflexivity. Qed.

Lemma eraseGlobal_touches (S : list string) (k : string) (m : Module) :
  touches S m (eraseGlobal k m).
Proof.
  split; [unfold eraseGlobal; simpl; tauto |].
  split; [intros f Hf; exists f; auto |].
  intros t. apply eraseGlobal_uses.
Qed.

Lemma prepare_intrinsics_touches (m : Module) :
  touches intrinsic_names m (prepare_intrinsics m) /\
  globals (prepare_intrinsics m)
  = match getGlobalVariable "llvm.used" m with
    | Some _ => filter (fun g => negb (String.eqb (gv_name g) "llvm.used"))
                  (globals m)
    | None => globals m
    end.
Proof.
  unfold prepare_intrinsics.
  set (m1 := match getGlobalVariable "llvm.used" m with
             | Some _ => eraseGlobal "llvm.used" m
             | None => m
             end).
  assert (H1 : touches intrinsic_names m m1).
  { unfold m1. destruct (getGlobalVariable "llvm.used" m);
      [apply eraseGlobal_touches | apply touches_refl]. }
  assert (G1 : globals m1
               = match getGlobalVariable "llvm.used" m with
                 | Some _ =>
                     filter (fun g => negb (String.eqb (gv_name g) "llvm.used"))
                       (globals m)
                 | None => globals m
                 end).
  { unfold m1. destruct (getGlobalVariable "llvm.used" m); reflexivity. }
  clearbody m1. rewrite <- G1. clear G1.
  destruct (getFunction "__remill_mark_as_used" m1) as [used |];
    [| split; [exact H1 | reflexivity]].
  destruct (isDeclaration used); [| split; [exact H1 | reflexivity]].
  split; [| reflexivity].
  apply (touches_trans intrinsic_names m m1); [exact H1 |].
  unfold touches, update_function. simpl. split; [| split].
  - intros f Hf. rewrite in_map_iff. split.
    + intros (f0 & E & Hf0).
      destruct (String.eqb_spec (fn_name f0) "__remill_mark_as_used")
        as [En | En].
      * exfalso. apply Hf. subst f. simpl. rewrite En. simpl. tauto.
      * congruence.
    + intros Hin. exists f. split; [| exact Hin].
      destruct (String.eqb_spec (fn_name f) "__remill_mark_as_used")
        as [En | En]; [| reflexivity].
      exfalso. apply Hf. rewrite En. simpl. tauto.
  - intros f Hf. apply in_map_iff in Hf. destruct Hf as (f0 & E & Hf0).
    exists f0. split; [exact Hf0 |].
    destruct (String.eqb (fn_name f0) "__remill_mark_as_used"); subst f;
      reflexivity.
  - intros t. apply getNumUses_le. intros c. unfold written, insts. simpl.
    rewrite !count_occ_app. apply Nat.add_le_mono_r.
    apply written_bodies_le.
    induction (functions m1) as [| f fs IH]; simpl; constructor;
      [| exact IH].
    destruct (String.eqb (fn_name f) "__remill_mark_as_used"); simpl; lia.
Qed.

(** X13. [RemoveIntrinsics] is about five functions and one global and
    leaves the rest of the module alone: every function of another name is
    kept as it is, body included; what is left of the five has internal
    linkage; each of the five that has no use in the module is removed; and
    the globals are kept, but for [llvm.used] when it is visible from outside
    the module. *)
Theorem RemoveIntrinsics_touches_only_intrinsics (m : Module) :
  (forall f, ~ In (fn_name f) intrinsic_names ->
             (In f (functions (RemoveIntrinsics m)) <->
              In f (functions m))) /\
  (forall f, In f (functions (RemoveIntrinsics m)) ->
             In (fn_name f) intrinsic_names ->
             fn_linkage f = InternalLinkage) /\
  (forall name, In name intrinsic_names ->
                getNumUses (CFunction name) m = 0 ->
                getFunction name (RemoveIntrinsics m) = None) /\
  globals (RemoveIntrinsics m)
  = match getGlobalVariable "llvm.used" m with
    | Some _ => filter (fun g => negb (String.eqb (gv_name g) "llvm.used"))
                  (globals m)
    | None => globals m
    end.
Proof.
  rewrite RemoveIntrinsics_steps.
  set (six := [ "__remill_intrinsics"; "__remill_basic_block";
                "__remill_mark_as_used"; "__remill_defer_inlining";
                "__remill_function_return";
                "__remill_mark_as_used" ]%string).
  assert (Hsix : forall x, In x six <-> In x intrinsic_names).
  { intros x. unfold six, intrinsic_names. simpl. tauto. }
  destruct (prepare_intrinsics_touches m) as [Hprep Hglobals].
  assert (Hrest : touches intrinsic_names (prepare_intrinsics m)
                    (remove_all six (prepare_intrinsics m))).
  { apply remove_all_touches. intros x Hx. apply Hsix. exact Hx. }
  pose proof (touches_trans _ _ _ _ Hprep Hrest) as (Hframe & _ & _).
  split; [exact Hframe |]. split; [| split].
  - intros f Hf Hn. apply (remove_all_internal six _ f Hf).
    apply Hsix. exact Hn.
  - intros name Hn Hzero. apply remove_all_unused.
    + apply Hsix. exact Hn.
    + destruct Hprep as (_ & _ & Hle). specialize (Hle (CFunction name)). lia.
  - rewrite <- Hglobals. clear.
    assert (Hkeep : forall names m0,
              globals (remove_all names m0) = globals m0).
    { induction names as [| n rest IH]; intros m0; simpl; [reflexivity |].
      rewrite IH. unfold RemoveFunctionByName, RemoveFunction.
      destruct (getFunction n m0); [| reflexivity].
      destruct (negb (hasNUsesOrMore (CFunction n) 1
                        (setFunctionLinkage n InternalLinkage m0)));
        reflexivity. }
    apply Hkeep.
Qed.

(** *** Lowering twice *)

Lemma getFunction_lift (h : Instruction -> list Instruction) (name : string)
    (m : Module) :
  getFunction name (lift h m)
  = option_map (fun f => set_body (flat_map h (fn_body f)) f)
      (getFunction name m).
Proof.
  unfold getFunction, lift, map_bodies. simpl.
  induction (functions m) as [| f fs IH]; simpl; [reflexivity |].
  destruct (String.eqb (fn_name f) name); [reflexivity | exact IH].
Qed.

Lemma declaration_lift (h : Instruction -> list Instruction) (name : string)
    (m : Module) (func : Function) :
  getFunction name m = Some func -> isDeclaration func = true ->
  exists func', getFunction name (lift h m) = Some func' /\
                isDeclaration func' = true.
Proof.
  intros Hg Hd. rewrite getFunction_lift, Hg. simpl.
  eexists. split; [reflexivity |].
  unfold isDeclaration in *. simpl.
  destruct (fn_body func); [reflexivity | discriminate].
Qed.

Lemma RemoveFunction_cases (name : string) (m : Module) :
  (RemoveFunction name m = m) \/
  (getFunction name (RemoveFunction name m) = None).
Proof.
  destruct (RemoveFunction_spec name m) as [Hzero Hpos].
  destruct (getNumUses (CFunction name) m) eqn:E.
  - right. apply Hzero. reflexivity.
  - left. apply Hpos. lia.
Qed.

(** *** A loop that runs to its end

    What holds of a loop over the callers of [name] whatever its builder
    folds: it completes, the callers are still there, and a call of [name]
    in the result is one of the calls of the module. *)

Lemma calls_replace (name : string) (c : nat) (r : Value)
    (i : Instruction) :
  r <> VConst (CFunction name) ->
  calls name (replace_in_inst c r i) = calls name i.
Proof.
  intros Hr. destruct (calls name i) eqn:Ec.
  - destruct (calls_shape name i Ec) as [Eop Eo].
    unfold calls, getCalledFunction, replace_in_inst. simpl.
    rewrite Eop, Eo, map_app. simpl map. rewrite last_last.
    rewrite replace_operand_other by discriminate.
    destruct (map _ _ ++ _) eqn:E;
      [apply app_eq_nil in E; destruct E; discriminate |].
    apply String.eqb_refl.
  - apply (calls_subst_false name (replace_operand c r) i Ec).
    intros v. unfold replace_operand.
    destruct (Value_eq_dec v (VInst c)); [right; exact Hr | left; reflexivity].
Qed.

Lemma count_occ_replace (name : string) (c : nat) (r : Value)
    (l : list Value) :
  r <> VConst (CFunction name) ->
  count_occ Value_eq_dec (map (replace_operand c r) l)
    (VConst (CFunction name))
  = count_occ Value_eq_dec l (VConst (CFunction name)).
Proof.
  intros Hr. induction l as [| v l IH]; [reflexivity |].
  simpl map. destruct (Value_eq_dec v (VInst c)) as [-> | Hv].
  - assert (E : replace_operand c r (VInst c) = r).
    { unfold replace_operand.
      destruct (Value_eq_dec (VInst c) (VInst c)); [reflexivity | congruence]. }
    rewrite E, !count_occ_cons_neq by (exact Hr || discriminate).
    exact IH.
  - rewrite replace_operand_other by exact Hv.
    destruct (Value_eq_dec v (VConst (CFunction name))) as [-> | Hn].
    + rewrite !count_occ_cons_eq by reflexivity. rewrite IH. reflexivity.
    + rewrite !count_occ_cons_neq by exact Hn. exact IH.
Qed.

Section Runs.

Variable name : string.
Variable gen : nat -> Instruction -> list Instruction * Value.
Variable ok : Instruction -> bool.
Variable step : nat -> Module -> Outcome Module.

Hypothesis gen_ids : forall n i,
  map id (fst (gen n i)) = seq n (List.length (fst (gen n i))).
Hypothesis ok_replace : forall c r i, ok (replace_in_inst c r i) = ok i.
Hypothesis step_spec : forall c m i,
  wf m -> In i (insts m) -> id i = c -> ok i = true ->
  step c m =
  Done (set_next_id (next_id m + List.length (fst (gen (next_id m) i)))
          (lift (step_inst false c (gen (next_id m) i)) m)).
Hypothesis gen_no_call : forall n i x,
  In x (fst (gen n i)) -> isa_CallInst x = false.
Hypothesis gen_not_callee : forall n i,
  ok i = true -> calls name i = true ->
  count_occ Value_eq_dec (operands i) (VConst (CFunction name)) = 1 ->
  snd (gen n i) <> VConst (CFunction name).

Lemma loop_runs : forall cs m,
  wf m -> called_directly name m ->
  (forall c, In c cs ->
     exists i, In i (insts m) /\ id i = c /\ ok i = true /\
               calls name i = true) ->
  exists h N,
    loop step cs m = Done (set_next_id N (lift h m)) /\
    wf (set_next_id N (lift h m)) /\
    (forall i, In i (insts m) -> exists j, In j (h i) /\ id j = id i) /\
    (forall i j, In i (insts m) -> In j (h i) -> calls name j = true ->
       calls name i = true /\ id j = id i).
Proof.
  induction cs as [| c cs IH]; intros m Hwf Hdirect Hcs.
  - exists (fun i => [i]), (next_id m).
    rewrite lift_id, set_next_id_same.
    split; [reflexivity |]. split; [exact Hwf |]. split.
    + intros i _. exists i. split; [left |]; reflexivity.
    + intros i j _ [<- | []] Hc. auto.
  - destruct (Hcs c (or_introl eq_refl)) as (ic & Hic & Eic & Hok & Hcall).
    set (g := gen (next_id m) ic).
    set (s := step_inst false c g).
    set (m1 := set_next_id (next_id m + List.length (fst g)) (lift s m)).
    assert (Hr : snd g <> VConst (CFunction name))
      by (apply gen_not_callee; [exact Hok | exact Hcall
                                 | apply Hdirect; assumption]).
    assert (Hshape : forall i x, In x (s i) ->
              x = replace_in_inst c (snd g) i \/ isa_CallInst x = false).
    { intros i x Hx. unfold s, step_inst, retire in Hx.
      destruct (id i =? c).
      - apply in_app_or in Hx. destruct Hx as [Hx | [<- | []]].
        + right. apply in_map_iff in Hx. destruct Hx as (x0 & <- & Hx0).
          apply (gen_no_call (next_id m) ic x0 Hx0).
        + left. reflexivity.
      - destruct Hx as [<- | []]. left. reflexivity. }
    assert (Hlast : forall i, In (replace_in_inst c (snd g) i) (s i)).
    { intros i. unfold s, step_inst, retire. destruct (id i =? c).
      - apply in_or_app. right. left. reflexivity.
      - left. reflexivity. }
    assert (Hin1 : forall x, In x (insts m1) <->
              exists i, In i (insts m) /\ In x (s i)).
    { intros x. change (insts m1) with (insts (lift s m)).
      rewrite insts_lift. apply in_flat_map. }
    assert (Hnot : forall x, isa_CallInst x = false -> calls name x = false).
    { intros x Hx. unfold isa_CallInst in Hx.
      unfold calls, getCalledFunction.
      destruct (opcode x); try reflexivity. discriminate. }
    destruct (IH m1) as (h1 & N & Hloop & HwfN & Hkeep & Horigin).
    + unfold m1, s. apply wf_step; [exact Hwf | apply gen_ids].
    + intros x Hx Hc. apply Hin1 in Hx. destruct Hx as (i & Hi & Hx).
      destruct (Hshape i x Hx) as [-> | Hn];
        [| rewrite (Hnot x Hn) in Hc; discriminate].
      rewrite (calls_replace name c (snd g) i Hr) in Hc.
      unfold replace_in_inst. simpl operands.
      rewrite (count_occ_replace name c (snd g) _ Hr).
      apply Hdirect; assumption.
    + intros c' Hc'.
      destruct (Hcs c' (or_intror Hc')) as (i & Hi & Ei & Hoki & Hci).
      exists (replace_in_inst c (snd g) i).
      split; [apply Hin1; exists i; split; [exact Hi | apply Hlast] |].
      split; [exact Ei |].
      split; [rewrite ok_replace; exact Hoki |].
      rewrite (calls_replace name c (snd g) i Hr). exact Hci.
    + exists (fun i => flat_map h1 (s i)), N.
      assert (E : set_next_id N (lift h1 m1)
                  = set_next_id N (lift (fun i => flat_map h1 (s i)) m)).
      { unfold m1. rewrite lift_set_next_id, set_next_id_twice, lift_lift.
        reflexivity. }
      rewrite <- E.
      split.
      { simpl loop. rewrite (step_spec c m ic Hwf Hic Eic Hok).
        simpl obind. exact Hloop. }
      split; [exact HwfN |]. split.
      * intros i Hi.
        destruct (Hkeep (replace_in_inst c (snd g) i)) as (j & Hj & Ej).
        { apply Hin1. exists i. split; [exact Hi | apply Hlast]. }
        exists j. split; [| exact Ej].
        apply in_flat_map. exists (replace_in_inst c (snd g) i).
        split; [apply Hlast | exact Hj].
      * intros i j Hi Hj Hc. apply in_flat_map in Hj.
        destruct Hj as (x & Hx & Hj).
        destruct (Horigin x j) as [Hcx Ejx];
          [apply Hin1; exists i; split; assumption | exact Hj | exact Hc |].
        destruct (Hshape i x Hx) as [-> | Hn];
          [| rewrite (Hnot x Hn) in Hcx; discriminate].
        rewrite (calls_replace name c (snd g) i Hr) in Hcx.
        split; [exact Hcx | exact Ejx].
Qed.

End Runs.

Section Twice.

Variable ConstantFolder_CreateCast : CastOp -> Constant -> Ty -> Constant.
Variable kMemoryPointerArgNum : nat.

Local Abbreviation ReplaceMemReadOp :=
  (ReplaceMemReadOp ConstantFolder_CreateCast).
Local Abbreviation ReplaceMemWriteOp :=
  (ReplaceMemWriteOp ConstantFolder_CreateCast).

(** What [ReplaceMemWriteOp] returns for a declared write intrinsic,
    whatever the arguments of its calls are. *)
Lemma ReplaceMemWriteOp_runs (name : string) (val_type : Ty) (m : Module)
    (func : Function) :
  getFunction name m = Some func -> isDeclaration func = true ->
  wf m -> called_directly name m -> has_argument name 2 m ->
  exists m',
    ReplaceMemWriteOp name val_type m = Done (RemoveFunction name m') /\
    wf m' /\
    (forall i, In i (insts m') -> calls name i = false) /\
    (exists func', getFunction name m' = Some func' /\
                   isDeclaration func' = true).
Proof.
  intros H Hd Hwf Hdirect Hargs.
  unfold Optimizer.ReplaceMemWriteOp.
  rewrite H, Hd, ReplaceMemWriteOp_loop_is_loop.
  set (cs := CallersOf name m).
  destruct (loop_runs name
              (write_gen ConstantFolder_CreateCast func val_type) write_ok
              (write_step ConstantFolder_CreateCast func val_type))
    with (cs := cs) (m := m)
    as (h & N & Hloop & HwfN & Hkeep & Horigin).
  - apply write_gen_ids.
  - intros c r i. unfold write_ok. simpl. rewrite length_map. reflexivity.
  - apply write_step_spec.
  - intros n i x Hx. unfold write_gen in Hx. simpl fst in Hx.
    eapply write_build_no_call. exact Hx.
  - intros n i Hok Hc Hn. unfold write_gen. simpl snd.
    apply argument_not_callee; [exact Hc | exact Hn |].
    unfold write_ok in Hok. apply Nat.ltb_lt in Hok. lia.
  - exact Hwf.
  - exact Hdirect.
  - intros c Hc. apply In_callers in Hc; [| exact Hdirect].
    destruct Hc as (i & Hi & Hci & E). exists i. split; [exact Hi |].
    split; [exact E |]. split; [| exact Hci].
    apply Nat.ltb_lt. apply Hargs; assumption.
  - set (M1 := set_next_id N (lift h m)) in *.
    exists (erase_each cs M1).
    split.
    { rewrite Hloop. simpl obind. rewrite erase_all_Done.
      - reflexivity.
      - apply NoDup_callers; assumption.
      - intros c Hc. apply In_callers in Hc; [| exact Hdirect].
        destruct Hc as (i & Hi & _ & <-).
        destruct (Hkeep i Hi) as (j & Hj & Ej). exists j.
        split; [| exact Ej].
        change (In j (insts (lift h m))). rewrite insts_lift.
        apply in_flat_map. exists i. split; assumption. }
    split; [apply wf_erase_each; exact HwfN |].
    split.
    + intros j Hj. rewrite erase_each_filter in Hj.
      apply filter_In in Hj. destruct Hj as [Hj Hout].
      destruct (calls name j) eqn:Ec; [| reflexivity].
      change (In j (insts (lift h m))) in Hj. rewrite insts_lift in Hj.
      apply in_flat_map in Hj. destruct Hj as (i & Hi & Hj).
      destruct (Horigin i j Hi Hj Ec) as [Hci Eji].
      pose proof (member_of_caller name m i Hdirect Hi Hci) as Hin.
      fold cs in Hin. rewrite <- Eji in Hin.
      rewrite (existsb_present _ _ Hin) in Hout. discriminate.
    + rewrite erase_each_lift.
      destruct (declaration_lift h name m func H Hd) as (f1 & Hg1 & Hd1).
      apply (declaration_lift _ name M1 f1); [exact Hg1 | exact Hd1].
Qed.

(** What [ReplaceBarrier] returns for a declared barrier. *)
Lemma ReplaceBarrier_result (name : string) (m : Module) (func : Function) :
  getFunction name m = Some func -> isDeclaration func = true ->
  wf m -> called_directly name m ->
  has_argument name kMemoryPointerArgNum m ->
  exists theta,
    ReplaceBarrier kMemoryPointerArgNum name m
    = Done (lift (fun i => if calls name i then []
                           else [subst_inst theta i]) m) /\
    (forall i,
       In i (insts (lift (fun i => if calls name i then []
                                   else [subst_inst theta i]) m)) ->
       calls name i = false).
Proof.
  intros H Hd Hwf Hdirect Hargs.
  unfold ReplaceBarrier. rewrite H, Hd, ReplaceBarrier_loop_is_loop.
  destruct (loop_spec (barrier_gen kMemoryPointerArgNum)
              (barrier_ok kMemoryPointerArgNum) true
              (barrier_step kMemoryPointerArgNum)
              (fun _ => True) (fun _ _ => True))
    with (cs := CallersOf name m) (m := m)
    as (theta & start & N & Hloop & _ & _ & _ & HN & Hfix & Hval & Hrange).
  - reflexivity.
  - intros n c r i _ _ _. unfold barrier_gen. simpl. rewrite nth_replace.
    reflexivity.
  - intros; exact I.
  - intros c r i. unfold barrier_ok. simpl. rewrite length_map.
    reflexivity.
  - intros; exact I.
  - apply barrier_step_spec.
  - apply NoDup_callers; assumption.
  - exact Hwf.
  - intros c Hc. apply In_callers in Hc; [| exact Hdirect].
    destruct Hc as (i & Hi & Hci & E). exists i. split; [exact Hi |].
    split; [exact E |]. split; [| intros; exact I].
    apply Nat.ltb_lt. apply Hargs; assumption.
  - exists theta.
    assert (Hm' :
      set_next_id N
        (lift (final (barrier_gen kMemoryPointerArgNum) true
                 (CallersOf name m) start theta) m)
      = lift (fun i => if calls name i then [] else [subst_inst theta i]) m).
    { rewrite HN by reflexivity.
      transitivity
        (lift (final (barrier_gen kMemoryPointerArgNum) true
                 (CallersOf name m) start theta) m);
        [destruct m; reflexivity |].
      apply lift_ext. intros i Hi. unfold final.
      destruct (calls name i) eqn:Ec.
      - destruct (index_of_caller name m i Hwf Hdirect Hi Ec) as [k Hk].
        rewrite Hk. reflexivity.
      - rewrite (index_of_not_caller name m i Hwf Hdirect Hi Ec).
        reflexivity. }
    split; [rewrite Hloop, Hm'; reflexivity |].
    assert (Hnot : forall v,
      theta v = v \/ theta v <> VConst (CFunction name)).
    { intros v. destruct (Hrange v) as [E | (i & Hi & Hk & E)];
        [left; exact E | right].
      rewrite E. unfold barrier_gen. simpl.
      pose proof (caller_of_member name m i Hwf Hdirect Hi Hk) as Hc.
      apply argument_not_callee; auto. }
    intros i Hi. rewrite insts_lift in Hi. apply in_flat_map in Hi.
    destruct Hi as (j & Hj & Hin).
    destruct (calls name j) eqn:Ec; [destruct Hin |].
    destruct Hin as [<- | []]. apply calls_subst_false; assumption.
Qed.

(** X14. Lowering an intrinsic a second time changes nothing: after
    [ReplaceMemReadOp], [ReplaceMemWriteOp] or [ReplaceBarrier] has lowered
    the calls of a declared intrinsic, the module has no call of it left, and
    the same lowering run on the result returns the result. *)
Theorem lowering_twice (name : string) (val_type : Ty) (m : Module)
    (func : Function)
    (Hfunc : getFunction name m = Some func)
    (Hdecl : isDeclaration func = true)
    (Hwf : wf m)
    (Hdirect : called_directly name m) :
  (has_argument name 1 m ->
   exists m2, ReplaceMemReadOp name val_type m = Done m2 /\
              CallersOf name m2 = [] /\
              ReplaceMemReadOp name val_type m2 = Done m2) /\
  (has_argument name 2 m ->
   exists m2, ReplaceMemWriteOp name val_type m = Done m2 /\
              CallersOf name m2 = [] /\
              ReplaceMemWriteOp name val_type m2 = Done m2) /\
  (has_argument name kMemoryPointerArgNum m ->
   exists m2, ReplaceBarrier kMemoryPointerArgNum name m = Done m2 /\
              CallersOf name m2 = [] /\
              ReplaceBarrier kMemoryPointerArgNum name m2 = Done m2).
Proof.
  assert (Hkept : forall m',
    (forall i, In i (insts m') -> calls name i = false) ->
    CallersOf name (RemoveFunction name m') = []).
  { intros m' Hnone. apply no_calls_no_callers. intros i Hi.
    apply Hnone. unfold RemoveFunction in Hi.
    destruct (negb (hasNUsesOrMore (CFunction name) 1 m')); [| exact Hi].
    unfold remove_function, insts in *. simpl in Hi.
    apply in_flat_map in Hi. destruct Hi as (f & Hf & Hi).
    apply filter_In in Hf. apply in_flat_map. exists f. tauto. }
  split; [| split]; intros Hargs.
  - destruct (ReplaceMemReadOp_lowers ConstantFolder_CreateCast name
                val_type m func Hfunc Hdecl Hwf Hdirect Hargs)
      as (theta & start & N & m' & Hrun & Hm' & _ & _ & _ & _ & _ & Hnone).
    exists (RemoveFunction name m'). split; [exact Hrun |].
    split; [apply Hkept; exact Hnone |].
    destruct (RemoveFunction_cases name m') as [E | E].
    + rewrite E. unfold Optimizer.ReplaceMemReadOp.
      destruct (declaration_lift
                  (lower_read ConstantFolder_CreateCast name func val_type
                     start theta) name m func
                  Hfunc Hdecl) as (func' & Hg' & Hd').
      assert (Hg : getFunction name m' = Some func')
        by (rewrite Hm'; exact Hg').
      rewrite Hg, Hd', (no_calls_no_callers name m' Hnone). simpl.
      rewrite E. reflexivity.
    + unfold Optimizer.ReplaceMemReadOp at 1. rewrite E. reflexivity.
  - destruct (ReplaceMemWriteOp_runs name val_type m func
                Hfunc Hdecl Hwf Hdirect Hargs)
      as (m' & Hrun & _ & Hnone & func' & Hg & Hd').
    exists (RemoveFunction name m'). split; [exact Hrun |].
    split; [apply Hkept; exact Hnone |].
    destruct (RemoveFunction_cases name m') as [E | E].
    + rewrite E. unfold Optimizer.ReplaceMemWriteOp.
      rewrite Hg, Hd', (no_calls_no_callers name m' Hnone). simpl.
      rewrite E. reflexivity.
    + unfold Optimizer.ReplaceMemWriteOp at 1. rewrite E. reflexivity.
  - destruct (ReplaceBarrier_result name m func Hfunc Hdecl Hwf Hdirect Hargs)
      as (theta & Hrun & Hnone).
    eexists. split; [exact Hrun |].
    split; [apply no_calls_no_callers; exact Hnone |].
    unfold ReplaceBarrier.
    destruct (declaration_lift
                (fun i => if calls name i then [] else [subst_inst theta i])
                name m func Hfunc Hdecl) as (func' & Hg' & Hd').
    rewrite Hg', Hd', (no_calls_no_callers name _ Hnone). reflexivity.
Qed.

End Twice.

(** *** Undefined values, where no store is reached twice *)

Lemma undef_subst_plain (name : string) (ret : Ty) (m : Module)
    (reached : nat -> bool) (i : Instruction) :
  wf m -> no_arguments name m ->
  (forall u, reached u = true <-> Reached name m u) ->
  (forall k, In (VInst k) (operands i) -> ~ source name m k) ->
  subst_inst (undef_subst name ret m reached) i = i.
Proof.
  intros Hwf Hnoargs Hreached Hplain.
  rewrite <- (subst_inst_id i) at 2. unfold subst_inst. f_equal.
  apply map_ext_in. intros v Hv. unfold undef_subst.
  destruct v as [k | |]; try reflexivity.
  destruct (find_inst k m) as [ik |] eqn:Ef; [| reflexivity].
  apply find_inst_Some in Ef. destruct Ef as [Hik Eik]. subst k.
  destruct (calls name ik) eqn:Ec.
  - exfalso. apply (Hplain (id ik) Hv). left.
    apply In_callers; [apply no_arguments_called_directly; exact Hnoargs |].
    exists ik. auto.
  - destruct (isa_Cmp_or_Cast ik) eqn:Ecc; [| reflexivity].
    destruct (reached (id ik)) eqn:Er; [| reflexivity].
    exfalso. apply (Hplain (id ik) Hv). right.
    split; [apply Hreached; exact Er |]. exists ik. auto.
Qed.

(** X15. For an undefined-value intrinsic of the module, in a module where
    no store has two of the values that become undefined among its operands,
    and with more fuel than the module has comparisons and casts: the
    work-list loop ends; every call of the intrinsic is erased and its result
    replaced by the undefined value of the return type; every reached
    comparison or cast has its result replaced by the undefined value of its
    own type; every reached store is erased and every other store stays; an
    instruction that is neither and uses none of these values is left as it
    is; and the function is removed if it has no use left. *)
Theorem RemoveUndefFuncCall_propagates (name : string) (m : Module)
    (func : Function)
    (Hfunc : getFunction name m = Some func)
    (Hwf : wf m)
    (Hnoargs : no_arguments name m)
    (Hsingle : single_source name m) :
  exists reached : nat -> bool,
    (forall u, reached u = true <-> Reached name m u) /\
    (forall fuel,
       List.length (filter isa_Cmp_or_Cast (insts m)) < fuel ->
       RemoveUndefFuncCall fuel (Some func) m
       = Some (Done (RemoveFunction name
                       (lift (undef_inst name (fn_ret func) m reached) m))))
    /\
    (forall i, In i (insts m) -> calls name i = true ->
       undef_inst name (fn_ret func) m reached i = [] /\
       undef_subst name (fn_ret func) m reached (VInst (id i))
       = VConst (CUndef (fn_ret func))) /\
    (forall i, In i (insts m) -> isa_Cmp_or_Cast i = true ->
       Reached name m (id i) ->
       undef_subst name (fn_ret func) m reached (VInst (id i))
       = VConst (CUndef (ty i))) /\
    (forall i, In i (insts m) -> isa_StoreInst i = true ->
       Reached name m (id i) ->
       forall j,
         In j (insts (lift (undef_inst name (fn_ret func) m reached) m)) ->
         id j <> id i) /\
    (forall i, In i (insts m) -> isa_StoreInst i = true ->
       ~ Reached name m (id i) ->
       In (subst_inst (undef_subst name (fn_ret func) m reached) i)
          (insts (lift (undef_inst name (fn_ret func) m reached) m))) /\
    (forall i, In i (insts m) -> calls name i = false ->
       (isa_StoreInst i = true -> ~ Reached name m (id i)) ->
       (forall k, In (VInst k) (operands i) -> ~ source name m k) ->
       In i (insts (lift (undef_inst name (fn_ret func) m reached) m))).
Proof.
  destruct (RemoveUndefFuncCall_spec name m func Hfunc Hwf Hnoargs)
    as (reached & dead & Hreached & _ & Hnodup & Hrun & Hcalls & Hcc
        & Hgone & Hstay).
  exists reached. split; [exact Hreached |]. split.
  { intros fuel Hfuel. rewrite (Hrun fuel Hfuel), (Hnodup Hsingle).
    reflexivity. }
  split; [exact Hcalls |]. split; [exact Hcc |]. split; [exact Hgone |].
  split; [exact Hstay |].
  intros i Hi Hc Hstore Hplain. rewrite insts_lift. apply in_flat_map.
  exists i. split; [exact Hi |]. unfold undef_inst. rewrite Hc.
  assert (Hkeep : isa_StoreInst i && reached (id i) = false).
  { destruct (isa_StoreInst i) eqn:Est; [| reflexivity].
    destruct (reached (id i)) eqn:Er; [| reflexivity].
    exfalso. apply (Hstore eq_refl). apply Hreached. exact Er. }
  rewrite Hkeep. simpl. left.
  apply (undef_subst_plain name (fn_ret func) m reached i Hwf Hnoargs
           Hreached Hplain).
Qed.

(** *** Runs on sample modules *)

Module Inputs.

Local Open Scope string_scope.

(** As [isel_module], but the lifted function does not look at the ISEL. *)
Definition dead_isel_module : Module :=
  {| functions :=
       [ Sample.define "__remill_basic_block" Sample.MemoryPtr
           [Sample.MemoryPtr; Sample.StatePtr; Int64Ty]
           [Sample.inst 0 Ret VoidTy [VArg 0]];
         Sample.define "ADD" Sample.MemoryPtr
           [Sample.MemoryPtr; Sample.StatePtr; Int64Ty]
           [Sample.inst 1 Ret VoidTy [VArg 0]];
         Sample.define "sub_401000" Sample.MemoryPtr
           [Sample.MemoryPtr; Sample.StatePtr; Int64Ty]
           [Sample.inst 2 Ret VoidTy [VArg 0]] ];
     globals :=
       [ {| gv_name := "ISEL_ADD"; gv_linkage := ExternalLinkage;
            gv_init := Some (CCast (CFunction "ADD") (PointerTy Int8Ty)) |};
         {| gv_name := "counter"; gv_linkage := ExternalLinkage;
            gv_init := Some (CInt Int64Ty 0) |} ];
     next_id := 3 |}.

End Inputs.

Lemma RemoveISELs_removes_exactly_the_ISELs_witness :
  without_globals ["ISEL_ADD"%string] Inputs.dead_isel_module
  = without_globals ["ISEL_ADD"%string] Inputs.dead_isel_module /\
  functions (without_globals ["ISEL_ADD"%string] Inputs.dead_isel_module)
  = functions Inputs.dead_isel_module /\
  insts (without_globals ["ISEL_ADD"%string] Inputs.dead_isel_module)
  = insts Inputs.dead_isel_module /\
  next_id (without_globals ["ISEL_ADD"%string] Inputs.dead_isel_module)
  = next_id Inputs.dead_isel_module /\
  (forall g,
     In g (globals (without_globals ["ISEL_ADD"%string]
                      Inputs.dead_isel_module)) <->
     In g (globals Inputs.dead_isel_module) /\
     ~ In (gv_name g) ["ISEL_ADD"%string]).
Proof.
  apply (RemoveISELs_removes_exactly_the_ISELs 1 ["ISEL_ADD"%string]
           Inputs.dead_isel_module).
  reflexivity.
Defined.

Lemma RemoveISELs_erases_dead_ISELs_witness :
  RemoveISELs 1 ["ISEL_ADD"%string] Inputs.dead_isel_module
  = Some (without_globals ["ISEL_ADD"%string] Inputs.dead_isel_module).
Proof.
  apply (RemoveISELs_erases_dead_ISELs ["ISEL_ADD"%string]
           Inputs.dead_isel_module).
  repeat constructor.
Defined.

Lemma lowering_twice_witness :
  exists m2,
    ReplaceMemReadOp Sample.cast_expression "__remill_read_memory_f80"
      X86_FP80Ty Sample.mem_module
    = Done m2 /\
    CallersOf "__remill_read_memory_f80" m2 = [] /\
    ReplaceMemReadOp Sample.cast_expression "__remill_read_memory_f80"
      X86_FP80Ty m2 = Done m2.
Proof.
  apply (proj1 (lowering_twice Sample.cast_expression 0
                  "__remill_read_memory_f80" X86_FP80Ty
                  Sample.mem_module
                  (Sample.declare "__remill_read_memory_f80" DoubleTy
                     [Sample.MemoryPtr; Int64Ty])
                  eq_refl eq_refl
                  (wfb_wf Sample.mem_module eq_refl)
                  (called_directlyb_ok "__remill_read_memory_f80"
                     Sample.mem_module eq_refl))).
  apply has_argumentb_ok. reflexivity.
Defined.

(** The results of instructions among the operands of an instruction. *)
Definition result_operands (i : Instruction) : list nat :=
  flat_map (fun v => match v with VInst k => [k] | _ => [] end) (operands i).

(** Every store has at most one of them. *)
Definition stores_use_one_result (m : Module) : bool :=
  forallb
    (fun s => implb (isa_StoreInst s) (List.length (result_operands s) <=? 1))
    (insts m).

Lemma stores_use_one_result_ok (name : string) (m : Module) :
  stores_use_one_result m = true -> single_source name m.
Proof.
  unfold stores_use_one_result. intros H s x y Hs Hst Hx Hy _ _.
  rewrite forallb_forall in H. specialize (H s Hs). rewrite Hst in H.
  simpl in H. apply Nat.leb_le in H.
  assert (Hin : forall k, In (VInst k) (operands s) ->
                          In k (result_operands s)).
  { intros k Hk. unfold result_operands. apply in_flat_map.
    exists (VInst k). split; [exact Hk | left; reflexivity]. }
  apply Hin in Hx. apply Hin in Hy.
  destruct (result_operands s) as [| a [| b l]]; simpl in *;
    [destruct Hx | | lia].
  destruct Hx as [<- | []]. destruct Hy as [<- | []]. reflexivity.
Qed.

Lemma RemoveUndefFuncCall_propagates_witness :
  exists reached : nat -> bool,
    (forall u, reached u = true <->
               Reached "__remill_undefined_8" Sample.undef_module u) /\
    RemoveUndefFuncCall 3
      (Some (Sample.declare "__remill_undefined_8" Int8Ty []))
      Sample.undef_module
    = Some (Done (RemoveFunction "__remill_undefined_8"
                    (lift (undef_inst "__remill_undefined_8" Int8Ty
                             Sample.undef_module reached)
                       Sample.undef_module))).
Proof.
  destruct (RemoveUndefFuncCall_propagates
              "__remill_undefined_8"%string Sample.undef_module
              (Sample.declare "__remill_undefined_8" Int8Ty [])
              eq_refl
              (wfb_wf Sample.undef_module eq_refl)
              (no_argumentsb_ok "__remill_undefined_8" Sample.undef_module
                 eq_refl)
              (stores_use_one_result_ok "__remill_undefined_8"
                 Sample.undef_module eq_refl))
    as (reached & Hreached & Hrun & _).
  exists reached. split; [exact Hreached |].
  apply Hrun. simpl. lia.
Defined.

(** The runs themselves. *)
Example RemoveISELs_dead_isel_module :
  FindISELs Inputs.dead_isel_module = Done ["ISEL_ADD"%string] /\
  RemoveISELs 1 ["ISEL_ADD"%string] Inputs.dead_isel_module
  = Some
      {| functions := functions Inputs.dead_isel_module;
         globals :=
           [ {| gv_name := "counter"; gv_linkage := ExternalLinkage;
                gv_init := Some (CInt Int64Ty 0) |} ];
         next_id := 3 |}.
Proof. split; reflexivity. Qed.

End OptimizerCoverage.

(** ** Part VII: the lowering passes, one after the other *)

Module OptimizerComposition.

Import Optimizer.
Import OptimizerFacts.
Import OptimizerCoverage.

Unset Implicit Arguments.

Local Arguments Value_eq_dec : simpl never.
Local Arguments Constant_eq_dec : simpl never.

(** *** What a lowering pass needs, and what it keeps

    [OptimizeModule] runs fourteen memory lowerings and six barrier
    lowerings on the same module, one after the other. Each of them needs the
    module to be well formed and its own intrinsic to be a declaration that
    is called with its arguments. What follows is about what a pass leaves
    of that for the passes after it. *)

(** The module has no call of [name]. *)
Definition no_calls (name : string) (m : Module) : Prop :=
  forall i, In i (insts m) -> calls name i = false.

Definition is_function (v : Value) : bool :=
  match v with
  | VConst (CFunction _) => true
  | _ => false
  end.

(** No operand but the last one, the callee of a call, is a function. *)
Definition plain_arguments (i : Instruction) : Prop :=
  forall v, In v (removelast (operands i)) -> is_function v = false.

(** Every call of [name] has more than [k] arguments, and no function
    among them. *)
Definition well_called (name : string) (k : nat) (m : Module) : Prop :=
  forall i, In i (insts m) -> calls name i = true ->
    k < List.length (operands i) - 1 /\ plain_arguments i.

(** If the module has the function [name], it has no body. *)
Definition declared (name : string) (m : Module) : Prop :=
  forall f, getFunction name m = Some f -> isDeclaration f = true.

(** The same, to run on a given module. *)
Definition well_calledb (name : string) (k : nat) (m : Module) : bool :=
  forallb
    (fun i => implb (calls name i)
                ((k <? List.length (operands i) - 1)
                 && forallb (fun v => negb (is_function v))
                      (removelast (operands i))))
    (insts m).

Definition declaredb (name : string) (m : Module) : bool :=
  match getFunction name m with
  | Some f => isDeclaration f
  | None => true
  end.

Lemma well_calledb_ok (name : string) (k : nat) (m : Module) :
  well_calledb name k m = true -> well_called name k m.
Proof.
  unfold well_calledb, well_called. intros H i Hi Hc.
  rewrite forallb_forall in H. specialize (H i Hi). rewrite Hc in H.
  simpl in H. apply andb_true_iff in H. destruct H as [Hk Hp].
  split; [apply Nat.ltb_lt; exact Hk |].
  intros v Hv. rewrite forallb_forall in Hp. specialize (Hp v Hv).
  destruct (is_function v); [discriminate | reflexivity].
Qed.

Lemma declaredb_ok (name : string) (m : Module) :
  declaredb name m = true -> declared name m.
Proof.
  unfold declaredb, declared. intros H f Hf. rewrite Hf in H. exact H.
Qed.

Lemma well_called_directly (name : string) (k : nat) (m : Module) :
  well_called name k m -> called_directly name m.
Proof.
  intros H i Hi Hc. destruct (H i Hi Hc) as [_ Hp].
  destruct (calls_shape name i Hc) as [_ E]. rewrite E.
  rewrite count_occ_app.
  rewrite (count_occ_cons_eq Value_eq_dec _ eq_refl).
  change (count_occ Value_eq_dec [] (VConst (CFunction name))) with 0.
  assert (Hn : ~ In (VConst (CFunction name)) (removelast (operands i))).
  { intros Hin. apply Hp in Hin. discriminate. }
  apply (count_occ_not_In Value_eq_dec) in Hn. rewrite Hn. reflexivity.
Qed.

Lemma well_called_argument (name : string) (k : nat) (m : Module) :
  well_called name k m -> has_argument name k m.
Proof.
  intros H i Hi Hc. apply (H i Hi Hc).
Qed.

Lemma removelast_map {A B} (f : A -> B) (l : list A) :
  removelast (map f l) = map f (removelast l).
Proof.
  induction l as [| a l IH]; [reflexivity |].
  destruct l as [| b l]; [reflexivity |].
  change (removelast (map f (a :: b :: l)))
    with (f a :: removelast (map f (b :: l))).
  change (removelast (a :: b :: l)) with (a :: removelast (b :: l)).
  rewrite IH. reflexivity.
Qed.

(** An argument of a call with plain arguments is no function. *)
Lemma plain_argument (i : Instruction) (k : nat) :
  plain_arguments i -> k < List.length (operands i) - 1 ->
  is_function (nth k (operands i) (VArg 0)) = false.
Proof.
  intros Hp Hk. apply Hp. clear Hp.
  destruct (operands i) as [| v l]; [simpl in Hk; lia |].
  assert (Hne : v :: l <> []) by discriminate.
  pose proof (app_removelast_last (VArg 0) Hne) as E.
  set (r := removelast (v :: l)) in *. clearbody r.
  rewrite E in Hk |- *. rewrite length_app in Hk.
  change (List.length [last (v :: l) (VArg 0)]) with 1 in Hk.
  rewrite app_nth1 by lia. apply nth_In. lia.
Qed.

(** *** Calls that come from calls

    [derived m M]: every call instruction of [M] is a call instruction of
    [m] whose operands were rewritten, and the rewriting made no operand a
    function that was not one. So a pass that takes [m] to [M] makes no call
    of a function out of another instruction, and gives no call a function
    as an argument. *)

Definition no_new_function (sigma : Value -> Value) : Prop :=
  forall v, sigma v = v \/ is_function (sigma v) = false.

Definition derived (m M : Module) : Prop :=
  forall j, In j (insts M) -> isa_CallInst j = true ->
    exists i sigma,
      In i (insts m) /\ j = subst_inst sigma i /\ no_new_function sigma.

Lemma derived_sub (m M : Module) :
  (forall j, In j (insts M) -> In j (insts m)) -> derived m M.
Proof.
  intros H j Hj _. exists j, (fun v => v).
  split; [apply H; exact Hj |].
  split; [symmetry; apply subst_inst_id | intros v; left; reflexivity].
Qed.

Lemma derived_refl (m : Module) : derived m m.
Proof. apply derived_sub. auto. Qed.

Lemma subst_subst (s1 s2 : Value -> Value) (i : Instruction) :
  subst_inst s2 (subst_inst s1 i) = subst_inst (fun v => s2 (s1 v)) i.
Proof.
  unfold subst_inst, set_operands. simpl. rewrite map_map. reflexivity.
Qed.

Lemma derived_trans (m1 m2 m3 : Module) :
  derived m1 m2 -> derived m2 m3 -> derived m1 m3.
Proof.
  intros H12 H23 j Hj Hcall.
  destruct (H23 j Hj Hcall) as (i2 & s2 & Hi2 & E2 & Hs2).
  assert (Hcall2 : isa_CallInst i2 = true)
    by (rewrite E2 in Hcall; exact Hcall).
  destruct (H12 i2 Hi2 Hcall2) as (i1 & s1 & Hi1 & E1 & Hs1).
  exists i1, (fun v => s2 (s1 v)).
  split; [exact Hi1 |]. split; [rewrite E2, E1; apply subst_subst |].
  intros v. destruct (Hs1 v) as [E | E].
  - rewrite E. apply Hs2.
  - destruct (Hs2 (s1 v)) as [E' | E']; right; [rewrite E' |]; assumption.
Qed.

(** A call of [name] comes from a call of [name]. *)
Lemma derived_calls (name : string) (m M : Module) (j : Instruction) :
  derived m M -> In j (insts M) -> calls name j = true ->
  exists i sigma,
    In i (insts m) /\ j = subst_inst sigma i /\ no_new_function sigma /\
    calls name i = true.
Proof.
  intros H Hj Hc.
  assert (Hcall : isa_CallInst j = true).
  { destruct (calls_shape name j Hc) as [E _]. unfold isa_CallInst.
    rewrite E. reflexivity. }
  destruct (H j Hj Hcall) as (i & sigma & Hi & E & Hs).
  exists i, sigma. split; [exact Hi |]. split; [exact E |].
  split; [exact Hs |].
  destruct (calls name i) eqn:Ec; [reflexivity |].
  rewrite E in Hc. rewrite calls_subst_false in Hc;
    [discriminate | exact Ec |].
  intros v. destruct (Hs v) as [Ev | Ev]; [left; exact Ev | right].
  intros Ef. rewrite Ef in Ev. discriminate.
Qed.

Lemma derived_no_calls (name : string) (m M : Module) :
  derived m M -> no_calls name m -> no_calls name M.
Proof.
  intros H Hnone j Hj. destruct (calls name j) eqn:Ec; [| reflexivity].
  destruct (derived_calls name m M j H Hj Ec) as (i & _ & Hi & _ & _ & Hci).
  rewrite (Hnone i Hi) in Hci. discriminate.
Qed.

Lemma derived_well_called (name : string) (k : nat) (m M : Module) :
  derived m M -> well_called name k m -> well_called name k M.
Proof.
  intros H Hw j Hj Hc.
  destruct (derived_calls name m M j H Hj Hc)
    as (i & sigma & Hi & E & Hs & Hci).
  destruct (Hw i Hi Hci) as [Hk Hp]. subst j. unfold subst_inst. simpl.
  split; [rewrite length_map; exact Hk |].
  unfold plain_arguments. simpl. rewrite removelast_map.
  intros v Hv. apply in_map_iff in Hv. destruct Hv as (v' & <- & Hv').
  destruct (Hs v') as [Ev | Ev]; [rewrite Ev; apply Hp; exact Hv' | exact Ev].
Qed.

(** *** The functions of the module

    A pass rewrites bodies and removes at most its own intrinsic. *)

Definition functions_kept (m M : Module) : Prop :=
  forall n,
    match getFunction n m, getFunction n M with
    | Some f, Some f' => isDeclaration f = true -> isDeclaration f' = true
    | None, None => True
    | _, _ => False
    end.

Lemma functions_kept_refl (m : Module) : functions_kept m m.
Proof. intros n. destruct (getFunction n m); auto. Qed.

Lemma functions_kept_trans (m1 m2 m3 : Module) :
  functions_kept m1 m2 -> functions_kept m2 m3 -> functions_kept m1 m3.
Proof.
  intros H12 H23 n. specialize (H12 n). specialize (H23 n).
  destruct (getFunction n m1), (getFunction n m2), (getFunction n m3);
    try contradiction; auto.
Qed.

Lemma functions_kept_lift (h : Instruction -> list Instruction)
    (m : Module) :
  functions_kept m (lift h m).
Proof.
  intros n.
  rewrite getFunction_lift. destruct (getFunction n m) as [f |]; simpl; auto.
  unfold isDeclaration. simpl. destruct (fn_body f); [auto | discriminate].
Qed.

Lemma functions_kept_declared (n : string) (m M : Module) :
  functions_kept m M -> declared n m -> declared n M.
Proof.
  intros H Hd f' Hf'. specialize (H n). rewrite Hf' in H.
  destruct (getFunction n m) as [f |] eqn:Ef; [| contradiction].
  apply H. apply Hd. exact Ef.
Qed.

Lemma functions_kept_present (n : string) (m M : Module) :
  functions_kept m M -> getFunction n m <> None -> getFunction n M <> None.
Proof.
  intros H Hp. specialize (H n).
  destruct (getFunction n m); [| congruence].
  destruct (getFunction n M); [discriminate | contradiction].
Qed.

(** *** Well-formedness *)

Lemma NoDup_app_apart {A} (l l' : list A) (a : A) :
  NoDup (l ++ l') -> In a l -> ~ In a l'.
Proof.
  induction l as [| x l IH]; simpl; intros Hnd Hin; [contradiction |].
  apply NoDup_cons_iff in Hnd. destruct Hnd as [Hx Hnd].
  destruct Hin as [-> | Hin]; [| apply IH; assumption].
  intros Ha. apply Hx. apply in_or_app. right. exact Ha.
Qed.

Lemma insts_remove_function (name : string) (m : Module) (i : Instruction) :
  In i (insts (remove_function name m)) -> In i (insts m).
Proof.
  unfold remove_function, insts. simpl. intros Hi.
  apply in_flat_map in Hi. destruct Hi as (f & Hf & Hi).
  apply filter_In in Hf. apply in_flat_map. exists f. tauto.
Qed.

(** So does removing functions. *)
Lemma wf_remove_function (name : string) (m : Module) :
  wf m -> wf (remove_function name m).
Proof.
  intros [Hnd Hlt]. split.
  - clear Hlt. unfold remove_function, insts in *. simpl.
    induction (functions m) as [| f fs IH]; simpl; [constructor |].
    simpl in Hnd. rewrite map_app in Hnd.
    destruct (negb (String.eqb (fn_name f) name)); simpl.
    + rewrite map_app. apply NoDup_app.
      * apply (NoDup_app_remove_r _ _ Hnd).
      * apply IH. apply (NoDup_app_remove_l _ _ Hnd).
      * intros a Ha Hb. apply (NoDup_app_apart _ _ a Hnd Ha).
        apply in_map_iff in Hb. destruct Hb as (x & <- & Hx).
        apply in_map. apply in_flat_map in Hx.
        destruct Hx as (g & Hg & Hx). apply filter_In in Hg.
        apply in_flat_map. exists g. tauto.
    + apply IH. apply (NoDup_app_remove_l _ _ Hnd).
  - change (next_id (remove_function name m)) with (next_id m).
    rewrite Forall_forall in *. intros i Hi. apply Hlt.
    apply (insts_remove_function name m i Hi).
Qed.

Lemma getFunction_remove_function (name n : string) (m : Module) :
  getFunction n (remove_function name m)
  = if String.eqb n name then None else getFunction n m.
Proof.
  unfold getFunction, remove_function. simpl.
  induction (functions m) as [| f fs IH]; simpl.
  - destruct (String.eqb n name); reflexivity.
  - destruct (String.eqb (fn_name f) name) eqn:E; simpl.
    + rewrite IH. destruct (String.eqb_spec n name) as [-> | Hn];
        [reflexivity |].
      apply String.eqb_eq in E.
      destruct (String.eqb_spec (fn_name f) n); [congruence | reflexivity].
    + destruct (String.eqb (fn_name f) n) eqn:E'; [| exact IH].
      destruct (String.eqb_spec n name) as [-> | Hn]; [congruence |].
      reflexivity.
Qed.

(** What [RemoveFunction] keeps. *)
Lemma RemoveFunction_keeps (name : string) (m : Module) :
  (wf m -> wf (RemoveFunction name m)) /\
  derived m (RemoveFunction name m) /\
  (forall i, In i (insts (RemoveFunction name m)) -> In i (insts m)) /\
  (forall n, declared n m -> declared n (RemoveFunction name m)) /\
  (forall n, n <> name -> getFunction n m <> None ->
             getFunction n (RemoveFunction name m) <> None).
Proof.
  unfold RemoveFunction.
  destruct (negb (hasNUsesOrMore (CFunction name) 1 m)).
  - split; [apply wf_remove_function |].
    split; [apply derived_sub; apply insts_remove_function |].
    split; [apply insts_remove_function |].
    split.
    + intros n Hd f Hf. rewrite getFunction_remove_function in Hf.
      destruct (String.eqb n name); [discriminate | apply Hd; exact Hf].
    + intros n Hn Hp. rewrite getFunction_remove_function.
      destruct (String.eqb_spec n name); [contradiction | exact Hp].
  - split; [auto |]. split; [apply derived_refl |]. auto.
Qed.

(** *** The loop over the callers

    One step of a loop, and so the whole loop, keeps the module well formed,
    keeps the functions, and derives the calls from the calls, as long as
    what it builds is no call and the value it puts for a caller is no
    function. *)

Lemma replace_no_new_function (c : nat) (r : Value) :
  is_function r = false -> no_new_function (replace_operand c r).
Proof.
  intros Hr v. unfold replace_operand.
  destruct (Value_eq_dec v (VInst c)); [right; exact Hr | left; reflexivity].
Qed.

Lemma plain_replace (c : nat) (r : Value) (i : Instruction) :
  is_function r = false -> plain_arguments i ->
  plain_arguments (replace_in_inst c r i).
Proof.
  intros Hr Hp v Hv. unfold replace_in_inst in Hv. simpl in Hv.
  rewrite removelast_map in Hv. apply in_map_iff in Hv.
  destruct Hv as (v' & <- & Hv').
  destruct (replace_no_new_function c r Hr v') as [E | E];
    [rewrite E; apply Hp; exact Hv' | exact E].
Qed.

Section LoopKeeps.

Variable gen : nat -> Instruction -> list Instruction * Value.
Variable ok : Instruction -> bool.
Variable erase : bool.
Variable step : nat -> Module -> Outcome Module.

Hypothesis gen_ids : forall n i,
  map id (fst (gen n i)) = seq n (List.length (fst (gen n i))).
Hypothesis ok_replace : forall c r i, ok (replace_in_inst c r i) = ok i.
Hypothesis step_spec : forall c m i,
  wf m -> In i (insts m) -> id i = c -> ok i = true ->
  step c m =
  Done (set_next_id (next_id m + List.length (fst (gen (next_id m) i)))
          (lift (step_inst erase c (gen (next_id m) i)) m)).
Hypothesis gen_no_call : forall n i x,
  In x (fst (gen n i)) -> isa_CallInst x = false.
Hypothesis gen_plain : forall n i,
  ok i = true -> plain_arguments i -> is_function (snd (gen n i)) = false.

Lemma step_derived (c : nat) (m : Module) (i : Instruction) :
  ok i = true -> plain_arguments i ->
  derived m (set_next_id
               (next_id m + List.length (fst (gen (next_id m) i)))
               (lift (step_inst erase c (gen (next_id m) i)) m)).
Proof.
  intros Hok Hp j Hj Hcall.
  change (In j (insts (lift (step_inst erase c (gen (next_id m) i)) m)))
    in Hj.
  rewrite insts_lift in Hj. apply in_flat_map in Hj.
  destruct Hj as (i0 & Hi0 & Hj). unfold step_inst in Hj.
  pose proof (gen_plain (next_id m) i Hok Hp) as Hr.
  assert (Hkeep :
    j = replace_in_inst c (snd (gen (next_id m) i)) i0 ->
    exists i1 sigma,
      In i1 (insts m) /\ j = subst_inst sigma i1 /\ no_new_function sigma).
  { intros ->. exists i0, (replace_operand c (snd (gen (next_id m) i))).
    split; [exact Hi0 |]. split; [reflexivity |].
    apply replace_no_new_function. exact Hr. }
  destruct (id i0 =? c).
  - apply in_app_or in Hj. destruct Hj as [Hj | Hj].
    + apply in_map_iff in Hj. destruct Hj as (x & <- & Hx).
      apply gen_no_call in Hx.
      change (isa_CallInst x = true) in Hcall. congruence.
    + unfold retire in Hj. destruct erase; [destruct Hj |].
      destruct Hj as [<- | []]. apply Hkeep. reflexivity.
  - destruct Hj as [<- | []]. apply Hkeep. reflexivity.
Qed.

Lemma loop_keeps : forall cs m,
  NoDup cs -> wf m ->
  (forall c, In c cs ->
     exists i, In i (insts m) /\ id i = c /\ ok i = true /\
               plain_arguments i) ->
  exists M,
    loop step cs m = Done M /\ wf M /\ derived m M /\ functions_kept m M.
Proof.
  induction cs as [| c cs IH]; intros m Hnd Hwf Hcs.
  - exists m. split; [reflexivity |]. split; [exact Hwf |].
    split; [apply derived_refl | apply functions_kept_refl].
  - apply NoDup_cons_iff in Hnd. destruct Hnd as [Hc Hnd].
    destruct (Hcs c (or_introl eq_refl)) as (i & Hi & Ei & Hok & Hp).
    simpl. rewrite (step_spec c m i Hwf Hi Ei Hok). simpl obind.
    pose proof (gen_plain (next_id m) i Hok Hp) as Hr.
    destruct (IH (set_next_id
                    (next_id m + List.length (fst (gen (next_id m) i)))
                    (lift (step_inst erase c (gen (next_id m) i)) m)))
      as (M & Hrun & HwfM & Hder & Hfun).
    + exact Hnd.
    + apply wf_step; [exact Hwf | apply gen_ids].
    + intros c' Hc'.
      destruct (Hcs c' (or_intror Hc')) as (i' & Hi' & Ei' & Hok' & Hp').
      exists (replace_in_inst c (snd (gen (next_id m) i)) i').
      split; [| split; [exact Ei' | split]].
      * change (In (replace_in_inst c (snd (gen (next_id m) i)) i')
                  (insts (lift (step_inst erase c (gen (next_id m) i)) m))).
        rewrite insts_lift. apply in_flat_map. exists i'.
        split; [exact Hi' |]. unfold step_inst.
        destruct (Nat.eqb_spec (id i') c) as [E | E];
          [exfalso; apply Hc; congruence | left; reflexivity].
      * rewrite ok_replace. exact Hok'.
      * apply plain_replace; assumption.
    + exists M. split; [exact Hrun |]. split; [exact HwfM |]. split.
      * apply (derived_trans _ _ _ (step_derived c m i Hok Hp) Hder).
      * eapply functions_kept_trans; [| exact Hfun].
        apply (functions_kept_lift
                 (step_inst erase c (gen (next_id m) i)) m).
Qed.

End LoopKeeps.

(** The callers of an intrinsic that is well called are there, with their
    arguments. *)
Lemma callers_ready (name : string) (k : nat) (m : Module) (c : nat) :
  well_called name k m -> In c (CallersOf name m) ->
  exists i, In i (insts m) /\ id i = c /\
            (k <? List.length (operands i) - 1) = true /\
            plain_arguments i.
Proof.
  intros Hw Hc.
  apply In_callers in Hc; [| apply (well_called_directly name k m Hw)].
  destruct Hc as (i & Hi & Hci & E). destruct (Hw i Hi Hci) as [Hk Hp].
  exists i. split; [exact Hi |]. split; [exact E |].
  split; [apply Nat.ltb_lt; exact Hk | exact Hp].
Qed.

Lemma erase_all_erases : forall (ks : list nat) (m M : Module),
  erase_all ks m = Done M -> M = erase_each ks m.
Proof.
  induction ks as [| k ks IH]; simpl; intros m M H.
  - injection H as <-. reflexivity.
  - destruct (find_inst k m); [| discriminate].
    apply (IH _ _ H).
Qed.

(** *** One pass *)

(** What a pass over the intrinsic [name] does for the passes after it: it
    completes; the module stays well formed; its calls come from the calls
    that were there; what was a declaration is one; no function of another
    name goes; and if the module had the intrinsic, no call of it is left. *)
Definition lowers (name : string) (op : Module -> Outcome Module)
    (m : Module) : Prop :=
  exists M,
    op m = Done M /\ wf M /\ derived m M /\
    (forall n, declared n m -> declared n M) /\
    (forall n, n <> name -> getFunction n m <> None ->
               getFunction n M <> None) /\
    (getFunction name m <> None -> no_calls name M).

Lemma lowers_absent (name : string) (op : Module -> Outcome Module)
    (m : Module) :
  wf m -> getFunction name m = None -> op m = Done m -> lowers name op m.
Proof.
  intros Hwf Hnone Hrun. exists m. split; [exact Hrun |].
  split; [exact Hwf |]. split; [apply derived_refl |].
  split; [auto |]. split; [auto |]. intros H. contradiction.
Qed.

(** Erasing the callers and removing the function, after the loop. *)
Lemma erase_and_remove_keeps (name : string) (cs : list nat)
    (m M1 X : Module) :
  wf M1 -> derived m M1 -> functions_kept m M1 ->
  obind (erase_all cs M1) (fun m => Done (RemoveFunction name m)) = Done X ->
  wf X /\ derived m X /\
  (forall n, declared n m -> declared n X) /\
  (forall n, n <> name -> getFunction n m <> None ->
             getFunction n X <> None).
Proof.
  intros Hwf Hder Hfun Hrun.
  destruct (erase_all cs M1) as [M2 | |] eqn:Eer; try discriminate.
  apply erase_all_erases in Eer. simpl in Hrun. injection Hrun as <-.
  subst M2.
  destruct (RemoveFunction_keeps name (erase_each cs M1))
    as (Hwf' & Hder' & _ & Hdecl' & Hpres').
  assert (Hfun2 : functions_kept M1 (erase_each cs M1))
    by (rewrite erase_each_lift; apply functions_kept_lift).
  split; [apply Hwf'; apply wf_erase_each; exact Hwf |].
  split.
  - eapply derived_trans; [exact Hder |].
    eapply derived_trans; [| exact Hder'].
    apply derived_sub. intros j Hj. rewrite erase_each_filter in Hj.
    apply filter_In in Hj. apply Hj.
  - split.
    + intros n Hd. apply Hdecl'.
      apply (functions_kept_declared n M1 _ Hfun2).
      apply (functions_kept_declared n m _ Hfun). exact Hd.
    + intros n Hn Hp. apply Hpres'; [exact Hn |].
      apply (functions_kept_present n M1 _ Hfun2).
      apply (functions_kept_present n m _ Hfun). exact Hp.
Qed.

Lemma no_calls_RemoveFunction (name n : string) (m : Module) :
  no_calls n m -> no_calls n (RemoveFunction name m).
Proof.
  intros H i Hi. apply H.
  destruct (RemoveFunction_keeps name m) as (_ & _ & Hsub & _).
  apply Hsub. exact Hi.
Qed.

Section Passes.

Variable ConstantFolder_CreateCast : CastOp -> Constant -> Ty -> Constant.

Local Abbreviation ReplaceMemReadOp :=
  (ReplaceMemReadOp ConstantFolder_CreateCast).
Local Abbreviation ReplaceMemWriteOp :=
  (ReplaceMemWriteOp ConstantFolder_CreateCast).
Local Abbreviation LowerMemOps := (LowerMemOps ConstantFolder_CreateCast).
Local Abbreviation read_op := (read_op ConstantFolder_CreateCast).
Local Abbreviation write_op := (write_op ConstantFolder_CreateCast).
Local Abbreviation read_gen := (read_gen ConstantFolder_CreateCast).
Local Abbreviation write_gen := (write_gen ConstantFolder_CreateCast).
Local Abbreviation read_step := (read_step ConstantFolder_CreateCast).
Local Abbreviation write_step := (write_step ConstantFolder_CreateCast).

Lemma ReplaceMemReadOp_pass (name : string) (val_type : Ty) (m : Module) :
  wf m -> declared name m -> well_called name 1 m ->
  lowers name (ReplaceMemReadOp name val_type) m.
Proof.
  intros Hwf Hd Hw.
  destruct (getFunction name m) as [func |] eqn:Hfunc;
    [| apply lowers_absent;
       [exact Hwf | exact Hfunc
        | unfold ReplaceMemReadOp; rewrite Hfunc; reflexivity]].
  pose proof (Hd func Hfunc) as Hdecl.
  destruct (ReplaceMemReadOp_lowers ConstantFolder_CreateCast name val_type
              m func Hfunc Hdecl Hwf
              (well_called_directly name 1 m Hw)
              (well_called_argument name 1 m Hw))
    as (theta & start & N & m' & Hrun & _ & _ & _ & _ & _ & _ & Hnone).
  destruct (loop_keeps (read_gen func val_type) read_ok false
              (read_step func val_type))
    with (cs := CallersOf name m) (m := m)
    as (M1 & Hloop & Hwf1 & Hder1 & Hfun1).
  - apply read_gen_ids.
  - intros c r i. unfold read_ok. simpl. rewrite length_map. reflexivity.
  - apply read_step_spec.
  - intros n i x Hx. eapply read_build_no_call. exact Hx.
  - intros n i _ _.
    destruct (read_build_value ConstantFolder_CreateCast func val_type n
                (nth 1 (operands i) (VArg 0))) as (k & _ & E).
    unfold OptimizerFacts.read_gen. rewrite E. reflexivity.
  - apply NoDup_callers;
      [exact Hwf | apply (well_called_directly name 1 m Hw)].
  - exact Hwf.
  - intros c Hc. apply (callers_ready name 1 m c Hw Hc).
  - pose proof Hrun as Hrun2. unfold Optimizer.ReplaceMemReadOp in Hrun2.
    rewrite Hfunc, Hdecl, ReplaceMemReadOp_loop_is_loop, Hloop in Hrun2.
    simpl obind in Hrun2.
    destruct (erase_and_remove_keeps name (CallersOf name m) m M1
                (RemoveFunction name m') Hwf1 Hder1 Hfun1 Hrun2)
      as (HwfX & HderX & HdeclX & HpresX).
    exists (RemoveFunction name m'). split; [exact Hrun |].
    split; [exact HwfX |]. split; [exact HderX |].
    split; [exact HdeclX |]. split; [exact HpresX |].
    intros _. apply no_calls_RemoveFunction. exact Hnone.
Qed.

Lemma ReplaceMemWriteOp_pass (name : string) (val_type : Ty) (m : Module) :
  wf m -> declared name m -> well_called name 2 m ->
  lowers name (ReplaceMemWriteOp name val_type) m.
Proof.
  intros Hwf Hd Hw.
  destruct (getFunction name m) as [func |] eqn:Hfunc;
    [| apply lowers_absent;
       [exact Hwf | exact Hfunc
        | unfold ReplaceMemWriteOp; rewrite Hfunc; reflexivity]].
  pose proof (Hd func Hfunc) as Hdecl.
  destruct (ReplaceMemWriteOp_runs ConstantFolder_CreateCast name val_type
              m func Hfunc Hdecl Hwf
              (well_called_directly name 2 m Hw)
              (well_called_argument name 2 m Hw))
    as (m' & Hrun & _ & Hnone & _).
  destruct (loop_keeps (write_gen func val_type) write_ok
              false (write_step func val_type))
    with (cs := CallersOf name m) (m := m)
    as (M1 & Hloop & Hwf1 & Hder1 & Hfun1).
  - apply write_gen_ids.
  - intros c r i. unfold write_ok. simpl. rewrite length_map. reflexivity.
  - apply write_step_spec.
  - intros n i x Hx. eapply write_build_no_call. exact Hx.
  - intros n i Hok Hp. unfold OptimizerFacts.write_gen. simpl snd.
    apply plain_argument; [exact Hp |].
    unfold write_ok in Hok. apply Nat.ltb_lt in Hok. lia.
  - apply NoDup_callers;
      [exact Hwf | apply (well_called_directly name 2 m Hw)].
  - exact Hwf.
  - intros c Hc. apply (callers_ready name 2 m c Hw Hc).
  - pose proof Hrun as Hrun2. unfold Optimizer.ReplaceMemWriteOp in Hrun2.
    rewrite Hfunc, Hdecl, ReplaceMemWriteOp_loop_is_loop, Hloop in Hrun2.
    simpl obind in Hrun2.
    destruct (erase_and_remove_keeps name (CallersOf name m) m M1
                (RemoveFunction name m') Hwf1 Hder1 Hfun1 Hrun2)
      as (HwfX & HderX & HdeclX & HpresX).
    exists (RemoveFunction name m'). split; [exact Hrun |].
    split; [exact HwfX |]. split; [exact HderX |].
    split; [exact HdeclX |]. split; [exact HpresX |].
    intros _. apply no_calls_RemoveFunction. exact Hnone.
Qed.

Section Barriers.

Variable kMemoryPointerArgNum : nat.

Lemma ReplaceBarrier_pass (name : string) (m : Module) :
  wf m -> declared name m -> well_called name kMemoryPointerArgNum m ->
  lowers name (ReplaceBarrier kMemoryPointerArgNum name) m.
Proof.
  intros Hwf Hd Hw.
  destruct (getFunction name m) as [func |] eqn:Hfunc;
    [| apply lowers_absent;
       [exact Hwf | exact Hfunc
        | unfold ReplaceBarrier; rewrite Hfunc; reflexivity]].
  pose proof (Hd func Hfunc) as Hdecl.
  destruct (ReplaceBarrier_result kMemoryPointerArgNum name m func
              Hfunc Hdecl Hwf
              (well_called_directly name kMemoryPointerArgNum m Hw)
              (well_called_argument name kMemoryPointerArgNum m Hw))
    as (theta & Hrun & Hnone).
  destruct (loop_keeps (barrier_gen kMemoryPointerArgNum)
              (barrier_ok kMemoryPointerArgNum) true
              (barrier_step kMemoryPointerArgNum))
    with (cs := CallersOf name m) (m := m)
    as (M1 & Hloop & Hwf1 & Hder1 & Hfun1).
  - reflexivity.
  - intros c r i. unfold barrier_ok. simpl. rewrite length_map.
    reflexivity.
  - apply barrier_step_spec.
  - intros n i x [].
  - intros n i Hok Hp. unfold barrier_gen. simpl snd.
    apply plain_argument; [exact Hp |].
    unfold barrier_ok in Hok. apply Nat.ltb_lt in Hok. exact Hok.
  - apply NoDup_callers;
      [exact Hwf
      | apply (well_called_directly name kMemoryPointerArgNum m Hw)].
  - exact Hwf.
  - intros c Hc. apply (callers_ready name kMemoryPointerArgNum m c Hw Hc).
  - pose proof Hrun as Hrun2. unfold ReplaceBarrier in Hrun2.
    rewrite Hfunc, Hdecl, ReplaceBarrier_loop_is_loop, Hloop in Hrun2.
    injection Hrun2 as Hrun2. rewrite <- Hrun2 in Hrun, Hnone.
    exists M1. split; [exact Hrun |]. split; [exact Hwf1 |].
    split; [exact Hder1 |].
    split; [intros n; apply functions_kept_declared; exact Hfun1 |].
    split; [intros n _; apply functions_kept_present; exact Hfun1 |].
    intros _. exact Hnone.
Qed.

End Barriers.

(** *** The passes in a row *)

(** The module is ready for the passes of [sig], a list of intrinsics with
    the number of the last argument that their pass reads. *)
Definition ready (sig : list (string * nat)) (m : Module) : Prop :=
  wf m /\
  forall n k, In (n, k) sig -> declared n m /\ well_called n k m.

Lemma in_order_cons (op : Module -> Outcome Module)
    (ops : list (Module -> Outcome Module)) (m M : Module) :
  op m = Done M -> in_order (op :: ops) m = in_order ops M.
Proof.
  intros H. unfold in_order. simpl. rewrite H. reflexivity.
Qed.

Lemma in_order_lowers (sig : list (string * nat))
    (passes : list (string * (Module -> Outcome Module))) :
  NoDup (map fst passes) ->
  (forall t m, In t passes -> ready sig m -> lowers (fst t) (snd t) m) ->
  forall m, ready sig m ->
  exists M,
    in_order (map snd passes) m = Done M /\ ready sig M /\ derived m M /\
    (forall n, In n (map fst passes) -> getFunction n m <> None ->
               no_calls n M) /\
    (forall n, ~ In n (map fst passes) -> getFunction n m <> None ->
               getFunction n M <> None).
Proof.
  induction passes as [| [name op] passes IH]; intros Hnd Hall m Hr.
  - exists m. split; [reflexivity |]. split; [exact Hr |].
    split; [apply derived_refl |]. split; [intros n [] | auto].
  - simpl in Hnd. apply NoDup_cons_iff in Hnd. destruct Hnd as [Hname Hnd].
    destruct (Hall (name, op) m (or_introl eq_refl) Hr)
      as (M1 & Hrun & Hwf1 & Hder1 & Hdecl1 & Hpres1 & Hnone1).
    simpl in Hrun, Hpres1, Hnone1.
    assert (Hr1 : ready sig M1).
    { split; [exact Hwf1 |]. intros n k Hin. destruct Hr as [_ Hr].
      destruct (Hr n k Hin) as [Hd Hw].
      split; [apply Hdecl1; exact Hd |].
      apply (derived_well_called n k m M1 Hder1 Hw). }
    destruct (IH Hnd (fun t m' Ht => Hall t m' (or_intror Ht)) M1 Hr1)
      as (M & HrunM & HrM & HderM & HnoneM & HpresM).
    exists M. split.
    { simpl map. rewrite (in_order_cons op _ m M1 Hrun). exact HrunM. }
    split; [exact HrM |].
    split; [apply (derived_trans m M1 M Hder1 HderM) |].
    split.
    + intros n [<- | Hn] Hp.
      * apply (derived_no_calls _ M1 M HderM). apply Hnone1. exact Hp.
      * apply HnoneM; [exact Hn |]. apply Hpres1; [| exact Hp].
        intros ->. contradiction.
    + intros n Hn Hp. simpl in Hn. apply HpresM; [tauto |].
      apply Hpres1; [| exact Hp]. intros ->. tauto.
Qed.

(** The passes of [LowerMemOps] and the intrinsic of each, in the order of
    the calls. *)
Definition mem_passes : list (string * (Module -> Outcome Module)) :=
  map (fun op => (fst op, read_op op)) (firstn 6 mem_read_ops)
  ++ map (fun op => (fst op, write_op op)) (firstn 6 mem_write_ops)
  ++ map (fun op => (fst op, read_op op)) (skipn 6 mem_read_ops)
  ++ map (fun op => (fst op, write_op op)) (skipn 6 mem_write_ops).

(** A read intrinsic is called with the memory and the address, a write
    intrinsic with the memory, the address and the value. *)
Definition mem_sig : list (string * nat) :=
  map (fun op => (fst op, 1)) mem_read_ops
  ++ map (fun op => (fst op, 2)) mem_write_ops.

Definition mem_names : list string :=
  map fst mem_read_ops ++ map fst mem_write_ops.

Ltac all_apart :=
  repeat (apply NoDup_cons; [simpl; intuition discriminate |]);
  apply NoDup_nil.

Ltac pick := simpl; repeat (first [left; reflexivity | right]).

Lemma mem_passes_apart : NoDup (map fst mem_passes).
Proof. simpl. all_apart. Qed.

Lemma mem_passes_lower (t : string * (Module -> Outcome Module))
    (m : Module) :
  In t mem_passes -> ready mem_sig m -> lowers (fst t) (snd t) m.
Proof.
  intros Ht [Hwf Hr]. simpl in Ht.
  repeat destruct Ht as [<- | Ht]; try destruct Ht;
    unfold OptimizerFacts.read_op, OptimizerFacts.write_op;
    simpl fst; simpl snd;
    first
      [ apply ReplaceMemReadOp_pass;
        [exact Hwf | eapply (proj1 (Hr _ 1 _)) | eapply (proj2 (Hr _ 1 _))]
      | apply ReplaceMemWriteOp_pass;
        [exact Hwf | eapply (proj1 (Hr _ 2 _)) | eapply (proj2 (Hr _ 2 _))] ].
  Unshelve. all: pick.
Qed.

Lemma mem_passes_names (n : string) :
  In n (map fst mem_passes) <-> In n mem_names.
Proof. simpl. tauto. Qed.

Lemma ready_mem_sig (m : Module) :
  wf m ->
  (forall name, In name mem_names -> declared name m) ->
  (forall op, In op mem_read_ops -> well_called (fst op) 1 m) ->
  (forall op, In op mem_write_ops -> well_called (fst op) 2 m) ->
  ready mem_sig m.
Proof.
  intros Hwf Hdecl Hreads Hwrites. split; [exact Hwf |].
  intros n k Hin. unfold mem_sig in Hin. apply in_app_or in Hin.
  destruct Hin as [Hin | Hin]; apply in_map_iff in Hin;
    destruct Hin as (op & E & Hop); injection E as <- <-.
  - split; [| apply Hreads; exact Hop].
    apply Hdecl. apply in_or_app. left. apply in_map. exact Hop.
  - split; [| apply Hwrites; exact Hop].
    apply Hdecl. apply in_or_app. right. apply in_map. exact Hop.
Qed.

(** X16. On a well-formed module where each of the fourteen memory
    intrinsics that is there is a declaration, called with its arguments
    (two for a read, three for a write, none of them a function),
    [LowerMemOps] completes, all fourteen passes of it: no pass spoils what
    a later pass needs. The module it returns is well formed and has no call
    left of any memory intrinsic that the module had; no call of a function
    that was not called appears; and every function of another name is still
    there. *)
Theorem LowerMemOps_leaves_no_call (m : Module)
    (Hwf : wf m)
    (Hdecl : forall name, In name mem_names -> declared name m)
    (Hreads : forall op, In op mem_read_ops -> well_called (fst op) 1 m)
    (Hwrites : forall op, In op mem_write_ops -> well_called (fst op) 2 m) :
  exists m',
    LowerMemOps m = Done m' /\
    wf m' /\
    (forall name, In name mem_names -> getFunction name m <> None ->
                  no_calls name m') /\
    (forall name, no_calls name m -> no_calls name m') /\
    (forall name, ~ In name mem_names -> getFunction name m <> None ->
                  getFunction name m' <> None).
Proof.
  destruct (in_order_lowers mem_sig mem_passes mem_passes_apart
              mem_passes_lower m
              (ready_mem_sig m Hwf Hdecl Hreads Hwrites))
    as (M & Hrun & [HwfM _] & Hder & Hnone & Hpres).
  exists M. split; [rewrite LowerMemOps_in_order; exact Hrun |].
  split; [exact HwfM |]. split; [| split].
  - intros name Hin. apply Hnone. apply mem_passes_names. exact Hin.
  - intros name. apply derived_no_calls. exact Hder.
  - intros name Hout. apply Hpres. intros Hin. apply Hout.
    apply mem_passes_names. exact Hin.
Qed.

(** *** The lowering stage of [OptimizeModule] *)

Lemma fold_obind_failed (ops : list (Module -> Outcome Module))
    (o : Outcome Module) :
  (forall m, o <> Done m) ->
  fold_left (fun o op => obind o op) ops o = o.
Proof.
  revert o. induction ops as [| op ops IH]; intros o Ho; [reflexivity |].
  simpl. destruct o as [m | msg |]; [exfalso; apply (Ho m); reflexivity | |];
    simpl; apply IH; intros m; discriminate.
Qed.

Lemma in_order_app (a b : list (Module -> Outcome Module)) (m : Module) :
  in_order (a ++ b) m = obind (in_order a m) (in_order b).
Proof.
  unfold in_order. rewrite fold_left_app.
  destruct (fold_left (fun o op => obind o op) a (Done m)) as [M | msg |];
    [reflexivity | |]; simpl; apply fold_obind_failed; intros M;
    discriminate.
Qed.

Lemma ready_incl (sig sig' : list (string * nat)) (m : Module) :
  incl sig sig' -> ready sig' m -> ready sig m.
Proof.
  intros Hincl [Hwf Hr]. split; [exact Hwf |].
  intros n k Hin. apply Hr. apply Hincl. exact Hin.
Qed.

Section Stage.

Variable kMemoryPointerArgNum : nat.

Definition barrier_passes : list (string * (Module -> Outcome Module)) :=
  map (fun name => (name, ReplaceBarrier kMemoryPointerArgNum name))
      barrier_names.

Definition barrier_sig : list (string * nat) :=
  map (fun name => (name, kMemoryPointerArgNum)) barrier_names.

(** What [OptimizeModule] does between [RemoveIntrinsics] and
    [RemoveUndefFuncCalls]. *)
Definition lowering (m : Module) : Outcome Module :=
  obind (LowerMemOps m) (LowerBarriers kMemoryPointerArgNum).

Lemma lowering_in_order (m : Module) :
  lowering m = in_order (map snd (mem_passes ++ barrier_passes)) m.
Proof.
  unfold lowering. rewrite map_app, in_order_app.
  rewrite LowerMemOps_in_order.
  change (map snd mem_passes)
    with (map read_op (firstn 6 mem_read_ops)
          ++ map write_op (firstn 6 mem_write_ops)
          ++ map read_op (skipn 6 mem_read_ops)
          ++ map write_op (skipn 6 mem_write_ops)).
  destruct (in_order _ m) as [M | msg |]; [| reflexivity | reflexivity].
  simpl obind. apply LowerBarriers_in_order.
Qed.

Lemma stage_passes_apart : NoDup (map fst (mem_passes ++ barrier_passes)).
Proof. simpl. all_apart. Qed.

Lemma stage_passes_names (n : string) :
  In n (map fst (mem_passes ++ barrier_passes)) <->
  In n (mem_names ++ barrier_names).
Proof. simpl. tauto. Qed.

Lemma stage_passes_lower (t : string * (Module -> Outcome Module))
    (m : Module) :
  In t (mem_passes ++ barrier_passes) -> ready (mem_sig ++ barrier_sig) m ->
  lowers (fst t) (snd t) m.
Proof.
  intros Ht Hr. apply in_app_or in Ht. destruct Ht as [Ht | Ht].
  - apply mem_passes_lower; [exact Ht |].
    apply (ready_incl _ _ m (incl_appl barrier_sig (incl_refl mem_sig)) Hr).
  - destruct Hr as [Hwf Hr]. unfold barrier_passes in Ht.
    apply in_map_iff in Ht. destruct Ht as (name & <- & Hname).
    assert (Hin : In (name, kMemoryPointerArgNum) (mem_sig ++ barrier_sig)).
    { apply in_or_app. right. unfold barrier_sig.
      apply (in_map (fun name => (name, kMemoryPointerArgNum))).
      exact Hname. }
    destruct (Hr _ _ Hin) as [Hd Hw].
    apply ReplaceBarrier_pass; assumption.
Qed.

(** X17. The lowering stage of [OptimizeModule], [LowerMemOps] and then the
    six calls of [ReplaceBarrier], twenty passes in all. On a well-formed
    module where each of the twenty intrinsics that is there is a
    declaration, called with its arguments (none of them a function), the
    stage completes; the module it returns is well formed and has no call
    left of any of the twenty intrinsics that the module had; no call of a
    function that was not called appears; and every function of another
    name is still there. *)
Theorem lowering_leaves_no_call (m : Module)
    (Hwf : wf m)
    (Hdecl : forall name, In name (mem_names ++ barrier_names) ->
                          declared name m)
    (Hreads : forall op, In op mem_read_ops -> well_called (fst op) 1 m)
    (Hwrites : forall op, In op mem_write_ops -> well_called (fst op) 2 m)
    (Hbarriers : forall name, In name barrier_names ->
                   well_called name kMemoryPointerArgNum m) :
  exists m',
    obind (LowerMemOps m) (LowerBarriers kMemoryPointerArgNum) = Done m' /\
    wf m' /\
    (forall name, In name (mem_names ++ barrier_names) ->
                  getFunction name m <> None -> no_calls name m') /\
    (forall name, no_calls name m -> no_calls name m') /\
    (forall name, ~ In name (mem_names ++ barrier_names) ->
                  getFunction name m <> None ->
                  getFunction name m' <> None).
Proof.
  assert (Hready : ready (mem_sig ++ barrier_sig) m).
  { split; [exact Hwf |]. intros n k Hin. apply in_app_or in Hin.
    destruct Hin as [Hin | Hin].
    - apply (ready_mem_sig m Hwf
               (fun name H => Hdecl name (in_or_app _ _ _ (or_introl H)))
               Hreads Hwrites).
      exact Hin.
    - unfold barrier_sig in Hin. apply in_map_iff in Hin.
      destruct Hin as (name & E & Hname). injection E as <- <-.
      split; [| apply Hbarriers; exact Hname].
      apply Hdecl. apply in_or_app. right. exact Hname. }
  destruct (in_order_lowers (mem_sig ++ barrier_sig)
              (mem_passes ++ barrier_passes) stage_passes_apart
              stage_passes_lower m Hready)
    as (M & Hrun & [HwfM _] & Hder & Hnone & Hpres).
  exists M. split; [rewrite <- lowering_in_order in Hrun; exact Hrun |].
  split; [exact HwfM |]. split; [| split].
  - intros name Hin. apply Hnone. apply stage_passes_names. exact Hin.
  - intros name. apply derived_no_calls. exact Hder.
  - intros name Hout. apply Hpres. intros Hin. apply Hout.
    apply stage_passes_names. exact Hin.
Qed.

End Stage.

End Passes.

(** *** Runs on sample modules *)

Module Inputs.

Local Open Scope string_scope.

(** A barrier, a read and a write, each on the memory of the one before. *)
Definition lowering_module : Module :=
  {| functions :=
       [ Sample.declare "__remill_barrier_load_load" Sample.MemoryPtr
           [Sample.MemoryPtr];
         Sample.declare "__remill_read_memory_64" Int64Ty
           [Sample.MemoryPtr; Int64Ty];
         Sample.declare "__remill_write_memory_64" Sample.MemoryPtr
           [Sample.MemoryPtr; Int64Ty; Int64Ty];
         Sample.define "sub_401000" Sample.MemoryPtr
           [Sample.MemoryPtr; Sample.StatePtr; Int64Ty]
           [ Sample.inst 0 Call Sample.MemoryPtr
               [VArg 0; Sample.fn "__remill_barrier_load_load"];
             Sample.inst 1 Call Int64Ty
               [VInst 0; VArg 2; Sample.fn "__remill_read_memory_64"];
             Sample.inst 2 Call Sample.MemoryPtr
               [VInst 0; VArg 2; VInst 1;
                Sample.fn "__remill_write_memory_64"];
             Sample.inst 3 Ret VoidTy [VInst 2] ] ];
     globals := [];
     next_id := 4 |}.

End Inputs.

Ltac each_name H :=
  simpl in H; repeat destruct H as [<- | H]; try destruct H.

Lemma LowerMemOps_leaves_no_call_witness :
  exists m',
    LowerMemOps Sample.cast_expression Sample.mem_module = Done m' /\
    wf m' /\
    (forall name, In name mem_names ->
                  getFunction name Sample.mem_module <> None ->
                  no_calls name m') /\
    (forall name, no_calls name Sample.mem_module -> no_calls name m') /\
    (forall name, ~ In name mem_names ->
                  getFunction name Sample.mem_module <> None ->
                  getFunction name m' <> None).
Proof.
  apply (LowerMemOps_leaves_no_call Sample.cast_expression
           Sample.mem_module).
  - apply wfb_wf. reflexivity.
  - intros name H. each_name H; apply declaredb_ok; reflexivity.
  - intros op H. each_name H; apply well_calledb_ok; reflexivity.
  - intros op H. each_name H; apply well_calledb_ok; reflexivity.
Defined.

Lemma lowering_leaves_no_call_witness :
  exists m',
    obind (LowerMemOps Sample.cast_expression Inputs.lowering_module)
      (LowerBarriers 0) = Done m' /\
    wf m' /\
    (forall name, In name (mem_names ++ barrier_names) ->
                  getFunction name Inputs.lowering_module <> None ->
                  no_calls name m') /\
    (forall name, no_calls name Inputs.lowering_module ->
                  no_calls name m') /\
    (forall name, ~ In name (mem_names ++ barrier_names) ->
                  getFunction name Inputs.lowering_module <> None ->
                  getFunction name m' <> None).
Proof.
  apply (lowering_leaves_no_call Sample.cast_expression 0
           Inputs.lowering_module).
  - apply wfb_wf. reflexivity.
  - intros name H. each_name H; apply declaredb_ok; reflexivity.
  - intros op H. each_name H; apply well_calledb_ok; reflexivity.
  - intros op H. each_name H; apply well_calledb_ok; reflexivity.
  - intros name H. each_name H; apply well_calledb_ok; reflexivity.
Defined.

(** The run itself: the barrier is gone, the read is a load and the write
    a store, both on the memory the function was given. *)
Example lowering_lowering_module :
  obind (LowerMemOps Sample.cast_expression Inputs.lowering_module)
    (LowerBarriers 0)
  = Done
      {| functions :=
           [ Sample.declare "__remill_barrier_load_load" Sample.MemoryPtr
               [Sample.MemoryPtr];
             Sample.define "sub_401000" Sample.MemoryPtr
               [Sample.MemoryPtr; Sample.StatePtr; Int64Ty]
               [ Sample.inst 4 (Cast IntToPtr) (PointerTy Int64Ty) [VArg 2];
                 Sample.inst 5 Load Int64Ty [VInst 4];
                 Sample.inst 6 (Cast IntToPtr) (PointerTy Int64Ty) [VArg 2];
                 Sample.inst 7 Store VoidTy [VInst 5; VInst 6];
                 Sample.inst 3 Ret VoidTy [VArg 0] ] ];
         globals := [];
         next_id := 8 |}.
Proof. reflexivity. Qed.

End OptimizerComposition.
